(** * flyer-menu: the flyer extraction pipeline, embedded and verified

    The development follows the TypeScript sources:
    - [app/lib/flyer.ts]                  item normalisation and the dedup key;
    - [app/api/flyer/extract-url/route.ts] allowlist, tile grids, compositing,
                                          tiling, the batch loop;
    - [app/api/flyer/extract/route.ts]     the same tiling and batch loop;
    - [app/api/flyer/resolve/route.ts]     size probes;
    - [app/api/flyer/discover/route.ts], [app/lib/flyerDiscover.ts]
                                          URL absolutisation.

    JavaScript strings are sequences of UTF-16 code units, numbers are
    IEEE doubles.  Strings are lists of code units; the doubles that occur
    are modelled by their exact rational value, with NaN and the two
    infinities as separate constructors. *)

From Stdlib Require Import List Bool Arith NArith ZArith QArith Qround Lia.
From Stdlib Require Import String Ascii.
Import ListNotations.

Close Scope Q_scope.

Set Implicit Arguments.
Set Warnings "-register-all,-abstract-large-number".

#[local] Arguments N.eqb : simpl never.
#[local] Arguments N.leb : simpl never.
#[local] Arguments N.ltb : simpl never.
#[local] Arguments N.add : simpl never.
#[local] Arguments N.mul : simpl never.
#[local] Arguments N.sub : simpl never.

(* ================================================================== *)
(** * JavaScript strings *)
(* ================================================================== *)

Module Js.

#[local] Open Scope N_scope.

(** A string is the list of its UTF-16 code units. *)
Definition jsstring := list N.

(** ASCII literals. *)
Definition str (s : string) : jsstring :=
  List.map N_of_ascii (list_ascii_of_string s).

Fixpoint eqb (a b : jsstring) : bool :=
  match a, b with
  | [], [] => true
  | x :: a', y :: b' => N.eqb x y && eqb a' b'
  | _, _ => false
  end.

(** [s.startsWith(p)] *)
Fixpoint startsWith (s p : jsstring) {struct p} : bool :=
  match p, s with
  | [], _ => true
  | y :: p', x :: s' => N.eqb x y && startsWith s' p'
  | _ :: _, [] => false
  end.

(** The rest of [s] after the prefix [p], when [s] starts with [p]. *)
Fixpoint stripPrefix (p s : jsstring) {struct p} : option jsstring :=
  match p, s with
  | [], _ => Some s
  | y :: p', x :: s' => if N.eqb x y then stripPrefix p' s' else None
  | _ :: _, [] => None
  end.

(** [s.endsWith(p)] *)
Definition endsWith (s p : jsstring) : bool := startsWith (rev s) (rev p).

(** [s.includes(p)] *)
Fixpoint includes (s p : jsstring) : bool :=
  startsWith s p ||
  match s with
  | [] => false
  | _ :: s' => includes s' p
  end.

(** White space and line terminators of ECMAScript: what [trim] strips and
    what the regular-expression class [\s] matches. *)
Definition isSpace (c : N) : bool :=
  ((9 <=? c) && (c <=? 13)) || (c =? 32) || (c =? 160) || (c =? 5760)
  || ((8192 <=? c) && (c <=? 8202)) || (c =? 8232) || (c =? 8233)
  || (c =? 8239) || (c =? 8287) || (c =? 12288) || (c =? 65279).

Fixpoint trimStart (s : jsstring) : jsstring :=
  match s with
  | c :: s' => if isSpace c then trimStart s' else s
  | [] => []
  end.

Definition trimEnd (s : jsstring) : jsstring := rev (trimStart (rev s)).

(** [s.trim()] *)
Definition trim (s : jsstring) : jsstring := trimEnd (trimStart s).

(** [\d] *)
Definition isDigit (c : N) : bool := (48 <=? c) && (c <=? 57).

(** Longest prefix whose units satisfy [p], and the rest. *)
Fixpoint span (p : N -> bool) (s : jsstring) : jsstring * jsstring :=
  match s with
  | c :: s' => if p c then let (a, b) := span p s' in (c :: a, b) else ([], s)
  | [] => ([], [])
  end.

(** ASCII lower-casing of one unit, as the [i] flag of a regular expression
    without the [u] flag compares ASCII letters. *)
Definition asciiLower (c : N) : N :=
  if (65 <=? c) && (c <=? 90) then c + 32 else c.

End Js.

Import Js.

(* ================================================================== *)
(** * JavaScript numbers *)
(* ================================================================== *)

Module Num.

(** A double is NaN, an infinity, or a finite rational value. *)
Inductive number :=
| NaN
| Infinity (negative : bool)
| Finite (q : Q).

(** [Number.isFinite(x)] *)
Definition isFinite (x : number) : bool :=
  match x with Finite _ => true | _ => false end.

(** [x <= 0] *)
Definition leZero (x : number) : bool :=
  match x with
  | NaN => false
  | Infinity neg => neg
  | Finite q => Qle_bool q 0%Q
  end.

(** Value of a run of decimal digits, most significant first. *)
Definition digitsValue (ds : jsstring) : N :=
  fold_left (fun acc c => (10 * acc + (c - 48))%N) ds 0%N.

(** Rounding of a non-negative integer to the nearest double, ties to even;
    [None] is +Infinity.  Integers below 2^53 are exact. *)
Definition roundDouble (n : N) : option N :=
  let bits := N.size n in
  if (bits <=? 53)%N then Some n
  else
    let e := (bits - 53)%N in
    let q := N.shiftr n e in
    let r := N.land n (N.ones e) in
    let half := N.shiftl 1 (e - 1) in
    let q' := if (half <? r)%N || ((r =? half)%N && N.odd q) then (q + 1)%N else q in
    let v := N.shiftl q' e in
    if (v <? 2 ^ 1024)%N then Some v else None.

Definition ofN (n : N) : number := Finite (inject_Z (Z.of_N n)).

(** [Number(ds)] for a non-empty run of decimal digits [ds] is a
    non-negative whole number or +Infinity; [None] stands for +Infinity. *)
Definition digitsNumber (ds : jsstring) : option N := roundDouble (digitsValue ds).

Definition ofDigits (ds : jsstring) : number :=
  match digitsNumber ds with
  | Some v => ofN v
  | None => Infinity false
  end.

(** [x + 1] on a whole number held by a double. *)
Definition succDouble (n : N) : option N := roundDouble (n + 1).

(** The value is a whole number. *)
Definition isInteger (x : number) : Prop :=
  match x with
  | Finite q => exists z : Z, (q == inject_Z z)%Q
  | _ => False
  end.

(** [n >= x] for the length [n] of an array: never for NaN. *)
Definition lengthReaches (n : nat) (x : number) : bool :=
  match x with
  | NaN => false
  | Infinity negative => negative
  | Finite q => Qle_bool q (inject_Z (Z.of_nat n))
  end.

(** The length of an array as a number. *)
Definition ofNat (n : nat) : number := Finite (inject_Z (Z.of_nat n)).

(** [q] is the value of a finite double: a whole number of at most 53 bits
    times a power of two, or divided by a power of two. *)
Definition isDouble (q : Q) : Prop :=
  exists m k : Z,
    (Z.abs m < 2 ^ 53)%Z
    /\ (((0 <= k <= 971)%Z /\ (q == inject_Z (m * 2 ^ k))%Q)
        \/ ((0 <= k <= 1074)%Z /\ (q * inject_Z (2 ^ k) == inject_Z m)%Q)).

End Num.

Import Num.

(* ================================================================== *)
(** * Decimal rendering of array indices and other small integers *)
(* ================================================================== *)

Module Dec.

#[local] Open Scope N_scope.

Fixpoint decFuel (fuel : nat) (n : N) (acc : jsstring) : jsstring :=
  match fuel with
  | O => acc
  | S f =>
      let acc' := (48 + n mod 10) :: acc in
      if n <? 10 then acc' else decFuel f (n / 10) acc'
  end.

(** The decimal digits of [n]: what a template literal prints for an
    integer that a double holds exactly. *)
Definition dec (n : N) : jsstring := decFuel (S (N.size_nat n)) n [].

End Dec.

Import Dec.

(* ================================================================== *)
(** * Platform services the sources rely on *)
(* ================================================================== *)

(** [Number.prototype.toString], as a template literal applies it.  The
    shortest-round-trip printing of an arbitrary double is a service of the
    engine; the functions below take it as given. *)
Class NumberPrinter := numberToString : number -> jsstring.

(** A printer for the examples: the decimal digits of a whole number, and
    the digits of a short terminating decimal fraction.  It agrees with the
    engine on integers that a double holds exactly (below 2^53) and on
    fractions such as [12.5]. *)
Fixpoint fractionDigits (fuel : nat) (r den : N) : jsstring :=
  match fuel with
  | O => []
  | S f =>
      if (r =? 0)%N then []
      else ((48 + (10 * r) / den) :: fractionDigits f ((10 * r) mod den) den)%N
  end.

Definition referencePrinter : NumberPrinter := fun x =>
  match x with
  | NaN => str "NaN"
  | Infinity false => str "Infinity"
  | Infinity true => str "-Infinity"
  | Finite q =>
      let n := Z.abs_N (Qnum q) in
      let d := Npos (Qden q) in
      let sign := if (Qnum q <? 0)%Z then str "-" else [] in
      let frac := fractionDigits 17 (n mod d)%N d in
      sign ++ dec (n / d)%N ++ match frac with [] => [] | _ => str "." ++ frac end
  end.

(** Subtraction of doubles, [x - y], is the engine's: the difference,
    rounded to the nearest double. *)
Class DoubleArith := minus : number -> number -> number.

(** What is assumed of it: NaN and the infinities absorb a finite operand,
    and the difference of two doubles is exact when it is a double. *)
Class DoubleLaws (D : DoubleArith) : Prop := {
  minus_NaN : forall y, minus NaN y = NaN;
  minus_Infinity : forall negative q,
    minus (Infinity negative) (Finite q) = Infinity negative;
  minus_exact : forall a b,
    Num.isDouble a -> Num.isDouble b -> Num.isDouble (a - b) ->
    exists r, minus (Finite a) (Finite b) = Finite r /\ (r == a - b)%Q
}.

(** The subtraction of the examples: exact on finite values.  It agrees
    with the engine wherever the difference is a double. *)
Definition referenceArith : DoubleArith := fun x y =>
  match x, y with
  | NaN, _ => NaN
  | _, NaN => NaN
  | Infinity a, Infinity b => if Bool.eqb a b then NaN else Infinity a
  | Infinity a, Finite _ => Infinity a
  | Finite _, Infinity b => Infinity (negb b)
  | Finite a, Finite b => Finite (a - b)
  end.

(** The WHATWG [URL] class, as far as the sources use it.  [parseUrl s] is
    [new URL(s)] and [resolveUrl s base] is [new URL(s, base)]; [None] means
    that the constructor throws.  [href] is [toString()], [setPathname] the
    assignment [u.pathname = p], [searchHas] and [searchSet] are
    [u.searchParams.has] and [u.searchParams.set]. *)
Class UrlApi := {
  URL : Type;
  parseUrl : jsstring -> option URL;
  resolveUrl : jsstring -> jsstring -> option URL;
  protocol : URL -> jsstring;
  hostname : URL -> jsstring;
  pathname : URL -> jsstring;
  origin : URL -> jsstring;
  href : URL -> jsstring;
  setPathname : URL -> jsstring -> URL;
  searchHas : URL -> jsstring -> bool;
  searchSet : URL -> jsstring -> jsstring -> URL
}.

(** Characters a path segment can hold without being escaped or read as a
    dot segment: ASCII letters and digits, [=], [-] and [_]. *)
Definition isSegmentSafe (c : N) : bool :=
  (((48 <=? c) && (c <=? 57)) || ((65 <=? c) && (c <=? 90))
   || ((97 <=? c) && (c <=? 122)) || (c =? 61) || (c =? 45) || (c =? 95))%N.

Definition noSlash (s : jsstring) : bool := forallb (fun c => negb (c =? 47)%N) s.

(** Guarantees of the URL Standard that the rewriting of paths relies on:
    a serialised URL parses back to the same URL; assigning to [pathname]
    leaves the host alone; assigning the current path changes nothing; and
    replacing one whole segment of the path by a safe segment yields exactly
    the path that was assigned. *)
Class UrlLaws (U : UrlApi) : Prop := {
  parse_href : forall s u, parseUrl s = Some u -> parseUrl (href u) = Some u;
  resolve_href : forall s base u,
    resolveUrl s base = Some u -> parseUrl (href u) = Some u;
  hostname_setPathname : forall u p, hostname (setPathname u p) = hostname u;
  setPathname_same : forall s u,
    parseUrl s = Some u -> setPathname u (pathname u) = u;
  setPathname_segment : forall s u a x b seg,
    parseUrl s = Some u ->
    pathname u = a ++ str "/" ++ x ++ str "/" ++ b ->
    x <> [] -> noSlash x = true ->
    seg <> [] -> forallb isSegmentSafe seg = true ->
    let u' := setPathname u (a ++ str "/" ++ seg ++ str "/" ++ b) in
    pathname u' = a ++ str "/" ++ seg ++ str "/" ++ b
    /\ parseUrl (href u') = Some u'
}.

(** [String.prototype.toLowerCase] is a service of the engine: the
    lower-casing of the Unicode Standard, which looks at the neighbours of a
    Greek capital sigma and maps some characters to more than one unit.
    The functions below take it as given. *)
Class CaseApi := toLowerCase : jsstring -> jsstring.

(** The lower-case form of one code unit, for the scripts whose case
    mapping is one-to-one and does not look at the neighbours: Basic Latin,
    Latin-1 Supplement, Cyrillic and the full-width Latin letters.  Other
    units are left as they are. *)
Definition lowerUnit (c : N) : N :=
  if ((65 <=? c) && (c <=? 90))%N then (c + 32)%N
  else if ((192 <=? c) && (c <=? 222) && negb (c =? 215))%N then (c + 32)%N
  else if ((1024 <=? c) && (c <=? 1039))%N then (c + 80)%N
  else if ((1040 <=? c) && (c <=? 1071))%N then (c + 32)%N
  else if ((65313 <=? c) && (c <=? 65338))%N then (c + 32)%N
  else c.

(** The units that [lowerUnit] maps as the engine does wherever they stand:
    Basic Latin and Latin-1 Supplement (up to U+00FF), Cyrillic from U+0400
    to U+045F, the Ogham space mark U+1680, General Punctuation (U+2000 to
    U+206F), CJK Symbols and Punctuation, Hiragana and Katakana (U+3000 to
    U+30FF), the CJK Unified Ideographs (U+4E00 to U+9FFF), the half-width
    and full-width forms (U+FF00 to U+FFEF) and U+FEFF. *)
Definition isPlainUnit (c : N) : bool :=
  ((c <=? 255) || ((1024 <=? c) && (c <=? 1119)) || (c =? 5760)
   || ((8192 <=? c) && (c <=? 8303)) || ((12288 <=? c) && (c <=? 12543))
   || ((19968 <=? c) && (c <=? 40959)) || ((65280 <=? c) && (c <=? 65519))
   || (c =? 65279))%N.

(** What is assumed of the engine: text of such units is lower-cased unit
    by unit. *)
Class CaseLaws (C : CaseApi) : Prop := {
  toLowerCase_plain : forall s,
    forallb isPlainUnit s = true -> toLowerCase s = List.map lowerUnit s
}.

(** The lower-casing of the examples: unit by unit on every text.  It
    agrees with the engine on text of plain units. *)
Definition referenceCase : CaseApi := List.map lowerUnit.

(* ================================================================== *)
(** * [Map] with string keys *)
(* ================================================================== *)

Module JsMap.

Section WithValue.

Variable V : Type.

(** A [Map<string, V>] keeps its entries in the order in which the keys
    were first set; setting a key that is present replaces the value in
    place. *)
Definition t := list (jsstring * V).

Definition empty : t := [].

Fixpoint set (m : t) (k : jsstring) (v : V) : t :=
  match m with
  | [] => [(k, v)]
  | (k', v') :: m' =>
      if Js.eqb k' k then (k', v) :: m' else (k', v') :: set m' k v
  end.

Fixpoint get (m : t) (k : jsstring) : option V :=
  match m with
  | [] => None
  | (k', v') :: m' => if Js.eqb k' k then Some v' else get m' k
  end.

(** [Array.from(m.values())] *)
Definition values (m : t) : list V := List.map snd m.

(** [Array.from(m.keys())] *)
Definition keys (m : t) : list jsstring := List.map fst m.

End WithValue.

End JsMap.

(* ================================================================== *)
(** * app/lib/flyer.ts *)
(* ================================================================== *)

Module Flyer.

(** Values the model's JSON answer can hold ([raw: any]). *)
Inductive json :=
| JNull
| JBool (b : bool)
| JNum (x : number)
| JStr (s : jsstring)
| JArr (xs : list json)
| JObj (fields : list (jsstring * json)).

(** Property read [raw.k]; [None] is [undefined].  An object lists each of
    its own properties once. *)
Fixpoint getField (fields : list (jsstring * json)) (k : jsstring) : option json :=
  match fields with
  | [] => None
  | (k', v) :: rest => if Js.eqb k' k then Some v else getField rest k
  end.

(** [a ?? b] on property reads: [null] and [undefined] fall through. *)
Definition nullish (a b : option json) : option json :=
  match a with
  | None | Some JNull => b
  | Some _ => a
  end.

Record FlyerItem := {
  category : jsstring;
  name : jsstring;
  priceYen : number;
  unit : option jsstring;
  notes : option jsstring
}.

(** The first match of [/\d+/]. *)
Fixpoint firstDigitRun (s : jsstring) : option jsstring :=
  match s with
  | [] => None
  | c :: s' => if isDigit c then Some (fst (span isDigit s)) else firstDigitRun s'
  end.

(** [v.replace(/,/g, '')] *)
Definition stripCommas (s : jsstring) : jsstring :=
  filter (fun c => negb (c =? 44)%N) s.

Definition toNumberPrice (v : option json) : number :=
  match v with
  | Some (JNum x) => x
  | Some (JStr s) =>
      match firstDigitRun (stripCommas s) with
      | Some m => Num.ofDigits m
      | None => NaN
      end
  | _ => NaN
  end.

(** [typeof raw.k === 'string' ? raw.k.trim() : ''] *)
Definition trimmedString (v : option json) : jsstring :=
  match v with
  | Some (JStr s) => trim s
  | _ => []
  end.

(** [typeof raw.k === 'string' && raw.k.trim() ? raw.k.trim() : undefined] *)
Definition optionalString (v : option json) : option jsstring :=
  match trimmedString v with
  | [] => None
  | s => Some s
  end.

(** The sentinel category, U+305D U+306E U+4ED6. *)
Definition otherCategory : jsstring := [12381; 12398; 20182]%N.

(** The own properties visible through [raw.k] when [raw] is truthy and
    [typeof raw === 'object']; the reads below find nothing on an array. *)
Definition objectFields (raw : json) : option (list (jsstring * json)) :=
  match raw with
  | JObj fs => Some fs
  | JArr _ => Some []
  | _ => None
  end.

(** [raw.priceYen ?? raw.price ?? raw.price_yen] *)
Definition priceField (fs : list (jsstring * json)) : option json :=
  nullish (nullish (getField fs (str "priceYen")) (getField fs (str "price")))
          (getField fs (str "price_yen")).

Definition normalizeFlyerItem (raw : json) : option FlyerItem :=
  match objectFields raw with
  | None => None
  | Some fs =>
      let name := trimmedString (getField fs (str "name")) in
      match name with
      | [] => None
      | _ =>
          let category :=
            match optionalString (getField fs (str "category")) with
            | Some c => c
            | None => otherCategory
            end in
          let unit := optionalString (getField fs (str "unit")) in
          let notes := optionalString (getField fs (str "notes")) in
          let priceYen := toNumberPrice (priceField fs) in
          if negb (Num.isFinite priceYen) || Num.leZero priceYen then None
          else Some {| category := category; name := name; priceYen := priceYen;
                       unit := unit; notes := notes |}
      end
  end.

(** The class [[（）()\[\]【】「」『』・,，.．。:：/／]] of [makeDedupKey]. *)
Definition isKeyPunct (c : N) : bool :=
  existsb (N.eqb c)
    [65288; 65289; 40; 41; 91; 93; 12304; 12305; 12300; 12301; 12302; 12303;
     12539; 44; 65292; 46; 65294; 12290; 58; 65306; 47; 65295]%N.

(** The local [norm] of [makeDedupKey]. *)
Definition norm `{CaseApi} (s : jsstring) : jsstring :=
  filter (fun c => negb (isKeyPunct c))
    (filter (fun c => negb (isSpace c)) (toLowerCase s)).

Definition makeDedupKey `{CaseApi} `{NumberPrinter} (it : FlyerItem) : jsstring :=
  norm (name it) ++ str "|" ++ numberToString (priceYen it) ++ str "|"
  ++ norm (match unit it with Some u => u | None => [] end).


Definition unitText (it : FlyerItem) : jsstring :=
  match unit it with Some u => u | None => [] end.

(** [a] and [b] differ only by letter case, by white space and by the
    punctuation that [makeDedupKey] deletes. *)
Inductive sameModuloLayout : jsstring -> jsstring -> Prop :=
| sml_nil : sameModuloLayout [] []
| sml_case c d a b :
    lowerUnit c = lowerUnit d -> sameModuloLayout a b ->
    sameModuloLayout (c :: a) (d :: b)
| sml_skip_left c a b :
    isSpace c = true \/ isKeyPunct c = true -> sameModuloLayout a b ->
    sameModuloLayout (c :: a) b
| sml_skip_right c a b :
    isSpace c = true \/ isKeyPunct c = true -> sameModuloLayout a b ->
    sameModuloLayout a (c :: b).

(** Step 4 of both [POST] handlers: [map.set(makeDedupKey(it), it)] for
    every accumulated item, then [Array.from(map.values())]. *)
Definition dedupMap `{CaseApi} `{NumberPrinter} (allItems : list FlyerItem) : JsMap.t FlyerItem :=
  fold_left (fun m it => JsMap.set m (makeDedupKey it) it) allItems (JsMap.empty _).

Definition dedupItems `{CaseApi} `{NumberPrinter} (allItems : list FlyerItem) : list FlyerItem :=
  JsMap.values (dedupMap allItems).

(** Sample inputs. *)

(** The price text [1,280] U+5186 [(] U+7A0E U+8FBC [)]. *)
Definition yen1280 : jsstring :=
  (str "1,280" ++ [20870] ++ str "(" ++ [31246; 36796] ++ str ")")%N.

Definition rawMilk : json :=
  JObj [(str "name", JStr (str " Milk 1L ")); (str "priceYen", JStr yen1280)].

(** A price the model answers as the JSON number [12.5]. *)
Definition rawHalfYen : json :=
  JObj [(str "name", JStr (str "Milk")); (str "priceYen", JNum (Finite (25 # 2)%Q))].

(** A price answered as the text [-5]. *)
Definition rawMinusFive : json :=
  JObj [(str "name", JStr (str "Milk")); (str "priceYen", JStr (str "-5"))].

(** Two extractions of one product: the names differ by case, by a space
    and by full-width brackets, the notes differ. *)
Definition milkFirst : FlyerItem :=
  {| category := str "dairy";
     name := (str "Milk " ++ [65288] ++ str "1L" ++ [65289])%N;
     priceYen := Num.ofN 198; unit := Some (str "1 Pack"); notes := Some (str "first") |}.

Definition milkSecond : FlyerItem :=
  {| category := otherCategory; name := str "milk1l";
     priceYen := Num.ofN 198; unit := Some (str "1pack"); notes := None |}.

Definition eggs : FlyerItem :=
  {| category := otherCategory; name := str "eggs";
     priceYen := Num.ofN 250; unit := None; notes := None |}.

(** Two extractions of one product whose names differ by a full-width
    exclamation mark: U+8089 U+FF01 and U+8089. *)
Definition meatLoud : FlyerItem :=
  {| category := otherCategory; name := [32905; 65281]%N;
     priceYen := Num.ofN 398; unit := None; notes := None |}.

Definition meatPlain : FlyerItem :=
  {| category := otherCategory; name := [32905]%N;
     priceYen := Num.ofN 398; unit := None; notes := None |}.

End Flyer.

Import Flyer.

(* ================================================================== *)
(** * Tiling of a page bitmap ([tileImagePng], both extract routes) *)
(* ================================================================== *)

Module Tiling.

#[local] Open Scope Z_scope.

(** The argument of [sharp(png).extract]: the rectangle of the page that a
    tile's buffer holds.  Decoding and re-encoding of pixels is the imaging
    library's business; a tile is identified by its rectangle. *)
Record region := { left : Z; top : Z; width : Z; height : Z }.

Record Tile := { buf : region; pageIndex : nat; tileIndexInPage : nat }.

(** A loop body either falls through to the next iteration or returns from
    the function. *)
Inductive flow (A : Type) :=
| Continue (a : A)
| Return (a : A).

Arguments Continue {A} a.
Arguments Return {A} a.

Section TileImagePng.

(** [w] and [h] are [meta.width ?? 0] and [meta.height ?? 0].  The budget
    is a whole number here; [Pages.tileImagePng] takes it as the double
    that the handlers pass. *)
Variables (w h : Z) (pageIndex0 : nat) (tileSize overlap maxTilesTotal : Z).

Definition step : Z := Z.max 1 (tileSize - overlap).

(** [for (let left = 0; left < w; left += step) { ... }] for one [top].
    The state is [(tiles, tileIndexInPage)].  As [step >= 1] the loop runs
    at most [w] times, which is the fuel [tileImagePng] supplies. *)
Fixpoint leftLoop (fuel : nat) (top0 left0 : Z) (st : list Tile * nat)
  : flow (list Tile * nat) :=
  match fuel with
  | O => Continue st
  | S fuel' =>
      if left0 <? w then
        let width0 := Z.min tileSize (w - left0) in
        let height0 := Z.min tileSize (h - top0) in
        let tiles :=
          fst st ++ [{| buf := {| left := left0; top := top0;
                                  width := width0; height := height0 |};
                        pageIndex := pageIndex0;
                        tileIndexInPage := snd st |}] in
        let st' := (tiles, S (snd st)) in
        if maxTilesTotal <=? Z.of_nat (List.length tiles) then Return st'
        else leftLoop fuel' top0 (left0 + step) st'
      else Continue st
  end.

(** [for (let top = 0; top < h; top += step) { ... }] *)
Fixpoint topLoop (fuel : nat) (top0 : Z) (st : list Tile * nat) : list Tile :=
  match fuel with
  | O => fst st
  | S fuel' =>
      if top0 <? h then
        match leftLoop (Z.to_nat w) top0 0 st with
        | Return st' => fst st'
        | Continue st' => topLoop fuel' (top0 + step) st'
        end
      else fst st
  end.

Definition tileImagePng : list Tile :=
  if (w =? 0) || (h =? 0) then []
  else topLoop (Z.to_nat h) 0 ([], O).

(** The grid the loops walk: tile [(r, c)] has its origin at
    [(c * step, r * step)] and is clipped at the right and bottom edges. *)
Definition cols : nat := Z.to_nat ((w + step - 1) / step).
Definition rows : nat := Z.to_nat ((h + step - 1) / step).

Definition gridTile (top0 : Z) (idx0 : nat) (c : nat) : Tile :=
  {| buf := {| left := Z.of_nat c * step; top := top0;
               width := Z.min tileSize (w - Z.of_nat c * step);
               height := Z.min tileSize (h - top0) |};
     pageIndex := pageIndex0;
     tileIndexInPage := idx0 + c |}.

Definition gridRow (r : nat) : list Tile :=
  List.map (gridTile (Z.of_nat r * step) (r * cols)) (seq 0 cols).

(** All tiles of the page in row-major order. *)
Definition gridTiles : list Tile := flat_map gridRow (seq 0 rows).

End TileImagePng.

End Tiling.

(* ================================================================== *)
(** * The batch loop over tiles (step 3 of both [POST] handlers) *)
(* ================================================================== *)

Module Batch.

(** What one [await callGeminiForTile(...)] does in a run: it returns the
    raw items of the answer, or it throws (transport error, capability
    error, unparseable answer); [message] is [String(e?.message ?? e)]. *)
Inductive tileOutcome :=
| Returned (itemsRaw : list json)
| Threw (message : jsstring).

Inductive extractMode := All | Ingredients.

(** The vision capability, as far as a run of the loop sees it: called with
    the tile, its 1-based global index, the tile count and the mode. *)
Definition capability := Tiling.Tile -> nat -> nat -> extractMode -> tileOutcome.

Record loopState := { allItems : list FlyerItem; warnings : list jsstring }.

(** [for (const r of itemsRaw) { const it = normalizeFlyerItem(r); if (it) allItems.push(it); }] *)
Fixpoint pushNormalized (acc : list FlyerItem) (itemsRaw : list json) : list FlyerItem :=
  match itemsRaw with
  | [] => acc
  | r :: rest =>
      match normalizeFlyerItem r with
      | Some it => pushNormalized (acc ++ [it]) rest
      | None => pushNormalized acc rest
      end
  end.

(** The text pushed by the [catch] branch for the tile at 0-based position
    [i] of [n] tiles. *)
Definition tileWarning (i n : nat) (message : jsstring) : jsstring :=
  str "JSON parse failed (tile " ++ dec (N.of_nat (i + 1)) ++ str "/"
  ++ dec (N.of_nat n) ++ str "). raw head: " ++ firstn 200 message.

Section Loop.

Variables (callGeminiForTile : capability) (mode : extractMode).

(** [for (let i = 0; i < tiles.length; i++) { try { ... } catch (e) { ... } }],
    from position [i] on; [n] is [tiles.length]. *)
Fixpoint tileLoop (n i : nat) (tiles : list Tiling.Tile) (st : loopState) : loopState :=
  match tiles with
  | [] => st
  | t :: rest =>
      let st' :=
        match callGeminiForTile t (i + 1) n mode with
        | Returned itemsRaw =>
            {| allItems := pushNormalized (allItems st) itemsRaw;
               warnings := warnings st |}
        | Threw message =>
            {| allItems := allItems st;
               warnings := warnings st ++ [tileWarning i n message] |}
        end in
      tileLoop n (S i) rest st'
  end.

(** What the tiles from position [i] on contribute: the normalised items of
    the tiles whose call returned, and one warning per tile whose call
    threw. *)
Definition normalizedItems (itemsRaw : list json) : list FlyerItem :=
  flat_map (fun r => match normalizeFlyerItem r with Some it => [it] | None => [] end)
           itemsRaw.

Fixpoint itemsFrom (n i : nat) (tiles : list Tiling.Tile) : list FlyerItem :=
  match tiles with
  | [] => []
  | t :: rest =>
      match callGeminiForTile t (i + 1) n mode with
      | Returned itemsRaw => normalizedItems itemsRaw
      | Threw _ => []
      end ++ itemsFrom n (S i) rest
  end.

Fixpoint warningsFrom (n i : nat) (tiles : list Tiling.Tile) : list jsstring :=
  match tiles with
  | [] => []
  | t :: rest =>
      match callGeminiForTile t (i + 1) n mode with
      | Returned _ => []
      | Threw message => [tileWarning i n message]
      end ++ warningsFrom n (S i) rest
  end.

Definition runTiles (tiles : list Tiling.Tile) (warnings0 : list jsstring) : loopState :=
  tileLoop (List.length tiles) 0 tiles {| allItems := []; warnings := warnings0 |}.

(** Steps 3 and 4 of [POST]: the loop, the dedup map, and for the
    ingredient mode of the extract-url route the cut to 30 items. *)
Definition limitItems (items : list FlyerItem) : list FlyerItem :=
  match mode with
  | Ingredients => firstn 30 items
  | All => items
  end.

End Loop.

(** A warning that names tile [k] (1-based) of [n]. *)
Definition namesTile (k n : nat) (warning : jsstring) : bool :=
  startsWith warning
    (str "JSON parse failed (tile " ++ dec (N.of_nat k) ++ str "/"
     ++ dec (N.of_nat n) ++ str ")").

(** How many of the warnings name tile [k] of [n]. *)
Definition countNaming (k n : nat) (ws : list jsstring) : nat :=
  List.length (filter (namesTile k n) ws).

(** Sample run: five tiles of one page; the call for the third tile throws,
    every other call answers one item named after its tile. *)
Definition sampleTiles : list Tiling.Tile :=
  firstn 5 (Tiling.tileImagePng 2000 1500 0 1024 96 200).

Definition sampleItem (i : nat) : json :=
  JObj [(str "name", JStr (str "item " ++ dec (N.of_nat i)));
        (str "priceYen", JNum (Num.ofN (100 * N.of_nat i)))].

Definition sampleCapability : capability := fun _ i _ _ =>
  if Nat.eqb i 3 then Threw (str "503 Service Unavailable")
  else Returned [sampleItem i].

(** A run that fills the answer of the ingredient mode with the first
    tile: the first call answers thirty items, the third call throws, every
    other call answers one item named after its tile. *)
Definition crowdedCapability : capability := fun _ i _ _ =>
  if Nat.eqb i 1 then Returned (List.map sampleItem (seq 101 30))
  else if Nat.eqb i 3 then Threw (str "503 Service Unavailable")
  else Returned [sampleItem i].

End Batch.

(* ================================================================== *)
(** * A reference instance of the URL class *)
(* ================================================================== *)

(** The instance used by the worked examples.  It covers URLs of the shape
    [scheme://host[:port][/path][?query][#fragment]] with an ASCII host and
    no credentials, lower-cases scheme and host, drops a default port and
    turns an empty path into [/].  It performs no percent-encoding and no
    removal of dot segments, so it agrees with the URL Standard on URLs
    that need neither.  The theorems below hold for every instance. *)
Module RefUrl.

#[local] Open Scope N_scope.

Record url := {
  scheme : jsstring;             (* lower case, without the colon *)
  host : jsstring;
  port : option N;
  path : jsstring;               (* begins with a slash *)
  query : option jsstring;       (* without the question mark *)
  fragment : option jsstring     (* without the hash *)
}.

Definition isAlpha (c : N) : bool :=
  ((65 <=? c) && (c <=? 90)) || ((97 <=? c) && (c <=? 122)).

Definition isSchemeChar (c : N) : bool :=
  isAlpha c || isDigit c || (c =? 43) || (c =? 45) || (c =? 46).

Definition isLowerSchemeChar (c : N) : bool :=
  ((97 <=? c) && (c <=? 122)) || isDigit c || (c =? 43) || (c =? 45) || (c =? 46).

(** Host code points accepted: printable ASCII other than the forbidden
    host code points of the standard. *)
Definition isHostChar (c : N) : bool :=
  (33 <=? c) && (c <=? 126)
  && negb (existsb (N.eqb c) [35; 37; 47; 58; 60; 62; 63; 64; 91; 92; 93; 94; 124]).

Definition isLowerHostChar (c : N) : bool :=
  isHostChar c && negb ((65 <=? c) && (c <=? 90)).

Definition defaultPort (sch : jsstring) : option N :=
  if Js.eqb sch (str "http") || Js.eqb sch (str "ws") then Some 80
  else if Js.eqb sch (str "https") || Js.eqb sch (str "wss") then Some 443
  else if Js.eqb sch (str "ftp") then Some 21
  else None.

Definition isSpecial (sch : jsstring) : bool :=
  match defaultPort sch with Some _ => true | None => false end.

Definition notColon (c : N) : bool := negb (c =? 58).
Definition notDelim (c : N) : bool := negb ((c =? 47) || (c =? 63) || (c =? 35)).
Definition notQueryHash (c : N) : bool := negb ((c =? 63) || (c =? 35)).
Definition notHash (c : N) : bool := negb (c =? 35).

(** The port part of an authority: empty, or a colon and digits. *)
Definition parsePort (sch prt : jsstring) : option (option N) :=
  match prt with
  | [] => Some None
  | _ :: ds =>
      if forallb isDigit ds then
        match ds with
        | [] => Some None
        | _ =>
            let n := Num.digitsValue ds in
            if 65535 <? n then None
            else if match defaultPort sch with Some d => n =? d | None => false end
            then Some None
            else Some (Some n)
        end
      else None
  end.

(** Path, query and fragment of what follows the authority. *)
Definition parseTail (tail : jsstring) : jsstring * option jsstring * option jsstring :=
  let (p, tail2) := span notQueryHash tail in
  let p' := match p with [] => str "/" | _ => p end in
  match stripPrefix (str "?") tail2 with
  | Some rest =>
      let (q, tail3) := span notHash rest in
      (p', Some q, stripPrefix (str "#") tail3)
  | None => (p', None, stripPrefix (str "#") tail2)
  end.

Definition parse (s : jsstring) : option url :=
  let (sch, rest) := span notColon s in
  match sch, stripPrefix (str "://") rest with
  | c :: _, Some after =>
      if isAlpha c && forallb isSchemeChar sch then
        let sch' := List.map asciiLower sch in
        let (auth, tail) := span notDelim after in
        let (h, prt) := span notColon auth in
        let h' := List.map asciiLower h in
        match h' with
        | [] => None
        | _ =>
            if forallb isHostChar h' then
              match parsePort sch' prt with
              | Some p =>
                  let '(pth, q, f) := parseTail tail in
                  Some {| scheme := sch'; host := h'; port := p; path := pth;
                          query := q; fragment := f |}
              | None => None
              end
            else None
        end
      else None
  | _, _ => None
  end.

(** The records that [parse] produces and [serialize] reads back. *)
Definition wellFormed (u : url) : bool :=
  match scheme u with
  | c :: _ => isAlpha c && forallb isLowerSchemeChar (scheme u)
  | [] => false
  end
  && negb (Js.eqb (host u) []) && forallb isLowerHostChar (host u)
  && match port u with
     | None => true
     | Some n =>
         (n <=? 65535)
         && negb (match defaultPort (scheme u) with Some d => n =? d | None => false end)
     end
  && startsWith (path u) (str "/") && forallb notQueryHash (path u)
  && match query u with Some q => forallb notHash q | None => true end.

Definition portText (u : url) : jsstring :=
  match port u with Some n => str ":" ++ dec n | None => [] end.

Definition queryText (u : url) : jsstring :=
  match query u with Some q => str "?" ++ q | None => [] end.

Definition fragmentText (u : url) : jsstring :=
  match fragment u with Some f => str "#" ++ f | None => [] end.

Definition authority (u : url) : jsstring :=
  scheme u ++ str "://" ++ host u ++ portText u.

Definition serialize (u : url) : jsstring :=
  authority u ++ path u ++ queryText u ++ fragmentText u.

Definition originOf (u : url) : jsstring :=
  if isSpecial (scheme u) then authority u else str "null".

(** The path setter: a leading slash is supplied, [?] and [#] are escaped. *)
Definition escapePath (p : jsstring) : jsstring :=
  flat_map (fun c => if c =? 63 then str "%3F" else if c =? 35 then str "%23" else [c]) p.

Definition assignPath (u : url) (p : jsstring) : url :=
  let p' := escapePath p in
  let p'' := if startsWith p' (str "/") then p' else str "/" ++ p' in
  {| scheme := scheme u; host := host u; port := port u; path := p'';
     query := query u; fragment := fragment u |}.

(** Query parameters: [name=value] pairs separated by [&]. *)
Fixpoint splitOn (sep : N) (s : jsstring) : list jsstring :=
  match s with
  | [] => [[]]
  | c :: s' =>
      if c =? sep then [] :: splitOn sep s'
      else
        match splitOn sep s' with
        | first :: others => (c :: first) :: others
        | [] => [[c]]
        end
  end.

Definition pairOf (kv : jsstring) : jsstring * jsstring :=
  let (k, v) := span (fun c => negb (c =? 61)) kv in
  (k, match v with _ :: v' => v' | [] => [] end).

Definition pairsOf (u : url) : list (jsstring * jsstring) :=
  match query u with
  | None | Some [] => []
  | Some q => List.map pairOf (filter (fun kv => negb (Js.eqb kv [])) (splitOn 38 q))
  end.

Definition hasParam (u : url) (k : jsstring) : bool :=
  existsb (fun kv => Js.eqb (fst kv) k) (pairsOf u).

Fixpoint setFirst (ps : list (jsstring * jsstring)) (k v : jsstring) (done : bool)
  : list (jsstring * jsstring) :=
  match ps with
  | [] => if done then [] else [(k, v)]
  | (k', v') :: rest =>
      if Js.eqb k' k then
        if done then setFirst rest k v true else (k', v) :: setFirst rest k v true
      else (k', v') :: setFirst rest k v done
  end.

Fixpoint joinPairs (ps : list (jsstring * jsstring)) : jsstring :=
  match ps with
  | [] => []
  | [(k, v)] => k ++ str "=" ++ v
  | (k, v) :: rest => k ++ str "=" ++ v ++ str "&" ++ joinPairs rest
  end.

Definition setParam (u : url) (k v : jsstring) : url :=
  {| scheme := scheme u; host := host u; port := port u; path := path u;
     query := Some (joinPairs (setFirst (pairsOf u) k v false));
     fragment := fragment u |}.

(** A leading [scheme:] makes a reference absolute. *)
Definition hasScheme (s : jsstring) : bool :=
  let (sch, rest) := span notColon s in
  match sch, stripPrefix (str ":") rest with
  | c :: _, Some _ => isAlpha c && forallb isSchemeChar sch
  | _, _ => false
  end.

(** The directory of a path: everything up to and including the last slash. *)
Definition dirOf (p : jsstring) : jsstring :=
  rev (snd (span (fun c => negb (c =? 47)) (rev p))).

Definition resolve (s base : jsstring) : option url :=
  if hasScheme s then parse s
  else
    match parse base with
    | None => None
    | Some b =>
        if Js.eqb s [] then
          Some {| scheme := scheme b; host := host b; port := port b;
                  path := path b; query := query b; fragment := None |}
        else if startsWith s (str "//") then parse (scheme b ++ str ":" ++ s)
        else if startsWith s (str "/") then parse (authority b ++ s)
        else if startsWith s (str "?") then parse (authority b ++ path b ++ s)
        else if startsWith s (str "#") then
          parse (authority b ++ path b ++ queryText b ++ s)
        else parse (authority b ++ dirOf (path b) ++ s)
    end.

Definition api : UrlApi := {|
  URL := url;
  parseUrl := parse;
  resolveUrl := resolve;
  protocol := fun u => scheme u ++ str ":";
  hostname := host;
  pathname := path;
  origin := originOf;
  href := serialize;
  setPathname := assignPath;
  searchHas := hasParam;
  searchSet := setParam
|}.

End RefUrl.

(* ================================================================== *)
(** * Tile grids of the Shufoo viewer (extract-url route) *)
(* ================================================================== *)

Module Shufoo.

Section WithPlatform.

Context {U : UrlApi} {P : NumberPrinter}.

Record ShufooTile := {
  url : jsstring;
  row : N;
  col : N;
  page : option N          (* [number | null] *)
}.

(** [path.slice(path.lastIndexOf('/') + 1)] *)
Definition basenameOf (path : jsstring) : jsstring :=
  rev (fst (span (fun c => negb (c =? 47)%N) (rev path))).

(** [path.slice(0, path.length - basename.length)] *)
Definition dirnameOf (path : jsstring) : jsstring :=
  firstn (List.length path - List.length (basenameOf path)) path.

(** The alternation [(jpg|jpeg|png|webp)] under the [i] flag. *)
Definition isTileExt (ext : jsstring) : bool :=
  existsb (Js.eqb (List.map asciiLower ext))
          [str "jpg"; str "jpeg"; str "png"; str "webp"].

(** [basename.match(/^(\d+)_(\d+)_(\d+)\.(jpg|jpeg|png|webp)$/i)]: the three
    digit runs.  A digit run is followed by a character that is not a
    digit, so the greedy match is the only one. *)
Definition matchPageSizeIndex (basename : jsstring)
  : option (jsstring * jsstring * jsstring) :=
  let (m1, r1) := span isDigit basename in
  match m1, stripPrefix (str "_") r1 with
  | _ :: _, Some r1' =>
      let (m2, r2) := span isDigit r1' in
      match m2, stripPrefix (str "_") r2 with
      | _ :: _, Some r2' =>
          let (m3, r3) := span isDigit r2' in
          match m3, stripPrefix (str ".") r3 with
          | _ :: _, Some ext =>
              if isTileExt ext then Some (m1, m2, m3) else None
          | _, _ => None
          end
      | _, _ => None
      end
  | _, _ => None
  end.

(** [.] of a regular expression: anything but a line terminator. *)
Definition isDot (c : N) : bool :=
  negb ((c =? 10) || (c =? 13) || (c =? 8232) || (c =? 8233))%N.

(** The second pattern of [parseShufooTileUrl]: any base name (without line
    terminators), an underscore, two digits [0-9], a dot and one of the four
    extensions, anchored at both ends, under the [i] flag.  It yields the
    base name and the two digits.  The extension holds no dot, so it starts
    after the last dot of the name. *)
Definition matchRowCol (basename : jsstring) : option (jsstring * N * N) :=
  let (revExt, revStem) := span (fun c => negb (c =? 46)%N) (rev basename) in
  match stripPrefix (str ".") revStem with
  | Some (d2 :: d1 :: rest) =>
      match stripPrefix (str "_") rest with
      | Some revBase =>
          if isTileExt (rev revExt) && isDigit d1 && isDigit d2
             && forallb isDot revBase
          then Some (rev revBase, (d1 - 48)%N, (d2 - 48)%N)
          else None
      | None => None
      end
  | _ => None
  end.

Definition numberText (n : N) : jsstring := numberToString (Num.ofN n).

(** What a template literal prints for the loop variable [p] of
    [expandShufooTileUrls]; [None] is the value [Infinity]. *)
Definition pageText (p : option N) : jsstring :=
  match p with
  | Some n => numberText n
  | None => numberToString (Infinity false)
  end.

(** The URLs pushed by the two nested loops: pages [p0] and [p1], tile
    indices 0 to 3. *)
Definition tileUrlsFor (base sizeText : jsstring) (pages : list (option N)) : list jsstring :=
  flat_map
    (fun p =>
       List.map
         (fun i => base ++ pageText p ++ str "_" ++ sizeText
                   ++ str "_" ++ dec i ++ str ".jpg")
         [0; 1; 2; 3]%N)
    pages.

Definition expandShufooTileUrls (urlStr : jsstring) : option (list jsstring) :=
  match parseUrl urlStr with
  | None => None
  | Some u =>
      let path := pathname u in
      let basename := basenameOf path in
      match matchPageSizeIndex basename with
      | None => None
      | Some (m1, m2, m3) =>
          match Num.digitsNumber m1, Num.digitsNumber m2, Num.digitsNumber m3 with
          | Some page0, Some size, Some _ =>
              let dir := dirnameOf path in
              let base := origin u ++ dir in
              Some (tileUrlsFor base (numberText size)
                      [Some page0; Num.succDouble page0])
          | _, _, _ => None
          end
      end
  end.

Definition parseShufooTileUrl (urlStr : jsstring) : option (jsstring * ShufooTile) :=
  match parseUrl urlStr with
  | None => None
  | Some u =>
      let path := pathname u in
      let basename := basenameOf path in
      match matchPageSizeIndex basename with
      | Some (m1, m2, m3) =>
          match Num.digitsNumber m1, Num.digitsNumber m2, Num.digitsNumber m3 with
          | Some page0, Some size, Some tileIndex =>
              if (3 <? tileIndex)%N then None
              else
                let row0 := (tileIndex / 2)%N in
                let col0 := (tileIndex mod 2)%N in
                let dir := dirnameOf path in
                let key := origin u ++ dir ++ numberText page0 ++ str "_" ++ numberText size in
                Some (key, {| url := urlStr; row := row0; col := col0; page := Some page0 |})
          | _, _, _ => None
          end
      | None =>
          match matchRowCol basename with
          | None => None
          | Some (baseName, row0, col0) =>
              let dir := dirnameOf path in
              let key := origin u ++ dir ++ baseName in
              Some (key, {| url := urlStr; row := row0; col := col0; page := None |})
          end
      end
  end.

(** [Array.prototype.sort] with a consistent comparator: a stable sort. *)
Fixpoint insertBy {A} (cmp : A -> A -> Z) (x : A) (l : list A) : list A :=
  match l with
  | [] => [x]
  | y :: l' => if (cmp x y <=? 0)%Z then x :: y :: l' else y :: insertBy cmp x l'
  end.

Definition sortBy {A} (cmp : A -> A -> Z) (l : list A) : list A :=
  fold_right (insertBy cmp) [] l.

Record tileGroup := { key : jsstring; tiles : list ShufooTile }.

(** The first loop of [pickShufooTileGroups]. *)
Definition groupTiles (urls : list jsstring) : JsMap.t (list ShufooTile) :=
  fold_left
    (fun groups u =>
       match parseShufooTileUrl u with
       | None => groups
       | Some (k, tile) =>
           let list :=
             match JsMap.get groups k with Some l => l | None => [] end in
           JsMap.set groups k (list ++ [tile])
       end)
    urls (JsMap.empty _).

(** The tiles, in input order, of the URLs that parse with key [k]. *)
Definition tilesWithKey (urls : list jsstring) (k : jsstring) : list ShufooTile :=
  flat_map
    (fun u =>
       match parseShufooTileUrl u with
       | Some (k', tile) => if Js.eqb k' k then [tile] else []
       | None => []
       end)
    urls.

(** [a.tiles[0]?.page ?? -1] *)
Definition firstPage (g : tileGroup) : Z :=
  match tiles g with
  | {| page := Some p |} :: _ => Z.of_N p
  | _ => (-1)%Z
  end.

Definition pickShufooTileGroups (urls : list jsstring) : list tileGroup :=
  let list :=
    sortBy (fun a b => (Z.of_nat (List.length (tiles b)) - Z.of_nat (List.length (tiles a)))%Z)
      (filter (fun x => 2 <=? List.length (tiles x))
         (List.map (fun kv => {| key := fst kv; tiles := snd kv |}) (groupTiles urls))) in
  match list with
  | [] => []
  | _ => sortBy (fun a b => (firstPage a - firstPage b)%Z) list
  end.

End WithPlatform.

(** Sample inputs: the four quadrants of page 3 at size 800. *)
Definition quadrant (file : string) : jsstring :=
  str "https://ipqcache2.shufoo.net/c/2024/01/05/c/96543/" ++ str file.

(** A quadrant URL whose page number has 400 digits: as a double it is
    [Infinity]. *)
Definition hugePageQuadrant : jsstring :=
  str "https://ipqcache2.shufoo.net/c/2024/01/05/c/96543/"
  ++ repeat 57%N 400 ++ str "_800_0.jpg".

(** The four quadrants of that page. *)
Definition hugePageQuadrants : list jsstring :=
  List.map
    (fun i => str "https://ipqcache2.shufoo.net/c/2024/01/05/c/96543/"
              ++ repeat 57%N 400 ++ str "_800_" ++ [i] ++ str ".jpg")
    [48; 49; 50; 51]%N.

Definition fourQuadrants : list jsstring :=
  [quadrant "3_800_0.jpg"; quadrant "3_800_1.jpg";
   quadrant "3_800_2.jpg"; quadrant "3_800_3.jpg"].

End Shufoo.

(* ================================================================== *)
(** * app/api/flyer/extract-url/route.ts: pure helpers *)
(* ================================================================== *)

Module Route.

Inductive StoreId := aoba_oshima | life_kawasaki_oshima | itoyokado_kawasaki.

Definition storeName (s : StoreId) : jsstring :=
  match s with
  | aoba_oshima => str "aoba_oshima"
  | life_kawasaki_oshima => str "life_kawasaki_oshima"
  | itoyokado_kawasaki => str "itoyokado_kawasaki"
  end.

Definition ALLOWLIST (s : StoreId) : list jsstring :=
  match s with
  | aoba_oshima => [str "www.bicrise.com"; str "bicrise.com"]
  | life_kawasaki_oshima =>
      [str "store.lifecorp.jp";
       str "meocloud-image.s3.ap-northeast-1.amazonaws.com";
       str "image.tokubai.co.jp"]
  | itoyokado_kawasaki =>
      [str "stores.itoyokado.co.jp"; str "asp.shufoo.net"; str "s-cmn.shufoo.net";
       str "cmn.shufoo.net"; str "www.shufoo.net"; str "ipqcache1.shufoo.net";
       str "ipqcache2.shufoo.net"]
  end.

(** A computation that returns a value or throws an [Error] with a message. *)
Inductive result (A : Type) :=
| Ok (a : A)
| Throw (message : jsstring).

Arguments Ok {A} a.
Arguments Throw {A} message.

(** [xs.includes(x)] on an array of strings. *)
Definition arrayIncludes (xs : list jsstring) (x : jsstring) : bool :=
  existsb (Js.eqb x) xs.

(** [s.replaceAll(pat, rep)] for a non-empty [pat]: matches are found from
    left to right and do not overlap; [skip] counts the units of the current
    match still to be dropped. *)
Fixpoint replaceAllFrom (pat rep : jsstring) (skip : nat) (s : jsstring) : jsstring :=
  match s with
  | [] => []
  | c :: s' =>
      match skip with
      | S k => replaceAllFrom pat rep k s'
      | O =>
          if startsWith s pat
          then rep ++ replaceAllFrom pat rep (List.length pat - 1) s'
          else c :: replaceAllFrom pat rep 0 s'
      end
  end.

Definition replaceAll (s pat rep : jsstring) : jsstring := replaceAllFrom pat rep 0 s.

Definition decodeHtmlEntities (input : jsstring) : jsstring :=
  replaceAll
    (replaceAll
       (replaceAll
          (replaceAll
             (replaceAll (replaceAll input (str "&amp;") (str "&")) (str "&lt;") (str "<"))
             (str "&gt;") (str ">"))
          (str "&quot;") [34%N])
       (str "&#39;") (str "'"))
    (str "&nbsp;") (str " ").

(** [Array.from(new Set(xs))]: first occurrences, in order. *)
Fixpoint uniqFrom (seen xs : list jsstring) : list jsstring :=
  match xs with
  | [] => []
  | x :: rest =>
      if arrayIncludes seen x then uniqFrom seen rest
      else x :: uniqFrom (x :: seen) rest
  end.

Definition uniq (xs : list jsstring) : list jsstring := uniqFrom [] xs.

(** The class of [/https?:\/\/.../g] in [extractRawUrls]: anything but white
    space, the two quotes and the angle brackets. *)
Definition isRawUrlChar (c : N) : bool :=
  negb (isSpace c || (c =? 34) || (c =? 39) || (c =? 60) || (c =? 62))%N.

(** A match of the raw sweep at the head of [s]: [https://] or [http://]
    followed by at least one unit of the class, as long as possible. *)
Definition rawUrlAt (s : jsstring) : option jsstring :=
  let after p :=
    match stripPrefix p s with
    | Some rest =>
        match fst (span isRawUrlChar rest) with
        | [] => None
        | run => Some (p ++ run)
        end
    | None => None
    end in
  match after (str "https://") with
  | Some m => Some m
  | None => after (str "http://")
  end.

Fixpoint rawUrlMatches (skip : nat) (s : jsstring) : list jsstring :=
  match s with
  | [] => []
  | _ :: s' =>
      match skip with
      | S k => rawUrlMatches k s'
      | O =>
          match rawUrlAt s with
          | Some m => m :: rawUrlMatches (List.length m - 1) s'
          | None => rawUrlMatches 0 s'
          end
      end
  end.

Definition extractRawUrls (html : jsstring) : list jsstring :=
  List.map decodeHtmlEntities (rawUrlMatches 0 html).

Section WithUrl.

Context {U : UrlApi} {C : CaseApi}.

Definition toAbsUrl (raw baseUrl : jsstring) : option jsstring :=
  let s := decodeHtmlEntities (trim raw) in
  match resolveUrl s baseUrl with
  | Some u => Some (href u)
  | None => None
  end.

(** The loop shared by [extractMetaImages], [extractAttrUrls] and
    [extractCssUrls]: every capture goes through [toAbsUrl] and is pushed
    when the result is not [null]. *)
Fixpoint absolutizeAll (captures : list jsstring) (baseUrl : jsstring) : list jsstring :=
  match captures with
  | [] => []
  | m :: rest =>
      match toAbsUrl m baseUrl with
      | Some ((_ :: _) as abs) => abs :: absolutizeAll rest baseUrl
      | _ => absolutizeAll rest baseUrl      (* [null], or the empty string *)
      end
  end.

Definition assertAllowedUrl (storeId : StoreId) (urlStr : jsstring) : result URL :=
  match parseUrl urlStr with
  | None => Throw (str "Invalid url: " ++ urlStr)
  | Some u =>
      if negb (Js.eqb (protocol u) (str "https:"))
         && negb (Js.eqb (protocol u) (str "http:"))
      then Throw (str "Only http/https allowed: " ++ urlStr)
      else if negb (arrayIncludes (ALLOWLIST storeId) (hostname u))
      then Throw (str "URL host not allowed for " ++ storeName storeId ++ str ": "
                  ++ hostname u)
      else Ok u
  end.

(** The URL passes [assertAllowedUrl]. *)
Definition isAllowed (storeId : StoreId) (urlStr : jsstring) : bool :=
  match assertAllowedUrl storeId urlStr with Ok _ => true | Throw _ => false end.

Definition isPdfByTypeOrUrl (contentType urlStr : jsstring) : bool :=
  includes contentType (str "application/pdf")
  || endsWith (toLowerCase urlStr) (str ".pdf").

Definition endsWithImageExt (s : jsstring) : bool :=
  endsWith s (str ".jpg") || endsWith s (str ".jpeg")
  || endsWith s (str ".png") || endsWith s (str ".webp").

Definition looksLikeImageUrl (u : jsstring) : bool :=
  match parseUrl u with
  | Some parsed => endsWithImageExt (toLowerCase (pathname parsed))
  | None =>
      (* [u.toLowerCase().split('?')[0]] *)
      endsWithImageExt (fst (span (fun c => negb (c =? 63)%N) (toLowerCase u)))
  end.

Definition looksLikeThumbUrl (u : jsstring) : bool :=
  let s := toLowerCase u in
  includes s (str "thumb") || includes s (str "thumbnail")
  || includes s (str "thumb-size=m") || includes s (str "content-width=310")
  || includes s (str "content-height=310").

Definition scoreShufooImage (u : jsstring) : Z :=
  let s := toLowerCase u in
  let add (cond : bool) (k : Z) (score : Z) : Z := if cond then (score + k)%Z else score in
  add (includes s (str "imwidth=") || includes s (str "width=") || includes s (str "w=")) 10%Z
    (add (endsWithImageExt s) 20%Z
       (add (includes s (str "thumb-size=m") || includes s (str "content-width=310")
             || includes s (str "content-height=310")) (-120)%Z
          (add (includes s (str "thumb") || includes s (str "thumbnail")
                || includes s (str "btn") || includes s (str "icon")) (-120)%Z
             (add (includes s (str "shufoo")) 30%Z
                (add (includes s (str "s-cmn.shufoo.net") || includes s (str "cmn.shufoo.net"))
                     90%Z 0%Z))))).

Definition setIfPresent (k v : jsstring) (u : URL) : URL :=
  if searchHas u k then searchSet u k v else u.

Definition normalizeShufooImageUrl (u : jsstring) : jsstring :=
  match parseUrl u with
  | None => u
  | Some url0 =>
      if endsWith (hostname url0) (str "shufoo.net") then
        href (setIfPresent (str "content-height") (str "1200")
               (setIfPresent (str "content-width") (str "1200")
                  (setIfPresent (str "width") (str "2000")
                     (setIfPresent (str "w") (str "2000")
                        (setIfPresent (str "imwidth") (str "2000")
                           (setIfPresent (str "thumb-size") (str "l") url0))))))
      else href url0
  end.

(** The segment matched by [/\/images\/bargain_office_leaflets\/[^/]+\//]
    at the head of [s]: the fixed prefix, a non-empty run without a slash,
    and a slash.  The result is the run and what follows the final slash. *)
Definition leafletPrefix : jsstring := str "/images/bargain_office_leaflets/".

Definition leafletSegmentAt (s : jsstring) : option (jsstring * jsstring) :=
  match stripPrefix leafletPrefix s with
  | None => None
  | Some rest =>
      let (seg, tail) := span (fun c => negb (c =? 47)%N) rest in
      match seg, stripPrefix (str "/") tail with
      | _ :: _, Some after => Some (seg, after)
      | _, _ => None
      end
  end.

(** [path.replace(/\/images\/bargain_office_leaflets\/[^/]+\//, '/images/bargain_office_leaflets/o=true/')]:
    the leftmost match is replaced. *)
Fixpoint replaceLeafletSegment (s : jsstring) : jsstring :=
  match leafletSegmentAt s with
  | Some (_, after) => leafletPrefix ++ str "o=true/" ++ after
  | None =>
      match s with
      | [] => []
      | c :: s' => c :: replaceLeafletSegment s'
      end
  end.

Definition toTokubaiHighRes (urlStr : jsstring) : jsstring :=
  match parseUrl urlStr with
  | None => urlStr
  | Some u =>
      if negb (includes (hostname u) (str "tokubai.co.jp")) then urlStr
      else if includes (pathname u) leafletPrefix
      then href (setPathname u (replaceLeafletSegment (pathname u)))
      else href u
  end.

Definition isLifeLeafletUrl (urlStr : jsstring) : bool :=
  match parseUrl urlStr with
  | None => false
  | Some u =>
      Js.eqb (hostname u) (str "image.tokubai.co.jp")
      && includes (pathname u) leafletPrefix
  end.

End WithUrl.

(** Sample leaflet URLs of the Tokubai image host. *)
Definition leafletThumb : jsstring :=
  str "https://image.tokubai.co.jp/images/bargain_office_leaflets/w=640,h=640/20240105_a.jpg?1704412800".

Definition leafletOriginal : jsstring :=
  str "https://image.tokubai.co.jp/images/bargain_office_leaflets/o=true/20240105_a.jpg?1704412800".

(** The original-size URL spelt with an upper-case scheme. *)
Definition leafletUpperScheme : jsstring :=
  str "HTTPS://image.tokubai.co.jp/images/bargain_office_leaflets/o=true/20240105_a.jpg".

(** A path with two leaflet segments, the second already [o=true]. *)
Definition leafletNested : jsstring :=
  str "https://image.tokubai.co.jp/images/bargain_office_leaflets/w=640/images/bargain_office_leaflets/o=true/a.jpg".

End Route.

(* ================================================================== *)
(** * Effects of the route handlers: network, image library, warnings *)
(* ================================================================== *)

(** The handlers talk to the network through [fetch], to [sharp] and to
    [pdftoppm], and push into a [warnings] array.  The outside world is a
    class; a handler is a computation over the log of requests sent so far
    and the warnings pushed so far, which returns a value or throws. *)

Module Effects.

Import Route.

Inductive method :=
| GET             (* a plain [fetch(url)] *)
| HEAD            (* [method: "HEAD"] *)
| GET_RANGE.      (* [method: "GET"] with the header [range: bytes=0-0] *)

Record request := {
  verb : method;
  target : jsstring;
  referer : option jsstring
}.

Record response (B : Type) := {
  ok : bool;
  status : N;
  statusText : jsstring;
  headers : list (jsstring * jsstring);     (* names in lower case *)
  body : B
}.

(** [res.headers.get(name)] *)
Definition header {B} (name : jsstring) (res : response B) : option jsstring :=
  match find (fun kv => Js.eqb (fst kv) name) (headers res) with
  | Some kv => Some (snd kv)
  | None => None
  end.

(** One entry of the array given to [composite]. *)
Record layer (B : Type) := { input : B; left : Z; top : Z }.

(** The argument of [sharp({ create: ... })] with the layers composited on
    it. *)
Record canvas (B : Type) := {
  width : Z;
  height : Z;
  channels : N;
  background : N * N * N * N;               (* r, g, b, alpha *)
  composites : list (layer B)
}.

Class World := {
  Buffer : Type;
  (** the answer to the request sent when [n] requests were sent before;
      [Throw] is a rejected promise *)
  fetch : nat -> request -> result (response Buffer);
  bufferLength : Buffer -> N;
  (** [buf.toString('utf8')], also what [r.text()] gives *)
  utf8 : Buffer -> jsstring;
  (** [buf.subarray(0, 64).toString('utf8')] *)
  utf8Head : Buffer -> jsstring;
  (** [sharp(buf).png().toBuffer()] *)
  sharpPng : Buffer -> result Buffer;
  (** [sharp(buf).metadata()], its [width] and [height] when present *)
  sharpMetadata : Buffer -> result (option Z * option Z);
  (** [sharp({ create }).composite(layers).png().toBuffer()] *)
  sharpComposite : canvas Buffer -> result Buffer;
  (** [convertPdfToPngPages] *)
  pdftoppm : Buffer -> result (list Buffer)
}.

Record state := {
  fetched : list request;
  warnings : list jsstring
}.

Definition start : state := {| fetched := []; warnings := [] |}.

Definition M (A : Type) : Type := state -> result A * state.

Definition ret {A} (a : A) : M A := fun st => (Ok a, st).

Definition bind {A B} (c : M A) (k : A -> M B) : M B :=
  fun st =>
    match c st with
    | (Ok a, st') => k a st'
    | (Throw e, st') => (Throw e, st')
    end.

(** A pure step that may throw. *)
Definition lift {A} (r : result A) : M A := fun st => (r, st).

(** [try { c } catch (e) { h(String(e?.message ?? e)) }] *)
Definition tryCatch {A} (c : M A) (h : jsstring -> M A) : M A :=
  fun st =>
    match c st with
    | (Ok a, st') => (Ok a, st')
    | (Throw e, st') => h e st'
    end.

(** [warnings.push(w)] *)
Definition warn (w : jsstring) : M Datatypes.unit :=
  fun st => (Ok tt, {| fetched := fetched st; warnings := warnings st ++ [w] |}).

(** [await fetch(...)]: the request is logged, then answered. *)
Definition send `{World} (r : request) : M (response Buffer) :=
  fun st =>
    (fetch (List.length (fetched st)) r,
     {| fetched := fetched st ++ [r]; warnings := warnings st |}).

(** [for (const x of xs) { acc = body(acc, x) }] *)
Fixpoint forEach {A S} (xs : list A) (acc : S) (body : S -> A -> M S) : M S :=
  match xs with
  | [] => ret acc
  | x :: rest => bind (body acc x) (fun acc' => forEach rest acc' body)
  end.

Declare Scope route_scope.
Delimit Scope route_scope with route.

Notation "x <- c ;; k" := (bind c (fun x => k))
  (at level 61, c at next level, right associativity) : route_scope.
Notation "c ;;; k" := (bind c (fun _ => k))
  (at level 61, right associativity) : route_scope.

End Effects.

(* ================================================================== *)
(** * [app/api/flyer/extract-url/route.ts]: from addresses to page images *)
(* ================================================================== *)

Module ExtractUrl.

Import Route Shufoo Effects.

#[local] Open Scope route_scope.

(** The captures of the three regular expressions that scan markup for
    addresses: group 1 of every match, in order. *)
Class Scanner := {
  metaImageCaptures : jsstring -> list jsstring;     (* in [extractMetaImages] *)
  attrCaptures : jsstring -> list jsstring;          (* in [extractAttrUrls] *)
  cssCaptures : jsstring -> list jsstring            (* in [extractCssUrls] *)
}.

(** The warning of [resolvePageToAssetUrls] when no image address is left. *)
Definition noLargeImageInHtml : jsstring :=
  [22823; 12365; 12356; 30011; 20687; 85; 82; 76; 12434; 21462; 12428; 12414;
   12379; 12435; 12391; 12375; 12383; 65288; 72; 84; 77; 76; 20869; 12395;
   35211; 12388; 12363; 12425; 12394; 12356; 65289; 12290; 24517; 35201;
   12394; 12425; 32; 80; 108; 97; 121; 119; 114; 105; 103; 104; 116; 26041;
   24335; 12395; 20999; 12426; 26367; 12360; 12414; 12377; 12290]%N.

(** The warning of [resolvePageToAssetUrls] when only thumbnails are left. *)
Definition onlyThumbnails : jsstring :=
  [22823; 12365; 12356; 30011; 20687; 85; 82; 76; 12434; 21462; 12428; 12414;
   12379; 12435; 12391; 12375; 12383; 65288; 12469; 12512; 12493; 12375;
   12363; 25342; 12360; 12390; 12394; 12356; 21487; 33021; 24615; 65289;
   12290; 24517; 35201; 12394; 12425; 32; 80; 108; 97; 121; 119; 114; 105;
   103; 104; 116; 26041; 24335; 12395; 20999; 12426; 26367; 12360; 12414;
   12377; 12290]%N.

(** Head of the warning for a page that resolves to no asset. *)
Definition pageNotResolved : jsstring :=
  [12506; 12540; 12472; 12434; 30452; 85; 82; 76; 12408; 35299; 27770; 12391;
   12365; 12414; 12379; 12435; 12391; 12375; 12383; 58; 32]%N.

(** The warning for a tile group that composes to [null]. *)
Definition tilesLacking : jsstring :=
  [12479; 12452; 12523; 30011; 20687; 12398; 21512; 25104; 12395; 22833;
   25943; 12375; 12414; 12375; 12383; 65288; 26377; 21177; 12394; 12479;
   12452; 12523; 12364; 19981; 36275; 65289; 12290]%N.

(** Head of the warning for a tile group whose composition throws. *)
Definition composeFailed : jsstring :=
  [12479; 12452; 12523; 30011; 20687; 12398; 21512; 25104; 12395; 22833;
   25943; 58; 32]%N.

Section WithWorld.

Context {U : UrlApi} {C : CaseApi} {P : NumberPrinter} {W : World} {S : Scanner}.

(** The requests a computation sends all go to addresses that pass
    [assertAllowedUrl] for the store. *)
Definition guarded {A} (storeId : StoreId) (c : M A) : Prop :=
  forall st, exists sent,
    fetched (snd (c st)) = fetched st ++ sent
    /\ Forall (fun r => isAllowed storeId (target r) = true) sent.

Definition extractMetaImages (html baseUrl : jsstring) : list jsstring :=
  absolutizeAll (metaImageCaptures html) baseUrl.

Definition extractAttrUrls (html baseUrl : jsstring) : list jsstring :=
  absolutizeAll (attrCaptures html) baseUrl.

Definition extractCssUrls (html baseUrl : jsstring) : list jsstring :=
  absolutizeAll (cssCaptures html) baseUrl.

Definition defaultMaxBytes : N := 40 * 1024 * 1024.

Definition fetchBuffer (urlStr : jsstring) (maxBytes : N) : M (Buffer * jsstring) :=
  res <- send {| verb := GET; target := urlStr; referer := None |} ;;
  if negb (ok res) then
    lift (Throw (str "fetch failed: " ++ Dec.dec (status res) ++ str " " ++ statusText res))
  else
    let contentType := match header (str "content-type") res with Some c => c | None => [] end in
    let buf := body res in
    if (maxBytes <? bufferLength buf)%N then
      lift (Throw (str "too large: " ++ Dec.dec (bufferLength buf) ++ str " bytes (max "
                   ++ Dec.dec maxBytes ++ str ")"))
    else ret (buf, contentType).

Definition isHtmlByTypeOrSniff (contentType : jsstring) (buf : Buffer) : bool :=
  if includes contentType (str "text/html") then true
  else
    let head := trimStart (utf8Head buf) in
    startsWith head (str "<!doctype") || startsWith head (str "<html")
    || startsWith head (str "<").

(** ** Compositing a tile group *)

Record entry := {
  ebuf : Buffer;
  erow : N;
  ecol : N;
  ewidth : Z;
  eheight : Z
}.

(** An entry has a non-zero size; the cell of an entry and of a tile. *)
Definition sized (e : entry) : Prop := ewidth e <> 0%Z /\ eheight e <> 0%Z.
Definition cell (e : entry) : N * N := (erow e, ecol e).
Definition place (t : ShufooTile) : N * N := (row t, col t).

(** The loop of [composeShufooTiles] over the tiles. *)
Definition loadTile (storeId : StoreId) (entries : list entry) (tile : ShufooTile)
  : M (list entry) :=
  lift (assertAllowedUrl storeId (url tile)) ;;;
  fetchedTile <- fetchBuffer (url tile) defaultMaxBytes ;;
  normalized <- lift (sharpPng (fst fetchedTile)) ;;
  meta <- lift (sharpMetadata normalized) ;;
  let width := match fst meta with Some w => w | None => 0%Z end in
  let height := match snd meta with Some h => h | None => 0%Z end in
  if (width =? 0)%Z || (height =? 0)%Z then ret entries
  else ret (entries ++ [{| ebuf := normalized; erow := row tile; ecol := col tile;
                           ewidth := width; eheight := height |}]).

Definition loadEntries (storeId : StoreId) (tiles : list ShufooTile) : M (list entry) :=
  forEach tiles [] (loadTile storeId).

(** [Math.min(...xs)] and [Math.max(...xs)] of a non-empty array whose
    first element is [x]. *)
Definition minOf (x : Z) (xs : list Z) : Z := fold_left Z.min xs x.
Definition maxOf (x : Z) (xs : list Z) : Z := fold_left Z.max xs x.

Definition white : N * N * N * N := (255, 255, 255, 1)%N.

(** What [composeShufooTiles] does with the entries: [None] is the early
    [return null].  Rows, columns and pixel sizes are whole numbers far below
    2^53, where the arithmetic of doubles is exact. *)
Definition layout (entries : list entry) : option (canvas Buffer) :=
  match entries with
  | first :: _ :: _ =>
      let tileWidth := ewidth first in
      let tileHeight := eheight first in
      let rows := List.map (fun e => Z.of_N (erow e)) entries in
      let cols := List.map (fun e => Z.of_N (ecol e)) entries in
      let minRow := minOf (Z.of_N (erow first)) rows in
      let minCol := minOf (Z.of_N (ecol first)) cols in
      let maxRow := maxOf (Z.of_N (erow first)) rows in
      let maxCol := maxOf (Z.of_N (ecol first)) cols in
      Some {| width := (maxCol - minCol + 1) * tileWidth;
              height := (maxRow - minRow + 1) * tileHeight;
              channels := 4;
              background := white;
              composites :=
                List.map (fun e => {| input := ebuf e;
                                      left := (Z.of_N (ecol e) - minCol) * tileWidth;
                                      top := (Z.of_N (erow e) - minRow) * tileHeight |})
                  entries |}%Z
  | _ => None
  end.

Definition composeShufooTiles (storeId : StoreId) (tiles : list ShufooTile)
  : M (option Buffer) :=
  entries <- loadEntries storeId tiles ;;
  match layout entries with
  | None => ret None
  | Some c => png <- lift (sharpComposite c) ;; ret (Some png)
  end.

(** The request of [fetchBuffer] for an address. *)
Definition download (urlStr : jsstring) : request :=
  {| verb := GET; target := urlStr; referer := None |}.

(** Tile [t], requested when [k] requests were sent before, loads: its
    address passes the allowlist, the download is answered with [ok] and a
    body within the limit, the body is re-encoded to [normalized], and the
    metadata of that give the width [w] and the height [h], 0 where the
    metadata have none. *)
Definition loads (storeId : StoreId) (k : nat) (t : ShufooTile)
  (normalized : Buffer) (w h : Z) : Prop :=
  isAllowed storeId (url t) = true
  /\ exists res mw mh,
       fetch k (download (url t)) = Ok res
       /\ ok res = true
       /\ (bufferLength (body res) <= defaultMaxBytes)%N
       /\ sharpPng (body res) = Ok normalized
       /\ sharpMetadata normalized = Ok (mw, mh)
       /\ w = match mw with Some x => x | None => 0%Z end
       /\ h = match mh with Some x => x | None => 0%Z end.

(** Tile [t], requested when [k] requests were sent before, fails with the
    error [e]: its address is rejected (and nothing is sent), the download
    is rejected, answered without [ok] or with too large a body, or the
    body or its metadata cannot be read.  [sent] is the request for the
    tile when it was sent. *)
Definition fails (storeId : StoreId) (k : nat) (t : ShufooTile)
  (e : jsstring) (sent : list request) : Prop :=
  (assertAllowedUrl storeId (url t) = Throw e /\ sent = [])
  \/ (isAllowed storeId (url t) = true /\ sent = [download (url t)]
      /\ (fetch k (download (url t)) = Throw e
          \/ exists res,
               fetch k (download (url t)) = Ok res
               /\ ((ok res = false
                    /\ e = str "fetch failed: " ++ Dec.dec (status res) ++ str " "
                           ++ statusText res)
                   \/ (ok res = true
                       /\ (defaultMaxBytes < bufferLength (body res))%N
                       /\ e = str "too large: " ++ Dec.dec (bufferLength (body res))
                              ++ str " bytes (max " ++ Dec.dec defaultMaxBytes ++ str ")")
                   \/ (ok res = true
                       /\ (bufferLength (body res) <= defaultMaxBytes)%N
                       /\ (sharpPng (body res) = Throw e
                           \/ exists normalized,
                                sharpPng (body res) = Ok normalized
                                /\ sharpMetadata normalized = Throw e))))).

(** What the loop pushes for a tile that decodes to [normalized] of [w] by
    [h]: nothing when a side is 0. *)
Definition entryOf (t : ShufooTile) (l : Buffer * Z * Z) : list entry :=
  if (snd (fst l) =? 0)%Z || (snd l =? 0)%Z then []
  else [{| ebuf := fst (fst l); erow := row t; ecol := col t;
           ewidth := snd (fst l); eheight := snd l |}].

(** The entries after tiles that decode to [ls], tile by tile. *)
Definition entriesOf (tiles : list ShufooTile) (ls : list (Buffer * Z * Z)) : list entry :=
  flat_map (fun tl => entryOf (fst tl) (snd tl)) (combine tiles ls).

(** ** Resolving a page to asset addresses *)

Definition byScore (a b : jsstring) : Z := (scoreShufooImage b - scoreShufooImage a)%Z.

Definition pageMaxBytes : N := 10 * 1024 * 1024.

Definition resolvePageToAssetUrls (storeId : StoreId) (pageUrl : jsstring)
  : M (list jsstring) :=
  lift (assertAllowedUrl storeId pageUrl) ;;;
  page <- fetchBuffer pageUrl pageMaxBytes ;;
  let (buf, contentType) := page in
  if negb (isHtmlByTypeOrSniff contentType buf) then ret []
  else
    let html := utf8 buf in
    let meta :=
      List.map normalizeShufooImageUrl
        (filter looksLikeImageUrl (extractMetaImages html pageUrl)) in
    let all :=
      uniq (meta ++ extractAttrUrls html pageUrl ++ extractRawUrls html
            ++ extractCssUrls html pageUrl) in
    let imgs :=
      filter (isAllowed storeId)
        (List.map normalizeShufooImageUrl (filter looksLikeImageUrl all)) in
    match storeId with
    | itoyokado_kawasaki =>
        let sorted := sortBy byScore imgs in
        let nonThumbs := filter (fun u => negb (looksLikeThumbUrl u)) sorted in
        let picked := firstn 3 (match nonThumbs with [] => sorted | _ => nonThumbs end) in
        match picked with
        | [] => warn noLargeImageInHtml ;;; ret []
        | _ =>
            match nonThumbs with
            | [] => warn onlyThumbnails ;;; ret picked
            | _ => ret picked
            end
        end
    | _ => ret (firstn 3 (sortBy byScore imgs))
    end.

(** ** The handler, up to the page images *)

(** Step 0: the body of the loop over the posted addresses. *)
Definition resolveInput (storeId : StoreId) (inputUrls : list jsstring) (u : jsstring)
  : M (list jsstring) :=
  tryCatch
    (lift (assertAllowedUrl storeId u) ;;;
     if isPdfByTypeOrUrl [] u || looksLikeImageUrl u then ret (inputUrls ++ [u])
     else
       page <- fetchBuffer u pageMaxBytes ;;
       let (buf, contentType) := page in
       if isHtmlByTypeOrSniff contentType buf then
         resolved <- resolvePageToAssetUrls storeId u ;;
         match resolved with
         | [] => warn (pageNotResolved ++ u) ;;; ret inputUrls
         | _ => ret (inputUrls ++ resolved)
         end
       else
         warn (str "Unsupported URL type (not html/image/pdf): " ++ u ++ str " ("
               ++ contentType ++ str ")") ;;;
         ret inputUrls)
    (fun e => warn (str "resolve failed: " ++ u ++ str " :: " ++ e) ;;; ret inputUrls).

(** Step 0.5: the quadrants of Ito-Yokado are added, the leaflets of Life are
    rewritten to full size and filtered. *)
Definition expandInputs (storeId : StoreId) (inputUrls : list jsstring) : list jsstring :=
  match storeId with
  | itoyokado_kawasaki =>
      inputUrls
      ++ flat_map (fun u => match expandShufooTileUrls u with Some l => l | None => [] end)
           inputUrls
  | life_kawasaki_oshima => filter isLifeLeafletUrl (List.map toTokubaiHighRes inputUrls)
  | aoba_oshima => inputUrls
  end.

(** The pages made so far and the addresses of the tiles stitched so far. *)
Record pages := { pagePngs : list Buffer; stitchedTileUrls : list jsstring }.

Definition stitchGroup (storeId : StoreId) (acc : pages) (group : tileGroup) : M pages :=
  tryCatch
    (stitched <- composeShufooTiles storeId (tiles group) ;;
     match stitched with
     | Some png =>
         ret {| pagePngs := pagePngs acc ++ [png];
                stitchedTileUrls := stitchedTileUrls acc ++ List.map url (tiles group) |}
     | None => warn tilesLacking ;;; ret acc
     end)
    (fun e => warn (composeFailed ++ e) ;;; ret acc).

Definition downloadPage (storeId : StoreId) (stitched : list jsstring)
  (pngs : list Buffer) (urlStr : jsstring) : M (list Buffer) :=
  tryCatch
    (if arrayIncludes stitched urlStr then ret pngs
     else
       lift (assertAllowedUrl storeId urlStr) ;;;
       file <- fetchBuffer urlStr defaultMaxBytes ;;
       let (buf, contentType) := file in
       if isPdfByTypeOrUrl contentType urlStr then
         converted <- lift (pdftoppm buf) ;;
         match converted with
         | [] => warn (str "PDF had 0 pages after convert: " ++ urlStr) ;;; ret pngs
         | _ => ret (pngs ++ converted)
         end
       else
         normalized <- lift (sharpPng buf) ;;
         ret (pngs ++ [normalized]))
    (fun e => warn (str "fetch/normalize failed: " ++ urlStr ++ str " :: " ++ e) ;;; ret pngs).

(** Steps 0 to 1 of [POST]: the addresses kept and the page images made from
    them.  With no address left after step 0 the handler answers at once. *)
Definition gatherPages (storeId : StoreId) (urls : list jsstring)
  : M (list jsstring * list Buffer) :=
  resolved <- forEach urls [] (resolveInput storeId) ;;
  match resolved with
  | [] => ret ([], [])
  | _ =>
      let inputUrls := expandInputs storeId resolved in
      let tileGroups :=
        match storeId with
        | itoyokado_kawasaki => pickShufooTileGroups inputUrls
        | _ => []
        end in
      stitched <- forEach tileGroups {| pagePngs := []; stitchedTileUrls := [] |}
                    (stitchGroup storeId) ;;
      pngs <- forEach inputUrls (pagePngs stitched)
                (downloadPage storeId (stitchedTileUrls stitched)) ;;
      ret (inputUrls, pngs)
  end.

End WithWorld.

End ExtractUrl.

(* ================================================================== *)
(** * [app/lib/flyerDiscover.ts]: links of a store page *)
(* ================================================================== *)

Module Discover.

Import Route.

#[local] Open Scope N_scope.

(** [s] starts with [p] when ASCII letters are compared without case; [p] is
    in lower case. *)
Fixpoint startsWithNoCase (s p : jsstring) {struct p} : bool :=
  match p, s with
  | [], _ => true
  | y :: p', x :: s' => (asciiLower x =? y) && startsWithNoCase s' p'
  | _ :: _, [] => false
  end.

Definition isQuote (c : N) : bool := (c =? 34) || (c =? 39).

(** A match of the expression of [extractHrefs] at the head of [s]: the
    letters of href in any case, white space, an equals sign, white space, a
    quote, a non-empty run without quotes, a quote.  The result is the run
    and the length of the match. *)
Definition hrefAt (s : jsstring) : option (jsstring * nat) :=
  if startsWithNoCase s (str "href") then
    let (sp1, r1) := span isSpace (skipn 4 s) in
    match r1 with
    | c :: r2 =>
        if c =? 61 then
          let (sp2, r3) := span isSpace r2 in
          match r3 with
          | q :: r4 =>
              if isQuote q then
                let (run, r5) := span (fun c => negb (isQuote c)) r4 in
                match run, r5 with
                | _ :: _, _ :: _ =>
                    Some (run, (4 + List.length sp1 + 1 + List.length sp2 + 1
                                + List.length run + 1)%nat)
                | _, _ => None
                end
              else None
          | [] => None
          end
        else None
    | [] => None
    end
  else None.

Fixpoint hrefMatches (skip : nat) (s : jsstring) : list jsstring :=
  match s with
  | [] => []
  | _ :: s' =>
      match skip with
      | Datatypes.S k => hrefMatches k s'
      | O =>
          match hrefAt s with
          | Some (run, len) => run :: hrefMatches (len - 1) s'
          | None => hrefMatches 0 s'
          end
      end
  end.

Definition extractHrefs (html : jsstring) : list jsstring := hrefMatches 0 html.

Section WithUrl.

Context {U : UrlApi}.

Definition toAbs (base maybeRelative : jsstring) : jsstring :=
  match resolveUrl maybeRelative base with
  | Some u => href u
  | None => maybeRelative
  end.

(** [extractHrefs(html).map((h) => toAbs(home, h))] *)
Definition hrefsOf (home html : jsstring) : list jsstring :=
  List.map (toAbs home) (extractHrefs html).

End WithUrl.

(** The page of the Life store in [STORE_HOME]. *)
Definition lifeHome : jsstring := str "https://store.lifecorp.jp/detail/east624/".

(** A page with one link whose host holds a space. *)
Definition brokenLinkPage : jsstring :=
  str "<a href='http://exa mple.com/x.pdf'>flyer</a>".

End Discover.

(* ================================================================== *)
(** * [app/api/flyer/resolve/route.ts]: candidates and their size probes *)
(* ================================================================== *)

Module Resolve.

Import Route Effects Discover.

#[local] Open Scope route_scope.
#[local] Open Scope N_scope.

Definition BAD_PARTS : list jsstring :=
  [str "thumb"; str "thumbnail"; str "favicon"; str "logo"; str "icon"; str "sprite";
   str "banner"; str "btn"; str "button"; str "common"; str "loading"; str "spinner";
   str "pixel"; str "tracking"; str "analytics"; str "thumb-size=m";
   str "content-width=310"; str "content-height=310"].

Definition decodeLoose (s : jsstring) : jsstring :=
  replaceAll
    (replaceAll
       (replaceAll
          (replaceAll
             (replaceAll
                (replaceAll (replaceAll s (str "&amp;") (str "&")) (str "&quot;") [34])
                (str "&#39;") (str "'"))
             (str "&lt;") (str "<"))
          (str "&gt;") (str ">"))
       (92 :: str "u0026") (str "&"))
    [92; 47] (str "/").

Definition looksBad `{CaseApi} (u : jsstring) : bool :=
  let l := toLowerCase u in
  existsb (fun p => includes l p) BAD_PARTS.

(** The class of the address sweep: no quote, backslash, white space or
    closing angle bracket. *)
Definition isUrlChar (c : N) : bool :=
  negb (isQuote c || (c =? 92) || isSpace c || (c =? 62)).

(** A dot and one of the extensions png, jpg, jpeg, webp, pdf at the head of
    [s], in any case: the length matched. *)
Definition extensionAt (s : jsstring) : option nat :=
  match s with
  | c :: r =>
      if c =? 46 then
        if startsWithNoCase r (str "png") then Some 4%nat
        else if startsWithNoCase r (str "jpeg") then Some 5%nat
        else if startsWithNoCase r (str "jpg") then Some 4%nat
        else if startsWithNoCase r (str "webp") then Some 5%nat
        else if startsWithNoCase r (str "pdf") then Some 4%nat
        else None
      else None
  | [] => None
  end.

(** The lazy run of the sweep: at least one unit of the class, as few as
    possible, then an extension.  [taken] counts the units taken so far; the
    result is the length of the run and the extension. *)
Fixpoint lazyRun (s : jsstring) (taken : nat) : option nat :=
  match s with
  | [] => None
  | c :: r =>
      if isUrlChar c then
        match extensionAt r with
        | Some k => Some (Datatypes.S taken + k)%nat
        | None => lazyRun r (Datatypes.S taken)
        end
      else None
  end.

(** A match of the sweep at the head of [s]. *)
Definition urlAt (s : jsstring) : option jsstring :=
  let scheme :=
    if startsWithNoCase s (str "https://") then Some 8%nat
    else if startsWithNoCase s (str "http://") then Some 7%nat
    else None in
  match scheme with
  | None => None
  | Some n =>
      match lazyRun (skipn n s) 0 with
      | None => None
      | Some k =>
          let rest := skipn (n + k) s in
          let query :=
            match rest with
            | c :: r => if c =? 63 then c :: fst (span isUrlChar r) else []
            | [] => []
            end in
          Some (firstn (n + k) s ++ query)
      end
  end.

Fixpoint urlMatches (skip : nat) (s : jsstring) : list jsstring :=
  match s with
  | [] => []
  | _ :: s' =>
      match skip with
      | Datatypes.S k => urlMatches k s'
      | O =>
          match urlAt s with
          | Some m => m :: urlMatches (List.length m - 1) s'
          | None => urlMatches 0 s'
          end
      end
  end.

(** The viewer page of Shufoo: the path of the iframe of a shop, digits, a
    slash and a digit, anywhere in the address. *)
Fixpoint isViewerPage (u : jsstring) : bool :=
  match stripPrefix (str "/t/asp_iframe/shop/") u with
  | Some r =>
      match span isDigit r with
      | (_ :: _, c :: d :: _) => (c =? 47) && isDigit d
      | _ => false
      end
  | None => false
  end
  || match u with
     | [] => false
     | _ :: u' => isViewerPage u'
     end.

(** [pages.find(viewer) ?? pages[0]] *)
Definition pickItoyokadoViewerPage (pages : list jsstring) : option jsstring :=
  match find isViewerPage pages with
  | Some v => Some v
  | None => hd_error pages
  end.

(** The digits matched by the expression that reads the total of a
    [content-range]: a slash and digits up to the end. *)
Definition rangeTotal (cr : jsstring) : option jsstring :=
  let (digits, before) := span isDigit (rev cr) in
  match digits, before with
  | _ :: _, c :: _ => if c =? 47 then Some (rev digits) else None
  | _, _ => None
  end.

(** What the platform gives: the captures of the three expressions of
    [extractUrlsFromHtml] that read tags and attributes, and [Number] on a
    string. *)
Class Platform := {
  metaCaptures : jsstring -> list jsstring;
  linkCaptures : jsstring -> list jsstring;
  attrCaptures : jsstring -> list jsstring;
  stringToNumber : jsstring -> number
}.

(** [x || 0] *)
Definition orZero (x : number) : number :=
  match x with
  | NaN => Finite 0
  | Finite q => if Qeq_bool q 0 then Finite 0 else x
  | Infinity _ => x
  end.

Section WithWorld.

Context {U : UrlApi} {C : CaseApi} {W : World} {F : Platform}.

Definition absolutize (raw base : jsstring) : option jsstring :=
  match resolveUrl raw base with
  | Some u => Some (href u)
  | None => None
  end.

(** The addresses a loop of [extractUrlsFromHtml] pushes: those that resolve
    to a non-empty string. *)
Definition absolutes (raws : list jsstring) (base : jsstring) : list jsstring :=
  flat_map
    (fun raw =>
       match absolutize raw base with
       | Some ((_ :: _) as u) => [u]
       | _ => []
       end)
    raws.

Definition isPdfLike (u : jsstring) : bool := includes (toLowerCase u) (str ".pdf").

(** The arrays [images] and [pdfs]. *)
Definition extractUrlsFromHtml (html base : jsstring) : list jsstring * list jsstring :=
  let s := decodeLoose html in
  let fromMeta := absolutes (metaCaptures s) base in
  let fromLink := absolutes (linkCaptures s) base in
  let fromAttr := absolutes (attrCaptures s) base in
  let fromSweep := absolutes (List.map decodeLoose (urlMatches 0 s)) base in
  let rest := fromLink ++ fromAttr ++ fromSweep in
  (uniq (fromMeta ++ filter (fun u => negb (isPdfLike u)) rest),
   uniq (filter isPdfLike rest)).

Definition sizeFromLength (cl : option jsstring) : option number :=
  match cl with
  | Some ((_ :: _) as s) => Some (orZero (stringToNumber s))
  | _ => None
  end.

Definition sizeFromRange (cr : option jsstring) : option number :=
  match cr with
  | Some ((_ :: _) as s) =>
      match rangeTotal s with
      | Some digits => Some (orZero (Num.ofDigits digits))
      | None => None
      end
  | _ => None
  end.

Definition orElse {A} (a b : option A) : option A :=
  match a with Some _ => a | None => b end.

Definition contentLength (url : jsstring) (ref : option jsstring) : M number :=
  byHead <-
    tryCatch
      (r <- send {| verb := HEAD; target := url; referer := ref |} ;;
       ret (orElse (sizeFromLength (header (str "content-length") r))
                   (sizeFromRange (header (str "content-range") r))))
      (fun _ => ret None) ;;
  match byHead with
  | Some size => ret size
  | None =>
      byRange <-
        tryCatch
          (r <- send {| verb := GET_RANGE; target := url; referer := ref |} ;;
           ret (orElse (sizeFromRange (header (str "content-range") r))
                       (sizeFromLength (header (str "content-length") r))))
          (fun _ => ret None) ;;
      match byRange with
      | Some size => ret size
      | None => ret (Finite 0)
      end
  end.

(** What an answer tells [contentLength].  Its [content-length] is not
    empty and is read as [size]. *)
Definition lengthSays (r : response Buffer) (size : number) : Prop :=
  exists c s,
    header (str "content-length") r = Some (c :: s)
    /\ size = orZero (stringToNumber (c :: s)).

(** Its [content-range] ends in a slash and digits, read as [size]. *)
Definition rangeSays (r : response Buffer) (size : number) : Prop :=
  exists before digits,
    header (str "content-range") r = Some (before ++ str "/" ++ digits)
    /\ digits <> [] /\ forallb isDigit digits = true
    /\ size = orZero (Num.ofDigits digits).

(** The request fails, or its answer tells no size. *)
Definition silent (o : result (response Buffer)) : Prop :=
  match o with
  | Throw _ => True
  | Ok r => (forall size, ~ lengthSays r size) /\ (forall size, ~ rangeSays r size)
  end.

(** The loop of [POST] that fills [scored]. *)
Definition probeSizes (imgCandidates : list jsstring) (targetPage : jsstring)
  : M (list (jsstring * number)) :=
  forEach (firstn 50 imgCandidates) []
    (fun scored url =>
       size <- contentLength url (Some targetPage) ;;
       ret (scored ++ [(url, size)])).

(** [POST] from the choice of the page to the end of the probes; [None] is
    the early answer when the page cannot be fetched or no page was given. *)
Definition probeCandidates (storeId : StoreId) (pages : list jsstring)
  : M (option (list (jsstring * number))) :=
  let target :=
    match storeId with
    | itoyokado_kawasaki => pickItoyokadoViewerPage pages
    | _ => hd_error pages
    end in
  match target with
  | None => ret None
  | Some targetPage =>
      html <-
        tryCatch
          (r <- send {| verb := GET; target := targetPage; referer := None |} ;;
           ret (Some (utf8 (body r))))
          (fun _ => ret None) ;;
      match html with
      | None => ret None
      | Some text =>
          let imgCandidates :=
            filter (fun u => negb (looksBad u))
              (filter (fun u => negb (startsWith u (str "data:"))
                                && negb (startsWith u (str "blob:")))
                 (fst (extractUrlsFromHtml text targetPage))) in
          scored <- probeSizes imgCandidates targetPage ;;
          ret (Some scored)
      end
  end.

End WithWorld.

End Resolve.

(* ================================================================== *)
(** * Sample worlds *)
(* ================================================================== *)

Module Samples.

Import Route Shufoo Effects.

(** Buffers of the sample worlds: text, a decoded image of a given size, or
    a canvas with the offsets of its layers. *)
Inductive picture :=
| Text (s : jsstring)
| Pixels (w h : Z)
| Stitched (w h : Z) (offsets : list (Z * Z)).

Definition answer (b : picture) : response picture :=
  {| ok := true; status := 200; statusText := str "OK"; headers := []; body := b |}.

Definition notFound : response picture :=
  {| ok := false; status := 404; statusText := str "Not Found"; headers := [];
     body := Text [] |}.

(** A world over a given network.  Text is no image; everything else
    decodes to itself. *)
Definition world (net : nat -> request -> result (response picture)) : World :=
  {| Buffer := picture;
     fetch := net;
     bufferLength := fun b => match b with Text s => N.of_nat (List.length s) | _ => 1000%N end;
     utf8 := fun b => match b with Text s => s | _ => [] end;
     utf8Head := fun b => match b with Text s => firstn 64 s | _ => [] end;
     sharpPng := fun b =>
       match b with
       | Text _ => Throw (str "Input buffer contains unsupported image format")
       | _ => Ok b
       end;
     sharpMetadata := fun b =>
       match b with
       | Pixels w h => Ok (Some w, Some h)
       | Stitched w h _ => Ok (Some w, Some h)
       | Text _ => Throw (str "Input buffer contains unsupported image format")
       end;
     sharpComposite := fun c =>
       Ok (Stitched (width c) (height c)
             (List.map (fun l => (left l, top l)) (composites c)));
     pdftoppm := fun _ => Throw (str "spawn pdftoppm ENOENT") |}.

(** Every address answers with an image of 800 by 600. *)
Definition quadrantWorld : World := world (fun _ _ => Ok (answer (Pixels 800 600))).

(** Every address answers 404. *)
Definition missingWorld : World := world (fun _ _ => Ok notFound).

Definition noScanner : ExtractUrl.Scanner :=
  {| ExtractUrl.metaImageCaptures := fun _ => [];
     ExtractUrl.attrCaptures := fun _ => [];
     ExtractUrl.cssCaptures := fun _ => [] |}.

(** The four quadrants as tiles, as [parseShufooTileUrl] reads them. *)
Definition quadrantTiles : list (@ShufooTile) :=
  [{| url := quadrant "3_800_0.jpg"; row := 0; col := 0; page := Some 3%N |};
   {| url := quadrant "3_800_1.jpg"; row := 0; col := 1; page := Some 3%N |};
   {| url := quadrant "3_800_2.jpg"; row := 1; col := 0; page := Some 3%N |};
   {| url := quadrant "3_800_3.jpg"; row := 1; col := 1; page := Some 3%N |}].

(** The page of the Aoba store, and an address on a host of no store. *)
Definition aobaPage : jsstring := str "https://www.bicrise.com/ooshima/".
Definition foreignImage : jsstring := str "https://evil.example/a.jpg".

(** The store page answers with text that names the foreign image; other
    requests answer without headers. *)
Definition foreignWorld : World :=
  world (fun _ r =>
           if Js.eqb (target r) aobaPage then Ok (answer (Text foreignImage))
           else Ok (answer (Pixels 800 600))).

(** Every request is answered with a content length of 182345. *)
Definition sizedWorld : World :=
  world (fun _ _ =>
           Ok {| ok := true; status := 200; statusText := str "OK";
                 headers := [(str "content-length", str "182345")];
                 body := Pixels 800 600 |}).

(** A platform for a page without tags: the three expressions that read
    tags and attributes match nothing; [Number] is given on runs of digits,
    the form of a content length. *)
Definition plainText : Resolve.Platform :=
  {| Resolve.metaCaptures := fun _ => [];
     Resolve.linkCaptures := fun _ => [];
     Resolve.attrCaptures := fun _ => [];
     Resolve.stringToNumber := fun s =>
       if forallb isDigit s then Num.ofDigits s else NaN |}.

End Samples.

(* ================================================================== *)
(** * Outcomes of a handler computation *)
(* ================================================================== *)

Module Outcome.

Import Route Effects.

(** The computation returns a value from every state: it does not throw. *)
Definition returns {A} (c : M A) : Prop :=
  forall st, exists a, fst (c st) = Ok a.

(** The computation only adds to the log of requests and to the warnings. *)
Definition extends {A} (c : M A) : Prop :=
  forall st, exists sent added,
    fetched (snd (c st)) = fetched st ++ sent
    /\ warnings (snd (c st)) = warnings st ++ added.

End Outcome.

(* ================================================================== *)
(** * Step 2 of both [POST] handlers: tiling the pages *)
(* ================================================================== *)

Module Pages.

Import Tiling.

#[local] Open Scope Z_scope.

(** [tileImagePng] with the budget as the handlers pass it: a double, which
    may be a fraction, an infinity or NaN.  The loops are those of
    [Tiling.tileImagePng]; the test [tiles.length >= maxTilesTotal] compares
    a length with a double. *)
Section TileImagePng.

Variables (w h : Z) (pageIndex0 : nat) (tileSize overlap : Z) (maxTilesTotal : number).

Fixpoint leftLoop (fuel : nat) (top0 left0 : Z) (st : list Tile * nat)
  : flow (list Tile * nat) :=
  match fuel with
  | O => Continue st
  | Datatypes.S fuel' =>
      if left0 <? w then
        let width0 := Z.min tileSize (w - left0) in
        let height0 := Z.min tileSize (h - top0) in
        let tiles :=
          fst st ++ [{| buf := {| left := left0; top := top0;
                                  width := width0; height := height0 |};
                        pageIndex := pageIndex0;
                        tileIndexInPage := snd st |}] in
        let st' := (tiles, Datatypes.S (snd st)) in
        if Num.lengthReaches (List.length tiles) maxTilesTotal then Return st'
        else leftLoop fuel' top0 (left0 + step tileSize overlap) st'
      else Continue st
  end.

Fixpoint topLoop (fuel : nat) (top0 : Z) (st : list Tile * nat) : list Tile :=
  match fuel with
  | O => fst st
  | Datatypes.S fuel' =>
      if top0 <? h then
        match leftLoop (Z.to_nat w) top0 0 st with
        | Return st' => fst st'
        | Continue st' => topLoop fuel' (top0 + step tileSize overlap) st'
        end
      else fst st
  end.

Definition tileImagePng : list Tile :=
  if (w =? 0) || (h =? 0) then []
  else topLoop (Z.to_nat h) 0 ([], O).

End TileImagePng.

(** [for (let i = 0; i < pagePngs.length; i++) { ... }] of step 2: a page is
    given by the width and height of its bitmap; [tiles] is the array so
    far, [i] the index of the first page of [pages].  [maxTilesTotal] is
    [Number(body?.maxTiles ?? process.env.FLYER_MAX_TILES ?? '200')] in the
    extract-url route and [Number(process.env.FLYER_MAX_TILES ?? '200')] in
    the extract route: any double. *)
Fixpoint tilePagesFrom `{DoubleArith} (maxTilesTotal : number) (i : nat)
  (pages : list (Z * Z)) (tiles : list Tile) : list Tile :=
  match pages with
  | [] => tiles
  | (w, h) :: rest =>
      let pageTiles :=
        tileImagePng w h i 1024 96
          (minus maxTilesTotal (Num.ofNat (List.length tiles))) in
      let tiles' := tiles ++ pageTiles in
      if Num.lengthReaches (List.length tiles') maxTilesTotal then tiles'
      else tilePagesFrom maxTilesTotal (Datatypes.S i) rest tiles'
  end.

Definition tilePages `{DoubleArith} (maxTilesTotal : number) (pages : list (Z * Z))
  : list Tile :=
  tilePagesFrom maxTilesTotal 0 pages [].

(** The tiles of all pages, none left out: the grid of every page that has
    a width and a height, page [i] first. *)
Fixpoint allTilesFrom (i : nat) (pages : list (Z * Z)) : list Tile :=
  match pages with
  | [] => []
  | (w, h) :: rest =>
      (if (w =? 0) || (h =? 0) then [] else gridTiles w h i 1024 96)
      ++ allTilesFrom (Datatypes.S i) rest
  end.

(** The pixel [(x, y)] lies in the rectangle of the tile. *)
Definition holds (t : Tile) (x y : Z) : Prop :=
  left (buf t) <= x < left (buf t) + width (buf t)
  /\ top (buf t) <= y < top (buf t) + height (buf t).

End Pages.

(* ================================================================== *)
(** * [app/lib/flyer.ts]: reading the answer of the model *)
(* ================================================================== *)

Module ModelAnswer.

Import Route Flyer Discover.

#[local] Open Scope N_scope.

(** [JSON.parse]; [Throw] carries the message of the [SyntaxError]. *)
Class JsonParser := { jsonParse : jsstring -> result json }.

(** Three backticks. *)
Definition fence : jsstring := [96; 96; 96].

(** White space and a fence at the head of [s]: the end of the expression
    of [safeParseJsonFromModel]. *)
Definition closesAt (s : jsstring) : bool := startsWith (trimStart s) fence.

(** The lazy group of the expression: the shortest head of [s] after which
    white space and a fence follow. *)
Fixpoint lazyCapture (s : jsstring) : option jsstring :=
  if closesAt s then Some []
  else
    match s with
    | [] => None
    | c :: s' =>
        match lazyCapture s' with
        | Some cap => Some (c :: cap)
        | None => None
        end
    end.

(** What follows an opening fence, after the optional word json (in any
    case) and white space. *)
Definition afterOpening (s : jsstring) : jsstring :=
  trimStart (if startsWithNoCase s (str "json") then skipn 4 s else s).

(** Group 1 of the first match of the expression, a fence, the optional
    word, white space, the lazy group, white space and a fence.  A match
    needs a fence after the opening one; if the first fence of the text has
    none, no later one has, so only the first fence is tried. *)
Fixpoint fencedCapture (text : jsstring) : option jsstring :=
  if startsWith text fence then lazyCapture (afterOpening (skipn 3 text))
  else
    match text with
    | [] => None
    | _ :: rest => fencedCapture rest
    end.

(** [s.indexOf(c)] and [s.lastIndexOf(c)] for one unit; [None] is -1. *)
Fixpoint indexOf (c : N) (s : jsstring) : option nat :=
  match s with
  | [] => None
  | x :: s' =>
      if x =? c then Some O
      else match indexOf c s' with Some i => Some (Datatypes.S i) | None => None end
  end.

Fixpoint lastIndexOf (c : N) (s : jsstring) : option nat :=
  match s with
  | [] => None
  | x :: s' =>
      match lastIndexOf c s' with
      | Some i => Some (Datatypes.S i)
      | None => if x =? c then Some O else None
      end
  end.

(** Head of the error of [safeParseJsonFromModel]. *)
Definition notFound : jsstring :=
  [74; 83; 79; 78; 12364; 35211; 12388; 12363; 12426; 12414; 12379; 12435;
   12391; 12375; 12383; 58; 32]%N.

(** [fenced?.[1] ?? text] *)
Definition candidateOf (text : jsstring) : jsstring :=
  match fencedCapture text with
  | Some cap => cap
  | None => text
  end.

Definition safeParseJsonFromModel `{JsonParser} (text : jsstring) : result json :=
  let candidate := candidateOf text in
  match indexOf 123 candidate, lastIndexOf 125 candidate with
  | Some start, Some end_ =>
      if (end_ <=? start)%nat then Throw (notFound ++ firstn 200 text)
      else jsonParse (firstn (end_ + 1 - start) (skipn start candidate))
  | _, _ => Throw (notFound ++ firstn 200 text)
  end.

(** A fenced answer of the model. *)
Definition fencedAnswer : jsstring :=
  str "Here you are:" ++ [10] ++ fence ++ str "json" ++ [10]
  ++ str "{ " ++ [34] ++ str "items" ++ [34] ++ str ": [] }" ++ [10] ++ fence ++ [10].

End ModelAnswer.

(* ================================================================== *)
(** * [app/lib/flyerDiscover.ts]: candidates from the store page *)
(* ================================================================== *)

Module DiscoverLib.

Import Route Effects Discover.

#[local] Open Scope route_scope.
#[local] Open Scope N_scope.

Inductive candidateKind := image | pdf | page.

Inductive candidateSource := fixed | scrape.

Record FlyerCandidate := {
  kind : candidateKind;
  url : jsstring;
  title : jsstring;
  source : candidateSource
}.

Record DiscoverResult := {
  storeId : StoreId;
  candidates : list FlyerCandidate;
  warnings : list jsstring
}.

(** The [url] of [STORE_HOME]. *)
Definition STORE_HOME (s : StoreId) : jsstring :=
  match s with
  | life_kawasaki_oshima => str "https://store.lifecorp.jp/detail/east624/"
  | aoba_oshima => str "https://www.bicrise.com/ooshima/"
  | itoyokado_kawasaki => str "https://stores.itoyokado.co.jp/detail/547/"
  end.

(** Title of the first fixed candidate of Aoba. *)
Definition aobaTitle1 : jsstring :=
  [12354; 12362; 12400; 22823; 23798; 32; 12481; 12521; 12471; 32; 49]%N.

(** Title of the second fixed candidate of Aoba. *)
Definition aobaTitle2 : jsstring :=
  [12354; 12362; 12400; 22823; 23798; 32; 12481; 12521; 12471; 32; 50]%N.

(** Title of the page candidate of Ito-Yokado. *)
Definition shufooPageTitle : jsstring :=
  [24215; 33303; 12481; 12521; 12471; 12506; 12540; 12472; 65288; 83; 104;
   117; 102; 111; 111; 65289]%N.

(** Warning: the Shufoo page is dynamic. *)
Definition shufooDynamic : jsstring :=
  [83; 104; 117; 102; 111; 111; 12506; 12540; 12472; 12399; 21205; 30340;
   12391; 12377; 12290; 27425; 12473; 12486; 12483; 12503; 12391; 12289;
   12371; 12371; 12363; 12425; 30011; 20687; 47; 80; 68; 70; 30452; 85; 82;
   76; 12408; 8220; 23637; 38283; 8221; 12375; 12414; 12377; 12290]%N.

(** Warning: only the list address was found. *)
Definition listOnly : jsstring :=
  [108; 105; 115; 116; 65288; 12469; 12512; 12493; 19968; 35239; 65289; 85;
   82; 76; 12375; 12363; 35211; 12388; 12363; 12426; 12414; 12379; 12435;
   12391; 12375; 12383; 12290; 23567; 12373; 12356; 30011; 20687; 12364;
   28151; 12374; 12427; 21487; 33021; 24615; 12364; 12354; 12426; 12414;
   12377; 12290]%N.

(** Warning: no flyer page on the store page. *)
Definition noFlyerPage : jsstring :=
  [24215; 33303; 12506; 12540; 12472; 12363; 12425; 12481; 12521; 12471;
   12506; 12540; 12472; 85; 82; 76; 12434; 35211; 12388; 12369; 12425; 12428;
   12414; 12379; 12435; 12391; 12375; 12383; 12290; 12506; 12540; 12472;
   27083; 36896; 12364; 22793; 12431; 12387; 12383; 21487; 33021; 24615;
   12364; 12354; 12426; 12414; 12377; 12290]%N.

(** Title of a PDF candidate of Life. *)
Definition pdfTitle : jsstring :=
  [87; 101; 98; 12481; 12521; 12471; 80; 68; 70; 20505; 35036]%N.

(** Title of an image candidate of Life. *)
Definition imageTitle : jsstring :=
  [87; 101; 98; 12481; 12521; 12471; 30011; 20687; 20505; 35036]%N.

(** Warning: the flyer of Life is loaded dynamically. *)
Definition lifeDynamic : jsstring :=
  [12521; 12452; 12501; 12398; 87; 101; 98; 12481; 12521; 12471; 12399;
   24215; 33303; 12506; 12540; 12472; 19978; 12391; 21205; 30340; 12395;
   35501; 12415; 36796; 12414; 12428; 12390; 12356; 12427; 21487; 33021;
   24615; 12364; 39640; 12356; 12391; 12377; 12290; 27425; 12473; 12486;
   12483; 12503; 12391; 80; 108; 97; 121; 119; 114; 105; 103; 104; 116;
   31561; 12391; 8220; 21205; 30340; 12395; 23637; 38283; 12375; 12390;
   30011; 20687; 85; 82; 76; 12434; 22238; 21454; 8221; 12377; 12427; 26041;
   24335; 12395; 12375; 12414; 12377; 12290]%N.

(** [uniqByUrl]: the first candidate of every address, in order. *)
Fixpoint uniqByUrlFrom (seen : list jsstring) (cands : list FlyerCandidate)
  : list FlyerCandidate :=
  match cands with
  | [] => []
  | x :: rest =>
      if arrayIncludes seen (url x) then uniqByUrlFrom seen rest
      else x :: uniqByUrlFrom (url x :: seen) rest
  end.

Definition uniqByUrl (cands : list FlyerCandidate) : list FlyerCandidate :=
  uniqByUrlFrom [] cands.

(** Some tail of [s] satisfies [p]: an expression that may match anywhere. *)
Fixpoint anywhere (p : jsstring -> bool) (s : jsstring) : bool :=
  p s || match s with
         | [] => false
         | _ :: s' => anywhere p s'
         end.

(** At the head of [s]: the path of the iframe of a shop in any case,
    digits, and what [next] accepts. *)
Definition shopPathAt (next : jsstring -> bool) (s : jsstring) : bool :=
  if startsWithNoCase s (str "/t/asp_iframe/shop/") then
    match span isDigit (skipn 19 s) with
    | (_ :: _, rest) => next rest
    | _ => false
    end
  else false.

(** The three tests on a link of the store page of Ito-Yokado. *)
Definition isShufooLink (h : jsstring) : bool :=
  anywhere (fun s => startsWithNoCase s (str "asp.shufoo.net/t/asp_iframe/shop/")) h.

Definition isDetailLink (h : jsstring) : bool :=
  anywhere
    (shopPathAt (fun rest =>
                   match rest with
                   | c :: d :: _ => (c =? 47) && isDigit d
                   | _ => false
                   end)) h.

Definition isListLink (h : jsstring) : bool :=
  anywhere (shopPathAt (fun rest => startsWithNoCase rest (str "/list"))) h.

(** A dot, one of the extensions in any case, and then a question mark, a
    hash or the end. *)
Definition extensionEnds (exts : list jsstring) (s : jsstring) : bool :=
  match s with
  | c :: r =>
      (c =? 46)
      && existsb
           (fun ext =>
              startsWithNoCase r ext
              && match skipn (List.length ext) r with
                 | [] => true
                 | t :: _ => (t =? 63) || (t =? 35)
                 end)
           exts
  | [] => false
  end.

Definition isPdfLink (u : jsstring) : bool :=
  anywhere (extensionEnds [str "pdf"]) u.

Definition isImageLink (u : jsstring) : bool :=
  anywhere (extensionEnds [str "png"; str "jpeg"; str "jpg"]) u.

Section WithWorld.

Context {U : UrlApi} {W : World}.

Definition fetchHtml (url : jsstring) : M jsstring :=
  res <- send {| verb := GET; target := url; referer := None |} ;;
  if negb (ok res) then
    lift (Throw (str "fetch failed: " ++ Dec.dec (status res) ++ str " " ++ statusText res))
  else ret (utf8 (body res)).

(** The candidates of Life from the links of the page. *)
Definition lifeCandidates (hrefs : list jsstring) : list FlyerCandidate :=
  flat_map
    (fun u =>
       if isPdfLink u then
         [{| kind := pdf; url := u; title := pdfTitle; source := scrape |}]
       else if isImageLink u then
         [{| kind := image; url := u; title := imageTitle; source := scrape |}]
       else [])
    hrefs.

Definition discoverFlyerCandidates (s : StoreId) : M DiscoverResult :=
  match s with
  | aoba_oshima =>
      ret {| storeId := s;
             candidates :=
               uniqByUrl
                 [{| kind := image; url := str "https://www.bicrise.com/flyer/ooshima-01.jpg";
                     title := aobaTitle1; source := fixed |};
                  {| kind := image; url := str "https://www.bicrise.com/flyer/ooshima-02.jpg";
                     title := aobaTitle2; source := fixed |}];
             warnings := [] |}
  | itoyokado_kawasaki =>
      let home := STORE_HOME s in
      html <- fetchHtml home ;;
      let hrefs := hrefsOf home html in
      let shufooLinks := filter isShufooLink hrefs in
      let detail := find isDetailLink shufooLinks in
      let listLink := find isListLink shufooLinks in
      match (match detail with Some d => Some d | None => listLink end) with
      | Some picked =>
          ret {| storeId := s;
                 candidates :=
                   uniqByUrl [{| kind := page; url := picked; title := shufooPageTitle;
                                 source := scrape |}];
                 warnings :=
                   shufooDynamic
                   :: match detail, listLink with
                      | None, Some _ => [listOnly]
                      | _, _ => []
                      end |}
      | None =>
          ret {| storeId := s; candidates := uniqByUrl []; warnings := [noFlyerPage] |}
      end
  | life_kawasaki_oshima =>
      let home := STORE_HOME s in
      html <- fetchHtml home ;;
      let found := lifeCandidates (hrefsOf home html) in
      ret {| storeId := s;
             candidates := uniqByUrl found;
             warnings := match found with [] => [lifeDynamic] | _ => [] end |}
  end.

End WithWorld.

(** A store page of Ito-Yokado with a list link and a detail link. *)
Definition shufooStorePage : jsstring :=
  str "<a href='https://asp.shufoo.net/t/asp_iframe/shop/123/list'>all</a>"
  ++ str "<a href='//asp.shufoo.net/t/asp_iframe/shop/123/45678'>this week</a>".

End DiscoverLib.

(* ================================================================== *)
(** * [app/api/flyer/discover/route.ts]: classifying what a page links to *)
(* ================================================================== *)

Module DiscoverRoute.

Import Route Effects Discover.

#[local] Open Scope route_scope.
#[local] Open Scope N_scope.

Record Candidate := {
  kind : DiscoverLib.candidateKind;
  url : jsstring;
  title : jsstring;
  source : DiscoverLib.candidateSource
}.

(** Title of a PDF candidate. *)
Definition pdfCandidateTitle : jsstring :=
  [80; 68; 70; 12481; 12521; 12471; 20505; 35036]%N.

(** Title of an image candidate. *)
Definition imageCandidateTitle : jsstring :=
  [30011; 20687; 12481; 12521; 12471; 20505; 35036]%N.

(** Title of a page candidate. *)
Definition pageCandidateTitle : jsstring :=
  [24215; 33303; 12481; 12521; 12471; 12506; 12540; 12472]%N.

(** Warning: no image address on the Shufoo page. *)
Definition noShufooImage : jsstring :=
  [83; 104; 117; 102; 111; 111; 12506; 12540; 12472; 12363; 12425; 30011;
   20687; 85; 82; 76; 12434; 35211; 12388; 12369; 12425; 12428; 12414; 12379;
   12435; 12391; 12375; 12383; 12290]%N.

(** Head of the warning for a Shufoo page that could not be read. *)
Definition shufooPageFailed : jsstring :=
  [83; 104; 117; 102; 111; 111; 12506; 12540; 12472; 12398; 21462; 24471; 47;
   35299; 26512; 12395; 22833; 25943; 58; 32]%N.

(** [input.replace(/\\u0026/g, '&')]: the six units backslash, u, 0, 0, 2,
    6 become an ampersand. *)
Definition decodeLooseAmp (input : jsstring) : jsstring :=
  replaceAll input (92 :: str "u0026") (str "&").

Definition isImageOrPdf `{CaseApi} (u : jsstring) : bool :=
  let s := toLowerCase u in
  endsWith s (str ".pdf") || endsWith s (str ".jpg") || endsWith s (str ".jpeg")
  || endsWith s (str ".png") || endsWith s (str ".webp").

Definition classifyCandidate `{CaseApi} (url0 : jsstring) : option Candidate :=
  let u := toLowerCase url0 in
  if endsWith u (str ".pdf") then
    Some {| kind := DiscoverLib.pdf; url := url0; title := pdfCandidateTitle;
            source := DiscoverLib.scrape |}
  else if endsWith u (str ".jpg") || endsWith u (str ".jpeg")
          || endsWith u (str ".png") || endsWith u (str ".webp") then
    Some {| kind := DiscoverLib.image; url := url0; title := imageCandidateTitle;
            source := DiscoverLib.scrape |}
  else if includes u (str "shufoo") || includes u (str "chirashi")
          || includes u (str "asp_iframe") then
    Some {| kind := DiscoverLib.page; url := url0; title := pageCandidateTitle;
            source := DiscoverLib.scrape |}
  else None.

(** The map of [uniqByUrl]: every candidate is set under its decoded
    address, with that address as its [url]. *)
Definition byUrl (cands : list Candidate) : JsMap.t Candidate :=
  fold_left
    (fun map c =>
       let key := decodeLooseAmp (url c) in
       JsMap.set map key
         {| kind := kind c; url := key; title := title c; source := source c |})
    cands (JsMap.empty _).

Definition uniqByUrl (cands : list Candidate) : list Candidate :=
  JsMap.values (byUrl cands).

(** The key of a candidate in that map, and the candidate as it is stored. *)
Definition keyOf (c : Candidate) : jsstring := decodeLooseAmp (url c).

Definition rekeyed (c : Candidate) : Candidate :=
  {| kind := kind c; url := keyOf c; title := title c; source := source c |}.

Definition scoreShufooImage `{CaseApi} (u : jsstring) : Z :=
  let s := toLowerCase u in
  let add (cond : bool) (k : Z) (score : Z) : Z := if cond then (score + k)%Z else score in
  add (endsWithImageExt s) 20%Z
    (add (includes s (str "thumb-size=m") || includes s (str "content-width=310")
          || includes s (str "content-height=310")) (-80)%Z
       (add (includes s (str "thumb") || includes s (str "thumbnail")
             || includes s (str "btn") || includes s (str "icon")) (-80)%Z
          (add (includes s (str "shufoo")) 30%Z
             (add (includes s (str "s-cmn.shufoo.net") || includes s (str "cmn.shufoo.net"))
                  80%Z
                (add (includes s (str "og:image") || includes s (str "twitter:image"))
                     30%Z 0%Z))))).

Definition byScore `{CaseApi} (a b : jsstring) : Z := (scoreShufooImage b - scoreShufooImage a)%Z.

Section WithWorld.

Context {U : UrlApi} {C : CaseApi} {W : World} {S : ExtractUrl.Scanner}.

Definition toAbsUrl (raw baseUrl : jsstring) : option jsstring :=
  let s := decodeLooseAmp (decodeHtmlEntities (trim raw)) in
  match resolveUrl s baseUrl with
  | Some u => Some (href u)
  | None => None
  end.

(** The loop of [extractAttrUrls], [extractMetaImages] and
    [extractCssUrls]. *)
Definition absolutizeAll (captures : list jsstring) (baseUrl : jsstring) : list jsstring :=
  flat_map
    (fun m =>
       match toAbsUrl m baseUrl with
       | Some ((_ :: _) as abs) => [abs]
       | _ => []
       end)
    captures.

Definition extractAttrUrls (html baseUrl : jsstring) : list jsstring :=
  absolutizeAll (ExtractUrl.attrCaptures html) baseUrl.

Definition extractMetaImages (html baseUrl : jsstring) : list jsstring :=
  absolutizeAll (ExtractUrl.metaImageCaptures html) baseUrl.

Definition extractCssUrls (html baseUrl : jsstring) : list jsstring :=
  absolutizeAll (ExtractUrl.cssCaptures html) baseUrl.

Definition extractRawUrls (html : jsstring) : list jsstring :=
  List.map (fun u => decodeLooseAmp (decodeHtmlEntities u)) (rawUrlMatches 0 html).

Definition fetchHtml (url0 : jsstring) : M jsstring :=
  res <- send {| verb := GET; target := url0; referer := None |} ;;
  if negb (ok res) then
    lift (Throw (str "fetch failed: " ++ Dec.dec (status res) ++ str " " ++ statusText res))
  else ret (utf8 (body res)).

(** The filter of [tryResolveMainImageFromShufooPage]. *)
Definition isShufooImage (u : jsstring) : bool :=
  let s := toLowerCase u in
  endsWithImageExt s
  && (includes s (str "shufoo.net") || includes s (str "s-cmn.shufoo.net")
      || includes s (str "cmn.shufoo.net")).

(** The result is [imageUrl] and [warnings]. *)
Definition tryResolveMainImageFromShufooPage (pageUrl : jsstring)
  : M (option jsstring * list jsstring) :=
  tryCatch
    (html <- fetchHtml pageUrl ;;
     let metaImgs := extractMetaImages html pageUrl in
     let urls :=
       uniq (metaImgs ++ extractRawUrls html ++ extractAttrUrls html pageUrl
             ++ extractCssUrls html pageUrl) in
     let imgUrls := filter isShufooImage urls in
     match Shufoo.sortBy byScore imgUrls with
     | [] => ret (None, [noShufooImage])
     | best :: _ =>
         ret (Some best,
              if includes (toLowerCase best) (str "thumb")
              then [ExtractUrl.onlyThumbnails] else [])
     end)
    (fun e => ret (None, [shufooPageFailed ++ e])).

End WithWorld.

End DiscoverRoute.

Unset Implicit Arguments.

(* ================================================================== *)
(** * Facts about the string, number and decimal models *)
(* ================================================================== *)

Module ListFacts.

Lemma In_firstn {A} (x : A) n l : In x (firstn n l) -> In x l.
Proof.
  revert l; induction n as [|n IH]; intros [|y l]; simpl; try tauto.
  intros [H|H]; auto.
Qed.

Lemma Some_inj {A} (a b : A) : Some a = Some b -> a = b.
Proof. intros E. injection E. auto. Qed.

End ListFacts.

Module JsFacts.

#[local] Open Scope N_scope.

Lemma eqb_eq a b : Js.eqb a b = true <-> a = b.
Proof.
  revert b; induction a as [|x a IH]; destruct b as [|y b]; simpl;
    try (split; [discriminate | discriminate]); try tauto.
  rewrite andb_true_iff, N.eqb_eq, IH. split.
  - intros [-> ->]; reflexivity.
  - intros E; inversion E; auto.
Qed.

Lemma eqb_refl a : Js.eqb a a = true.
Proof. apply eqb_eq; reflexivity. Qed.

Lemma eqb_neq a b : Js.eqb a b = false <-> a <> b.
Proof.
  split.
  - intros E H. apply eqb_eq in H. congruence.
  - intros H. destruct (Js.eqb a b) eqn:E; auto. apply eqb_eq in E. contradiction.
Qed.

Lemma startsWith_app p r : startsWith (p ++ r) p = true.
Proof. induction p; simpl; auto. rewrite N.eqb_refl; auto. Qed.

Lemma startsWith_iff s p : startsWith s p = true <-> exists r, s = p ++ r.
Proof.
  revert s; induction p as [|y p IH]; intros s; simpl.
  - split; eauto.
  - destruct s as [|x s].
    + split; [discriminate | intros [r E]; discriminate].
    + rewrite andb_true_iff, N.eqb_eq, IH. split.
      * intros [-> [r ->]]. eauto.
      * intros [r E]. inversion E; subst. eauto.
Qed.

Lemma stripPrefix_spec p s r : stripPrefix p s = Some r <-> s = p ++ r.
Proof.
  revert s; induction p as [|y p IH]; intros s; simpl.
  - split; [intros E; inversion E; auto | intros ->; auto].
  - destruct s as [|x s]; [split; discriminate|].
    destruct (N.eqb x y) eqn:E.
    + apply N.eqb_eq in E. subst y. rewrite IH. split.
      * intros ->. reflexivity.
      * intros H. inversion H. reflexivity.
    + apply N.eqb_neq in E. split; [discriminate|].
      intros H. inversion H. contradiction.
Qed.

Lemma stripPrefix_app p r : stripPrefix p (p ++ r) = Some r.
Proof. apply stripPrefix_spec. reflexivity. Qed.

Lemma endsWith_iff s p : endsWith s p = true <-> exists r, s = r ++ p.
Proof.
  unfold endsWith. rewrite startsWith_iff. split; intros [r E].
  - exists (rev r). rewrite <- (rev_involutive s), E, rev_app_distr, rev_involutive.
    reflexivity.
  - exists (rev r). rewrite E, rev_app_distr. reflexivity.
Qed.

Lemma includes_iff s p : includes s p = true <-> exists a b, s = a ++ p ++ b.
Proof.
  induction s as [|x s IH].
  - simpl. rewrite orb_false_r, startsWith_iff. split.
    + intros [r E]. exists [], r. exact E.
    + intros [a [b E]]. destruct a; simpl in E.
      * eauto.
      * discriminate.
  - simpl. rewrite orb_true_iff, startsWith_iff, IH. split.
    + intros [[r E] | [a [b E]]].
      * exists [], r. exact E.
      * exists (x :: a), b. simpl. f_equal. exact E.
    + intros [a [b E]]. destruct a as [|y a]; simpl in E.
      * left. eauto.
      * right. inversion E; subst. eauto.
Qed.

Lemma span_app p s : fst (span p s) ++ snd (span p s) = s.
Proof.
  induction s as [|c s IH]; simpl; auto.
  destruct (p c); simpl; auto.
  destruct (span p s); simpl in *. f_equal; auto.
Qed.

Lemma span_all p s : forallb p (fst (span p s)) = true.
Proof.
  induction s as [|c s IH]; simpl; auto.
  destruct (p c) eqn:E; simpl; auto.
  destruct (span p s); simpl in *. rewrite E; auto.
Qed.

Lemma span_stop p a c r :
  forallb p a = true -> p c = false -> span p (a ++ c :: r) = (a, c :: r).
Proof.
  intros Ha Hc. induction a as [|x a IH]; simpl in *.
  - rewrite Hc; reflexivity.
  - apply andb_true_iff in Ha as [Hx Ha]. rewrite Hx, (IH Ha). reflexivity.
Qed.

(** The run [a] ends where [b] begins when [b] is empty or starts with a
    unit outside the class. *)
Lemma span_stop_app p a b :
  forallb p a = true ->
  match b with [] => true | c :: _ => negb (p c) end = true ->
  span p (a ++ b) = (a, b).
Proof.
  intros Ha Hb. induction a as [|x a IH]; simpl in *.
  - destruct b as [|c b]; simpl; auto.
    apply negb_true_iff in Hb. rewrite Hb. reflexivity.
  - apply andb_true_iff in Ha as [Hx Ha]. rewrite Hx, (IH Ha). reflexivity.
Qed.

Lemma noSlash_app a b : noSlash (a ++ b) = noSlash a && noSlash b.
Proof. unfold noSlash. apply forallb_app. Qed.

Lemma span_end p a : forallb p a = true -> span p a = (a, []).
Proof.
  intros Ha. induction a as [|x a IH]; simpl in *; auto.
  apply andb_true_iff in Ha as [Hx Ha]. rewrite Hx, (IH Ha). reflexivity.
Qed.

End JsFacts.

Import JsFacts.

Module NumFacts.

Lemma roundDouble_small n : (n < 2 ^ 53)%N -> roundDouble n = Some n.
Proof.
  intros H. unfold roundDouble.
  destruct (N.eq_dec n 0) as [->|Hn]; [reflexivity|].
  assert (N.size n <= 53)%N as Hs.
  { rewrite N.size_log2 by assumption.
    assert (N.log2 n < 53)%N by (apply N.log2_lt_pow2; lia). lia. }
  apply N.leb_le in Hs. rewrite Hs. reflexivity.
Qed.

Lemma succDouble_exact n : (n + 1 < 2 ^ 53)%N -> Num.succDouble n = Some (n + 1)%N.
Proof. intros H. apply roundDouble_small. exact H. Qed.

End NumFacts.

Module DecFacts.

#[local] Open Scope N_scope.

Lemma decFuel_acc fuel : forall n acc, decFuel fuel n acc = decFuel fuel n [] ++ acc.
Proof.
  induction fuel as [|f IH]; intros n acc; simpl; auto.
  destruct (n <? 10); auto.
  rewrite (IH _ (_ :: acc)), (IH _ [_]), <- app_assoc. reflexivity.
Qed.

Lemma digitsValue_snoc a d : digitsValue (a ++ [d]) = 10 * digitsValue a + (d - 48).
Proof. unfold digitsValue. rewrite fold_left_app. reflexivity. Qed.

Lemma size_nat_div10 n : 10 <= n -> (N.size_nat (n / 10) < N.size_nat n)%nat.
Proof.
  intros H. destruct n as [|p]; [lia|].
  destruct (N.pos p / 10) as [|q] eqn:E.
  - destruct p; simpl; lia.
  - assert (N.pos q~0 <= N.pos p) as Hle.
    { change (N.pos q~0) with (2 * N.pos q). rewrite <- E.
      pose proof (N.Div0.mul_div_le (N.pos p) 10). lia. }
    destruct (Pos.eq_dec (q~0) p) as [<-|Hne]; [simpl; lia|].
    assert (q~0 < p)%positive as Hlt by lia.
    apply Pos.size_nat_monotone in Hlt. simpl in *. lia.
Qed.

Lemma digitsValue_decFuel fuel : forall n,
  (N.size_nat n < fuel)%nat -> digitsValue (decFuel fuel n []) = n.
Proof.
  induction fuel as [|f IH]; intros n Hf; [lia|].
  simpl. destruct (n <? 10) eqn:E.
  - apply N.ltb_lt in E. unfold digitsValue; simpl.
    rewrite N.mod_small by assumption. clear IH. lia.
  - apply N.ltb_ge in E.
    rewrite decFuel_acc, digitsValue_snoc, IH.
    + rewrite (N.add_comm 48), N.add_sub. symmetry. apply N.Div0.div_mod.
    + pose proof (size_nat_div10 _ E). lia.
Qed.

(** Reading back the digits gives the number: [dec] is injective. *)
Lemma digitsValue_dec n : digitsValue (dec n) = n.
Proof. apply digitsValue_decFuel. lia. Qed.

Lemma dec_inj a b : dec a = dec b -> a = b.
Proof. intros E. rewrite <- (digitsValue_dec a), E. apply digitsValue_dec. Qed.

Lemma decFuel_digits fuel : forall n acc,
  forallb isDigit acc = true -> forallb isDigit (decFuel fuel n acc) = true.
Proof.
  induction fuel as [|f IH]; intros n acc H; simpl; auto.
  assert (isDigit (48 + n mod 10) = true) as Hd.
  { unfold isDigit. assert (n mod 10 < 10) as Hm by (apply N.mod_upper_bound; discriminate).
    revert Hm. generalize (n mod 10). intros m Hm.
    apply andb_true_iff; split; apply N.leb_le; lia. }
  destruct (n <? 10).
  - simpl. rewrite Hd; auto.
  - apply IH. simpl. rewrite Hd; auto.
Qed.

Lemma dec_digits n : forallb isDigit (dec n) = true.
Proof. apply decFuel_digits. reflexivity. Qed.

End DecFacts.

Import DecFacts.

(* ================================================================== *)
(** * Item normalisation (app/lib/flyer.ts) *)
(* ================================================================== *)

Module FlyerFacts.

Lemma ofDigits_integer ds :
  Num.isFinite (Num.ofDigits ds) = true -> Num.isInteger (Num.ofDigits ds).
Proof.
  unfold Num.ofDigits, Num.digitsNumber. destruct (Num.roundDouble (Num.digitsValue ds)) as [v|]; simpl.
  - intros _. exists (Z.of_N v). reflexivity.
  - discriminate.
Qed.

Lemma optionalString_nonempty v s : optionalString v = Some s -> s <> [].
Proof.
  unfold optionalString. destruct (trimmedString v); intros E; inversion E; discriminate.
Qed.

Lemma normalizeFlyerItem_inv raw it :
  normalizeFlyerItem raw = Some it ->
  exists fs,
    objectFields raw = Some fs /\
    name it = trimmedString (getField fs (str "name")) /\
    name it <> [] /\
    priceYen it = toNumberPrice (priceField fs) /\
    Num.isFinite (priceYen it) = true /\
    Num.leZero (priceYen it) = false /\
    category it =
      match optionalString (getField fs (str "category")) with
      | Some c => c
      | None => otherCategory
      end.
Proof.
  unfold normalizeFlyerItem.
  destruct (objectFields raw) as [fs|]; [|discriminate].
  destruct (trimmedString (getField fs (str "name"))) as [|c n] eqn:En; [discriminate|].
  destruct (negb (Num.isFinite (toNumberPrice (priceField fs)))
            || Num.leZero (toNumberPrice (priceField fs))) eqn:Ep; [discriminate|].
  apply orb_false_iff in Ep as [Hf Hz]. apply negb_false_iff in Hf.
  intros E; inversion E; subst; clear E; simpl.
  exists fs. repeat split; auto. discriminate.
Qed.

Lemma normalizeFlyerItem_drop fs :
  Num.isFinite (toNumberPrice (priceField fs)) = false \/
  Num.leZero (toNumberPrice (priceField fs)) = true ->
  forall raw, objectFields raw = Some fs -> normalizeFlyerItem raw = None.
Proof.
  intros H raw Hr. unfold normalizeFlyerItem. rewrite Hr.
  destruct (trimmedString (getField fs (str "name"))); [reflexivity|].
  destruct H as [H|H]; rewrite H; simpl; [reflexivity|].
  rewrite orb_true_r. reflexivity.
Qed.

End FlyerFacts.

Import FlyerFacts.

(* ================================================================== *)
(** * Facts about [Map] *)
(* ================================================================== *)

Module JsMapFacts.

Section WithValue.

Variable V : Type.

Implicit Types (m : JsMap.t V) (k : jsstring) (v : V).

Lemma get_set_same m k v : JsMap.get (JsMap.set m k v) k = Some v.
Proof.
  induction m as [|[k' v'] m IH]; simpl.
  - rewrite eqb_refl. reflexivity.
  - destruct (Js.eqb k' k) eqn:E; simpl; rewrite E; auto.
Qed.

Lemma get_set_other m k k' v :
  k <> k' -> JsMap.get (JsMap.set m k v) k' = JsMap.get m k'.
Proof.
  intros Hne. induction m as [|[k0 v0] m IH]; simpl.
  - apply eqb_neq in Hne. rewrite Hne. reflexivity.
  - destruct (Js.eqb k0 k) eqn:E; simpl.
    + apply eqb_eq in E. subst k0. apply eqb_neq in Hne. rewrite Hne. reflexivity.
    + rewrite IH. reflexivity.
Qed.

Lemma get_set m k k' v :
  JsMap.get (JsMap.set m k v) k' = if Js.eqb k k' then Some v else JsMap.get m k'.
Proof.
  destruct (Js.eqb k k') eqn:E.
  - apply eqb_eq in E. subst. apply get_set_same.
  - apply eqb_neq in E. apply get_set_other. exact E.
Qed.

Lemma keys_set_present m k v :
  In k (JsMap.keys m) -> JsMap.keys (JsMap.set m k v) = JsMap.keys m.
Proof.
  induction m as [|[k0 v0] m IH]; simpl; [contradiction|].
  intros H. destruct (Js.eqb k0 k) eqn:E; simpl; [reflexivity|].
  f_equal. apply IH. destruct H as [H|H]; auto.
  apply eqb_neq in E. contradiction.
Qed.

Lemma keys_set_absent m k v :
  ~ In k (JsMap.keys m) -> JsMap.keys (JsMap.set m k v) = JsMap.keys m ++ [k].
Proof.
  induction m as [|[k0 v0] m IH]; simpl; [reflexivity|].
  intros H. destruct (Js.eqb k0 k) eqn:E; simpl.
  - apply eqb_eq in E. tauto.
  - f_equal. apply IH. tauto.
Qed.

Lemma keys_set_NoDup m k v :
  NoDup (JsMap.keys m) -> NoDup (JsMap.keys (JsMap.set m k v)).
Proof.
  intros H. destruct (in_dec (list_eq_dec N.eq_dec) k (JsMap.keys m)) as [Hin|Hout].
  - rewrite keys_set_present; auto.
  - rewrite keys_set_absent by assumption.
    apply NoDup_rev in H. rewrite <- (rev_involutive (_ ++ _)), rev_app_distr.
    apply NoDup_rev. simpl. constructor; auto.
    rewrite <- in_rev. exact Hout.
Qed.

Lemma get_In m k v :
  NoDup (JsMap.keys m) -> (JsMap.get m k = Some v <-> In (k, v) m).
Proof.
  induction m as [|[k0 v0] m IH]; simpl; intros Hnd.
  - split; [discriminate | contradiction].
  - inversion Hnd as [|? ? Hnotin Hnd']; subst.
    destruct (Js.eqb k0 k) eqn:E.
    + apply eqb_eq in E. subst k0. split.
      * intros H; inversion H; auto.
      * intros [H|H]; [inversion H; auto|].
        exfalso. apply Hnotin. apply (in_map fst) in H. exact H.
    + apply eqb_neq in E. rewrite IH by assumption. split; auto.
      intros [H|H]; auto. inversion H; contradiction.
Qed.

End WithValue.

End JsMapFacts.

(* ================================================================== *)
(** * Facts about the dedup key *)
(* ================================================================== *)

Module KeyFacts.

#[local] Open Scope N_scope.

Ltac bool_to_prop :=
  repeat match goal with
  | H : _ || _ = true |- _ => apply orb_true_iff in H; destruct H as [H|H]
  | H : _ && _ = true |- _ => apply andb_true_iff in H; destruct H
  | H : (_ <=? _) = true |- _ => apply N.leb_le in H
  | H : (_ =? _) = true |- _ => apply N.eqb_eq in H
  | H : false = true |- _ => discriminate H
  end.

Ltac lower_fixed :=
  unfold lowerUnit;
  repeat match goal with
  | |- context [?a <=? ?b] =>
      let E := fresh in destruct (a <=? b) eqn:E;
      [apply N.leb_le in E | apply N.leb_gt in E]
  end; simpl; try reflexivity; try lia.

Lemma lowerUnit_space c : isSpace c = true -> lowerUnit c = c.
Proof. unfold isSpace. intros H. bool_to_prop; lower_fixed. Qed.

Lemma lowerUnit_punct c : isKeyPunct c = true -> lowerUnit c = c.
Proof.
  unfold isKeyPunct. simpl. intros H. rewrite orb_false_r in H.
  bool_to_prop; subst; reflexivity.
Qed.

Lemma norm_cons c s :
  @norm referenceCase (c :: s) =
  if isSpace (lowerUnit c) then @norm referenceCase s
  else if isKeyPunct (lowerUnit c) then @norm referenceCase s
  else lowerUnit c :: @norm referenceCase s.
Proof.
  unfold norm, toLowerCase, referenceCase. simpl.
  destruct (isSpace (lowerUnit c)); simpl; auto.
  destruct (isKeyPunct (lowerUnit c)); simpl; auto.
Qed.

Lemma norm_skip c s :
  isSpace c = true \/ isKeyPunct c = true ->
  @norm referenceCase (c :: s) = @norm referenceCase s.
Proof.
  intros [H|H]; rewrite norm_cons.
  - rewrite (lowerUnit_space _ H), H. reflexivity.
  - rewrite (lowerUnit_punct _ H), H. destruct (isSpace c); reflexivity.
Qed.

(** Texts that differ only by case, white space and key punctuation have
    the same normal form when they are lower-cased unit by unit. *)
Lemma sameModuloLayout_flat a b :
  sameModuloLayout a b -> @norm referenceCase a = @norm referenceCase b.
Proof.
  induction 1 as [|c d a b Hcd _ IH|c a b Hc _ IH|c a b Hc _ IH].
  - reflexivity.
  - rewrite !norm_cons, Hcd, IH. reflexivity.
  - rewrite (norm_skip _ _ Hc). exact IH.
  - rewrite (norm_skip _ _ Hc). exact IH.
Qed.

(** The engine lower-cases text of plain units unit by unit. *)
Lemma referenceCase_laws : CaseLaws referenceCase.
Proof. constructor. reflexivity. Qed.

Lemma norm_plain (C : CaseApi) (L : CaseLaws C) s :
  forallb isPlainUnit s = true -> @norm C s = @norm referenceCase s.
Proof.
  intros Hs. unfold norm. rewrite (toLowerCase_plain s Hs). reflexivity.
Qed.

Lemma sameModuloLayout_norm (C : CaseApi) (L : CaseLaws C) a b :
  forallb isPlainUnit a = true -> forallb isPlainUnit b = true ->
  sameModuloLayout a b -> norm a = norm b.
Proof.
  intros Ha Hb H. rewrite (norm_plain C L a Ha), (norm_plain C L b Hb).
  apply sameModuloLayout_flat. exact H.
Qed.

Lemma sameModuloLayout_refl a : sameModuloLayout a a.
Proof. induction a; constructor; auto. Qed.

Lemma sameModuloLayout_sym a b : sameModuloLayout a b -> sameModuloLayout b a.
Proof. induction 1; constructor; auto. Qed.

Section WithPrinter.

Context `{CaseApi} `{NumberPrinter}.

Lemma dedupMap_snoc items it :
  dedupMap (items ++ [it]) = JsMap.set (dedupMap items) (makeDedupKey it) it.
Proof. unfold dedupMap. rewrite fold_left_app. reflexivity. Qed.

Lemma dedupMap_NoDup items : NoDup (JsMap.keys (dedupMap items)).
Proof.
  induction items as [|it items IH] using rev_ind.
  - constructor.
  - rewrite dedupMap_snoc. apply JsMapFacts.keys_set_NoDup. exact IH.
Qed.

(** The entry under a key is the last accumulated item with that key. *)
Lemma dedupMap_get items k :
  JsMap.get (dedupMap items) k =
  find (fun it => Js.eqb (makeDedupKey it) k) (rev items).
Proof.
  induction items as [|it items IH] using rev_ind.
  - reflexivity.
  - rewrite dedupMap_snoc, JsMapFacts.get_set, rev_app_distr. simpl.
    destruct (Js.eqb (makeDedupKey it) k); auto.
Qed.

(** Every accumulated item is represented in the result by an item with
    the same key. *)
Lemma dedupItems_covers items it :
  In it items ->
  exists it', In it' (dedupItems items) /\ makeDedupKey it' = makeDedupKey it.
Proof.
  intros Hin.
  destruct (find (fun x => Js.eqb (makeDedupKey x) (makeDedupKey it)) (rev items))
    as [it'|] eqn:Ef.
  - exists it'. pose proof Ef as Ef'. apply find_some in Ef' as [_ Hk].
    apply eqb_eq in Hk. split; [|exact Hk].
    rewrite <- dedupMap_get in Ef.
    apply (JsMapFacts.get_In _ _ _ _ (dedupMap_NoDup items)) in Ef.
    unfold dedupItems, JsMap.values. apply in_map_iff. exists (makeDedupKey it, it').
    split; auto.
  - exfalso. pose proof (find_none _ _ Ef it) as Hn. cbv beta in Hn.
    rewrite eqb_refl in Hn. rewrite <- in_rev in Hn.
    specialize (Hn Hin). discriminate.
Qed.

End WithPrinter.

End KeyFacts.

(* ================================================================== *)
(** * Facts about tiling *)
(* ================================================================== *)

Module TilingFacts.

Import Tiling.

#[local] Open Scope Z_scope.

Section Grid.

Variables (w h : Z) (pageIndex0 : nat) (tileSize overlap maxTilesTotal : Z).

Hypothesis w_pos : 0 < w.
Hypothesis h_pos : 0 < h.

Abbreviation s := (step tileSize overlap).
Abbreviation ncols := (cols w tileSize overlap).
Abbreviation nrows := (rows h tileSize overlap).

Lemma step_pos : 1 <= s.
Proof. unfold step. lia. Qed.

(** Column [c] exists exactly when its origin lies inside the bitmap. *)
Lemma count_spec (len : Z) (c : nat) :
  0 < len ->
  (c < Z.to_nat ((len + s - 1) / s))%nat <-> Z.of_nat c * s < len.
Proof.
  intros Hlen. pose proof step_pos as Hs.
  assert (0 <= (len + s - 1) / s) as Hq by (apply Z.div_pos; lia).
  split; intros H.
  - assert (Z.of_nat c + 1 <= (len + s - 1) / s) as H1 by lia.
    pose proof (Z.mul_div_le (len + s - 1) s ltac:(lia)) as H2.
    nia.
  - assert (Z.of_nat c < (len + s - 1) / s); [|lia].
    destruct (Z_lt_le_dec (Z.of_nat c) ((len + s - 1) / s)) as [|Hge]; auto.
    exfalso.
    pose proof (Z.mod_pos_bound (len + s - 1) s ltac:(lia)) as H4.
    pose proof (Z.div_mod (len + s - 1) s ltac:(lia)) as H5.
    nia.
Qed.

Lemma cols_spec c : (c < ncols)%nat <-> Z.of_nat c * s < w.
Proof. apply count_spec. exact w_pos. Qed.

Lemma rows_spec r : (r < nrows)%nat <-> Z.of_nat r * s < h.
Proof. apply count_spec. exact h_pos. Qed.

Lemma cols_pos : (0 < ncols)%nat.
Proof. apply cols_spec. simpl. exact w_pos. Qed.

Lemma rows_pos : (0 < nrows)%nat.
Proof. apply rows_spec. simpl. exact h_pos. Qed.

(** Tiles of one row from column [c] on, numbered from [idx]. *)
Definition rowFrom (top0 : Z) (c idx k : nat) : list Tile :=
  List.map (fun j => gridTile w h pageIndex0 tileSize overlap top0 (idx - c) (c + j))
           (seq 0 k).

Lemma rowFrom_length top0 c idx k : List.length (rowFrom top0 c idx k) = k.
Proof. unfold rowFrom. rewrite length_map, length_seq. reflexivity. Qed.

Lemma rowFrom_S top0 c idx k :
  (c <= idx)%nat ->
  rowFrom top0 c idx (S k) =
  gridTile w h pageIndex0 tileSize overlap top0 (idx - c) c
  :: rowFrom top0 (S c) (S idx) k.
Proof.
  intros Hc. unfold rowFrom. simpl. rewrite Nat.add_0_r. f_equal.
  rewrite <- seq_shift, map_map. apply map_ext. intros j.
  replace (S idx - S c)%nat with (idx - c)%nat by lia.
  f_equal. lia.
Qed.

(** Tiles still allowed once [n] are present: the test
    [tiles.length >= maxTilesTotal] comes after a push, so at least one. *)
Definition room (n : nat) : nat := Z.to_nat (Z.max 1 (maxTilesTotal - Z.of_nat n)).

Definition flowOf {A} (returned : bool) (a : A) : flow A :=
  if returned then Return a else Continue a.

Lemma leftLoop_spec top0 : forall fuel c acc idx,
  w - Z.of_nat c * s <= Z.of_nat fuel ->
  (c <= ncols)%nat ->
  (c <= idx)%nat ->
  let k := (ncols - c)%nat in
  let r := room (List.length acc) in
  leftLoop w h pageIndex0 tileSize overlap maxTilesTotal fuel top0 (Z.of_nat c * s) (acc, idx) =
  flowOf ((0 <? k)%nat && (r <=? k)%nat)
         (acc ++ firstn r (rowFrom top0 c idx k), (idx + Nat.min r k)%nat).
Proof.
  pose proof step_pos as Hs.
  induction fuel as [|fuel IH]; intros c acc idx Hfuel Hc Hidx k r.
  - (* no fuel: the origin is already outside *)
    assert (~ (c < ncols)%nat) as Hout by (rewrite cols_spec; lia).
    assert (k = 0%nat) as -> by (unfold k; lia).
    simpl. rewrite firstn_nil, app_nil_r, Nat.min_0_r, Nat.add_0_r. reflexivity.
  - cbn [leftLoop]. destruct (Z.of_nat c * s <? w) eqn:Elt.
    + apply Z.ltb_lt in Elt. assert (c < ncols)%nat as Hin by (apply cols_spec; exact Elt).
      destruct k as [|k'] eqn:Ek; [unfold k in Ek; lia|].
      rewrite rowFrom_S by assumption.
      set (t := gridTile w h pageIndex0 tileSize overlap top0 (idx - c) c).
      assert ({| buf := {| left := Z.of_nat c * s; top := top0;
                           width := Z.min tileSize (w - Z.of_nat c * s);
                           height := Z.min tileSize (h - top0) |};
                 pageIndex := pageIndex0; tileIndexInPage := idx |} = t) as Et.
      { unfold t, gridTile. f_equal. lia. }
      cbn [fst snd]. rewrite Et, length_app. cbn [List.length].
      destruct (maxTilesTotal <=? Z.of_nat (List.length acc + 1)) eqn:Emax.
      * apply Z.leb_le in Emax.
        assert (r = 1%nat) as -> by (unfold r, room; lia).
        simpl. replace (idx + 1)%nat with (S idx) by lia. reflexivity.
      * apply Z.leb_gt in Emax.
        assert (r = S (room (List.length acc + 1))) as Er by (unfold r, room; lia).
        replace (Z.of_nat c * s + s) with (Z.of_nat (S c) * s) by lia.
        rewrite IH; try lia.
        replace (ncols - S c)%nat with k' by (unfold k in Ek; lia).
        rewrite length_app. cbn [List.length].
        rewrite Er. cbn [firstn]. rewrite <- app_assoc. cbn [app].
        set (r' := room (List.length acc + 1)).
        assert (((0 <? k')%nat && (r' <=? k')%nat) =
                ((0 <? S k')%nat && (S r' <=? S k')%nat)) as ->.
        { cbn [Nat.ltb Nat.leb]. destruct k'; simpl; auto.
          assert (1 <= r')%nat by (unfold r', room; lia).
          destruct r'; [lia|]. reflexivity. }
        replace (S idx + Nat.min r' k')%nat with (idx + Nat.min (S r') (S k'))%nat
          by (simpl; lia).
        reflexivity.
    + apply Z.ltb_ge in Elt.
      assert (~ (c < ncols)%nat) as Hout by (rewrite cols_spec; lia).
      assert (k = 0%nat) as -> by (unfold k; lia).
      simpl. rewrite firstn_nil, app_nil_r, Nat.min_0_r, Nat.add_0_r. reflexivity.
Qed.

(** Rows from [r0] on. *)
Definition rowsFrom (r0 k : nat) : list Tile :=
  flat_map (gridRow w h pageIndex0 tileSize overlap) (seq r0 k).

Lemma gridRow_rowFrom r :
  gridRow w h pageIndex0 tileSize overlap r =
  rowFrom (Z.of_nat r * s) 0 (r * ncols) ncols.
Proof.
  unfold gridRow, rowFrom. apply map_ext. intros j.
  rewrite Nat.sub_0_r. reflexivity.
Qed.

Lemma gridRow_length r :
  List.length (gridRow w h pageIndex0 tileSize overlap r) = ncols.
Proof. rewrite gridRow_rowFrom. apply rowFrom_length. Qed.

Lemma topLoop_spec : forall fuel r0 acc,
  h - Z.of_nat r0 * s <= Z.of_nat fuel ->
  (r0 <= nrows)%nat ->
  topLoop w h pageIndex0 tileSize overlap maxTilesTotal fuel (Z.of_nat r0 * s)
          (acc, (r0 * ncols)%nat) =
  acc ++ firstn (room (List.length acc)) (rowsFrom r0 (nrows - r0)).
Proof.
  pose proof step_pos as Hs. pose proof cols_pos as Hcols.
  induction fuel as [|fuel IH]; intros r0 acc Hfuel Hr.
  - assert (~ (r0 < nrows)%nat) as Hout by (rewrite rows_spec; lia).
    replace (nrows - r0)%nat with 0%nat by lia.
    unfold rowsFrom. simpl. rewrite firstn_nil, app_nil_r. reflexivity.
  - cbn [topLoop]. destruct (Z.of_nat r0 * s <? h) eqn:Elt.
    + apply Z.ltb_lt in Elt. assert (r0 < nrows)%nat as Hin by (apply rows_spec; exact Elt).
      pose proof (leftLoop_spec (Z.of_nat r0 * s) (Z.to_nat w) 0 acc (r0 * ncols)) as HL.
      simpl Z.of_nat in HL. rewrite Z.mul_0_l in HL.
      rewrite HL by lia. clear HL.
      rewrite Nat.sub_0_r, <- gridRow_rowFrom.
      destruct (nrows - r0)%nat as [|k'] eqn:Ek; [lia|].
      unfold rowsFrom. cbn [seq flat_map]. fold (rowsFrom (S r0) k').
      set (row := gridRow w h pageIndex0 tileSize overlap r0).
      assert (List.length row = ncols) as Hlen by apply gridRow_length.
      set (r := room (List.length acc)).
      assert ((0 <? ncols)%nat = true) as -> by (apply Nat.ltb_lt; lia).
      cbn [andb]. destruct (r <=? ncols)%nat eqn:Er.
      * apply Nat.leb_le in Er. unfold flowOf. cbn [fst].
        rewrite firstn_app. replace (r - List.length row)%nat with 0%nat by lia.
        rewrite firstn_0, app_nil_r. reflexivity.
      * apply Nat.leb_gt in Er. unfold flowOf.
        replace (r0 * ncols + Nat.min r ncols)%nat with (S r0 * ncols)%nat by lia.
        replace (Z.of_nat r0 * s + s) with (Z.of_nat (S r0) * s) by lia.
        rewrite firstn_all2 by lia.
        rewrite IH by lia.
        replace (nrows - S r0)%nat with k' by lia.
        rewrite firstn_app, (firstn_all2 row) by lia.
        rewrite <- app_assoc. f_equal. f_equal. f_equal.
        rewrite length_app, Hlen. unfold r, room in *. lia.
    + apply Z.ltb_ge in Elt.
      assert (~ (r0 < nrows)%nat) as Hout by (rewrite rows_spec; lia).
      replace (nrows - r0)%nat with 0%nat by lia.
      unfold rowsFrom. simpl. rewrite firstn_nil, app_nil_r. reflexivity.
Qed.

(** The loops produce the row-major grid, cut after the budget (at least
    one tile). *)
Lemma tileImagePng_grid :
  tileImagePng w h pageIndex0 tileSize overlap maxTilesTotal =
  firstn (Z.to_nat (Z.max 1 maxTilesTotal))
         (gridTiles w h pageIndex0 tileSize overlap).
Proof.
  unfold tileImagePng.
  assert ((w =? 0) = false) as -> by (apply Z.eqb_neq; lia).
  assert ((h =? 0) = false) as -> by (apply Z.eqb_neq; lia).
  cbn [orb].
  pose proof (topLoop_spec (Z.to_nat h) 0 []) as H.
  simpl in H. rewrite H by lia. unfold room. simpl.
  rewrite Z.sub_0_r, Nat.sub_0_r. reflexivity.
Qed.

(** Every tile of the grid: its origin is a multiple of the step, its size
    is positive and at most the window, it is clipped exactly at the edge
    and lies inside the bitmap. *)
Lemma gridTiles_inside t :
  0 < tileSize ->
  In t (gridTiles w h pageIndex0 tileSize overlap) ->
  exists r c : nat,
    (r < nrows)%nat /\ (c < ncols)%nat /\
    left (buf t) = Z.of_nat c * s /\ top (buf t) = Z.of_nat r * s /\
    width (buf t) = Z.min tileSize (w - left (buf t)) /\
    height (buf t) = Z.min tileSize (h - top (buf t)) /\
    0 < width (buf t) <= tileSize /\ 0 < height (buf t) <= tileSize /\
    left (buf t) + width (buf t) <= w /\ top (buf t) + height (buf t) <= h /\
    pageIndex t = pageIndex0 /\ tileIndexInPage t = (r * ncols + c)%nat.
Proof.
  intros Hts Hin. unfold gridTiles in Hin.
  apply in_flat_map in Hin as [r [Hr Hin]].
  apply in_seq in Hr. unfold gridRow in Hin.
  apply in_map_iff in Hin as [c [<- Hc]]. apply in_seq in Hc.
  exists r, c. simpl.
  assert (r < nrows)%nat as Hr' by lia. assert (c < ncols)%nat as Hc' by lia.
  apply rows_spec in Hr'. apply cols_spec in Hc'.
  repeat split; try lia.
Qed.

End Grid.

End TilingFacts.

(* ================================================================== *)
(** * Facts about the batch loop *)
(* ================================================================== *)

Module BatchFacts.

Import Batch.

Lemma startsWith_app_same p a b : startsWith (p ++ a) (p ++ b) = startsWith a b.
Proof. induction p as [|x p IH]; simpl; auto. rewrite N.eqb_refl. exact IH. Qed.

(** A digit run followed by a slash determines the run. *)
Lemma digits_slash_inj a b r1 r2 :
  forallb isDigit a = true -> forallb isDigit b = true ->
  a ++ str "/" ++ r1 = b ++ str "/" ++ r2 -> a = b.
Proof.
  intros Ha Hb E.
  pose proof (span_stop isDigit a 47%N r1 Ha eq_refl) as E1.
  pose proof (span_stop isDigit b 47%N r2 Hb eq_refl) as E2.
  change (str "/" ++ r1) with (47%N :: r1) in E.
  change (str "/" ++ r2) with (47%N :: r2) in E.
  rewrite E, E2 in E1. inversion E1. reflexivity.
Qed.

Lemma namesTile_tileWarning k i n message :
  namesTile k n (tileWarning i n message) = Nat.eqb k (i + 1).
Proof.
  unfold namesTile, tileWarning. rewrite startsWith_app_same.
  destruct (Nat.eqb k (i + 1)) eqn:E.
  - apply Nat.eqb_eq in E. subst k.
    rewrite !startsWith_app_same. reflexivity.
  - apply Nat.eqb_neq in E.
    destruct (startsWith _ _) eqn:Es; [exfalso|reflexivity].
    apply startsWith_iff in Es as [r Er]. rewrite <- !app_assoc in Er.
    apply digits_slash_inj in Er; try apply dec_digits.
    apply dec_inj in Er. lia.
Qed.

Section Loop.

Variables (callGeminiForTile : capability) (mode : extractMode).

Lemma pushNormalized_spec itemsRaw : forall acc,
  pushNormalized acc itemsRaw = acc ++ normalizedItems itemsRaw.
Proof.
  induction itemsRaw as [|r rest IH]; intros acc; simpl.
  - rewrite app_nil_r. reflexivity.
  - destruct (normalizeFlyerItem r); rewrite IH; [rewrite <- app_assoc|]; reflexivity.
Qed.

(** The loop never stops early: the final state is the initial one
    extended by the contribution of every tile. *)
Lemma tileLoop_spec n : forall tiles i st,
  tileLoop callGeminiForTile mode n i tiles st =
  {| allItems := allItems st ++ itemsFrom callGeminiForTile mode n i tiles;
     warnings := warnings st ++ warningsFrom callGeminiForTile mode n i tiles |}.
Proof.
  induction tiles as [|t rest IH]; intros i st; simpl.
  - rewrite !app_nil_r. destruct st; reflexivity.
  - rewrite IH. destruct (callGeminiForTile t (i + 1) n mode); simpl.
    + rewrite pushNormalized_spec, <- app_assoc. reflexivity.
    + rewrite <- app_assoc. reflexivity.
Qed.

Lemma itemsFrom_returned n : forall tiles i j t itemsRaw,
  nth_error tiles j = Some t ->
  callGeminiForTile t (i + j + 1) n mode = Returned itemsRaw ->
  incl (normalizedItems itemsRaw) (itemsFrom callGeminiForTile mode n i tiles).
Proof.
  induction tiles as [|t0 rest IH]; intros i j t itemsRaw Hnth Hcall.
  - destruct j; discriminate.
  - destruct j as [|j]; simpl in *.
    + inversion Hnth; subst t0. rewrite Nat.add_0_r in Hcall. rewrite Hcall.
      apply incl_appl, incl_refl.
    + apply incl_appr. apply (IH (S i) j t); auto.
      replace (S i + j + 1) with (i + S j + 1) by lia. exact Hcall.
Qed.

Lemma countNaming_app k n a b :
  countNaming k n (a ++ b) = countNaming k n a + countNaming k n b.
Proof. unfold countNaming. rewrite filter_app, length_app. reflexivity. Qed.

Lemma warningsFrom_later n k : forall tiles i,
  k <= i -> countNaming k n (warningsFrom callGeminiForTile mode n i tiles) = 0.
Proof.
  induction tiles as [|t rest IH]; intros i Hk; simpl; auto.
  rewrite countNaming_app, IH by lia.
  destruct (callGeminiForTile t (i + 1) n mode); simpl; auto.
  unfold countNaming. simpl. rewrite namesTile_tileWarning.
  assert (Nat.eqb k (i + 1) = false) as -> by (apply Nat.eqb_neq; lia).
  reflexivity.
Qed.

(** The warnings of the loop name tile [i + j + 1] once when its call threw
    and not at all when it returned. *)
Lemma warningsFrom_count n : forall tiles i j t,
  nth_error tiles j = Some t ->
  countNaming (i + j + 1) n (warningsFrom callGeminiForTile mode n i tiles) =
  match callGeminiForTile t (i + j + 1) n mode with
  | Threw _ => 1
  | Returned _ => 0
  end.
Proof.
  induction tiles as [|t0 rest IH]; intros i j t Hnth.
  - destruct j; discriminate.
  - destruct j as [|j]; simpl in *.
    + inversion Hnth; subst t0. rewrite Nat.add_0_r.
      rewrite countNaming_app, warningsFrom_later by lia.
      destruct (callGeminiForTile t (i + 1) n mode); simpl; auto.
      unfold countNaming. simpl. rewrite namesTile_tileWarning, Nat.eqb_refl.
      reflexivity.
    + rewrite countNaming_app.
      replace (i + S j + 1) with (S i + j + 1) by lia.
      rewrite (IH (S i) j t Hnth).
      destruct (callGeminiForTile t0 (i + 1) n mode); simpl; auto.
      unfold countNaming. simpl. rewrite namesTile_tileWarning.
      match goal with
      | |- context [Nat.eqb ?a ?b] =>
          assert (Nat.eqb a b = false) as -> by (apply Nat.eqb_neq; lia)
      end.
      reflexivity.
Qed.

Lemma warningsFrom_threw n : forall tiles i j t message,
  nth_error tiles j = Some t ->
  callGeminiForTile t (i + j + 1) n mode = Threw message ->
  In (tileWarning (i + j) n message) (warningsFrom callGeminiForTile mode n i tiles).
Proof.
  induction tiles as [|t0 rest IH]; intros i j t message Hnth Hcall.
  - destruct j; discriminate.
  - destruct j as [|j]; simpl in *.
    + inversion Hnth; subst t0. rewrite Nat.add_0_r in *. rewrite Hcall.
      left. reflexivity.
    + apply in_or_app. right.
      replace (i + S j) with (S i + j) by lia.
      apply (IH (S i) j t); auto.
      replace (S i + j + 1) with (i + S j + 1) by lia. exact Hcall.
Qed.

End Loop.

End BatchFacts.

(* ================================================================== *)
(** * Facts about tile grids *)
(* ================================================================== *)

Module ShufooFacts.

Import Shufoo.

Lemma insertBy_In {A} (cmp : A -> A -> Z) (x y : A) l :
  In y (insertBy cmp x l) <-> y = x \/ In y l.
Proof.
  induction l as [|z l IH]; simpl.
  - intuition.
  - destruct (cmp x z <=? 0)%Z; simpl; [intuition|].
    rewrite IH. intuition.
Qed.

(** Sorting keeps exactly the elements it was given. *)
Lemma sortBy_In {A} (cmp : A -> A -> Z) (y : A) l : In y (sortBy cmp l) <-> In y l.
Proof.
  induction l as [|x l IH]; simpl; [tauto|].
  rewrite insertBy_In, IH. intuition.
Qed.

Lemma insertBy_length {A} (cmp : A -> A -> Z) (x : A) l :
  List.length (insertBy cmp x l) = S (List.length l).
Proof.
  induction l as [|z l IH]; simpl; auto.
  destruct (cmp x z <=? 0)%Z; simpl; auto.
Qed.

Lemma sortBy_length {A} (cmp : A -> A -> Z) (l : list A) :
  List.length (sortBy cmp l) = List.length l.
Proof.
  induction l as [|x l IH]; simpl; auto.
  rewrite insertBy_length, IH. reflexivity.
Qed.

(** A name of the form digits, underscore, digits, underscore, digits, dot
    and extension is matched, with exactly these three digit runs. *)
Lemma matchPageSizeIndex_complete m1 m2 m3 ext :
  m1 <> [] -> m2 <> [] -> m3 <> [] ->
  forallb isDigit m1 = true -> forallb isDigit m2 = true ->
  forallb isDigit m3 = true -> isTileExt ext = true ->
  matchPageSizeIndex (m1 ++ str "_" ++ m2 ++ str "_" ++ m3 ++ str "." ++ ext)
  = Some (m1, m2, m3).
Proof.
  intros N1 N2 N3 D1 D2 D3 He. unfold matchPageSizeIndex.
  rewrite (span_stop_app isDigit m1); [|exact D1|reflexivity].
  destruct m1 as [|c1 m1']; [contradiction|].
  rewrite stripPrefix_app. cbv beta iota.
  rewrite (span_stop_app isDigit m2); [|exact D2|reflexivity].
  destruct m2 as [|c2 m2']; [contradiction|].
  rewrite stripPrefix_app. cbv beta iota.
  rewrite (span_stop_app isDigit m3); [|exact D3|reflexivity].
  destruct m3 as [|c3 m3']; [contradiction|].
  rewrite stripPrefix_app. cbv beta iota.
  rewrite He. reflexivity.
Qed.

(** Conversely a matched name has that form. *)
Lemma matchPageSizeIndex_sound basename m1 m2 m3 :
  matchPageSizeIndex basename = Some (m1, m2, m3) ->
  exists ext,
    basename = m1 ++ str "_" ++ m2 ++ str "_" ++ m3 ++ str "." ++ ext /\
    m1 <> [] /\ m2 <> [] /\ m3 <> [] /\
    forallb isDigit m1 = true /\ forallb isDigit m2 = true /\
    forallb isDigit m3 = true /\ isTileExt ext = true.
Proof.
  unfold matchPageSizeIndex.
  pose proof (span_app isDigit basename) as A1.
  pose proof (span_all isDigit basename) as B1.
  destruct (span isDigit basename) as [a1 r1]. simpl in A1, B1.
  destruct a1 as [|c1 a1]; [discriminate|].
  destruct (stripPrefix (str "_") r1) as [r1'|] eqn:S1; [|discriminate].
  apply stripPrefix_spec in S1.
  pose proof (span_app isDigit r1') as A2.
  pose proof (span_all isDigit r1') as B2.
  destruct (span isDigit r1') as [a2 r2]. simpl in A2, B2.
  destruct a2 as [|c2 a2]; [discriminate|].
  destruct (stripPrefix (str "_") r2) as [r2'|] eqn:S2; [|discriminate].
  apply stripPrefix_spec in S2.
  pose proof (span_app isDigit r2') as A3.
  pose proof (span_all isDigit r2') as B3.
  destruct (span isDigit r2') as [a3 r3]. simpl in A3, B3.
  destruct a3 as [|c3 a3]; [discriminate|].
  destruct (stripPrefix (str ".") r3) as [ext|] eqn:S3; [|discriminate].
  apply stripPrefix_spec in S3.
  destruct (isTileExt ext) eqn:He; [|discriminate].
  intros E; inversion E; subst; clear E.
  exists ext. repeat split; try discriminate; auto.
Qed.

Section WithPlatform.

Context {U : UrlApi} {P : NumberPrinter}.

Lemma groupTiles_snoc urls u :
  groupTiles (urls ++ [u]) =
  match parseShufooTileUrl u with
  | None => groupTiles urls
  | Some (k, tile) =>
      JsMap.set (groupTiles urls) k
        (match JsMap.get (groupTiles urls) k with Some l => l | None => [] end
         ++ [tile])
  end.
Proof. unfold groupTiles. rewrite fold_left_app. reflexivity. Qed.

Lemma tilesWithKey_snoc urls u k :
  tilesWithKey (urls ++ [u]) k =
  tilesWithKey urls k ++
  match parseShufooTileUrl u with
  | Some (k', tile) => if Js.eqb k' k then [tile] else []
  | None => []
  end.
Proof. unfold tilesWithKey. rewrite flat_map_app. simpl. rewrite app_nil_r. reflexivity. Qed.

(** The map holds, under each key, the tiles of the URLs with that key, in
    input order. *)
Lemma groupTiles_get urls : forall k,
  JsMap.get (groupTiles urls) k =
  match tilesWithKey urls k with [] => None | l => Some l end.
Proof.
  induction urls as [|u urls IH] using rev_ind; intros k; [reflexivity|].
  rewrite groupTiles_snoc, tilesWithKey_snoc.
  destruct (parseShufooTileUrl u) as [[k' tile]|].
  - rewrite JsMapFacts.get_set. destruct (Js.eqb k' k) eqn:E.
    + apply eqb_eq in E. subst k'. rewrite IH.
      destruct (tilesWithKey urls k); reflexivity.
    + rewrite app_nil_r. apply IH.
  - rewrite app_nil_r. apply IH.
Qed.

Lemma groupTiles_NoDup urls : NoDup (JsMap.keys (groupTiles urls)).
Proof.
  induction urls as [|u urls IH] using rev_ind; [constructor|].
  rewrite groupTiles_snoc. destruct (parseShufooTileUrl u) as [[k' tile]|]; auto.
  apply JsMapFacts.keys_set_NoDup. exact IH.
Qed.

(** The groups returned are exactly the key classes with two or more
    members. *)
Lemma pickShufooTileGroups_spec urls g :
  In g (pickShufooTileGroups urls) <->
  2 <= List.length (tilesWithKey urls (key g)) /\
  tiles g = tilesWithKey urls (key g).
Proof.
  unfold pickShufooTileGroups.
  set (cmp1 := fun a b : tileGroup => _).
  set (list := sortBy cmp1 _).
  assert (In g (match list with [] => [] | _ :: _ => sortBy (fun a b => (firstPage a - firstPage b)%Z) list end)
          <-> In g list) as ->.
  { destruct list eqn:El; [tauto|]. rewrite <- El. apply sortBy_In. }
  unfold list. rewrite sortBy_In, filter_In, in_map_iff.
  split.
  - intros [[[k ts] [<- Hin]] Hlen]. cbn [key tiles fst snd] in *.
    apply (JsMapFacts.get_In _ _ _ _ (groupTiles_NoDup urls)) in Hin.
    rewrite groupTiles_get in Hin.
    destruct (tilesWithKey urls k) as [|t0 l0] eqn:Et; [discriminate|].
    inversion Hin; subst ts. apply Nat.leb_le in Hlen. auto.
  - intros [Hlen Ht]. split.
    + exists (key g, tiles g). split; [destruct g; reflexivity|].
      apply (JsMapFacts.get_In _ _ _ _ (groupTiles_NoDup urls)).
      rewrite groupTiles_get, <- Ht.
      destruct (tiles g) eqn:Eg; [rewrite <- Ht in Hlen; simpl in Hlen; lia|reflexivity].
    + apply Nat.leb_le. rewrite Ht. exact Hlen.
Qed.

Lemma tileUrlsFor_length base sizeText pages :
  List.length (tileUrlsFor base sizeText pages) = 4 * List.length pages.
Proof.
  induction pages as [|p pages IH]; [reflexivity|].
  change (tileUrlsFor base sizeText (p :: pages))
    with (List.map
            (fun i => base ++ pageText p ++ str "_" ++ sizeText
                      ++ str "_" ++ dec i ++ str ".jpg") [0; 1; 2; 3]%N
          ++ tileUrlsFor base sizeText pages).
  rewrite length_app. unfold jsstring in *. rewrite IH, length_map. cbn [List.length]. lia.
Qed.

Lemma tileUrlsFor_jpg base sizeText pages url :
  In url (tileUrlsFor base sizeText pages) -> endsWith url (str ".jpg") = true.
Proof.
  unfold tileUrlsFor. rewrite in_flat_map. intros [p [_ Hin]].
  apply in_map_iff in Hin as [i [<- _]].
  apply endsWith_iff. eexists. rewrite !app_assoc. reflexivity.
Qed.

Lemma expandShufooTileUrls_inv urlStr urls :
  expandShufooTileUrls urlStr = Some urls ->
  exists u m1 m2 m3 page0 size tileIndex,
    parseUrl urlStr = Some u /\
    matchPageSizeIndex (basenameOf (pathname u)) = Some (m1, m2, m3) /\
    Num.digitsNumber m1 = Some page0 /\ Num.digitsNumber m2 = Some size /\
    Num.digitsNumber m3 = Some tileIndex /\
    urls = tileUrlsFor (origin u ++ dirnameOf (pathname u)) (numberText size)
             [Some page0; Num.succDouble page0].
Proof.
  unfold expandShufooTileUrls.
  destruct (parseUrl urlStr) as [u|]; [|discriminate].
  destruct (matchPageSizeIndex (basenameOf (pathname u))) as [[[m1 m2] m3]|] eqn:Em;
    [|discriminate].
  destruct (Num.digitsNumber m1) as [page0|] eqn:E1; [|discriminate].
  destruct (Num.digitsNumber m2) as [size|] eqn:E2; [|discriminate].
  destruct (Num.digitsNumber m3) as [tileIndex|] eqn:E3; [|discriminate].
  intros E. exists u, m1, m2, m3, page0, size, tileIndex.
  repeat split; try reflexivity; try assumption.
  symmetry. apply (ListFacts.Some_inj _ _ E).
Qed.

Lemma tilesWithKey_In urls k tile :
  In tile (tilesWithKey urls k) <->
  exists u, In u urls /\ parseShufooTileUrl u = Some (k, tile).
Proof.
  unfold tilesWithKey. rewrite in_flat_map. split.
  - intros [u [Hu Hin]]. exists u. split; auto.
    destruct (parseShufooTileUrl u) as [[k' t]|]; [|contradiction].
    destruct (Js.eqb k' k) eqn:E; [|contradiction].
    apply eqb_eq in E. destruct Hin as [<-|[]]. subst. reflexivity.
  - intros [u [Hu Hp]]. exists u. split; auto.
    rewrite Hp, eqb_refl. left. reflexivity.
Qed.

End WithPlatform.

End ShufooFacts.

(* ================================================================== *)
(** * Facts about the Tokubai path rewrite *)
(* ================================================================== *)

Module TokubaiFacts.

Import Route.

Definition matchesHead (w : jsstring) : Prop :=
  exists x y, w = leafletPrefix ++ x ++ str "/" ++ y /\ x <> [] /\ noSlash x = true.

Lemma leafletSegmentAt_Some w x y :
  leafletSegmentAt w = Some (x, y) <->
  w = leafletPrefix ++ x ++ str "/" ++ y /\ x <> [] /\ noSlash x = true.
Proof.
  unfold leafletSegmentAt. split.
  - destruct (stripPrefix leafletPrefix w) as [rest|] eqn:E1; [|discriminate].
    apply stripPrefix_spec in E1.
    pose proof (span_app (fun c => negb (c =? 47)%N) rest) as A.
    pose proof (span_all (fun c => negb (c =? 47)%N) rest) as B.
    destruct (span (fun c => negb (c =? 47)%N) rest) as [seg tail]. simpl in A, B.
    destruct seg as [|c seg]; [discriminate|].
    destruct (stripPrefix (str "/") tail) as [after|] eqn:E2; [|discriminate].
    apply stripPrefix_spec in E2. intros E; inversion E; subst.
    repeat split; try discriminate; auto.
  - intros (-> & Hx & Hn). rewrite stripPrefix_app.
    rewrite span_stop_app; [|exact Hn|reflexivity].
    destruct x as [|c x]; [contradiction|].
    rewrite stripPrefix_app. reflexivity.
Qed.

Lemma leafletSegmentAt_matches w :
  (exists x y, leafletSegmentAt w = Some (x, y)) <-> matchesHead w.
Proof.
  unfold matchesHead. split; intros (x & y & H); exists x, y;
    apply leafletSegmentAt_Some; exact H.
Qed.

Lemma leafletSegmentAt_None w : leafletSegmentAt w = None <-> ~ matchesHead w.
Proof.
  rewrite <- leafletSegmentAt_matches. split.
  - intros E (x & y & H). congruence.
  - intros H. destruct (leafletSegmentAt w) as [[x y]|] eqn:E; auto.
    exfalso. apply H. eauto.
Qed.

(** The rewrite either leaves the path alone, no position matching, or
    replaces the segment of the leftmost match. *)
Lemma replaceLeafletSegment_cases s :
  (replaceLeafletSegment s = s /\
   forall pre rest, s = pre ++ rest -> ~ matchesHead rest)
  \/ exists pre x after,
       s = pre ++ leafletPrefix ++ x ++ str "/" ++ after /\
       x <> [] /\ noSlash x = true /\
       replaceLeafletSegment s = pre ++ leafletPrefix ++ str "o=true/" ++ after.
Proof.
  induction s as [|c s IH].
  - left. split; [reflexivity|].
    intros pre rest E (x & y & Hw & _).
    destruct pre; simpl in E; [|discriminate]. subst rest. discriminate.
  - cbn [replaceLeafletSegment].
    destruct (leafletSegmentAt (c :: s)) as [[x after]|] eqn:E.
    + right. apply leafletSegmentAt_Some in E as (Hs & Hx & Hn).
      exists [], x, after. repeat split; auto.
    + destruct IH as [[Hid Hno]|(pre & x & after & Hs & Hx & Hn & Hr)].
      * left. split; [rewrite Hid; reflexivity|].
        intros pre rest Epre. destruct pre as [|d pre]; simpl in Epre.
        -- subst rest. apply leafletSegmentAt_None. exact E.
        -- inversion Epre; subst. apply (Hno pre rest eq_refl).
      * right. exists (c :: pre), x, after. repeat split; auto.
        -- rewrite Hs. reflexivity.
        -- rewrite Hr. reflexivity.
Qed.

(** A prefix of the fixed text that is followed by the fixed text again
    overlaps it only in the final slash. *)
Lemma leafletPrefix_overlap p d w :
  leafletPrefix = p ++ d -> d <> [] -> p <> [] ->
  startsWith (d ++ w) (str "/") = true ->
  d = str "/" \/ d = str "/bargain_office_leaflets/".
Proof.
  unfold leafletPrefix. intros E Hd Hp Hs.
  do 32 (destruct p as [|? p];
         [ simpl in E; subst d;
           first [ contradiction
                 | discriminate Hs
                 | (left; reflexivity)
                 | (right; reflexivity) ]
         | simpl in E; inversion E; subst; clear E; rename H1 into E ]).
  destruct p; simpl in E; [subst d; contradiction|discriminate].
Qed.

(** Whether a position in front of an occurrence of the fixed text matches
    does not depend on what follows that occurrence. *)
Lemma matchesHead_before p a b :
  p <> [] ->
  matchesHead (p ++ leafletPrefix ++ a) -> matchesHead (p ++ leafletPrefix ++ b).
Proof.
  intros Hp (x & y & E & Hx & Hn).
  assert (forall l w, l <> [] -> noSlash (l ++ w) = true ->
                      startsWith l (str "/") = false) as Hhead.
  { intros [|c l] w Hl Hns; [contradiction|]. simpl in Hns.
    apply andb_true_iff in Hns as [Hc _].
    destruct (startsWith (c :: l) (str "/")) eqn:Es; [|reflexivity].
    apply startsWith_iff in Es as [r Er]. inversion Er; subst c. discriminate Hc. }
  replace (leafletPrefix ++ x ++ str "/" ++ y)
    with ((leafletPrefix ++ x) ++ str "/" ++ y) in E by (rewrite <- app_assoc; reflexivity).
  apply app_eq_app in E as [l [[Ep Ey]|[Ex Ea]]].
  - (* the match ends inside [p] or exactly at its end *)
    exists x. subst p.
    destruct l as [|c l'].
    + exists (str "images/bargain_office_leaflets/" ++ b).
      split; [|split; assumption].
      rewrite app_nil_r, <- ?app_assoc. reflexivity.
    + inversion Ey; subst c. exists (l' ++ leafletPrefix ++ b).
      split; [|split; assumption].
      rewrite <- ?app_assoc. reflexivity.
  - destruct l as [|c0 l0] eqn:El.
    + (* as before, with nothing left over *)
      rewrite app_nil_r in Ex. subst p. exists x.
      exists (str "images/bargain_office_leaflets/" ++ b).
      split; [|split; assumption].
      rewrite <- ?app_assoc. reflexivity.
    + rewrite <- El in *. assert (l <> []) as Hl by (rewrite El; discriminate).
      clear El c0 l0.
      symmetry in Ex. apply app_eq_app in Ex as [m [[Ep Exm]|[Elp Elm]]].
      * (* [p] reaches into [x]: the rest of [x] would start with a slash *)
        exfalso. subst x.
        assert (startsWith l (str "/") = true) as Hs.
        { apply startsWith_iff. destruct l as [|c l']; [contradiction|].
          inversion Ea. exists l'. reflexivity. }
        rewrite noSlash_app in Hn. apply andb_true_iff in Hn as [_ Hn].
        rewrite (Hhead l [] Hl) in Hs; [discriminate|]. rewrite app_nil_r. exact Hn.
      * (* [p] is a proper prefix of the fixed text *)
        destruct m as [|cm m'] eqn:Em.
        -- exfalso. simpl in Elm. subst l.
           assert (startsWith x (str "/") = true) as Hs.
           { apply startsWith_iff. destruct x as [|c x']; [contradiction|].
             inversion Ea. exists x'. reflexivity. }
           rewrite (Hhead x [] Hx) in Hs; [discriminate|]. rewrite app_nil_r. exact Hn.
        -- rewrite <- Em in *. assert (m <> []) as Hm by (rewrite Em; discriminate).
           clear Em cm m'. subst l.
           assert (startsWith (m ++ x ++ str "/" ++ y) (str "/") = true) as Hs.
           { rewrite <- app_assoc in Ea. rewrite <- Ea. reflexivity. }
           destruct (leafletPrefix_overlap p m _ Elp Hm Hp Hs) as [->| ->].
           ++ assert (p = str "/images/bargain_office_leaflets") as ->.
              { apply (app_inv_tail (str "/")). rewrite <- Elp. reflexivity. }
              exists (str "images"), (str "bargain_office_leaflets/" ++ b).
              split; [reflexivity|]. split; [discriminate|reflexivity].
           ++ exfalso. rewrite <- app_assoc in Ea. discriminate Ea.
Qed.

(** A match in front of the rewritten text was already there. *)
Lemma matchesHead_replace s : forall p,
  p <> [] -> matchesHead (p ++ replaceLeafletSegment s) -> matchesHead (p ++ s).
Proof.
  induction s as [|c s IH]; intros p Hp H; [exact H|].
  cbn [replaceLeafletSegment] in H.
  destruct (leafletSegmentAt (c :: s)) as [[x after]|] eqn:E.
  - apply leafletSegmentAt_Some in E as (Hs & _). rewrite Hs.
    apply (matchesHead_before p _ _ Hp H).
  - replace (p ++ c :: replaceLeafletSegment s)
      with ((p ++ [c]) ++ replaceLeafletSegment s) in H
      by (rewrite <- app_assoc; reflexivity).
    apply IH in H; [|destruct p; discriminate].
    rewrite <- app_assoc in H. exact H.
Qed.

(** The path rewrite is idempotent. *)
Lemma replaceLeafletSegment_idempotent s :
  replaceLeafletSegment (replaceLeafletSegment s) = replaceLeafletSegment s.
Proof.
  induction s as [|c s IH]; [reflexivity|].
  cbn [replaceLeafletSegment].
  destruct (leafletSegmentAt (c :: s)) as [[x after]|] eqn:E.
  - assert (leafletSegmentAt (leafletPrefix ++ str "o=true/" ++ after)
            = Some (str "o=true", after)) as E2.
    { apply leafletSegmentAt_Some. repeat split; try discriminate. }
    unfold leafletPrefix in *.
    change (replaceLeafletSegment (str "/images/bargain_office_leaflets/" ++ str "o=true/" ++ after))
      with (match leafletSegmentAt (str "/images/bargain_office_leaflets/" ++ str "o=true/" ++ after) with
            | Some (_, after') => str "/images/bargain_office_leaflets/" ++ str "o=true/" ++ after'
            | None => 47%N :: replaceLeafletSegment (str "images/bargain_office_leaflets/" ++ str "o=true/" ++ after)
            end).
    rewrite E2. reflexivity.
  - assert (leafletSegmentAt (c :: replaceLeafletSegment s) = None) as E2.
    { apply leafletSegmentAt_None. intros H.
      apply (matchesHead_replace s [c]) in H; [|discriminate].
      apply leafletSegmentAt_None in E. contradiction. }
    cbn [replaceLeafletSegment]. rewrite E2, IH. reflexivity.
Qed.

Lemma replaceLeafletSegment_done after :
  replaceLeafletSegment (leafletPrefix ++ str "o=true/" ++ after)
  = leafletPrefix ++ str "o=true/" ++ after.
Proof.
  assert (leafletSegmentAt (leafletPrefix ++ str "o=true/" ++ after)
          = Some (str "o=true", after)) as E2.
  { apply leafletSegmentAt_Some. repeat split; try discriminate. }
  unfold leafletPrefix in *.
  change (replaceLeafletSegment (str "/images/bargain_office_leaflets/" ++ str "o=true/" ++ after))
    with (match leafletSegmentAt (str "/images/bargain_office_leaflets/" ++ str "o=true/" ++ after) with
          | Some (_, after') => str "/images/bargain_office_leaflets/" ++ str "o=true/" ++ after'
          | None => 47%N :: replaceLeafletSegment (str "images/bargain_office_leaflets/" ++ str "o=true/" ++ after)
          end).
  rewrite E2. reflexivity.
Qed.

Lemma replaceLeafletSegment_absent p :
  includes p leafletPrefix = false -> replaceLeafletSegment p = p.
Proof.
  intros Hno. destruct (replaceLeafletSegment_cases p) as [[H _]|H]; [exact H|].
  destruct H as (pre & x & after & Hp & _). exfalso.
  assert (includes p leafletPrefix = true) as Hin.
  { apply includes_iff. exists pre, (x ++ str "/" ++ after). exact Hp. }
  congruence.
Qed.

Section WithLaws.

Context {U : UrlApi} {L : UrlLaws U}.

(** A URL whose path the rewrite leaves alone is mapped to its own
    serialisation, and that is a fixed point. *)
Lemma toTokubaiHighRes_settled s u :
  parseUrl s = Some u ->
  includes (hostname u) (str "tokubai.co.jp") = true ->
  replaceLeafletSegment (pathname u) = pathname u ->
  toTokubaiHighRes s = href u /\ toTokubaiHighRes (href u) = href u.
Proof.
  intros Hp Hh Hr.
  assert (forall s0, parseUrl s0 = Some u -> toTokubaiHighRes s0 = href u) as Hgen.
  { intros s0 H0. unfold toTokubaiHighRes. rewrite H0, Hh. cbn [negb].
    destruct (includes (pathname u) leafletPrefix); [|reflexivity].
    rewrite Hr, (@setPathname_same U L s0 u H0). reflexivity. }
  split; [apply Hgen, Hp|]. apply Hgen. apply (@parse_href U L s u Hp).
Qed.

Lemma toTokubaiHighRes_idempotent_on s :
  toTokubaiHighRes (toTokubaiHighRes s) = toTokubaiHighRes s.
Proof.
  destruct (parseUrl s) as [u|] eqn:Hp.
  2:{ unfold toTokubaiHighRes at 2. rewrite Hp.
      unfold toTokubaiHighRes. rewrite Hp. reflexivity. }
  destruct (includes (hostname u) (str "tokubai.co.jp")) eqn:Hh.
  2:{ unfold toTokubaiHighRes at 2. rewrite Hp, Hh. cbn [negb].
      unfold toTokubaiHighRes. rewrite Hp, Hh. reflexivity. }
  destruct (replaceLeafletSegment_cases (pathname u))
    as [[Hid _]|(pre & x & after & Hpath & Hx & Hn & Hr)].
  - destruct (toTokubaiHighRes_settled s u Hp Hh Hid) as [E1 E2].
    rewrite E1. exact E2.
  - assert (includes (pathname u) leafletPrefix = true) as Hinc.
    { apply includes_iff. exists pre, (x ++ str "/" ++ after). exact Hpath. }
    set (a := pre ++ str "/images/bargain_office_leaflets").
    assert (pathname u = a ++ str "/" ++ x ++ str "/" ++ after) as Hpa.
    { rewrite Hpath. unfold a. rewrite <- app_assoc. reflexivity. }
    assert (replaceLeafletSegment (pathname u)
            = a ++ str "/" ++ str "o=true" ++ str "/" ++ after) as Hra.
    { rewrite Hr. unfold a. rewrite <- app_assoc. reflexivity. }
    destruct (@setPathname_segment U L s u a x after (str "o=true") Hp Hpa Hx Hn
                ltac:(discriminate) eq_refl) as [Hnew Hparse].
    rewrite <- Hra in Hnew, Hparse.
    set (u' := setPathname u (replaceLeafletSegment (pathname u))) in *.
    assert (toTokubaiHighRes s = href u') as E1.
    { unfold toTokubaiHighRes. rewrite Hp, Hh, Hinc. reflexivity. }
    rewrite E1.
    apply (toTokubaiHighRes_settled (href u') u' Hparse).
    + unfold u'. rewrite (@hostname_setPathname U L). exact Hh.
    + rewrite Hnew. apply replaceLeafletSegment_idempotent.
Qed.

End WithLaws.

End TokubaiFacts.

(* ================================================================== *)
(** * The reference URL instance satisfies the laws *)
(* ================================================================== *)

Module RefUrlFacts.

Import RefUrl.

#[local] Open Scope N_scope.

(** Decides statements about character classes by case analysis on the
    comparisons involved. *)
Ltac char_cases :=
  repeat match goal with
  | |- context [?a <=? ?b] =>
      let E := fresh in destruct (N.leb_spec a b) as [E|E]
  | |- context [?a =? ?b] =>
      let E := fresh in destruct (N.eqb_spec a b) as [E|E]
  | H : context [?a <=? ?b] |- _ =>
      let E := fresh in destruct (N.leb_spec a b) as [E|E]
  | H : context [?a =? ?b] |- _ =>
      let E := fresh in destruct (N.eqb_spec a b) as [E|E]
  end; simpl in *; try reflexivity; try discriminate; try lia.

Lemma lowerScheme_notColon c : isLowerSchemeChar c = true -> notColon c = true.
Proof. unfold isLowerSchemeChar, notColon, isDigit. intros H. char_cases. Qed.

Lemma lowerScheme_scheme c : isLowerSchemeChar c = true -> isSchemeChar c = true.
Proof. unfold isLowerSchemeChar, isSchemeChar, isAlpha, isDigit. intros H. char_cases. Qed.

Lemma lowerScheme_fixed c : isLowerSchemeChar c = true -> asciiLower c = c.
Proof. unfold isLowerSchemeChar, asciiLower, isDigit. intros H. char_cases. Qed.

Lemma scheme_lower c : isSchemeChar c = true -> isLowerSchemeChar (asciiLower c) = true.
Proof.
  unfold isLowerSchemeChar, isSchemeChar, asciiLower, isAlpha, isDigit. intros H.
  destruct ((65 <=? c) && (c <=? 90)) eqn:Eu.
  - apply andb_true_iff in Eu as [E1 E2]. apply N.leb_le in E1, E2.
    assert ((97 <=? c + 32) = true) as -> by (apply N.leb_le; lia).
    assert ((c + 32 <=? 122) = true) as -> by (apply N.leb_le; lia).
    reflexivity.
  - revert H Eu. char_cases.
Qed.

Lemma alpha_lower c : isAlpha c = true -> isAlpha (asciiLower c) = true.
Proof.
  unfold asciiLower, isAlpha. intros H.
  destruct ((65 <=? c) && (c <=? 90)) eqn:Eu; [|rewrite Eu; exact H].
  apply andb_true_iff in Eu as [E1 E2]. apply N.leb_le in E1, E2.
  assert ((97 <=? c + 32) = true) as -> by (apply N.leb_le; lia).
  assert ((c + 32 <=? 122) = true) as -> by (apply N.leb_le; lia).
  apply orb_true_r.
Qed.

Lemma hostChar_cases c :
  isHostChar c = true ->
  notColon c = true /\ notDelim c = true.
Proof.
  unfold isHostChar, notColon, notDelim. simpl. intros H.
  repeat rewrite andb_true_iff in H. destruct H as [[H1 H2] H3].
  apply N.leb_le in H1, H2. apply negb_true_iff in H3.
  split; char_cases; subst c; discriminate H3.
Qed.

Lemma lowerHost_host c : isLowerHostChar c = true -> isHostChar c = true.
Proof. unfold isLowerHostChar. intros H. apply andb_true_iff in H. tauto. Qed.

Lemma lowerHost_fixed c : isLowerHostChar c = true -> asciiLower c = c.
Proof.
  unfold isLowerHostChar, asciiLower. intros H. apply andb_true_iff in H as [_ H].
  apply negb_true_iff in H. rewrite H. reflexivity.
Qed.

Lemma host_lower c : isHostChar (asciiLower c) = true -> isLowerHostChar (asciiLower c) = true.
Proof.
  unfold isLowerHostChar. intros H. rewrite H. simpl.
  unfold asciiLower. destruct ((65 <=? c) && (c <=? 90)) eqn:Eu.
  - apply andb_true_iff in Eu as [E1 E2]. apply N.leb_le in E1, E2.
    apply negb_true_iff. apply andb_false_iff. right. apply N.leb_gt. lia.
  - rewrite Eu. reflexivity.
Qed.

Lemma digit_cases c : isDigit c = true -> notDelim c = true /\ notColon c = true.
Proof. unfold isDigit, notDelim, notColon. intros H. split; char_cases. Qed.

Lemma notQueryHash_notHash c : notQueryHash c = true -> notHash c = true.
Proof. unfold notQueryHash, notHash. intros H. char_cases. Qed.

Lemma forallb_impl {A} (p q : A -> bool) l :
  (forall x, p x = true -> q x = true) -> forallb p l = true -> forallb q l = true.
Proof.
  intros H. induction l as [|x l IH]; simpl; auto.
  intros Hp. apply andb_true_iff in Hp as [Hx Hl]. rewrite (H x Hx). auto.
Qed.

Lemma map_fixed (f : N -> N) l : (forall x, In x l -> f x = x) -> List.map f l = l.
Proof.
  induction l as [|x l IH]; simpl; auto. intros H.
  rewrite (H x), IH; auto.
Qed.

Lemma forallb_In {A} (p : A -> bool) l x : forallb p l = true -> In x l -> p x = true.
Proof. intros H Hin. rewrite forallb_forall in H. auto. Qed.

Lemma dec_nonempty n : dec n <> [].
Proof.
  unfold dec. simpl. destruct (n <? 10); [discriminate|].
  rewrite decFuel_acc. destruct (decFuel _ _ []); discriminate.
Qed.

Lemma parsePort_wf sch prt p :
  parsePort sch prt = Some p ->
  match p with
  | None => true
  | Some n => (n <=? 65535)
              && negb (match defaultPort sch with Some d => n =? d | None => false end)
  end = true.
Proof.
  unfold parsePort. destruct prt as [|c ds]; [intros E; inversion E; reflexivity|].
  destruct (forallb isDigit ds); [|discriminate].
  destruct ds as [|d ds']; [intros E; inversion E; reflexivity|].
  destruct (65535 <? Num.digitsValue (d :: ds')) eqn:E1; [discriminate|].
  destruct (match defaultPort sch with Some d0 => _ | None => false end) eqn:E2;
    intros E; inversion E; subst; [reflexivity|].
  rewrite E2. apply N.ltb_ge in E1. apply N.leb_le in E1. rewrite E1. reflexivity.
Qed.

Lemma parseTail_wf tail pth q f :
  match tail with [] => true | c :: _ => negb (notDelim c) end = true ->
  parseTail tail = (pth, q, f) ->
  startsWith pth (str "/") = true /\ forallb notQueryHash pth = true /\
  match q with Some q0 => forallb notHash q0 | None => true end = true.
Proof.
  intros Hhead. unfold parseTail.
  pose proof (span_app notQueryHash tail) as A.
  pose proof (span_all notQueryHash tail) as B.
  destruct (span notQueryHash tail) as [p tail2]. simpl in A, B.
  assert (startsWith (match p with [] => str "/" | _ :: _ => p end) (str "/") = true
          /\ forallb notQueryHash (match p with [] => str "/" | _ :: _ => p end) = true)
    as [H1 H2].
  { destruct p as [|c p']; [split; reflexivity|]. split; [|exact B].
    subst tail. simpl in Hhead, B. apply andb_true_iff in B as [Bc _].
    unfold notDelim in Hhead. unfold notQueryHash in Bc.
    apply startsWith_iff. exists p'.
    destruct (N.eqb_spec c 47) as [->|Hne]; [reflexivity|].
    exfalso. revert Hhead Bc. clear - Hne.
    destruct (N.eqb_spec c 63); destruct (N.eqb_spec c 35);
      destruct (N.eqb_spec c 47); simpl; try discriminate; try contradiction. }
  destruct (stripPrefix (str "?") tail2) as [rest|].
  - pose proof (span_all notHash rest) as C.
    destruct (span notHash rest) as [q0 tail3]. simpl in C.
    intros E; inversion E; subst. auto.
  - intros E; inversion E; subst. auto.
Qed.

(** What [parse] returns is well formed. *)
Lemma parse_wellFormed s u : parse s = Some u -> wellFormed u = true.
Proof.
  unfold parse.
  pose proof (span_all notColon s) as B0.
  destruct (span notColon s) as [sch rest]. simpl in B0.
  destruct sch as [|c sch']; [discriminate|].
  destruct (stripPrefix (str "://") rest) as [after|]; [|discriminate].
  destruct (isAlpha c && forallb isSchemeChar (c :: sch')) eqn:Es; [|discriminate].
  apply andb_true_iff in Es as [Ea Es].
  pose proof (span_app notDelim after) as A1.
  pose proof (span_all notDelim after) as B1.
  assert (match snd (span notDelim after) with
          | [] => true | c0 :: _ => negb (notDelim c0) end = true) as Htail.
  { clear. induction after as [|x after IH]; simpl; auto.
    destruct (notDelim x) eqn:E; simpl; [|rewrite E; reflexivity].
    destruct (span notDelim after); simpl in *. exact IH. }
  destruct (span notDelim after) as [auth tail]. simpl in A1, B1, Htail.
  destruct (span notColon auth) as [h prt].
  destruct (List.map asciiLower h) as [|h0 h'] eqn:Eh; [discriminate|].
  destruct (forallb isHostChar (h0 :: h')) eqn:Ehc; [|discriminate].
  set (sch2 := List.map asciiLower (c :: sch')) in *.
  destruct (parsePort sch2 prt) as [p|] eqn:Ep; [|discriminate].
  destruct (parseTail tail) as [[pth q] f] eqn:Et.
  intros E; inversion E; subst u; clear E.
  destruct (parseTail_wf tail pth q f Htail Et) as (P1 & P2 & P3).
  apply parsePort_wf in Ep.
  assert (forallb isLowerSchemeChar sch2 = true) as Hs.
  { unfold sch2. rewrite forallb_forall. intros x Hx.
    apply in_map_iff in Hx as [y [<- Hy]].
    apply scheme_lower. apply (forallb_In _ _ _ Es Hy). }
  assert (forallb isLowerHostChar (h0 :: h') = true) as Hh.
  { rewrite <- Eh. rewrite forallb_forall. intros x Hx.
    pose proof Hx as Hx'. apply in_map_iff in Hx as [y [<- Hy]].
    apply host_lower. rewrite Eh in Hx'. apply (forallb_In _ _ _ Ehc Hx'). }
  unfold wellFormed. cbn [scheme host port path query fragment].
  rewrite P1, P2, P3, Ep, Hh, Hs.
  change sch2 with (asciiLower c :: List.map asciiLower sch').
  cbv iota. rewrite (alpha_lower _ Ea). reflexivity.
Qed.

Lemma escapePath_clean p : forallb notQueryHash p = true -> escapePath p = p.
Proof.
  unfold escapePath. induction p as [|c p IH]; simpl; auto.
  intros H. apply andb_true_iff in H as [Hc Hp]. rewrite (IH Hp).
  unfold notQueryHash in Hc. apply negb_true_iff, orb_false_iff in Hc as [H1 H2].
  rewrite H1, H2. reflexivity.
Qed.

(** A well-formed record is read back from its serialisation. *)
Lemma parse_serialize u : wellFormed u = true -> parse (serialize u) = Some u.
Proof.
  destruct u as [sch h p pth q f]. unfold wellFormed, serialize, authority,
    portText, queryText, fragmentText.
  cbn [scheme host port path query fragment].
  intros H. repeat rewrite andb_true_iff in H.
  destruct H as [[[[[[Hsch Hhne] Hh] Hp] Hps] Hpq] Hq].
  destruct sch as [|c sch']; [discriminate|].
  apply andb_true_iff in Hsch as [Ha Hs].
  unfold parse. rewrite <- !app_assoc.
  rewrite span_stop_app;
    [|apply (forallb_impl _ _ _ lowerScheme_notColon Hs)|reflexivity].
  rewrite stripPrefix_app.
  rewrite Ha, (forallb_impl _ _ _ lowerScheme_scheme Hs). cbn [andb].
  assert (List.map asciiLower (c :: sch') = c :: sch') as Els.
  { apply map_fixed. intros x Hx. apply lowerScheme_fixed, (forallb_In _ _ _ Hs Hx). }
  rewrite Els.
  set (portT := match p with Some n => str ":" ++ dec n | None => [] end).
  assert (forallb notDelim portT = true /\
          match portT with [] => true | c0 :: _ => negb (notColon c0) end = true /\
          parsePort (c :: sch') portT = Some p) as (Hpd & Hpc & Hpp).
  { unfold portT. destruct p as [n|]; [|repeat split; reflexivity].
    apply andb_true_iff in Hp as [Hn Hd]. apply N.leb_le in Hn.
    split; [|split; [reflexivity|]].
    - simpl. apply (forallb_impl isDigit); [|apply dec_digits].
      intros x Hx. apply digit_cases. exact Hx.
    - cbn [app str List.map list_ascii_of_string parsePort].
      rewrite dec_digits. pose proof (dec_nonempty n) as Hne.
      destruct (dec n) as [|d ds] eqn:Ed; [contradiction|].
      rewrite <- Ed, digitsValue_dec.
      assert ((65535 <? n) = false) as -> by (apply N.ltb_ge; lia).
      apply negb_true_iff in Hd. rewrite Hd. reflexivity. }
  assert (startsWith pth (str "/") = true) as Hps' by exact Hps.
  apply startsWith_iff in Hps' as [pth' Epth].
  fold portT. rewrite (app_assoc h portT).
  rewrite span_stop_app.
  2:{ rewrite forallb_app, Hpd, andb_true_r.
      apply (forallb_impl isLowerHostChar); [|exact Hh].
      intros x Hx. apply hostChar_cases, lowerHost_host, Hx. }
  2:{ rewrite Epth. reflexivity. }
  rewrite span_stop_app.
  2:{ apply (forallb_impl isLowerHostChar); [|exact Hh].
      intros x Hx. apply hostChar_cases, lowerHost_host, Hx. }
  2:{ exact Hpc. }
  assert (List.map asciiLower h = h) as Elh.
  { apply map_fixed. intros x Hx. apply lowerHost_fixed, (forallb_In _ _ _ Hh Hx). }
  rewrite Elh.
  destruct h as [|h0 h']; [discriminate|].
  rewrite (forallb_impl _ _ _ lowerHost_host Hh), Hpp.
  (* path, query and fragment *)
  unfold parseTail.
  set (fragT := match f with Some f0 => str "#" ++ f0 | None => [] end).
  assert (match fragT with [] => true | c0 :: _ => negb (notHash c0) end = true /\
          stripPrefix (str "?") fragT = None /\ stripPrefix (str "#") fragT = f)
    as (Hf1 & Hf2 & Hf3).
  { unfold fragT. destruct f as [f0|]; repeat split; reflexivity. }
  rewrite span_stop_app; [|exact Hpq|].
  2:{ destruct q; [reflexivity|]. destruct f; reflexivity. }
  destruct pth as [|p0 pth0]; [discriminate|].
  destruct q as [q0|].
  - rewrite <- app_assoc, stripPrefix_app.
    rewrite span_stop_app; [|exact Hq|exact Hf1].
    cbv beta iota. destruct f; reflexivity.
  - destruct f; reflexivity.
Qed.

Lemma segmentSafe_clean c : isSegmentSafe c = true -> notQueryHash c = true.
Proof. unfold isSegmentSafe, notQueryHash. intros H. char_cases. Qed.

Lemma wellFormed_path u :
  wellFormed u = true ->
  startsWith (path u) (str "/") = true /\ forallb notQueryHash (path u) = true.
Proof.
  unfold wellFormed. intros H. repeat rewrite andb_true_iff in H. tauto.
Qed.

Lemma assignPath_clean u p :
  startsWith p (str "/") = true -> forallb notQueryHash p = true ->
  assignPath u p =
  {| scheme := scheme u; host := host u; port := port u; path := p;
     query := query u; fragment := fragment u |}.
Proof.
  intros Hs Hc. unfold assignPath. rewrite (escapePath_clean _ Hc), Hs. reflexivity.
Qed.

Lemma wellFormed_assign u p :
  wellFormed u = true ->
  startsWith p (str "/") = true -> forallb notQueryHash p = true ->
  wellFormed (assignPath u p) = true.
Proof.
  intros Hu Hs Hc. rewrite (assignPath_clean _ _ Hs Hc).
  unfold wellFormed in *. cbn [scheme host port path query fragment].
  repeat rewrite andb_true_iff in Hu. destruct Hu as [[[[[[H1 H2] H3] H4] _] _] H7].
  rewrite H1, H2, H3, H4, Hs, Hc, H7. reflexivity.
Qed.

Lemma resolve_wellFormed s base u : resolve s base = Some u -> wellFormed u = true.
Proof.
  unfold resolve. destruct (hasScheme s); [apply parse_wellFormed|].
  destruct (parse base) as [b|] eqn:Eb; [|discriminate].
  destruct (Js.eqb s []).
  - intros E; inversion E; subst. apply parse_wellFormed in Eb.
    unfold wellFormed in *. exact Eb.
  - repeat match goal with
    | |- (if ?c then _ else _) = _ -> _ => destruct c
    end; apply parse_wellFormed.
Qed.

(** The reference instance meets the laws the rewriting relies on. *)
Lemma laws : UrlLaws api.
Proof.
  constructor.
  - intros s u H. apply parse_serialize, (parse_wellFormed _ _ H).
  - intros s base u H. apply parse_serialize, (resolve_wellFormed _ _ _ H).
  - intros u p. reflexivity.
  - intros s u H. apply parse_wellFormed in H.
    destruct (wellFormed_path _ H) as [Hs Hc].
    cbn [setPathname pathname api]. rewrite (assignPath_clean _ _ Hs Hc).
    destruct u; reflexivity.
  - intros s u a x b seg H Hp Hx Hn Hseg Hsafe u'.
    apply parse_wellFormed in H. destruct (wellFormed_path _ H) as [Hs Hc].
    cbn [pathname api] in Hp. rewrite Hp in Hs, Hc.
    assert (forallb notQueryHash (a ++ str "/" ++ seg ++ str "/" ++ b) = true) as Hc'.
    { rewrite !forallb_app in *. repeat rewrite andb_true_iff in Hc.
      destruct Hc as (Ha & _ & _ & _ & Hb). rewrite Ha, Hb.
      rewrite (forallb_impl _ _ _ segmentSafe_clean Hsafe). reflexivity. }
    assert (startsWith (a ++ str "/" ++ seg ++ str "/" ++ b) (str "/") = true) as Hs'.
    { destruct a as [|c a']; [reflexivity|].
      apply startsWith_iff in Hs as [r Hr]. inversion Hr.
      apply startsWith_iff. eexists. reflexivity. }
    unfold u'. cbn [setPathname pathname href parseUrl api]. split.
    + rewrite (assignPath_clean _ _ Hs' Hc'). reflexivity.
    + apply parse_serialize, wellFormed_assign; assumption.
Qed.

End RefUrlFacts.

(* ================================================================== *)
(** * Facts about the effects of the handlers *)
(* ================================================================== *)

Module GuardFacts.

Import Route Shufoo Effects ExtractUrl.

Section WithWorld.

Context {U : UrlApi} {C : CaseApi} {P : NumberPrinter} {W : World} {S : Scanner}.

Lemma guarded_ret (storeId : StoreId) (A : Type) (a : A) : guarded storeId (ret a).
Proof.
  intros st. exists []. simpl. rewrite app_nil_r. split; [reflexivity | constructor].
Qed.

Lemma guarded_lift (storeId : StoreId) (A : Type) (r : result A) : guarded storeId (lift r).
Proof.
  intros st. exists []. simpl. rewrite app_nil_r. split; [reflexivity | constructor].
Qed.

Lemma guarded_warn (storeId : StoreId) (w : jsstring) : guarded storeId (warn w).
Proof.
  intros st. exists []. simpl. rewrite app_nil_r. split; [reflexivity | constructor].
Qed.

Lemma guarded_bind (storeId : StoreId) (A B : Type) (c : M A) (k : A -> M B) :
  guarded storeId c -> (forall a, guarded storeId (k a)) -> guarded storeId (bind c k).
Proof.
  intros Hc Hk st. unfold bind.
  destruct (Hc st) as [s1 [E1 F1]].
  destruct (c st) as [[a | e] st1]; simpl in E1.
  - destruct (Hk a st1) as [s2 [E2 F2]].
    exists (s1 ++ s2). rewrite E2, E1, app_assoc. split; [reflexivity|].
    apply Forall_app. split; assumption.
  - exists s1. simpl. split; assumption.
Qed.

Lemma guarded_tryCatch (storeId : StoreId) (A : Type) (c : M A) (h : jsstring -> M A) :
  guarded storeId c -> (forall e, guarded storeId (h e)) -> guarded storeId (tryCatch c h).
Proof.
  intros Hc Hh st. unfold tryCatch.
  destruct (Hc st) as [s1 [E1 F1]].
  destruct (c st) as [[a | e] st1]; simpl in E1.
  - exists s1. simpl. split; assumption.
  - destruct (Hh e st1) as [s2 [E2 F2]].
    exists (s1 ++ s2). rewrite E2, E1, app_assoc. split; [reflexivity|].
    apply Forall_app. split; assumption.
Qed.

Lemma guarded_forEach (storeId : StoreId) (A T : Type) (body : T -> A -> M T) :
  (forall acc x, guarded storeId (body acc x)) ->
  forall xs acc, guarded storeId (forEach xs acc body).
Proof.
  intros Hb xs. induction xs as [|x xs IH]; intros acc; simpl.
  - apply guarded_ret.
  - apply guarded_bind; [apply Hb | intros acc'; apply IH].
Qed.

(** What follows a successful [assertAllowedUrl] runs with the address
    known to be allowed. *)
Lemma guarded_assert (storeId : StoreId) (A : Type) (u : jsstring) (k : URL -> M A) :
  (isAllowed storeId u = true -> forall x, guarded storeId (k x)) ->
  guarded storeId (bind (lift (assertAllowedUrl storeId u)) k).
Proof.
  intros Hk st. unfold bind, lift.
  destruct (assertAllowedUrl storeId u) as [x | e] eqn:E.
  - apply Hk. unfold isAllowed. rewrite E. reflexivity.
  - exists []. simpl. rewrite app_nil_r. split; [reflexivity | constructor].
Qed.

Lemma guarded_send (storeId : StoreId) (r : request) :
  isAllowed storeId (target r) = true -> guarded storeId (send r).
Proof.
  intros Hr st. exists [r]. unfold send. simpl. split; [reflexivity|].
  constructor; [exact Hr | constructor].
Qed.

Lemma guarded_fetchBuffer (storeId : StoreId) (u : jsstring) (maxBytes : N) :
  isAllowed storeId u = true -> guarded storeId (fetchBuffer u maxBytes).
Proof.
  intros Hu. unfold fetchBuffer.
  apply guarded_bind; [apply guarded_send; exact Hu|].
  intros res. destruct (negb (ok res)); [apply guarded_lift|].
  destruct (N.ltb maxBytes (bufferLength (body res))); [apply guarded_lift | apply guarded_ret].
Qed.

Lemma guarded_loadTile (storeId : StoreId) (entries : list entry) (tile : ShufooTile) :
  guarded storeId (loadTile storeId entries tile).
Proof.
  unfold loadTile. apply guarded_assert. intros Hu _.
  apply guarded_bind; [apply guarded_fetchBuffer; exact Hu|]. intros fetchedTile.
  apply guarded_bind; [apply guarded_lift|]. intros normalized.
  apply guarded_bind; [apply guarded_lift|]. intros meta.
  cbv zeta. destruct (_ || _); apply guarded_ret.
Qed.

Lemma guarded_composeShufooTiles (storeId : StoreId) (tiles : list ShufooTile) :
  guarded storeId (composeShufooTiles storeId tiles).
Proof.
  unfold composeShufooTiles, loadEntries.
  apply guarded_bind; [apply guarded_forEach; apply guarded_loadTile|].
  intros entries. destruct (layout entries); [|apply guarded_ret].
  apply guarded_bind; [apply guarded_lift | intros; apply guarded_ret].
Qed.

Lemma guarded_resolvePageToAssetUrls (storeId : StoreId) (pageUrl : jsstring) :
  guarded storeId (resolvePageToAssetUrls storeId pageUrl).
Proof.
  unfold resolvePageToAssetUrls. apply guarded_assert. intros Hu _.
  apply guarded_bind; [apply guarded_fetchBuffer; exact Hu|]. intros [buf contentType].
  destruct (negb _); [apply guarded_ret|]. cbv zeta.
  destruct storeId; cbv beta iota; try apply guarded_ret.
  destruct (firstn 3 _); [apply guarded_bind; [apply guarded_warn | intros; apply guarded_ret]|].
  destruct (filter _ _);
    [apply guarded_bind; [apply guarded_warn | intros; apply guarded_ret] | apply guarded_ret].
Qed.

Lemma guarded_resolveInput (storeId : StoreId) (inputUrls : list jsstring) (u : jsstring) :
  guarded storeId (resolveInput storeId inputUrls u).
Proof.
  unfold resolveInput. apply guarded_tryCatch.
  - apply guarded_assert. intros Hu _.
    destruct (_ || _); [apply guarded_ret|].
    apply guarded_bind; [apply guarded_fetchBuffer; exact Hu|]. intros [buf contentType].
    destruct (isHtmlByTypeOrSniff contentType buf).
    + apply guarded_bind; [apply guarded_resolvePageToAssetUrls|].
      intros [|x resolved]; [|apply guarded_ret].
      apply guarded_bind; [apply guarded_warn | intros; apply guarded_ret].
    + apply guarded_bind; [apply guarded_warn | intros; apply guarded_ret].
  - intros e. apply guarded_bind; [apply guarded_warn | intros; apply guarded_ret].
Qed.

Lemma guarded_stitchGroup (storeId : StoreId) (acc : pages) (group : tileGroup) :
  guarded storeId (stitchGroup storeId acc group).
Proof.
  unfold stitchGroup. apply guarded_tryCatch.
  - apply guarded_bind; [apply guarded_composeShufooTiles|].
    intros [png|]; [apply guarded_ret|].
    apply guarded_bind; [apply guarded_warn | intros; apply guarded_ret].
  - intros e. apply guarded_bind; [apply guarded_warn | intros; apply guarded_ret].
Qed.

Lemma guarded_downloadPage (storeId : StoreId) (stitched : list jsstring) (pngs : list Buffer)
  (urlStr : jsstring) :
  guarded storeId (downloadPage storeId stitched pngs urlStr).
Proof.
  unfold downloadPage. apply guarded_tryCatch.
  - destruct (arrayIncludes stitched urlStr); [apply guarded_ret|].
    apply guarded_assert. intros Hu _.
    apply guarded_bind; [apply guarded_fetchBuffer; exact Hu|]. intros [buf contentType].
    destruct (isPdfByTypeOrUrl contentType urlStr).
    + apply guarded_bind; [apply guarded_lift|].
      intros [|p converted]; [|apply guarded_ret].
      apply guarded_bind; [apply guarded_warn | intros; apply guarded_ret].
    + apply guarded_bind; [apply guarded_lift | intros; apply guarded_ret].
  - intros e. apply guarded_bind; [apply guarded_warn | intros; apply guarded_ret].
Qed.

Lemma guarded_gatherPages (storeId : StoreId) (urls : list jsstring) :
  guarded storeId (gatherPages storeId urls).
Proof.
  unfold gatherPages.
  apply guarded_bind; [apply guarded_forEach; apply guarded_resolveInput|].
  intros [|u resolved]; [apply guarded_ret|]. cbv zeta.
  apply guarded_bind; [apply guarded_forEach; apply guarded_stitchGroup|]. intros stitched.
  apply guarded_bind; [apply guarded_forEach; apply guarded_downloadPage|].
  intros pngs. apply guarded_ret.
Qed.

End WithWorld.

End GuardFacts.

(* ================================================================== *)
(** * Facts about the allowlist check *)
(* ================================================================== *)

Module AllowFacts.

Import Route.

Section WithUrl.

Context {U : UrlApi} {C : CaseApi}.

Lemma arrayIncludes_In (xs : list jsstring) (x : jsstring) :
  arrayIncludes xs x = true <-> In x xs.
Proof.
  unfold arrayIncludes. rewrite existsb_exists. split.
  - intros [y [Hin Heq]]. apply JsFacts.eqb_eq in Heq. subst y. exact Hin.
  - intros Hin. exists x. split; [exact Hin | apply JsFacts.eqb_refl].
Qed.

(** An address passes the check exactly when it parses, its scheme is http
    or https, and its host is one of the hosts of the store. *)
Lemma isAllowed_spec (storeId : StoreId) (u : jsstring) :
  isAllowed storeId u = true <->
  exists p, parseUrl u = Some p
            /\ (protocol p = str "https:" \/ protocol p = str "http:")
            /\ In (hostname p) (ALLOWLIST storeId).
Proof.
  unfold isAllowed, assertAllowedUrl.
  destruct (parseUrl u) as [p|]; [|split; [discriminate | intros [p [H _]]; discriminate]].
  split.
  - intros H. exists p. split; [reflexivity|].
    destruct (Js.eqb (protocol p) (str "https:")) eqn:E1;
      destruct (Js.eqb (protocol p) (str "http:")) eqn:E2;
      cbn [negb andb] in H; try discriminate H;
      destruct (arrayIncludes (ALLOWLIST storeId) (hostname p)) eqn:E3;
      cbn [negb] in H; try discriminate H;
      (split;
       [ first [ left; apply JsFacts.eqb_eq; exact E1
               | right; apply JsFacts.eqb_eq; exact E2 ]
       | apply arrayIncludes_In; exact E3 ]).
  - intros [q [Hq [Hs Hh]]]. injection Hq as <-.
    apply arrayIncludes_In in Hh. rewrite Hh. cbn [negb].
    destruct Hs as [Hs | Hs]; rewrite Hs, JsFacts.eqb_refl; cbn [negb andb];
      [reflexivity | rewrite andb_false_r; reflexivity].
Qed.

(** The error for a host outside the allowlist names the store and the
    host. *)
Lemma assertAllowedUrl_host (storeId : StoreId) (u : jsstring) (p : URL) :
  parseUrl u = Some p ->
  protocol p = str "https:" \/ protocol p = str "http:" ->
  ~ In (hostname p) (ALLOWLIST storeId) ->
  assertAllowedUrl storeId u
  = Throw (str "URL host not allowed for " ++ storeName storeId ++ str ": " ++ hostname p).
Proof.
  intros Hp Hs Hh. unfold assertAllowedUrl. rewrite Hp.
  assert (E : negb (Js.eqb (protocol p) (str "https:"))
              && negb (Js.eqb (protocol p) (str "http:")) = false).
  { destruct Hs as [Hs | Hs]; rewrite Hs, JsFacts.eqb_refl; cbn [negb andb];
      [reflexivity | apply andb_false_r]. }
  rewrite E.
  destruct (arrayIncludes (ALLOWLIST storeId) (hostname p)) eqn:E3.
  - apply arrayIncludes_In in E3. contradiction.
  - reflexivity.
Qed.

End WithUrl.

End AllowFacts.

(* ================================================================== *)
(** * Facts about compositing *)
(* ================================================================== *)

Module ComposeFacts.

Import Route Shufoo Effects ExtractUrl.

#[local] Open Scope Z_scope.

Lemma minOf_spec (xs : list Z) : forall x,
  minOf x xs <= x
  /\ Forall (fun y => minOf x xs <= y) xs
  /\ (minOf x xs = x \/ In (minOf x xs) xs).
Proof.
  unfold minOf. induction xs as [|y xs IH]; intros x; simpl.
  - split; [lia | split; [constructor | left; reflexivity]].
  - destruct (IH (Z.min x y)) as [H1 [H2 H3]].
    split; [lia | split].
    + constructor; [lia | exact H2].
    + destruct H3 as [H3 | H3]; [|right; right; exact H3].
      rewrite H3. destruct (Z.min_spec x y) as [[_ E] | [_ E]]; rewrite E;
        [left; reflexivity | right; left; reflexivity].
Qed.

Lemma maxOf_spec (xs : list Z) : forall x,
  x <= maxOf x xs
  /\ Forall (fun y => y <= maxOf x xs) xs
  /\ (maxOf x xs = x \/ In (maxOf x xs) xs).
Proof.
  unfold maxOf. induction xs as [|y xs IH]; intros x; simpl.
  - split; [lia | split; [constructor | left; reflexivity]].
  - destruct (IH (Z.max x y)) as [H1 [H2 H3]].
    split; [lia | split].
    + constructor; [lia | exact H2].
    + destruct H3 as [H3 | H3]; [|right; right; exact H3].
      rewrite H3. destruct (Z.max_spec x y) as [[_ E] | [_ E]]; rewrite E;
        [right; left; reflexivity | left; reflexivity].
Qed.

(** Minimum and maximum over a list that holds the start value. *)
Lemma minOf_In (x : Z) (xs : list Z) :
  In x xs -> In (minOf x xs) xs /\ Forall (fun y => minOf x xs <= y) xs.
Proof.
  intros Hx. destruct (minOf_spec xs x) as [_ [H2 [H3 | H3]]].
  - split; [rewrite H3; exact Hx | exact H2].
  - split; assumption.
Qed.

Lemma maxOf_In (x : Z) (xs : list Z) :
  In x xs -> In (maxOf x xs) xs /\ Forall (fun y => y <= maxOf x xs) xs.
Proof.
  intros Hx. destruct (maxOf_spec xs x) as [_ [H2 [H3 | H3]]].
  - split; [rewrite H3; exact Hx | exact H2].
  - split; assumption.
Qed.

Section WithWorld.

Context {U : UrlApi} {C : CaseApi} {W : World}.

(** One round of the loop keeps the entries or adds the tile with its
    non-zero size. *)
Lemma loadTile_inv (storeId : StoreId) (entries entries' : list entry)
  (tile : ShufooTile) (st st' : state) :
  loadTile storeId entries tile st = (Ok entries', st') ->
  entries' = entries
  \/ exists e, entries' = entries ++ [e] /\ cell e = place tile /\ sized e.
Proof.
  unfold loadTile, bind, lift, ret.
  destruct (assertAllowedUrl storeId (url tile)); [|discriminate].
  destruct (fetchBuffer (url tile) defaultMaxBytes st) as [[f | e] st1]; [|discriminate].
  destruct (sharpPng (fst f)) as [normalized | e]; [|discriminate].
  destruct (sharpMetadata normalized) as [meta | e]; [|discriminate].
  cbv zeta.
  destruct (_ || _) eqn:E; intros H; injection H as <- <-.
  - left. reflexivity.
  - right. eexists. split; [reflexivity|]. split; [reflexivity|].
    apply orb_false_iff in E. destruct E as [E1 E2].
    apply Z.eqb_neq in E1, E2. split; assumption.
Qed.

Lemma forEach_loadTile_inv (storeId : StoreId) (tiles : list ShufooTile) :
  forall (acc entries : list entry) (st st' : state),
  forEach tiles acc (loadTile storeId) st = (Ok entries, st') ->
  exists added,
    entries = acc ++ added
    /\ Forall sized added
    /\ incl (List.map cell added) (List.map place tiles)
    /\ (List.length added <= List.length tiles)%nat.
Proof.
  induction tiles as [|tile tiles IH]; intros acc entries st st'; simpl.
  - unfold ret. intros H. injection H as <- <-. exists [].
    rewrite app_nil_r. repeat split; [constructor | intros x [] | constructor].
  - unfold bind at 1.
    destruct (loadTile storeId acc tile st) as [[acc' | e] st1] eqn:E; [|discriminate].
    intros H. apply IH in H. destruct H as [added [H1 [H2 [H3 H4]]]].
    apply loadTile_inv in E. destruct E as [-> | [e [-> [Hc Hs]]]].
    + exists added. repeat split; [exact H1 | exact H2 | | lia].
      intros x Hx. right. apply H3. exact Hx.
    + exists (e :: added). rewrite <- app_assoc in H1. repeat split.
      * exact H1.
      * constructor; assumption.
      * intros x [<- | Hx]; [left; symmetry; exact Hc | right; apply H3; exact Hx].
      * simpl. lia.
Qed.

Lemma loadEntries_inv (storeId : StoreId) (tiles : list ShufooTile)
  (entries : list entry) (st st' : state) :
  loadEntries storeId tiles st = (Ok entries, st') ->
  Forall sized entries
  /\ incl (List.map cell entries) (List.map place tiles)
  /\ (List.length entries <= List.length tiles)%nat.
Proof.
  intros H. apply forEach_loadTile_inv in H.
  destruct H as [added [-> H]]. exact H.
Qed.

End WithWorld.

End ComposeFacts.

(* ================================================================== *)
(** * Facts about the extraction of addresses *)
(* ================================================================== *)

Module ExtractFacts.

Import Route.

Section WithUrl.

Context {U : UrlApi} {C : CaseApi}.

Lemma absolutizeAll_In (captures : list jsstring) (baseUrl x : jsstring) :
  In x (absolutizeAll captures baseUrl) <->
  x <> [] /\ exists raw, In raw captures /\ toAbsUrl raw baseUrl = Some x.
Proof.
  induction captures as [|m rest IH]; simpl.
  - split; [intros [] | intros [_ [raw [[] _]]]].
  - destruct (toAbsUrl m baseUrl) as [[|c abs]|] eqn:E.
    + rewrite IH. split.
      * intros [Hx [raw [Hin Hr]]]. split; [exact Hx|]. exists raw. split; [right|]; assumption.
      * intros [Hx [raw [[<- | Hin] Hr]]].
        -- rewrite E in Hr. injection Hr as <-. contradiction.
        -- split; [exact Hx|]. exists raw. split; assumption.
    + simpl. rewrite IH. split.
      * intros [<- | [Hx [raw [Hin Hr]]]].
        -- split; [discriminate|]. exists m. split; [left; reflexivity | exact E].
        -- split; [exact Hx|]. exists raw. split; [right|]; assumption.
      * intros [Hx [raw [[<- | Hin] Hr]]].
        -- left. rewrite E in Hr. injection Hr as <-. reflexivity.
        -- right. split; [exact Hx|]. exists raw. split; assumption.
    + rewrite IH. split.
      * intros [Hx [raw [Hin Hr]]]. split; [exact Hx|]. exists raw. split; [right|]; assumption.
      * intros [Hx [raw [[<- | Hin] Hr]]].
        -- rewrite E in Hr. discriminate.
        -- split; [exact Hx|]. exists raw. split; assumption.
Qed.

Lemma toAbsUrl_Some (raw baseUrl x : jsstring) :
  toAbsUrl raw baseUrl = Some x <->
  exists u, resolveUrl (decodeHtmlEntities (trim raw)) baseUrl = Some u /\ x = href u.
Proof.
  unfold toAbsUrl. destruct (resolveUrl _ baseUrl) as [u|].
  - split.
    + intros H. injection H as <-. exists u. split; reflexivity.
    + intros [v [Hv ->]]. injection Hv as <-. reflexivity.
  - split; [discriminate | intros [v [Hv _]]; discriminate].
Qed.

End WithUrl.

End ExtractFacts.

(* ================================================================== *)
(** * Facts about the helpers on strings and lists of addresses *)
(* ================================================================== *)

Module RouteFacts.

Import Route.

#[local] Open Scope N_scope.

Lemma arrayIncludes_false (xs : list jsstring) (x : jsstring) :
  arrayIncludes xs x = false <-> ~ In x xs.
Proof.
  split.
  - intros E H. apply AllowFacts.arrayIncludes_In in H. congruence.
  - intros H. destruct (arrayIncludes xs x) eqn:E; [|reflexivity].
    apply AllowFacts.arrayIncludes_In in E. contradiction.
Qed.

Lemma uniqFrom_In (xs : list jsstring) : forall seen x,
  In x (uniqFrom seen xs) <-> In x xs /\ ~ In x seen.
Proof.
  induction xs as [|y xs IH]; intros seen x; simpl.
  - tauto.
  - destruct (arrayIncludes seen y) eqn:E.
    + apply AllowFacts.arrayIncludes_In in E. rewrite IH. split.
      * intros [H1 H2]. split; [right; exact H1 | exact H2].
      * intros [[<- | H1] H2]; [contradiction | split; assumption].
    + apply arrayIncludes_false in E. simpl. rewrite IH. simpl. split.
      * intros [<- | [H1 H2]]; [split; [left; reflexivity | exact E]|].
        split; [right; exact H1 | intros H; apply H2; right; exact H].
      * intros [[<- | H1] H2]; [left; reflexivity|].
        destruct (list_eq_dec N.eq_dec y x) as [<- | D]; [left; reflexivity|].
        right. split; [exact H1 | intros [H | H]; [contradiction | contradiction]].
Qed.

Lemma uniqFrom_NoDup (xs : list jsstring) : forall seen, NoDup (uniqFrom seen xs).
Proof.
  induction xs as [|y xs IH]; intros seen; simpl.
  - constructor.
  - destruct (arrayIncludes seen y); [apply IH|].
    constructor; [|apply IH].
    rewrite uniqFrom_In. intros [_ H]. apply H. left. reflexivity.
Qed.

Lemma uniqFrom_fixed (xs : list jsstring) : forall seen,
  NoDup xs -> (forall x, In x xs -> ~ In x seen) -> uniqFrom seen xs = xs.
Proof.
  induction xs as [|y xs IH]; intros seen Hnd Hdis; simpl; [reflexivity|].
  inversion Hnd as [|? ? Hy Hnd']; subst.
  assert (E : arrayIncludes seen y = false).
  { apply arrayIncludes_false. apply Hdis. left. reflexivity. }
  rewrite E. f_equal. apply IH; [exact Hnd'|].
  intros x Hx [<- | Hs]; [contradiction|].
  apply (Hdis x); [right; exact Hx | exact Hs].
Qed.

(** Replacing a pattern whose first unit does not occur changes nothing. *)
Lemma replaceAll_absent (p0 : N) (pat rep s : jsstring) :
  ~ In p0 s -> replaceAll s (p0 :: pat) rep = s.
Proof.
  unfold replaceAll. induction s as [|c s IH]; intros Hs; simpl; [reflexivity|].
  assert (E : (c =? p0) = false).
  { apply N.eqb_neq. intros ->. apply Hs. left. reflexivity. }
  rewrite E. simpl. f_equal. apply IH. intros H. apply Hs. right. exact H.
Qed.

(** A match of the raw sweep is a scheme and a non-empty run of the class,
    at the head of the text. *)
Lemma rawUrlAt_Some (s m : jsstring) :
  rawUrlAt s = Some m ->
  exists scheme run rest,
    (scheme = str "https://" \/ scheme = str "http://")
    /\ m = scheme ++ run /\ run <> [] /\ forallb isRawUrlChar run = true
    /\ s = m ++ rest.
Proof.
  unfold rawUrlAt.
  assert (Hafter : forall p,
            match stripPrefix p s with
            | Some rest =>
                match fst (span isRawUrlChar rest) with
                | [] => None
                | run => Some (p ++ run)
                end
            | None => None
            end = Some m ->
            exists run rest,
              m = p ++ run /\ run <> [] /\ forallb isRawUrlChar run = true
              /\ s = m ++ rest).
  { intros p. destruct (stripPrefix p s) as [rest|] eqn:E; [|discriminate].
    apply JsFacts.stripPrefix_spec in E.
    pose proof (JsFacts.span_app isRawUrlChar rest) as Happ.
    pose proof (JsFacts.span_all isRawUrlChar rest) as Hall.
    destruct (fst (span isRawUrlChar rest)) as [|c run] eqn:Er; [discriminate|].
    intros H. injection H as <-.
    exists (c :: run), (snd (span isRawUrlChar rest)).
    split; [reflexivity|]. split; [discriminate|]. split; [exact Hall|].
    rewrite E, <- app_assoc. f_equal. symmetry. exact Happ. }
  destruct (match stripPrefix (str "https://") s with
            | Some rest =>
                match fst (span isRawUrlChar rest) with
                | [] => None
                | run => Some (str "https://" ++ run)
                end
            | None => None
            end) as [m1|] eqn:E1.
  - intros H. injection H as <-. destruct (Hafter _ E1) as [run [rest H]].
    exists (str "https://"), run, rest. split; [left; reflexivity | exact H].
  - intros H. destruct (Hafter _ H) as [run [rest H']].
    exists (str "http://"), run, rest. split; [right; reflexivity | exact H'].
Qed.

Lemma rawUrlMatches_In (s : jsstring) : forall skip m,
  In m (rawUrlMatches skip s) ->
  exists before after, s = before ++ after /\ rawUrlAt after = Some m.
Proof.
  induction s as [|c s IH]; intros skip m; simpl; [intros []|].
  destruct skip as [|k].
  - destruct (rawUrlAt (c :: s)) as [m0|] eqn:E.
    + intros [<- | H].
      * exists [], (c :: s). split; [reflexivity | exact E].
      * destruct (IH _ _ H) as [b [a [-> Ha]]]. exists (c :: b), a. split; [reflexivity | exact Ha].
    + intros H. destruct (IH _ _ H) as [b [a [-> Ha]]].
      exists (c :: b), a. split; [reflexivity | exact Ha].
  - intros H. destruct (IH _ _ H) as [b [a [-> Ha]]].
    exists (c :: b), a. split; [reflexivity | exact Ha].
Qed.

End RouteFacts.

Module TextFacts.

(** A text that includes a pattern includes every piece of the pattern. *)
Lemma includes_piece (s a p b : jsstring) :
  includes s (a ++ p ++ b) = true -> includes s p = true.
Proof.
  rewrite !JsFacts.includes_iff. intros [x [y ->]].
  exists (x ++ a), (b ++ y). rewrite <- !app_assoc. reflexivity.
Qed.

Lemma includes_piece_false (s a p b : jsstring) :
  includes s p = false -> includes s (a ++ p ++ b) = false.
Proof.
  intros H. destruct (includes s (a ++ p ++ b)) eqn:E; [|reflexivity].
  apply includes_piece in E. congruence.
Qed.

End TextFacts.

(* ================================================================== *)
(** * Facts about outcomes *)
(* ================================================================== *)

Module OutcomeFacts.

Import Route Shufoo Effects ExtractUrl Outcome.

Lemma returns_ret (A : Type) (a : A) : returns (ret a).
Proof. intros st. exists a. reflexivity. Qed.

Lemma returns_warn (w : jsstring) : returns (warn w).
Proof. intros st. exists tt. reflexivity. Qed.

Lemma returns_bind (A B : Type) (c : M A) (k : A -> M B) :
  returns c -> (forall a, returns (k a)) -> returns (bind c k).
Proof.
  intros Hc Hk st. unfold bind. destruct (Hc st) as [a E].
  destruct (c st) as [[a' | e] st1]; simpl in E; [|discriminate].
  apply Hk.
Qed.

Lemma returns_tryCatch (A : Type) (c : M A) (h : jsstring -> M A) :
  (forall e, returns (h e)) -> returns (tryCatch c h).
Proof.
  intros Hh st. unfold tryCatch. destruct (c st) as [[a | e] st1].
  - exists a. reflexivity.
  - apply Hh.
Qed.

Lemma returns_forEach (A T : Type) (body : T -> A -> M T) :
  (forall acc x, returns (body acc x)) ->
  forall xs acc, returns (forEach xs acc body).
Proof.
  intros Hb xs. induction xs as [|x xs IH]; intros acc; simpl.
  - apply returns_ret.
  - apply returns_bind; [apply Hb | intros acc'; apply IH].
Qed.

Lemma returns_warn_then (A : Type) (w : jsstring) (a : A) :
  returns (bind (warn w) (fun _ => ret a)).
Proof. apply returns_bind; [apply returns_warn | intros; apply returns_ret]. Qed.

Lemma extends_ret (A : Type) (a : A) : extends (ret a).
Proof. intros st. exists [], []. simpl. rewrite !app_nil_r. split; reflexivity. Qed.

Lemma extends_lift (A : Type) (r : result A) : extends (lift r).
Proof. intros st. exists [], []. simpl. rewrite !app_nil_r. split; reflexivity. Qed.

Lemma extends_warn (w : jsstring) : extends (warn w).
Proof. intros st. exists [], [w]. simpl. rewrite app_nil_r. split; reflexivity. Qed.

Lemma extends_send {W : World} (r : request) : extends (send r).
Proof. intros st. exists [r], []. simpl. rewrite app_nil_r. split; reflexivity. Qed.

Lemma extends_bind (A B : Type) (c : M A) (k : A -> M B) :
  extends c -> (forall a, extends (k a)) -> extends (bind c k).
Proof.
  intros Hc Hk st. unfold bind.
  destruct (Hc st) as [s1 [w1 [E1 F1]]].
  destruct (c st) as [[a | e] st1]; simpl in E1, F1.
  - destruct (Hk a st1) as [s2 [w2 [E2 F2]]].
    exists (s1 ++ s2), (w1 ++ w2). rewrite E2, F2, E1, F1, !app_assoc. split; reflexivity.
  - exists s1, w1. simpl. split; assumption.
Qed.

Lemma extends_tryCatch (A : Type) (c : M A) (h : jsstring -> M A) :
  extends c -> (forall e, extends (h e)) -> extends (tryCatch c h).
Proof.
  intros Hc Hh st. unfold tryCatch.
  destruct (Hc st) as [s1 [w1 [E1 F1]]].
  destruct (c st) as [[a | e] st1]; simpl in E1, F1.
  - exists s1, w1. simpl. split; assumption.
  - destruct (Hh e st1) as [s2 [w2 [E2 F2]]].
    exists (s1 ++ s2), (w1 ++ w2). rewrite E2, F2, E1, F1, !app_assoc. split; reflexivity.
Qed.

Lemma extends_forEach (A T : Type) (body : T -> A -> M T) :
  (forall acc x, extends (body acc x)) ->
  forall xs acc, extends (forEach xs acc body).
Proof.
  intros Hb xs. induction xs as [|x xs IH]; intros acc; simpl.
  - apply extends_ret.
  - apply extends_bind; [apply Hb | intros acc'; apply IH].
Qed.

Lemma extends_warn_then (A : Type) (w : jsstring) (a : A) :
  extends (bind (warn w) (fun _ => ret a)).
Proof. apply extends_bind; [apply extends_warn | intros; apply extends_ret]. Qed.

Section WithWorld.

Context {U : UrlApi} {C : CaseApi} {P : NumberPrinter} {W : World} {S : Scanner}.

(** [fetchBuffer] sends exactly one request, a plain GET of the address,
    and pushes no warning; what it returns is the body of an answer with
    [ok] set, no longer than the limit. *)
Lemma fetchBuffer_spec (urlStr : jsstring) (maxBytes : N) (st : state) :
  let req := {| verb := GET; target := urlStr; referer := None |} in
  fetched (snd (fetchBuffer urlStr maxBytes st)) = fetched st ++ [req]
  /\ warnings (snd (fetchBuffer urlStr maxBytes st)) = warnings st
  /\ match fetch (List.length (fetched st)) req with
     | Throw e => fst (fetchBuffer urlStr maxBytes st) = Throw e
     | Ok res =>
         if negb (ok res) then
           fst (fetchBuffer urlStr maxBytes st)
           = Throw (str "fetch failed: " ++ Dec.dec (status res) ++ str " " ++ statusText res)
         else if (maxBytes <? bufferLength (body res))%N then
           fst (fetchBuffer urlStr maxBytes st)
           = Throw (str "too large: " ++ Dec.dec (bufferLength (body res))
                    ++ str " bytes (max " ++ Dec.dec maxBytes ++ str ")")
         else
           fst (fetchBuffer urlStr maxBytes st)
           = Ok (body res,
                 match header (str "content-type") res with Some c => c | None => [] end)
     end.
Proof.
  intros req. unfold fetchBuffer, bind, send. fold req.
  destruct (fetch (List.length (fetched st)) req) as [res | e]; simpl.
  - destruct (negb (ok res)); simpl; [repeat split; reflexivity|].
    destruct (N.ltb maxBytes (bufferLength (body res))); simpl; repeat split; reflexivity.
  - repeat split; reflexivity.
Qed.

Lemma extends_fetchBuffer (urlStr : jsstring) (maxBytes : N) :
  extends (fetchBuffer urlStr maxBytes).
Proof.
  intros st. destruct (fetchBuffer_spec urlStr maxBytes st) as [E [F _]].
  exists [{| verb := GET; target := urlStr; referer := None |}], [].
  rewrite E, F, app_nil_r. split; reflexivity.
Qed.

Lemma extends_composeShufooTiles (storeId : StoreId) (tiles : list ShufooTile) :
  extends (composeShufooTiles storeId tiles).
Proof.
  unfold composeShufooTiles, loadEntries.
  apply extends_bind.
  - apply extends_forEach. intros acc tile. unfold loadTile.
    apply extends_bind; [apply extends_lift|]. intros _.
    apply extends_bind; [apply extends_fetchBuffer|]. intros f.
    apply extends_bind; [apply extends_lift|]. intros n.
    apply extends_bind; [apply extends_lift|]. intros m.
    cbv zeta. destruct (_ || _); apply extends_ret.
  - intros entries. destruct (layout entries); [|apply extends_ret].
    apply extends_bind; [apply extends_lift | intros; apply extends_ret].
Qed.

Lemma extends_resolvePageToAssetUrls (storeId : StoreId) (pageUrl : jsstring) :
  extends (resolvePageToAssetUrls storeId pageUrl).
Proof.
  unfold resolvePageToAssetUrls.
  apply extends_bind; [apply extends_lift|]. intros _.
  apply extends_bind; [apply extends_fetchBuffer|]. intros [buf contentType].
  destruct (negb _); [apply extends_ret|]. cbv zeta.
  destruct storeId; cbv beta iota; try apply extends_ret.
  destruct (firstn 3 _); [apply extends_warn_then|].
  destruct (filter _ _); [apply extends_warn_then | apply extends_ret].
Qed.

Lemma returns_resolveInput (storeId : StoreId) (inputUrls : list jsstring) (u : jsstring) :
  returns (resolveInput storeId inputUrls u).
Proof. unfold resolveInput. apply returns_tryCatch. intros e. apply returns_warn_then. Qed.

Lemma extends_resolveInput (storeId : StoreId) (inputUrls : list jsstring) (u : jsstring) :
  extends (resolveInput storeId inputUrls u).
Proof.
  unfold resolveInput. apply extends_tryCatch; [|intros e; apply extends_warn_then].
  apply extends_bind; [apply extends_lift|]. intros _.
  destruct (_ || _); [apply extends_ret|].
  apply extends_bind; [apply extends_fetchBuffer|]. intros [buf contentType].
  destruct (isHtmlByTypeOrSniff contentType buf); [|apply extends_warn_then].
  apply extends_bind; [apply extends_resolvePageToAssetUrls|].
  intros [|x resolved]; [apply extends_warn_then | apply extends_ret].
Qed.

Lemma returns_stitchGroup (storeId : StoreId) (acc : pages) (group : tileGroup) :
  returns (stitchGroup storeId acc group).
Proof. unfold stitchGroup. apply returns_tryCatch. intros e. apply returns_warn_then. Qed.

Lemma extends_stitchGroup (storeId : StoreId) (acc : pages) (group : tileGroup) :
  extends (stitchGroup storeId acc group).
Proof.
  unfold stitchGroup. apply extends_tryCatch; [|intros e; apply extends_warn_then].
  apply extends_bind; [apply extends_composeShufooTiles|].
  intros [png|]; [apply extends_ret | apply extends_warn_then].
Qed.

Lemma returns_downloadPage (storeId : StoreId) (stitched : list jsstring)
  (pngs : list Buffer) (urlStr : jsstring) :
  returns (downloadPage storeId stitched pngs urlStr).
Proof. unfold downloadPage. apply returns_tryCatch. intros e. apply returns_warn_then. Qed.

Lemma extends_downloadPage (storeId : StoreId) (stitched : list jsstring)
  (pngs : list Buffer) (urlStr : jsstring) :
  extends (downloadPage storeId stitched pngs urlStr).
Proof.
  unfold downloadPage. apply extends_tryCatch; [|intros e; apply extends_warn_then].
  destruct (arrayIncludes stitched urlStr); [apply extends_ret|].
  apply extends_bind; [apply extends_lift|]. intros _.
  apply extends_bind; [apply extends_fetchBuffer|]. intros [buf contentType].
  destruct (isPdfByTypeOrUrl contentType urlStr).
  - apply extends_bind; [apply extends_lift|].
    intros [|p converted]; [apply extends_warn_then | apply extends_ret].
  - apply extends_bind; [apply extends_lift | intros; apply extends_ret].
Qed.

Lemma returns_gatherPages (storeId : StoreId) (urls : list jsstring) :
  returns (gatherPages storeId urls).
Proof.
  unfold gatherPages.
  apply returns_bind; [apply returns_forEach; apply returns_resolveInput|].
  intros [|u resolved]; [apply returns_ret|]. cbv zeta.
  apply returns_bind; [apply returns_forEach; apply returns_stitchGroup|]. intros stitched.
  apply returns_bind; [apply returns_forEach; apply returns_downloadPage|].
  intros pngs. apply returns_ret.
Qed.

Lemma extends_gatherPages (storeId : StoreId) (urls : list jsstring) :
  extends (gatherPages storeId urls).
Proof.
  unfold gatherPages.
  apply extends_bind; [apply extends_forEach; apply extends_resolveInput|].
  intros [|u resolved]; [apply extends_ret|]. cbv zeta.
  apply extends_bind; [apply extends_forEach; apply extends_stitchGroup|]. intros stitched.
  apply extends_bind; [apply extends_forEach; apply extends_downloadPage|].
  intros pngs. apply extends_ret.
Qed.

End WithWorld.

End OutcomeFacts.

(* ================================================================== *)
(** * Facts about the tiling of pages *)
(* ================================================================== *)

Module PagesFacts.

Import Tiling.

#[local] Open Scope Z_scope.

Lemma gridTiles_length (w h : Z) (pageIndex0 : nat) (tileSize overlap : Z) :
  List.length (gridTiles w h pageIndex0 tileSize overlap)
  = (rows h tileSize overlap * cols w tileSize overlap)%nat.
Proof.
  unfold gridTiles.
  assert (H : forall rs : list nat,
            List.length (flat_map (gridRow w h pageIndex0 tileSize overlap) rs)
            = (List.length rs * cols w tileSize overlap)%nat).
  { induction rs as [|r rs IH]; simpl; [reflexivity|].
    rewrite length_app, IH. unfold gridRow. rewrite length_map, length_seq. reflexivity. }
  rewrite H, length_seq. reflexivity.
Qed.

Lemma gridTile_In (w h : Z) (pageIndex0 : nat) (tileSize overlap : Z) (r c : nat) :
  (r < rows h tileSize overlap)%nat -> (c < cols w tileSize overlap)%nat ->
  In (gridTile w h pageIndex0 tileSize overlap
        (Z.of_nat r * step tileSize overlap) (r * cols w tileSize overlap) c)
     (gridTiles w h pageIndex0 tileSize overlap).
Proof.
  intros Hr Hc. unfold gridTiles. apply in_flat_map. exists r. split.
  - apply in_seq. lia.
  - unfold gridRow. apply in_map. apply in_seq. lia.
Qed.

(** With an overlap that is not negative and smaller than the window, the
    grid leaves no pixel of the bitmap out. *)
Lemma gridTiles_cover (w h : Z) (pageIndex0 : nat) (tileSize overlap x y : Z) :
  0 < w -> 0 < h -> 0 <= overlap < tileSize ->
  0 <= x < w -> 0 <= y < h ->
  exists t, In t (gridTiles w h pageIndex0 tileSize overlap) /\ Pages.holds t x y.
Proof.
  intros Hw Hh Ho Hx Hy.
  assert (Hs : step tileSize overlap = tileSize - overlap) by (unfold step; lia).
  set (s := step tileSize overlap) in *.
  assert (Hs1 : 1 <= s) by lia.
  set (c := Z.to_nat (x / s)). set (r := Z.to_nat (y / s)).
  assert (Hxs : 0 <= x / s) by (apply Z.div_pos; lia).
  assert (Hys : 0 <= y / s) by (apply Z.div_pos; lia).
  pose proof (Z.div_mod x s ltac:(lia)) as Dx.
  pose proof (Z.mod_pos_bound x s ltac:(lia)) as Mx.
  pose proof (Z.div_mod y s ltac:(lia)) as Dy.
  pose proof (Z.mod_pos_bound y s ltac:(lia)) as My.
  assert (Ec : Z.of_nat c = x / s) by (unfold c; lia).
  assert (Er : Z.of_nat r = y / s) by (unfold r; lia).
  assert (Hc : (c < cols w tileSize overlap)%nat).
  { apply (TilingFacts.cols_spec w tileSize overlap Hw). fold s. rewrite Ec. nia. }
  assert (Hr : (r < rows h tileSize overlap)%nat).
  { apply (TilingFacts.rows_spec h tileSize overlap Hh). fold s. rewrite Er. nia. }
  exists (gridTile w h pageIndex0 tileSize overlap (Z.of_nat r * s)
            (r * cols w tileSize overlap) c).
  split; [apply gridTile_In; assumption|].
  unfold Pages.holds, gridTile. cbn [left top width height buf]. fold s. rewrite Ec, Er.
  set (qx := x / s) in *. set (qy := y / s) in *.
  set (rx := x mod s) in *. set (ry := y mod s) in *.
  clearbody qx qy rx ry. clear Ec Er Hc Hr. clearbody s.
  rewrite (Z.mul_comm qx s), (Z.mul_comm qy s). lia.
Qed.

Lemma tileImagePng_zero (w h : Z) (pageIndex0 : nat) (tileSize overlap m : Z) :
  w = 0 \/ h = 0 -> tileImagePng w h pageIndex0 tileSize overlap m = [].
Proof.
  intros [-> | ->]; unfold tileImagePng; simpl; [reflexivity|].
  rewrite orb_true_r. reflexivity.
Qed.

(** A page gives at most as many tiles as its budget, and at most one when
    the budget is spent. *)
Lemma tileImagePng_length (w h : Z) (pageIndex0 : nat) (tileSize overlap m : Z) :
  0 <= w -> 0 <= h ->
  (List.length (tileImagePng w h pageIndex0 tileSize overlap m) <= Z.to_nat (Z.max 1 m))%nat.
Proof.
  intros Hw Hh.
  destruct (Z.eq_dec w 0) as [E | Nw];
    [rewrite tileImagePng_zero by (left; exact E); simpl; lia|].
  destruct (Z.eq_dec h 0) as [E | Nh];
    [rewrite tileImagePng_zero by (right; exact E); simpl; lia|].
  rewrite TilingFacts.tileImagePng_grid by lia. apply firstn_le_length.
Qed.

(** ** A length against a double *)

Lemma ceiling_le (q : Q) (k : Z) : (q <= inject_Z k)%Q <-> Qceiling q <= k.
Proof.
  split; intros H.
  - apply Qceiling_resp_le in H. rewrite Qceiling_Z in H. exact H.
  - apply Qle_trans with (inject_Z (Qceiling q)); [apply Qle_ceiling|].
    rewrite <- Zle_Qle. exact H.
Qed.

Lemma lengthReaches_Finite (q : Q) (n : nat) :
  Num.lengthReaches n (Finite q) = (Qceiling q <=? Z.of_nat n).
Proof.
  unfold Num.lengthReaches.
  destruct (Z.leb_spec (Qceiling q) (Z.of_nat n)) as [H | H].
  - apply Qle_bool_iff. apply ceiling_le. exact H.
  - destruct (Qle_bool q (inject_Z (Z.of_nat n))) eqn:E; [|reflexivity].
    apply Qle_bool_iff in E. apply ceiling_le in E. lia.
Qed.

(** A budget is reached from some length on, or never. *)
Lemma budget_cases (b : number) :
  (exists z, forall n, Num.lengthReaches n b = (z <=? Z.of_nat n))
  \/ (forall n, Num.lengthReaches n b = false).
Proof.
  destruct b as [|[|]|q].
  - right. reflexivity.
  - left. exists 0. intros n. simpl. symmetry. apply Z.leb_le. lia.
  - right. reflexivity.
  - left. exists (Qceiling q). apply lengthReaches_Finite.
Qed.

(** ** The loops with a double and with a whole number as budget *)

Section Agree.

Variables (w h : Z) (pageIndex0 : nat) (tileSize overlap : Z) (b : number) (z : Z).

Lemma leftLoop_grows : forall fuel top0 left0 st,
  match leftLoop w h pageIndex0 tileSize overlap z fuel top0 left0 st with
  | Continue st' | Return st' =>
      (List.length (fst st') <= List.length (fst st) + fuel)%nat
  end.
Proof.
  induction fuel as [|fuel IH]; intros top0 left0 st; cbn [leftLoop]; [lia|].
  destruct (left0 <? w); [|lia]. cbv zeta.
  match goal with
  | |- context [leftLoop _ _ _ _ _ _ fuel ?t ?l ?s] => specialize (IH t l s)
  end.
  destruct (z <=? _).
  - cbn [fst]. rewrite length_app. simpl. lia.
  - destruct (leftLoop _ _ _ _ _ _ fuel _ _ _); cbn [fst] in IH;
      rewrite length_app in IH; simpl in IH; lia.
Qed.

Lemma leftLoop_agree : forall fuel top0 left0 st,
  (forall n, (n <= List.length (fst st) + fuel)%nat ->
     Num.lengthReaches n b = (z <=? Z.of_nat n)) ->
  Pages.leftLoop w h pageIndex0 tileSize overlap b fuel top0 left0 st
  = leftLoop w h pageIndex0 tileSize overlap z fuel top0 left0 st.
Proof.
  induction fuel as [|fuel IH]; intros top0 left0 st Hb; [reflexivity|].
  cbn [Pages.leftLoop leftLoop].
  destruct (left0 <? w); [|reflexivity]. cbv zeta.
  rewrite Hb by (rewrite length_app; simpl; lia).
  destruct (z <=? _); [reflexivity|].
  apply IH. intros n Hn. apply Hb. cbn [fst] in Hn.
  rewrite length_app in Hn. simpl in Hn. lia.
Qed.

Lemma topLoop_agree : forall fuel top0 st,
  (forall n, (n <= List.length (fst st) + fuel * Z.to_nat w)%nat ->
     Num.lengthReaches n b = (z <=? Z.of_nat n)) ->
  Pages.topLoop w h pageIndex0 tileSize overlap b fuel top0 st
  = topLoop w h pageIndex0 tileSize overlap z fuel top0 st.
Proof.
  induction fuel as [|fuel IH]; intros top0 st Hb; [reflexivity|].
  cbn [Pages.topLoop topLoop].
  destruct (top0 <? h); [|reflexivity].
  rewrite leftLoop_agree by (intros n Hn; apply Hb; lia).
  pose proof (leftLoop_grows (Z.to_nat w) top0 0 st) as Hg.
  destruct (leftLoop w h pageIndex0 tileSize overlap z (Z.to_nat w) top0 0 st)
    as [st' | st']; [|reflexivity].
  apply IH. intros n Hn. apply Hb. lia.
Qed.

Lemma tileImagePng_agree :
  (forall n, (n <= Z.to_nat h * Z.to_nat w)%nat ->
     Num.lengthReaches n b = (z <=? Z.of_nat n)) ->
  Pages.tileImagePng w h pageIndex0 tileSize overlap b
  = tileImagePng w h pageIndex0 tileSize overlap z.
Proof.
  intros Hb. unfold Pages.tileImagePng, tileImagePng.
  destruct ((w =? 0) || (h =? 0)); [reflexivity|].
  apply topLoop_agree. exact Hb.
Qed.

End Agree.

(** A budget that is never reached leaves the grid whole. *)
Lemma tileImagePng_unbounded (w h : Z) (pageIndex0 : nat) (tileSize overlap : Z)
  (b : number) :
  (forall n, Num.lengthReaches n b = false) -> 0 <= w -> 0 <= h ->
  Pages.tileImagePng w h pageIndex0 tileSize overlap b
  = if (w =? 0) || (h =? 0) then [] else gridTiles w h pageIndex0 tileSize overlap.
Proof.
  intros Hb Hw Hh.
  set (z := Z.of_nat (Z.to_nat h * Z.to_nat w) + 1).
  rewrite (tileImagePng_agree w h pageIndex0 tileSize overlap b z).
  - destruct (Z.eqb_spec w 0) as [E | Nw];
      [rewrite tileImagePng_zero by (left; exact E); reflexivity|].
    destruct (Z.eqb_spec h 0) as [E | Nh];
      [rewrite tileImagePng_zero by (right; exact E); reflexivity|].
    cbn [orb]. rewrite TilingFacts.tileImagePng_grid by lia.
    apply firstn_all2. rewrite gridTiles_length.
    pose proof (TilingFacts.step_pos tileSize overlap) as Hs.
    assert (Hr : (rows h tileSize overlap <= Z.to_nat h)%nat).
    { unfold rows. apply Z2Nat.inj_le; [apply Z.div_pos; lia | lia |].
      apply Z.div_le_upper_bound; [lia | nia]. }
    assert (Hc : (cols w tileSize overlap <= Z.to_nat w)%nat).
    { unfold cols. apply Z2Nat.inj_le; [apply Z.div_pos; lia | lia |].
      apply Z.div_le_upper_bound; [lia | nia]. }
    unfold z. nia.
  - intros n Hn. rewrite Hb. symmetry. apply Z.leb_gt. unfold z. lia.
Qed.

(** Whatever the budget, the tiles of a page are a prefix of its grid. *)
Lemma tileImagePng_prefix (w h : Z) (pageIndex0 : nat) (tileSize overlap : Z)
  (b : number) :
  0 < w -> 0 < h ->
  exists k, Pages.tileImagePng w h pageIndex0 tileSize overlap b
            = firstn k (gridTiles w h pageIndex0 tileSize overlap).
Proof.
  intros Hw Hh. destruct (budget_cases b) as [[z Hz] | Hnever].
  - exists (Z.to_nat (Z.max 1 z)).
    rewrite (tileImagePng_agree w h pageIndex0 tileSize overlap b z)
      by (intros n _; apply Hz).
    apply TilingFacts.tileImagePng_grid; assumption.
  - exists (List.length (gridTiles w h pageIndex0 tileSize overlap)).
    rewrite tileImagePng_unbounded by (try exact Hnever; lia).
    assert ((w =? 0) = false) as -> by (apply Z.eqb_neq; lia).
    assert ((h =? 0) = false) as -> by (apply Z.eqb_neq; lia).
    rewrite firstn_all. reflexivity.
Qed.

Lemma tileImagePng_Finite (w h : Z) (pageIndex0 : nat) (tileSize overlap : Z) (q : Q) :
  Pages.tileImagePng w h pageIndex0 tileSize overlap (Finite q)
  = tileImagePng w h pageIndex0 tileSize overlap (Qceiling q).
Proof. apply tileImagePng_agree. intros n _. apply lengthReaches_Finite. Qed.

(** ** Doubles *)

Lemma isDouble_eq (q q' : Q) : (q == q')%Q -> Num.isDouble q -> Num.isDouble q'.
Proof.
  intros E (m & k & Hm & [[Hk Hq] | [Hk Hq]]); exists m, k; (split; [exact Hm|]).
  - left. split; [exact Hk|]. rewrite <- E. exact Hq.
  - right. split; [exact Hk|]. rewrite <- E. exact Hq.
Qed.

Lemma isDouble_nat (n : nat) :
  Z.of_nat n < 2 ^ 53 -> Num.isDouble (inject_Z (Z.of_nat n)).
Proof.
  intros Hn. exists (Z.of_nat n), 0. split; [lia|]. left. split; [lia|].
  rewrite Z.pow_0_r, Z.mul_1_r. reflexivity.
Qed.

(** A double below 2^53 less a whole number that it reaches is a double. *)
Lemma isDouble_minus_nat (q : Q) (n : nat) :
  Num.isDouble q -> (inject_Z (Z.of_nat n) <= q)%Q -> (q < inject_Z (2 ^ 53))%Q ->
  Num.isDouble (q - inject_Z (Z.of_nat n)).
Proof.
  intros (m & k & Hm & [[Hk Hq] | [Hk Hq]]) Hn Hlt.
  - rewrite Hq in Hn, Hlt. rewrite <- Zle_Qle in Hn. rewrite <- Zlt_Qlt in Hlt.
    exists (m * 2 ^ k - Z.of_nat n), 0. split; [lia|]. left. split; [lia|].
    rewrite Hq, Z.pow_0_r, Z.mul_1_r.
    unfold Z.sub. rewrite inject_Z_plus, inject_Z_opp. reflexivity.
  - assert (Hp : 0 < 2 ^ k) by (apply Z.pow_pos_nonneg; lia).
    assert (Hle : Z.of_nat n * 2 ^ k <= m).
    { rewrite Zle_Qle, inject_Z_mult, <- Hq.
      apply Qmult_le_compat_r; [exact Hn|].
      change 0%Q with (inject_Z 0). rewrite <- Zle_Qle. lia. }
    exists (m - Z.of_nat n * 2 ^ k), k. split; [nia|]. right. split; [exact Hk|].
    unfold Z.sub. rewrite inject_Z_plus, inject_Z_opp, inject_Z_mult, <- Hq. ring.
Qed.

Lemma referenceArith_laws : DoubleLaws referenceArith.
Proof.
  constructor.
  - reflexivity.
  - reflexivity.
  - intros a b _ _ _. exists (a - b)%Q. split; reflexivity.
Qed.

(** ** The loop over the pages *)

Section WithArith.

Context {D : DoubleArith} {L : DoubleLaws D}.

(** The budget of a page when the array holds fewer tiles than a finite
    budget allows, or none. *)
Lemma pageBudget (q : Q) (n : nat) :
  Num.isDouble q -> (q < inject_Z (2 ^ 53))%Q ->
  (inject_Z (Z.of_nat n) < q)%Q \/ n = 0%nat ->
  exists r, minus (Finite q) (Num.ofNat n) = Finite r
            /\ (r == q - inject_Z (Z.of_nat n))%Q.
Proof.
  intros Hq Hlt Hn. unfold Num.ofNat. apply minus_exact; [exact Hq | |].
  - destruct Hn as [Hn | ->]; [|apply (isDouble_nat 0); lia].
    apply isDouble_nat. rewrite Zlt_Qlt.
    apply Qlt_trans with q; assumption.
  - destruct Hn as [Hn | ->].
    + apply isDouble_minus_nat; [exact Hq | apply Qlt_le_weak; exact Hn | exact Hlt].
    + apply (isDouble_eq q); [|exact Hq]. simpl. ring.
Qed.

Lemma tilePagesFrom_finite (q : Q) (pages : list (Z * Z)) :
  Num.isDouble q -> (q < inject_Z (2 ^ 53))%Q ->
  Forall (fun p => 0 <= fst p /\ 0 <= snd p) pages ->
  forall i tiles,
    (inject_Z (Z.of_nat (List.length tiles)) < q)%Q \/ tiles = [] ->
    Z.of_nat (List.length (Pages.tilePagesFrom (Finite q) i pages tiles))
    <= Z.max 1 (Qceiling q).
Proof.
  intros Hq Hlt Hp.
  assert (Hbelow : forall n : nat, (inject_Z (Z.of_nat n) < q)%Q -> Z.of_nat n < Qceiling q).
  { intros n Hn. rewrite Zlt_Qlt.
    apply Qlt_le_trans with q; [exact Hn | apply Qle_ceiling]. }
  induction Hp as [|[w h] pages [Hw Hh] Hp IH]; intros i tiles Ht.
  - cbn [Pages.tilePagesFrom]. destruct Ht as [Ht | ->]; [|simpl; lia].
    apply Hbelow in Ht. lia.
  - cbn [Pages.tilePagesFrom]. simpl in Hw, Hh.
    set (n := List.length tiles) in *.
    assert (Hn : (inject_Z (Z.of_nat n) < q)%Q \/ n = 0%nat).
    { destruct Ht as [Ht | ->]; [left; exact Ht | right; reflexivity]. }
    destruct (pageBudget q n Hq Hlt Hn) as (r & -> & Hr).
    rewrite tileImagePng_Finite.
    pose proof (tileImagePng_length w h i 1024 96 (Qceiling r) Hw Hh) as Hlen.
    set (pageTiles := tileImagePng w h i 1024 96 (Qceiling r)) in *.
    assert (Hsum : Z.of_nat (n + List.length pageTiles) <= Z.max 1 (Qceiling q)).
    { destruct Hn as [Hn | Hn0].
      - assert (H1 : 1 <= Qceiling r).
        { assert (0 < Qceiling r); [|lia]. rewrite Zlt_Qlt.
          apply Qlt_le_trans with r; [|apply Qle_ceiling].
          rewrite Hr. unfold Qminus. rewrite <- (Qplus_opp_r (inject_Z (Z.of_nat n))).
          apply Qplus_lt_l. exact Hn. }
        assert (H2 : Qceiling r <= Qceiling q - Z.of_nat n).
        { apply ceiling_le. rewrite Hr. unfold Z.sub.
          rewrite inject_Z_plus, inject_Z_opp. unfold Qminus.
          apply Qplus_le_l. apply Qle_ceiling. }
        lia.
      - assert (Qceiling r = Qceiling q) as Er.
        { apply Qceiling_comp. rewrite Hr, Hn0. simpl. ring. }
        rewrite Er in Hlen. lia. }
    rewrite length_app. fold n.
    destruct (Num.lengthReaches (n + List.length pageTiles) (Finite q)) eqn:E.
    + rewrite length_app. fold n. exact Hsum.
    + apply IH. left. rewrite length_app. fold n.
      apply Qnot_le_lt. intros Hle. apply Qle_bool_iff in Hle.
      unfold Num.lengthReaches in E. rewrite Hle in E. discriminate E.
Qed.

(** A budget of NaN or of +Infinity never stops the loops. *)
Lemma tilePagesFrom_unbounded (b : number) (pages : list (Z * Z)) :
  b = NaN \/ b = Infinity false ->
  Forall (fun p => 0 <= fst p /\ 0 <= snd p) pages ->
  forall i tiles,
    Pages.tilePagesFrom b i pages tiles = tiles ++ Pages.allTilesFrom i pages.
Proof.
  intros Hb Hp.
  assert (Hnever : forall n, Num.lengthReaches n b = false)
    by (destruct Hb as [-> | ->]; reflexivity).
  assert (Hminus : forall n, minus b (Num.ofNat n) = b).
  { intros n. destruct Hb as [-> | ->]; [apply minus_NaN | apply minus_Infinity]. }
  induction Hp as [|[w h] pages [Hw Hh] Hp IH]; intros i tiles.
  - simpl. rewrite app_nil_r. reflexivity.
  - cbn [Pages.tilePagesFrom Pages.allTilesFrom]. simpl in Hw, Hh.
    rewrite Hminus, Hnever, IH, tileImagePng_unbounded by assumption.
    rewrite <- app_assoc. reflexivity.
Qed.

(** A budget of -Infinity is spent at once. *)
Lemma tilePagesFrom_spent (pages : list (Z * Z)) (i : nat) :
  Forall (fun p => 0 <= fst p /\ 0 <= snd p) pages ->
  (List.length (Pages.tilePagesFrom (Infinity true) i pages []) <= 1)%nat.
Proof.
  intros Hp. destruct Hp as [|[w h] pages [Hw Hh] Hp]; [simpl; lia|].
  cbn [Pages.tilePagesFrom]. simpl in Hw, Hh. unfold Num.ofNat.
  rewrite minus_Infinity. cbn [Num.lengthReaches app].
  rewrite (tileImagePng_agree w h i 1024 96 (Infinity true) 0).
  - apply (tileImagePng_length w h i 1024 96 0 Hw Hh).
  - intros n _. simpl. symmetry. apply Z.leb_le. lia.
Qed.

Lemma tilePagesFrom_In (b : number) (pages : list (Z * Z)) :
  forall i tiles t,
    In t (Pages.tilePagesFrom b i pages tiles) ->
    In t tiles
    \/ exists j w h k,
         nth_error pages j = Some (w, h)
         /\ In t (Pages.tileImagePng w h (i + j) 1024 96 k).
Proof.
  induction pages as [|[w h] pages IH]; intros i tiles t; cbn [Pages.tilePagesFrom].
  - intros H. left. exact H.
  - set (k0 := minus b (Num.ofNat (List.length tiles))).
    set (pageTiles := Pages.tileImagePng w h i 1024 96 k0).
    assert (Hhere : In t (tiles ++ pageTiles) ->
              In t tiles
              \/ exists j w0 h0 k,
                   nth_error ((w, h) :: pages) j = Some (w0, h0)
                   /\ In t (Pages.tileImagePng w0 h0 (i + j) 1024 96 k)).
    { intros H. apply in_app_or in H. destruct H as [H | H]; [left; exact H|].
      right. exists 0%nat, w, h, k0.
      rewrite Nat.add_0_r. split; [reflexivity | exact H]. }
    destruct (Num.lengthReaches _ b); [exact Hhere|].
    intros H. apply IH in H. destruct H as [H | [j [w0 [h0 [k [Hn H]]]]]].
    + apply Hhere. exact H.
    + right. exists (Datatypes.S j), w0, h0, k. split; [exact Hn|].
      replace (i + Datatypes.S j)%nat with (Datatypes.S i + j)%nat by lia. exact H.
Qed.

End WithArith.

End PagesFacts.

(* ================================================================== *)
(** * Facts about the resolve route *)
(* ================================================================== *)

Module ResolveFacts.

Import Route Effects Discover Resolve.

#[local] Open Scope N_scope.

Lemma forallb_rev (p : N -> bool) (l : list N) :
  forallb p (rev l) = forallb p l.
Proof.
  destruct (forallb p l) eqn:E.
  - rewrite forallb_forall in *. intros x Hx. apply E. apply in_rev. exact Hx.
  - destruct (forallb p (rev l)) eqn:E'; [|reflexivity].
    rewrite forallb_forall in E'.
    assert (forallb p l = true); [|congruence].
    apply forallb_forall. intros x Hx. apply E'. apply in_rev. rewrite rev_involutive. exact Hx.
Qed.

(** [Array.prototype.find] returns the first member that passes the test. *)
Lemma find_first (A : Type) (f : A -> bool) (l : list A) (x : A) :
  find f l = Some x ->
  exists before after,
    l = before ++ x :: after /\ f x = true /\ forall q, In q before -> f q = false.
Proof.
  induction l as [|a l IH]; simpl; [discriminate|].
  destruct (f a) eqn:E.
  - intros H. injection H as <-. exists [], l. repeat split; [exact E | intros q []].
  - intros H. destruct (IH H) as (before & after & -> & Hx & Hb).
    exists (a :: before), after. repeat split; [exact Hx|].
    intros q [<- | Hq]; [exact E | apply Hb; exact Hq].
Qed.

Lemma find_skip (A : Type) (f : A -> bool) (before after : list A) (x : A) :
  (forall q, In q before -> f q = false) -> f x = true ->
  find f (before ++ x :: after) = Some x.
Proof.
  intros Hb Hx. induction before as [|a before IH]; simpl.
  - rewrite Hx. reflexivity.
  - rewrite (Hb a (or_introl eq_refl)). apply IH. intros q Hq. apply Hb. right. exact Hq.
Qed.

Lemma rangeTotal_complete (before digits : jsstring) :
  digits <> [] -> forallb isDigit digits = true ->
  rangeTotal (before ++ 47 :: digits) = Some digits.
Proof.
  intros Hne Hd. unfold rangeTotal.
  rewrite rev_app_distr. simpl. rewrite <- app_assoc. simpl.
  rewrite (JsFacts.span_stop isDigit (rev digits) 47 (rev before));
    [|rewrite forallb_rev; exact Hd | reflexivity].
  destruct (rev digits) as [|d ds] eqn:E.
  - exfalso. apply Hne. rewrite <- (rev_involutive digits), E. reflexivity.
  - rewrite N.eqb_refl. rewrite <- E, rev_involutive. reflexivity.
Qed.

Lemma rangeTotal_sound (cr digits : jsstring) :
  rangeTotal cr = Some digits ->
  exists before,
    cr = before ++ 47 :: digits /\ digits <> [] /\ forallb isDigit digits = true.
Proof.
  unfold rangeTotal.
  pose proof (JsFacts.span_app isDigit (rev cr)) as Happ.
  pose proof (JsFacts.span_all isDigit (rev cr)) as Hall.
  destruct (span isDigit (rev cr)) as [ds rest]. simpl in Happ, Hall.
  destruct ds as [|d ds]; [discriminate|].
  destruct rest as [|c rest]; [discriminate|].
  destruct (N.eqb_spec c 47) as [-> | _]; [|discriminate].
  intros H. injection H as <-.
  exists (rev rest). split; [|split].
  - rewrite <- (rev_involutive cr), <- Happ, rev_app_distr. simpl.
    rewrite <- app_assoc. reflexivity.
  - intros E. simpl in E. apply app_eq_nil in E. destruct E as [_ E]. discriminate E.
  - exact (eq_trans (forallb_rev isDigit (d :: ds)) Hall).
Qed.

Lemma orZero_number (x : number) : orZero x <> NaN.
Proof.
  destruct x as [| neg | q]; simpl; try discriminate.
  destruct (Qeq_bool q 0); discriminate.
Qed.

Section WithWorld.

Context {U : UrlApi} {C : CaseApi} {W : World} {F : Platform}.

Lemma sizeFromLength_number (cl : option jsstring) (size : number) :
  sizeFromLength cl = Some size -> size <> NaN.
Proof.
  unfold sizeFromLength. destruct cl as [[|c s]|]; try discriminate.
  intros H. injection H as <-. apply orZero_number.
Qed.

Lemma sizeFromRange_number (cr : option jsstring) (size : number) :
  sizeFromRange cr = Some size -> size <> NaN.
Proof.
  unfold sizeFromRange. destruct cr as [[|c s]|]; try discriminate.
  destruct (rangeTotal (c :: s)); [|discriminate].
  intros H. injection H as <-. apply orZero_number.
Qed.

Lemma orElse_number (a b : option number) (size : number) :
  (forall x, a = Some x -> x <> NaN) -> (forall x, b = Some x -> x <> NaN) ->
  orElse a b = Some size -> size <> NaN.
Proof.
  intros Ha Hb. unfold orElse. destruct a as [x|]; intros H.
  - apply Ha. exact H.
  - apply Hb. exact H.
Qed.

Lemma bind_Ok (A B : Type) (c : M A) (k : A -> M B) (st st1 : state) (a : A) :
  c st = (Ok a, st1) -> bind c k st = k a st1.
Proof. intros E. unfold bind. rewrite E. reflexivity. Qed.

(** One guarded request of [contentLength]: the request is sent, and what
    is read from the answer is returned; a failed request reads nothing. *)
Lemma attempt_spec (A : Type) (req : request) (read : response Buffer -> option A)
  (st : state) :
  tryCatch (bind (send req) (fun r => ret (read r))) (fun _ => ret None) st
  = (Ok (match fetch (List.length (fetched st)) req with
         | Ok r => read r
         | Throw _ => None
         end),
     {| fetched := fetched st ++ [req]; warnings := warnings st |}).
Proof.
  unfold tryCatch, bind, send, ret.
  destruct (fetch (List.length (fetched st)) req); reflexivity.
Qed.

(** [contentLength] never throws.  It sends a HEAD request and, when that
    gives no size, one ranged GET, both to the address with the referer;
    the size is a number. *)
Lemma contentLength_spec (url : jsstring) (ref : option jsstring) (st : state) :
  let head := {| verb := HEAD; target := url; referer := ref |} in
  let ranged := {| verb := GET_RANGE; target := url; referer := ref |} in
  exists size sent,
    contentLength url ref st
    = (Ok size, {| fetched := fetched st ++ sent; warnings := warnings st |})
    /\ (sent = [head] \/ sent = [head; ranged])
    /\ size <> NaN.
Proof.
  intros head ranged. unfold contentLength. fold head. fold ranged.
  rewrite (bind_Ok _ _ _ _ _ _ _ (attempt_spec _ head _ st)).
  match goal with
  | |- context [match ?x with Some _ => _ | None => _ end] =>
      destruct x as [size|] eqn:E1
  end.
  - exists size, [head]. split; [reflexivity|]. split; [left; reflexivity|].
    destruct (fetch (List.length (fetched st)) head) as [r1|]; [|discriminate].
    apply (orElse_number _ _ _ (sizeFromLength_number _) (sizeFromRange_number _) E1).
  - clear E1.
    rewrite (bind_Ok _ _ _ _ _ _ _ (attempt_spec _ ranged _ _)).
    cbn [fetched warnings]. rewrite <- app_assoc. simpl app.
    match goal with
    | |- context [match ?x with Some _ => _ | None => _ end] =>
        destruct x as [size|] eqn:E2
    end.
    + exists size, [head; ranged]. split; [reflexivity|]. split; [right; reflexivity|].
      destruct (fetch _ ranged) as [r2|]; [|discriminate].
      apply (orElse_number _ _ _ (sizeFromRange_number _) (sizeFromLength_number _) E2).
    + exists (Finite 0), [head; ranged].
      split; [reflexivity|]. split; [right; reflexivity | discriminate].
Qed.

Lemma sizeFromLength_says (r : response Buffer) (size : number) :
  sizeFromLength (header (str "content-length") r) = Some size <-> lengthSays r size.
Proof.
  unfold sizeFromLength, lengthSays.
  destruct (header (str "content-length") r) as [[|c s]|]; split;
    try discriminate; try (intros (c' & s' & H & _); discriminate H).
  - intros H. injection H as <-. exists c, s. split; reflexivity.
  - intros (c' & s' & H & ->). injection H as <- <-. reflexivity.
Qed.

Lemma sizeFromRange_says (r : response Buffer) (size : number) :
  sizeFromRange (header (str "content-range") r) = Some size <-> rangeSays r size.
Proof.
  unfold sizeFromRange, rangeSays. change (str "/") with [47%N].
  destruct (header (str "content-range") r) as [cr|].
  - split.
    + destruct cr as [|c s]; [discriminate|].
      destruct (rangeTotal (c :: s)) as [digits|] eqn:E; [|discriminate].
      intros H. injection H as <-.
      destruct (rangeTotal_sound _ _ E) as (before & Hcr & Hne & Hd).
      exists before, digits. rewrite Hcr. repeat split; assumption.
    + intros (before & digits & H & Hne & Hd & ->). injection H as ->.
      pose proof (rangeTotal_complete before digits Hne Hd) as Hr.
      simpl app in *.
      destruct (before ++ 47%N :: digits) as [|c s] eqn:E.
      * destruct before; discriminate E.
      * rewrite Hr. reflexivity.
  - split; [discriminate|]. intros (before & digits & H & _). discriminate H.
Qed.

(** What the first request of [contentLength] reads. *)
Lemma headSize_cases (o : result (response Buffer)) :
  match o with
  | Ok r =>
      match orElse (sizeFromLength (header (str "content-length") r))
                   (sizeFromRange (header (str "content-range") r)) with
      | Some size =>
          ~ silent o
          /\ (lengthSays r size
              \/ ((forall s, ~ lengthSays r s) /\ rangeSays r size))
      | None => silent o
      end
  | Throw _ => silent o
  end.
Proof.
  destruct o as [r|e]; [|exact I].
  destruct (sizeFromLength (header (str "content-length") r)) as [size|] eqn:El.
  - simpl. apply sizeFromLength_says in El. split; [|left; exact El].
    intros [H _]. exact (H size El).
  - destruct (sizeFromRange (header (str "content-range") r)) as [size|] eqn:Er; simpl.
    + apply sizeFromRange_says in Er. split.
      * intros [_ H]. exact (H size Er).
      * right. split; [|exact Er]. intros s Hs. apply sizeFromLength_says in Hs.
        rewrite Hs in El. discriminate El.
    + split; intros s Hs.
      * apply sizeFromLength_says in Hs. rewrite Hs in El. discriminate El.
      * apply sizeFromRange_says in Hs. rewrite Hs in Er. discriminate Er.
Qed.

(** [contentLength] in full: what it returns and sends, by what the two
    answers tell. *)
Lemma contentLength_cases (url : jsstring) (ref : option jsstring) (st : state) :
  let head := {| verb := HEAD; target := url; referer := ref |} in
  let ranged := {| verb := GET_RANGE; target := url; referer := ref |} in
  let after sent := {| fetched := fetched st ++ sent; warnings := warnings st |} in
  contentLength url ref st
  = match match fetch (List.length (fetched st)) head with
          | Ok r => orElse (sizeFromLength (header (str "content-length") r))
                           (sizeFromRange (header (str "content-range") r))
          | Throw _ => None
          end with
    | Some size => (Ok size, after [head])
    | None =>
        (Ok match match fetch (Datatypes.S (List.length (fetched st))) ranged with
                  | Ok r => orElse (sizeFromRange (header (str "content-range") r))
                                   (sizeFromLength (header (str "content-length") r))
                  | Throw _ => None
                  end with
            | Some size => size
            | None => Finite 0
            end,
         after [head; ranged])
    end.
Proof.
  intros head ranged after. unfold contentLength. fold head. fold ranged.
  rewrite (bind_Ok _ _ _ _ _ _ _ (attempt_spec _ head _ st)).
  match goal with
  | |- context [match ?x with Some _ => _ | None => _ end] => destruct x as [size|]
  end; [reflexivity|].
  rewrite (bind_Ok _ _ _ _ _ _ _ (attempt_spec _ ranged _ _)).
  cbn [fetched warnings]. rewrite length_app, Nat.add_1_r.
  unfold after. rewrite <- app_assoc. simpl app.
  match goal with
  | |- context [match ?x with Some _ => _ | None => _ end] => destruct x as [size|]
  end; reflexivity.
Qed.

(** The probes of a list of candidates, with any array of earlier results. *)
Lemma probe_loop (targetPage : jsstring) (candidates : list jsstring) :
  forall (scored : list (jsstring * number)) (st : state),
  exists sizes sent,
    forEach candidates scored
      (fun scored url =>
         bind (contentLength url (Some targetPage))
              (fun size => ret (scored ++ [(url, size)]))) st
    = (Ok (scored ++ combine candidates sizes),
       {| fetched := fetched st ++ sent; warnings := warnings st |})
    /\ List.length sizes = List.length candidates
    /\ Forall (fun size => size <> NaN) sizes
    /\ (List.length sent <= 2 * List.length candidates)%nat
    /\ Forall (fun r => In (target r) candidates
                        /\ referer r = Some targetPage
                        /\ (verb r = HEAD \/ verb r = GET_RANGE)) sent.
Proof.
  induction candidates as [|url candidates IH]; intros scored st.
  - exists [], []. simpl. unfold ret. rewrite !app_nil_r.
    destruct st. repeat split; constructor.
  - simpl. unfold bind at 1. unfold bind at 1.
    destruct (contentLength_spec url (Some targetPage) st) as [size [sent1 [E [Hs Hn]]]].
    rewrite E. unfold ret at 1.
    destruct (IH (scored ++ [(url, size)])
                 {| fetched := fetched st ++ sent1; warnings := warnings st |})
      as [sizes [sent2 [E2 [Hl [Hns [Hc Hreq]]]]]].
    rewrite E2. cbn [fetched warnings].
    exists (size :: sizes), (sent1 ++ sent2).
    rewrite <- !app_assoc. simpl. split; [reflexivity|].
    split; [rewrite Hl; reflexivity|].
    split; [constructor; assumption|].
    split.
    + rewrite length_app. destruct Hs as [-> | ->]; simpl; lia.
    + apply Forall_app. split.
      * assert (Hh : In url (url :: candidates) /\ Some targetPage = Some targetPage
                       /\ (HEAD = HEAD \/ HEAD = GET_RANGE))
          by (split; [left; reflexivity | split; [reflexivity | left; reflexivity]]).
        assert (Hr : In url (url :: candidates) /\ Some targetPage = Some targetPage
                       /\ (GET_RANGE = HEAD \/ GET_RANGE = GET_RANGE))
          by (split; [left; reflexivity | split; [reflexivity | right; reflexivity]]).
        destruct Hs as [-> | ->].
        -- constructor; [exact Hh | constructor].
        -- constructor; [exact Hh | constructor; [exact Hr | constructor]].
      * rewrite Forall_forall in *. intros r Hr.
        destruct (Hreq r Hr) as [H1 [H2 H3]].
        repeat split; [right; exact H1 | exact H2 | exact H3].
Qed.

Lemma probeSizes_spec (imgCandidates : list jsstring) (targetPage : jsstring) (st : state) :
  exists sizes sent,
    probeSizes imgCandidates targetPage st
    = (Ok (combine (firstn 50 imgCandidates) sizes),
       {| fetched := fetched st ++ sent; warnings := warnings st |})
    /\ List.length sizes = List.length (firstn 50 imgCandidates)
    /\ Forall (fun size => size <> NaN) sizes
    /\ (List.length sent <= 100)%nat
    /\ Forall (fun r => In (target r) (firstn 50 imgCandidates)
                        /\ referer r = Some targetPage
                        /\ (verb r = HEAD \/ verb r = GET_RANGE)) sent.
Proof.
  unfold probeSizes.
  destruct (probe_loop targetPage (firstn 50 imgCandidates) [] st)
    as [sizes [sent [E [Hl [Hn [Hc Hr]]]]]].
  exists sizes, sent. split; [exact E|]. split; [exact Hl|]. split; [exact Hn|].
  split; [|exact Hr].
  pose proof (firstn_le_length 50 imgCandidates). lia.
Qed.


End WithWorld.

Lemma isViewerPage_cons (x : N) (u : jsstring) :
  isViewerPage (x :: u)
  = (match stripPrefix (str "/t/asp_iframe/shop/") (x :: u) with
     | Some r =>
         match span isDigit r with
         | (_ :: _, c :: d :: _) => (c =? 47) && isDigit d
         | _ => false
         end
     | None => false
     end
     || isViewerPage u).
Proof. reflexivity. Qed.

(** An address that holds the path of the iframe of a shop, digits, a slash
    and a digit is a viewer page. *)
Lemma isViewerPage_complete (a shop b : jsstring) (d : N) :
  shop <> [] -> forallb isDigit shop = true -> isDigit d = true ->
  isViewerPage (a ++ str "/t/asp_iframe/shop/" ++ shop ++ 47 :: d :: b) = true.
Proof.
  intros Hne Hs Hd. induction a as [|x a IH].
  - change (str "/t/asp_iframe/shop/") with (47 :: str "t/asp_iframe/shop/").
    cbn [app]. rewrite isViewerPage_cons.
    change (47 :: str "t/asp_iframe/shop/" ++ shop ++ 47 :: d :: b)
      with (str "/t/asp_iframe/shop/" ++ shop ++ 47 :: d :: b).
    rewrite JsFacts.stripPrefix_app.
    rewrite (JsFacts.span_stop isDigit shop 47 (d :: b) Hs eq_refl).
    destruct shop as [|s0 shop]; [contradiction|].
    rewrite N.eqb_refl, Hd. reflexivity.
  - cbn [app]. rewrite isViewerPage_cons, IH. apply orb_true_r.
Qed.

End ResolveFacts.

(* ================================================================== *)
(** * Further facts about tiles, stores and leaflets *)
(* ================================================================== *)

Module GridFacts.

Import Route Shufoo.

#[local] Open Scope N_scope.

Lemma isDigit_bounds (c : N) : isDigit c = true -> 48 <= c <= 57.
Proof.
  unfold isDigit. intros H. apply andb_true_iff in H. destruct H as [H1 H2].
  apply N.leb_le in H1, H2. lia.
Qed.

Lemma matchRowCol_bounds (basename base : jsstring) (r c : N) :
  matchRowCol basename = Some (base, r, c) -> r <= 9 /\ c <= 9.
Proof.
  unfold matchRowCol.
  destruct (span (fun c0 => negb (c0 =? 46)) (rev basename)) as [revExt revStem].
  destruct (stripPrefix (str ".") revStem) as [[|d2 [|d1 rest]]|]; try discriminate.
  destruct (stripPrefix (str "_") rest) as [revBase|]; [|discriminate].
  destruct (isTileExt (rev revExt) && isDigit d1 && isDigit d2 && forallb isDot revBase)
    eqn:E; [|discriminate].
  intros H. injection H as _ <- <-.
  apply andb_true_iff in E. destruct E as [E _].
  apply andb_true_iff in E. destruct E as [E E2].
  apply andb_true_iff in E. destruct E as [_ E1].
  apply isDigit_bounds in E1, E2. lia.
Qed.

Section WithPlatform.

Context {U : UrlApi} {P : NumberPrinter}.

(** A parsed tile keeps its address; its row and column are single digits,
    and 0 or 1 when the name carries a page. *)
Lemma parseShufooTileUrl_bounds (urlStr k : jsstring) (t : ShufooTile) :
  parseShufooTileUrl urlStr = Some (k, t) ->
  url t = urlStr /\ row t <= 9 /\ col t <= 9
  /\ (page t <> None -> row t <= 1 /\ col t <= 1).
Proof.
  unfold parseShufooTileUrl.
  destruct (parseUrl urlStr) as [u|]; [|discriminate].
  cbv zeta.
  destruct (matchPageSizeIndex (basenameOf (pathname u))) as [[[m1 m2] m3]|].
  - destruct (Num.digitsNumber m1) as [page0|]; [|discriminate].
    destruct (Num.digitsNumber m2) as [size|]; [|discriminate].
    destruct (Num.digitsNumber m3) as [tileIndex|]; [|discriminate].
    destruct (N.ltb_spec 3 tileIndex) as [Hgt | Hle]; [discriminate|].
    intros H. injection H as _ <-. cbn [url row col page].
    assert (Hcases : tileIndex = 0 \/ tileIndex = 1 \/ tileIndex = 2 \/ tileIndex = 3) by lia.
    destruct Hcases as [-> | [-> | [-> | ->]]];
      (split; [reflexivity|]); vm_compute; intuition discriminate.
  - destruct (matchRowCol (basenameOf (pathname u))) as [[[baseName row0] col0]|] eqn:E;
      [|discriminate].
    intros H. injection H as _ <-. cbn [url row col page].
    apply matchRowCol_bounds in E.
    split; [reflexivity|]. split; [apply E|]. split; [apply E|].
    intros Hp. exfalso. apply Hp. reflexivity.
Qed.

(** The hosts of the three stores are pairwise different. *)
Lemma allowlists_disjoint (s1 s2 : StoreId) (h : jsstring) :
  In h (ALLOWLIST s1) -> In h (ALLOWLIST s2) -> s1 = s2.
Proof.
  intros H1 H2. apply AllowFacts.arrayIncludes_In in H2.
  destruct s1, s2; try reflexivity; simpl in H1;
    repeat (destruct H1 as [<- | H1]; [vm_compute in H2; discriminate H2|]);
    destruct H1.
Qed.

End WithPlatform.

End GridFacts.

Module DedupFacts.

Import Flyer.

Lemma NoDup_firstn {A} (n : nat) (l : list A) : NoDup l -> NoDup (firstn n l).
Proof.
  revert l. induction n as [|n IH]; intros l Hl; simpl; [constructor|].
  destruct l as [|x l]; [constructor|].
  inversion Hl as [|? ? Hx Hl']; subst. constructor; [|apply IH; exact Hl'].
  intros H. apply Hx. apply (ListFacts.In_firstn x n l H).
Qed.

Section WithPrinter.

Context `{CaseApi} `{NumberPrinter}.

Lemma dedupMap_entry (allItems : list FlyerItem) (k : jsstring) (it : FlyerItem) :
  In (k, it) (dedupMap allItems) -> k = makeDedupKey it /\ In it allItems.
Proof.
  intros Hin.
  apply (JsMapFacts.get_In _ _ _ _ (KeyFacts.dedupMap_NoDup allItems)) in Hin.
  rewrite KeyFacts.dedupMap_get in Hin. apply find_some in Hin. destruct Hin as [Hi He].
  apply JsFacts.eqb_eq in He. split; [symmetry; exact He|].
  apply in_rev. exact Hi.
Qed.

Lemma dedupItems_In (allItems : list FlyerItem) (it : FlyerItem) :
  In it (dedupItems allItems) -> In it allItems.
Proof.
  unfold dedupItems, JsMap.values. rewrite in_map_iff.
  intros [[k v] [E Hin]]. simpl in E. subst v.
  apply (dedupMap_entry _ _ _ Hin).
Qed.

Lemma dedupItems_keys (allItems : list FlyerItem) :
  NoDup (List.map makeDedupKey (dedupItems allItems)).
Proof.
  unfold dedupItems, JsMap.values. rewrite map_map.
  rewrite (map_ext_in _ fst); [apply KeyFacts.dedupMap_NoDup|].
  intros [k v] Hin. simpl. symmetry. apply (dedupMap_entry _ _ _ Hin).
Qed.

End WithPrinter.

End DedupFacts.

(* ================================================================== *)
(** * Facts about reading the answer of the model *)
(* ================================================================== *)

Module AnswerFacts.

Import Route Flyer Discover ModelAnswer.

#[local] Open Scope N_scope.

Lemma indexOf_None (c : N) (s : jsstring) : indexOf c s = None <-> ~ In c s.
Proof.
  induction s as [|x s IH]; simpl.
  - split; [intros _ [] | reflexivity].
  - destruct (N.eqb_spec x c) as [-> | Hne].
    + split; [discriminate | intros H; exfalso; apply H; left; reflexivity].
    + destruct (indexOf c s) as [i|].
      * split; [discriminate|]. intros H. exfalso.
        assert (Hn : ~ In c s) by (intros Hin; apply H; right; exact Hin).
        apply IH in Hn. discriminate Hn.
      * split; [|reflexivity]. intros _ [E | Hin]; [contradiction|].
        apply (proj1 IH eq_refl). exact Hin.
Qed.

Lemma indexOf_Some (c : N) (s : jsstring) : forall i,
  indexOf c s = Some i ->
  exists pre post, s = pre ++ c :: post /\ ~ In c pre /\ List.length pre = i.
Proof.
  induction s as [|x s IH]; intros i; simpl; [discriminate|].
  destruct (N.eqb_spec x c) as [-> | Hne].
  - intros H. injection H as <-. exists [], s. repeat split. intros [].
  - destruct (indexOf c s) as [j|]; [|discriminate].
    intros H. injection H as <-.
    destruct (IH j eq_refl) as [pre [post [-> [Hn Hl]]]].
    exists (x :: pre), post. split; [reflexivity|]. split.
    + intros [E | Hin]; [contradiction | apply Hn; exact Hin].
    + simpl. rewrite Hl. reflexivity.
Qed.

Lemma indexOf_app (c : N) (pre post : jsstring) :
  ~ In c pre -> indexOf c (pre ++ c :: post) = Some (List.length pre).
Proof.
  induction pre as [|x pre IH]; intros Hn; simpl.
  - rewrite N.eqb_refl. reflexivity.
  - destruct (N.eqb_spec x c) as [-> | Hne]; [exfalso; apply Hn; left; reflexivity|].
    rewrite IH; [reflexivity|]. intros Hin. apply Hn. right. exact Hin.
Qed.

Lemma lastIndexOf_None (c : N) (s : jsstring) : lastIndexOf c s = None <-> ~ In c s.
Proof.
  induction s as [|x s IH]; simpl.
  - split; [intros _ [] | reflexivity].
  - destruct (lastIndexOf c s) as [i|].
    + split; [discriminate|]. intros H. exfalso.
      assert (Hn : ~ In c s) by (intros Hin; apply H; right; exact Hin).
      apply IH in Hn. discriminate Hn.
    + destruct (N.eqb_spec x c) as [-> | Hne].
      * split; [discriminate | intros H; exfalso; apply H; left; reflexivity].
      * split; [|reflexivity]. intros _ [E | Hin]; [contradiction|].
        apply (proj1 IH eq_refl). exact Hin.
Qed.

Lemma lastIndexOf_app (c : N) (pre post : jsstring) :
  ~ In c post -> lastIndexOf c (pre ++ c :: post) = Some (List.length pre).
Proof.
  intros Hn. apply lastIndexOf_None in Hn.
  induction pre as [|x pre IH]; simpl.
  - rewrite Hn, N.eqb_refl. reflexivity.
  - rewrite IH. reflexivity.
Qed.

Lemma lastIndexOf_Some (c : N) (s : jsstring) : forall j,
  lastIndexOf c s = Some j ->
  exists pre post, s = pre ++ c :: post /\ ~ In c post /\ List.length pre = j.
Proof.
  induction s as [|x s IH]; intros j; simpl; [discriminate|].
  destruct (lastIndexOf c s) as [i|] eqn:E.
  - intros H. injection H as <-.
    destruct (IH i eq_refl) as [pre [post [-> [Hn Hl]]]].
    exists (x :: pre), post. split; [reflexivity|]. split; [exact Hn|].
    simpl. rewrite Hl. reflexivity.
  - destruct (N.eqb_spec x c) as [-> | Hne]; [|discriminate].
    intros H. injection H as <-. exists [], s. split; [reflexivity|].
    split; [apply lastIndexOf_None; exact E | reflexivity].
Qed.

(** The first opening brace and the last closing brace, when the second
    comes after the first, cut the text in five. *)
Lemma braces_split (s : jsstring) (i j : nat) :
  indexOf 123 s = Some i -> lastIndexOf 125 s = Some j -> (i < j)%nat ->
  exists pre mid post,
    s = pre ++ 123 :: mid ++ 125 :: post
    /\ ~ In 123 pre /\ ~ In 125 post
    /\ List.length pre = i /\ j = (i + 1 + List.length mid)%nat.
Proof.
  intros Hi Hj Hlt.
  apply indexOf_Some in Hi. destruct Hi as [pre [r [-> [Hn Hl]]]].
  apply lastIndexOf_Some in Hj. destruct Hj as [a [post [E [Hm Hla]]]].
  assert (Ha : a = firstn j (pre ++ 123 :: r)).
  { rewrite E, <- Hla, firstn_app, Nat.sub_diag, firstn_all. simpl.
    rewrite app_nil_r. reflexivity. }
  rewrite firstn_app in Ha. rewrite firstn_all2 in Ha by lia.
  destruct (j - List.length pre)%nat as [|k] eqn:Ek; [lia|].
  simpl in Ha.
  exists pre, (firstn k r), post.
  split.
  - rewrite E, Ha, <- app_assoc. reflexivity.
  - split; [exact Hn|]. split; [exact Hm|]. split; [exact Hl|].
    assert (Hlen : List.length a = j) by exact Hla.
    rewrite Ha, length_app in Hlen. simpl in Hlen. lia.
Qed.

Lemma slice_braces (pre mid post : jsstring) :
  firstn (List.length pre + 1 + List.length mid + 1 - List.length pre)
         (skipn (List.length pre) (pre ++ 123 :: mid ++ 125 :: post))
  = 123 :: mid ++ [125].
Proof.
  rewrite skipn_app, Nat.sub_diag, skipn_all. simpl skipn. simpl app.
  replace (List.length pre + 1 + List.length mid + 1 - List.length pre)%nat
    with (Datatypes.S (List.length mid + 1)) by lia.
  simpl. f_equal.
  rewrite firstn_app. rewrite firstn_all2 by lia.
  replace (List.length mid + 1 - List.length mid)%nat with 1%nat by lia.
  reflexivity.
Qed.

Lemma fencedCapture_none (text : jsstring) :
  includes text fence = false -> fencedCapture text = None.
Proof.
  induction text as [|c text IH]; simpl; intros H.
  - reflexivity.
  - apply orb_false_iff in H. destruct H as [H1 H2].
    change (match fence with
            | [] => true
            | y :: p' => (c =? y) && startsWith text p'
            end) with (startsWith (c :: text) fence) in H1.
    change (if (c =? 96) && startsWith text [96; 96] then
              lazyCapture (afterOpening (skipn 3 (c :: text)))
            else fencedCapture text)
      with (if startsWith (c :: text) fence then
              lazyCapture (afterOpening (skipn 3 (c :: text)))
            else fencedCapture text).
    rewrite H1. apply IH. exact H2.
Qed.

Lemma trimStart_spaces (ws r : jsstring) :
  forallb isSpace ws = true -> trimStart (ws ++ r) = trimStart r.
Proof.
  induction ws as [|c ws IH]; simpl; intros H; [reflexivity|].
  apply andb_true_iff in H. destruct H as [Hc Hws]. rewrite Hc. apply IH. exact Hws.
Qed.

Lemma trimStart_keeps (c : N) (r : jsstring) :
  isSpace c = false -> trimStart (c :: r) = c :: r.
Proof. intros H. simpl. rewrite H. reflexivity. Qed.

(** The head of a text whose last unit is no white space survives
    [trimStart]: what is left starts with a unit of the text. *)
Lemma trimStart_body (body rest : jsstring) :
  body <> [] -> isSpace (last body 0) = false ->
  exists x tail, In x body /\ trimStart (body ++ rest) = x :: tail.
Proof.
  induction body as [|c body IH]; intros Hne Hl; [contradiction|].
  destruct (isSpace c) eqn:Ec.
  - destruct body as [|d body].
    + simpl in Hl. congruence.
    + destruct (IH ltac:(discriminate) Hl) as [x [tail [Hx E]]].
      exists x, tail. split; [right; exact Hx|].
      change ((c :: d :: body) ++ rest) with (c :: (d :: body) ++ rest).
      simpl trimStart at 1. rewrite Ec. exact E.
  - exists c, (body ++ rest). split; [left; reflexivity|].
    change ((c :: body) ++ rest) with (c :: body ++ rest).
    apply trimStart_keeps. exact Ec.
Qed.

Lemma lazyCapture_unfold (s : jsstring) :
  lazyCapture s
  = if closesAt s then Some []
    else match s with
         | [] => None
         | c :: s' =>
             match lazyCapture s' with
             | Some cap => Some (c :: cap)
             | None => None
             end
         end.
Proof. destruct s; reflexivity. Qed.

Lemma closesAt_fence (ws post : jsstring) :
  forallb isSpace ws = true -> closesAt (ws ++ fence ++ post) = true.
Proof.
  intros H. unfold closesAt. rewrite (trimStart_spaces ws _ H).
  unfold fence at 1. cbn [app]. rewrite trimStart_keeps by reflexivity. reflexivity.
Qed.

(** The lazy group stops at the closing fence: a body without a backtick
    that does not end in white space is captured whole. *)
Lemma lazyCapture_body (ws post : jsstring) :
  forallb isSpace ws = true ->
  forall body,
    ~ In 96 body -> (body = [] \/ isSpace (last body 0) = false) ->
    lazyCapture (body ++ ws ++ fence ++ post) = Some body.
Proof.
  intros Hws. induction body as [|c body IH]; intros Hb Hl.
  - change ([] ++ ws ++ fence ++ post) with (ws ++ fence ++ post).
    rewrite lazyCapture_unfold, (closesAt_fence ws post Hws). reflexivity.
  - destruct Hl as [Hl | Hl]; [discriminate|].
    rewrite lazyCapture_unfold.
    assert (Hc : closesAt ((c :: body) ++ ws ++ fence ++ post) = false).
    { unfold closesAt.
      destruct (trimStart_body (c :: body) (ws ++ fence ++ post) ltac:(discriminate) Hl)
        as [x [tail [Hx E]]].
      rewrite E. unfold fence. cbn [startsWith].
      destruct (N.eqb_spec x 96) as [-> | _]; [contradiction | reflexivity]. }
    rewrite Hc. cbn [app].
    rewrite IH; [reflexivity | intros H; apply Hb; right; exact H |].
    destruct body as [|d body]; [left; reflexivity | right; exact Hl].
Qed.

Lemma isSpace_not_j (c : N) : isSpace c = true -> (asciiLower c =? 106) = false.
Proof.
  intros H. apply N.eqb_neq. unfold asciiLower.
  unfold isSpace in H.
  repeat match goal with
  | H : _ || _ = true |- _ => apply orb_true_iff in H; destruct H as [H | H]
  | H : _ && _ = true |- _ => apply andb_true_iff in H; destruct H
  | H : (_ <=? _) = true |- _ => apply N.leb_le in H
  | H : (_ =? _) = true |- _ => apply N.eqb_eq in H
  end;
  destruct ((65 <=? c) && (c <=? 90)) eqn:E;
  try (apply andb_true_iff in E; destruct E as [E1 E2];
       apply N.leb_le in E1; apply N.leb_le in E2);
  lia.
Qed.

(** A fenced answer is unwrapped: after an opening fence, with or without
    the word json, a body that starts with an opening brace, holds no
    backtick and does not end in white space is the capture. *)
Lemma fencedCapture_complete (tag ws1 body ws2 post : jsstring) :
  tag = [] \/ tag = str "json" \/ tag = str "JSON" ->
  forallb isSpace ws1 = true -> forallb isSpace ws2 = true ->
  ~ In 96 body -> hd_error body = Some 123 -> isSpace (last body 0) = false ->
  forall pre,
    ~ In 96 pre ->
    fencedCapture (pre ++ fence ++ tag ++ ws1 ++ body ++ ws2 ++ fence ++ post) = Some body.
Proof.
  intros Htag H1 H2 Hb Hhd Hl.
  assert (Hafter : afterOpening (tag ++ ws1 ++ body ++ ws2 ++ fence ++ post)
                   = body ++ ws2 ++ fence ++ post).
  { destruct body as [|b0 body]; [discriminate|]. injection Hhd as ->.
    assert (Htrim : trimStart (ws1 ++ (123 :: body) ++ ws2 ++ fence ++ post)
                    = (123 :: body) ++ ws2 ++ fence ++ post).
    { rewrite (trimStart_spaces ws1 _ H1). apply trimStart_keeps. reflexivity. }
    unfold afterOpening.
    destruct Htag as [-> | [-> | ->]].
    - change ([] ++ ws1 ++ (123 :: body) ++ ws2 ++ fence ++ post)
        with (ws1 ++ (123 :: body) ++ ws2 ++ fence ++ post).
      assert (E : startsWithNoCase (ws1 ++ (123 :: body) ++ ws2 ++ fence ++ post) (str "json")
                  = false).
      { change (str "json") with (106 :: str "son").
        destruct ws1 as [|w ws1]; [reflexivity|].
        cbn [app startsWithNoCase]. simpl in H1.
        apply andb_true_iff in H1. destruct H1 as [Hw _].
        rewrite (isSpace_not_j w Hw). reflexivity. }
      rewrite E. exact Htrim.
    - exact Htrim.
    - exact Htrim. }
  induction pre as [|x pre IH]; intros Hp.
  - cbn [app].
    change (fencedCapture (fence ++ tag ++ ws1 ++ body ++ ws2 ++ fence ++ post))
      with (lazyCapture (afterOpening (tag ++ ws1 ++ body ++ ws2 ++ fence ++ post))).
    rewrite Hafter. apply lazyCapture_body; [exact H2 | exact Hb | right; exact Hl].
  - cbn [app fencedCapture].
    assert (E : startsWith (x :: pre ++ fence ++ tag ++ ws1 ++ body ++ ws2 ++ fence ++ post)
                  fence = false).
    { unfold fence. cbn [startsWith].
      destruct (N.eqb_spec x 96) as [-> | _]; [|reflexivity].
      exfalso. apply Hp. left. reflexivity. }
    rewrite E. apply IH. intros H. apply Hp. right. exact H.
Qed.

End AnswerFacts.

(* ================================================================== *)
(** * Facts about the candidates of the store page *)
(* ================================================================== *)

Module DiscoverLibFacts.

Import Route Effects Discover DiscoverLib.

Lemma uniqByUrlFrom_In (cands : list FlyerCandidate) : forall seen c,
  In c (uniqByUrlFrom seen cands) -> In c cands /\ ~ In (url c) seen.
Proof.
  induction cands as [|x cands IH]; intros seen c; simpl; [intros []|].
  destruct (arrayIncludes seen (url x)) eqn:E.
  - intros H. destruct (IH _ _ H) as [H1 H2]. split; [right; exact H1 | exact H2].
  - apply RouteFacts.arrayIncludes_false in E.
    intros [<- | H]; [split; [left; reflexivity | exact E]|].
    destruct (IH _ _ H) as [H1 H2]. split; [right; exact H1|].
    intros Hs. apply H2. right. exact Hs.
Qed.

Lemma uniqByUrlFrom_NoDup (cands : list FlyerCandidate) : forall seen,
  NoDup (List.map url (uniqByUrlFrom seen cands)).
Proof.
  induction cands as [|x cands IH]; intros seen; simpl; [constructor|].
  destruct (arrayIncludes seen (url x)); [apply IH|].
  simpl. constructor; [|apply IH].
  intros H. apply in_map_iff in H. destruct H as [c [Ec Hc]].
  apply uniqByUrlFrom_In in Hc. destruct Hc as [_ Hc]. apply Hc. left. symmetry. exact Ec.
Qed.

(** Every address of the input is still there. *)
Lemma uniqByUrlFrom_covers (cands : list FlyerCandidate) : forall seen c,
  In c cands -> ~ In (url c) seen ->
  In (url c) (List.map url (uniqByUrlFrom seen cands)).
Proof.
  induction cands as [|x cands IH]; intros seen c; simpl; [intros []|].
  intros [<- | Hc] Hs.
  - apply RouteFacts.arrayIncludes_false in Hs. rewrite Hs. left. reflexivity.
  - destruct (arrayIncludes seen (url x)) eqn:E; [apply IH; assumption|].
    simpl. destruct (list_eq_dec N.eq_dec (url x) (url c)) as [Eq | Ne]; [left; exact Eq|].
    right. apply IH; [exact Hc|]. intros [H | H]; [contradiction | apply Hs; exact H].
Qed.

Section WithWorld.

Context {U : UrlApi} {C : CaseApi} {W : World}.

Lemma fetchHtml_spec (u : jsstring) (st : state) :
  let req := {| verb := GET; target := u; referer := None |} in
  fetchHtml u st
  = (match fetch (List.length (fetched st)) req with
     | Ok res =>
         if negb (ok res) then
           Throw (str "fetch failed: " ++ Dec.dec (status res) ++ str " " ++ statusText res)
         else Ok (utf8 (body res))
     | Throw e => Throw e
     end,
     {| fetched := fetched st ++ [req]; Effects.warnings := Effects.warnings st |}).
Proof.
  intros req. unfold fetchHtml, bind, send. fold req.
  destruct (fetch (List.length (fetched st)) req) as [res | e]; [|reflexivity].
  destruct (negb (ok res)); reflexivity.
Qed.

Lemma lifeCandidates_kinds (hrefs : list jsstring) (c : FlyerCandidate) :
  In c (lifeCandidates hrefs) ->
  In (url c) hrefs /\ source c = scrape
  /\ ((kind c = pdf /\ isPdfLink (url c) = true)
      \/ (kind c = image /\ isImageLink (url c) = true /\ isPdfLink (url c) = false)).
Proof.
  unfold lifeCandidates. rewrite in_flat_map. intros [u [Hu Hc]].
  destruct (isPdfLink u) eqn:Ep.
  - destruct Hc as [<- | []]. simpl. repeat split; try assumption. left. split; [reflexivity | exact Ep].
  - destruct (isImageLink u) eqn:Ei; [|destruct Hc].
    destruct Hc as [<- | []]. simpl. repeat split; try assumption.
    right. repeat split; assumption.
Qed.

End WithWorld.

End DiscoverLibFacts.

Module HrefFacts.

Import Discover.

#[local] Open Scope N_scope.

Lemma span_rest_head (p : N -> bool) (s : jsstring) (c : N) (r : jsstring) :
  snd (span p s) = c :: r -> p c = false.
Proof.
  induction s as [|x s IH]; simpl; [discriminate|].
  destruct (p x) eqn:E.
  - destruct (span p s) as [a b]. simpl in *. exact IH.
  - simpl. intros H. injection H as <- _. exact E.
Qed.

(** A match of the expression of [extractHrefs] at the head of a text: the
    captured run sits between two quotes, is not empty and holds no quote. *)
Lemma hrefAt_Some (s run : jsstring) (len : nat) :
  hrefAt s = Some (run, len) ->
  run <> [] /\ forallb (fun c => negb (isQuote c)) run = true
  /\ exists before q1 q2 after,
       s = before ++ q1 :: run ++ q2 :: after
       /\ isQuote q1 = true /\ isQuote q2 = true.
Proof.
  unfold hrefAt. destruct (startsWithNoCase s (str "href")); [|discriminate].
  pose proof (JsFacts.span_app isSpace (skipn 4 s)) as A1.
  destruct (span isSpace (skipn 4 s)) as [sp1 r1]. cbn [fst snd] in A1.
  destruct r1 as [|c r2]; [discriminate|].
  destruct (N.eqb_spec c 61) as [-> | _]; [|discriminate].
  pose proof (JsFacts.span_app isSpace r2) as A2.
  destruct (span isSpace r2) as [sp2 r3]. cbn [fst snd] in A2.
  destruct r3 as [|q r4]; [discriminate|].
  destruct (isQuote q) eqn:Eq; [|discriminate].
  pose proof (JsFacts.span_app (fun c => negb (isQuote c)) r4) as A3.
  pose proof (JsFacts.span_all (fun c => negb (isQuote c)) r4) as B3.
  pose proof (span_rest_head (fun c => negb (isQuote c)) r4) as C3.
  destruct (span (fun c => negb (isQuote c)) r4) as [run0 r5]. cbn [fst snd] in A3, B3, C3.
  destruct run0 as [|x run0]; [discriminate|].
  destruct r5 as [|q2 after]; [discriminate|].
  intros H. injection H as <- _.
  split; [discriminate|]. split; [exact B3|].
  exists (firstn 4 s ++ sp1 ++ 61 :: sp2), q, q2, after.
  split.
  - rewrite <- (firstn_skipn 4 s) at 1. rewrite <- A1, <- A2, <- A3.
    rewrite <- !app_assoc. reflexivity.
  - split; [exact Eq|].
    specialize (C3 q2 after eq_refl). apply negb_false_iff in C3. exact C3.
Qed.

Lemma hrefMatches_In (s : jsstring) : forall skip h,
  In h (hrefMatches skip s) ->
  exists before after len, s = before ++ after /\ hrefAt after = Some (h, len).
Proof.
  induction s as [|c s IH]; intros skip h; simpl; [intros []|].
  destruct skip as [|k].
  - destruct (hrefAt (c :: s)) as [[run len]|] eqn:E.
    + intros [<- | H].
      * exists [], (c :: s), len. split; [reflexivity | exact E].
      * destruct (IH _ _ H) as [b [a [l [-> Ha]]]].
        exists (c :: b), a, l. split; [reflexivity | exact Ha].
    + intros H. destruct (IH _ _ H) as [b [a [l [-> Ha]]]].
      exists (c :: b), a, l. split; [reflexivity | exact Ha].
  - intros H. destruct (IH _ _ H) as [b [a [l [-> Ha]]]].
    exists (c :: b), a, l. split; [reflexivity | exact Ha].
Qed.

End HrefFacts.

(* ================================================================== *)
(** * Facts about the discover route *)
(* ================================================================== *)

Module DiscoverRouteFacts.

Import Route Effects Discover DiscoverRoute.

Lemma byUrl_snoc (cands : list Candidate) (c : Candidate) :
  byUrl (cands ++ [c]) = JsMap.set (byUrl cands) (keyOf c) (rekeyed c).
Proof. unfold byUrl. rewrite fold_left_app. reflexivity. Qed.

Lemma byUrl_NoDup (cands : list Candidate) : NoDup (JsMap.keys (byUrl cands)).
Proof.
  induction cands as [|c cands IH] using rev_ind.
  - constructor.
  - rewrite byUrl_snoc. apply JsMapFacts.keys_set_NoDup. exact IH.
Qed.

(** Under a key the map holds the last candidate with that key. *)
Lemma byUrl_get (cands : list Candidate) (k : jsstring) :
  JsMap.get (byUrl cands) k
  = option_map rekeyed (find (fun c => Js.eqb (keyOf c) k) (rev cands)).
Proof.
  induction cands as [|c cands IH] using rev_ind.
  - reflexivity.
  - rewrite byUrl_snoc, JsMapFacts.get_set, rev_app_distr. simpl.
    destruct (Js.eqb (keyOf c) k); [reflexivity | exact IH].
Qed.

Lemma uniqFrom_snoc (xs : list jsstring) (x : jsstring) : forall seen,
  uniqFrom seen (xs ++ [x])
  = uniqFrom seen xs
    ++ (if arrayIncludes seen x || arrayIncludes xs x then [] else [x]).
Proof.
  induction xs as [|y xs IH]; intros seen; simpl.
  - rewrite orb_false_r. destruct (arrayIncludes seen x); reflexivity.
  - destruct (arrayIncludes seen y) eqn:E.
    + rewrite IH.
      destruct (arrayIncludes seen x) eqn:Ex; simpl; [reflexivity|].
      destruct (Js.eqb x y) eqn:Exy; simpl; [|reflexivity].
      apply JsFacts.eqb_eq in Exy. subst. congruence.
    + simpl. rewrite IH. f_equal.
      unfold arrayIncludes at 1. simpl. fold (arrayIncludes seen x).
      destruct (Js.eqb x y); simpl; [|reflexivity].
      rewrite orb_true_r. reflexivity.
Qed.

(** The keys of the map are the decoded addresses in the order of their
    first occurrence. *)
Lemma byUrl_keys (cands : list Candidate) :
  JsMap.keys (byUrl cands) = uniq (List.map keyOf cands).
Proof.
  unfold uniq. induction cands as [|c cands IH] using rev_ind.
  - reflexivity.
  - rewrite byUrl_snoc, map_app. simpl List.map. rewrite uniqFrom_snoc. simpl orb.
    destruct (arrayIncludes (List.map keyOf cands) (keyOf c)) eqn:E.
    + rewrite app_nil_r, JsMapFacts.keys_set_present; [exact IH|].
      rewrite IH. apply RouteFacts.uniqFrom_In. split; [|intros []].
      apply AllowFacts.arrayIncludes_In. exact E.
    + rewrite JsMapFacts.keys_set_absent; [rewrite IH; reflexivity|].
      rewrite IH. intros H. apply RouteFacts.uniqFrom_In in H. destruct H as [H _].
      apply AllowFacts.arrayIncludes_In in H. congruence.
Qed.

Lemma byUrl_entry (cands : list Candidate) (k : jsstring) (c : Candidate) :
  In (k, c) (byUrl cands) ->
  url c = k
  /\ exists c0, find (fun x => Js.eqb (keyOf x) k) (rev cands) = Some c0 /\ c = rekeyed c0.
Proof.
  intros Hin.
  apply (JsMapFacts.get_In _ _ _ _ (byUrl_NoDup cands)) in Hin.
  rewrite byUrl_get in Hin.
  destruct (find (fun x => Js.eqb (keyOf x) k) (rev cands)) as [c0|] eqn:E; [|discriminate].
  simpl in Hin. injection Hin as <-. split.
  - apply find_some in E. destruct E as [_ E]. apply JsFacts.eqb_eq in E. exact E.
  - exists c0. split; reflexivity.
Qed.

Lemma uniqByUrl_urls (cands : list Candidate) :
  List.map url (uniqByUrl cands) = JsMap.keys (byUrl cands).
Proof.
  unfold uniqByUrl, JsMap.values, JsMap.keys. rewrite map_map.
  apply map_ext_in. intros [k c] Hin. simpl. apply (byUrl_entry cands k c Hin).
Qed.

Section WithWorld.

Context {U : UrlApi} {C : CaseApi} {W : World} {S : ExtractUrl.Scanner}.

Lemma pageHtml_spec (u : jsstring) (st : state) :
  let req := {| verb := GET; target := u; referer := None |} in
  fetchHtml u st
  = (match fetch (List.length (fetched st)) req with
     | Ok res =>
         if negb (ok res) then
           Throw (str "fetch failed: " ++ Dec.dec (status res) ++ str " " ++ statusText res)
         else Ok (utf8 (body res))
     | Throw e => Throw e
     end,
     {| fetched := fetched st ++ [req]; warnings := warnings st |}).
Proof.
  intros req. unfold fetchHtml, bind, send. fold req.
  destruct (fetch (List.length (fetched st)) req) as [res | e]; [|reflexivity].
  destruct (negb (ok res)); reflexivity.
Qed.

End WithWorld.

End DiscoverRouteFacts.

(* ================================================================== *)
(** * The batch loop, tile by tile *)
(* ================================================================== *)

Module LoopFacts.

Import Batch.

Section Loop.

Variables (callGeminiForTile : capability) (mode : extractMode).

(** The warnings of the loop, written out: one text per tile whose call
    threw, in the order of the tiles. *)
Lemma warningsFrom_flat (n : nat) (tiles : list Tiling.Tile) (i : nat) :
  warningsFrom callGeminiForTile mode n i tiles
  = flat_map
      (fun jt : nat * Tiling.Tile =>
         match callGeminiForTile (snd jt) (fst jt + 1) n mode with
         | Threw message =>
             [str "JSON parse failed (tile " ++ dec (N.of_nat (fst jt + 1)) ++ str "/"
              ++ dec (N.of_nat n) ++ str "). raw head: " ++ firstn 200 message]
         | Returned _ => []
         end)
      (combine (seq i (List.length tiles)) tiles).
Proof.
  revert i. induction tiles as [|t rest IH]; intros i; [reflexivity|].
  cbn [warningsFrom List.length seq combine flat_map fst snd].
  rewrite IH. reflexivity.
Qed.

Lemma itemsFrom_flat (n : nat) (tiles : list Tiling.Tile) (i : nat) :
  itemsFrom callGeminiForTile mode n i tiles
  = flat_map
      (fun jt : nat * Tiling.Tile =>
         match callGeminiForTile (snd jt) (fst jt + 1) n mode with
         | Returned itemsRaw => normalizedItems itemsRaw
         | Threw _ => []
         end)
      (combine (seq i (List.length tiles)) tiles).
Proof.
  revert i. induction tiles as [|t rest IH]; intros i; [reflexivity|].
  cbn [itemsFrom List.length seq combine flat_map fst snd].
  rewrite IH. reflexivity.
Qed.

End Loop.

End LoopFacts.

(* ================================================================== *)
(** * The loop of [composeShufooTiles], tile by tile *)
(* ================================================================== *)

Module LoadFacts.

Import Route Shufoo Effects ExtractUrl.

Section WithWorld.

Context {U : UrlApi} {C : CaseApi} {W : World}.

Lemma state_eta (st : state) :
  {| fetched := fetched st ++ []; warnings := warnings st |} = st.
Proof. rewrite app_nil_r. destruct st; reflexivity. Qed.

Lemma isAllowed_Ok (storeId : StoreId) (u : jsstring) :
  isAllowed storeId u = true -> exists p, assertAllowedUrl storeId u = Ok p.
Proof.
  unfold isAllowed. destruct (assertAllowedUrl storeId u) as [p|e]; [|discriminate].
  intros _. exists p. reflexivity.
Qed.

(** One round of the loop for a tile that loads. *)
Lemma loadTile_loads (storeId : StoreId) (acc : list entry) (t : ShufooTile)
  (st : state) (normalized : Buffer) (w h : Z) :
  loads storeId (List.length (fetched st)) t normalized w h ->
  loadTile storeId acc t st
  = (Ok (acc ++ entryOf t (normalized, w, h)),
     {| fetched := fetched st ++ [download (url t)]; warnings := warnings st |}).
Proof.
  intros [Ha (res & mw & mh & Hf & Hok & Hlen & Hpng & Hmeta & -> & ->)].
  destruct (isAllowed_Ok _ _ Ha) as [p Hp].
  unfold loadTile, fetchBuffer, bind, lift, send, ret. rewrite Hp.
  fold (download (url t)). rewrite Hf, Hok. cbn [negb].
  apply N.ltb_ge in Hlen. rewrite Hlen. cbn [fst]. rewrite Hpng, Hmeta.
  unfold entryOf. cbn [fst snd].
  destruct (_ || _); [rewrite app_nil_r|]; reflexivity.
Qed.

(** One round of the loop for a tile that fails. *)
Lemma loadTile_fails (storeId : StoreId) (acc : list entry) (t : ShufooTile)
  (st : state) (e : jsstring) (sent : list request) :
  fails storeId (List.length (fetched st)) t e sent ->
  loadTile storeId acc t st
  = (Throw e, {| fetched := fetched st ++ sent; warnings := warnings st |}).
Proof.
  unfold loadTile, fetchBuffer, bind, lift, send, ret.
  intros [[Hr ->] | [Ha [-> Hcase]]].
  - rewrite Hr, state_eta. reflexivity.
  - destruct (isAllowed_Ok _ _ Ha) as [p Hp]. rewrite Hp.
    fold (download (url t)).
    destruct Hcase as [Hf | [res [Hf Hres]]]; rewrite Hf; [reflexivity|].
    destruct Hres as [[Hok ->] | [[Hok [Hlen ->]] | [Hok [Hlen Hread]]]]; rewrite Hok;
      cbn [negb]; [reflexivity | |].
    + apply N.ltb_lt in Hlen. rewrite Hlen. reflexivity.
    + apply N.ltb_ge in Hlen. rewrite Hlen. cbn [fst].
      destruct Hread as [Hpng | [normalized [Hpng Hmeta]]]; rewrite Hpng; [reflexivity|].
      rewrite Hmeta. reflexivity.
Qed.

(** The loop over tiles that all load. *)
Lemma forEach_loads (storeId : StoreId) (tiles : list ShufooTile) :
  forall (ls : list (Buffer * Z * Z)) (acc : list entry) (st : state),
  List.length ls = List.length tiles ->
  (forall i t normalized w h,
     nth_error tiles i = Some t -> nth_error ls i = Some (normalized, w, h) ->
     loads storeId (List.length (fetched st) + i) t normalized w h) ->
  forEach tiles acc (loadTile storeId) st
  = (Ok (acc ++ entriesOf tiles ls),
     {| fetched := fetched st ++ List.map download (List.map url tiles);
        warnings := warnings st |}).
Proof.
  induction tiles as [|t tiles IH]; intros ls acc st Hlen Hall.
  - simpl. unfold ret, entriesOf. simpl. rewrite app_nil_r, state_eta. reflexivity.
  - destruct ls as [|[[normalized w] h] ls]; [discriminate Hlen|].
    cbn [forEach]. unfold bind at 1.
    rewrite (loadTile_loads storeId acc t st normalized w h).
    + rewrite (IH ls).
      * cbn [fetched warnings]. unfold entriesOf. cbn [combine flat_map fst snd List.map].
        rewrite <- !app_assoc. reflexivity.
      * simpl in Hlen. lia.
      * intros i t' n' w' h' Ht Hl. cbn [fetched]. rewrite length_app. cbn [List.length].
        replace (List.length (fetched st) + 1 + i) with (List.length (fetched st) + S i) by lia.
        apply Hall; assumption.
    + rewrite <- (Nat.add_0_r (List.length (fetched st))). apply Hall; reflexivity.
Qed.

(** The entries are the tiles of non-zero width and height. *)
Lemma entriesOf_In (tiles : list ShufooTile) :
  forall (ls : list (Buffer * Z * Z)) (e : entry),
  In e (entriesOf tiles ls) <->
  exists i t normalized w h,
    nth_error tiles i = Some t /\ nth_error ls i = Some (normalized, w, h)
    /\ w <> 0%Z /\ h <> 0%Z
    /\ e = {| ebuf := normalized; erow := row t; ecol := col t;
              ewidth := w; eheight := h |}.
Proof.
  induction tiles as [|t tiles IH]; intros ls e.
  - split; [intros [] | intros (i & t & n & w & h & Ht & _)]. destruct i; discriminate Ht.
  - destruct ls as [|[[n w] h] ls].
    + split; [intros [] | intros (i & t' & n & w & h & _ & Hl & _)].
      destruct i; discriminate Hl.
    + unfold entriesOf. cbn [combine flat_map fst snd]. rewrite in_app_iff.
      fold (entriesOf tiles ls). rewrite IH. unfold entryOf. cbn [fst snd]. split.
      * intros [He | (i & t' & n' & w' & h' & Ht & Hl & Hw & Hh & ->)].
        -- destruct (_ || _) eqn:E; [destruct He|]. destruct He as [<- | []].
           apply orb_false_iff in E. destruct E as [Ew Eh].
           apply Z.eqb_neq in Ew, Eh.
           exists 0%nat, t, n, w, h. repeat split; assumption.
        -- exists (Datatypes.S i), t', n', w', h'. repeat split; assumption.
      * intros (i & t' & n' & w' & h' & Ht & Hl & Hw & Hh & ->).
        destruct i as [|i].
        -- injection Ht as <-. injection Hl as <- <- <-. left.
           apply Z.eqb_neq in Hw, Hh. rewrite Hw, Hh. left. reflexivity.
        -- right. exists i, t', n', w', h'. repeat split; assumption.
Qed.

Lemma forEach_app (A S : Type) (body : S -> A -> M S) (xs ys : list A) :
  forall (acc : S) (st : state),
  forEach (xs ++ ys) acc body st
  = bind (forEach xs acc body) (fun acc' => forEach ys acc' body) st.
Proof.
  induction xs as [|x xs IH]; intros acc st; [reflexivity|].
  cbn [app forEach]. unfold bind.
  destruct (body acc x st) as [[acc' | e] st1]; [|reflexivity].
  rewrite IH. reflexivity.
Qed.

(** The loop up to the first tile that fails. *)
Lemma forEach_fails (storeId : StoreId) (before rest : list ShufooTile) (t : ShufooTile)
  (ls : list (Buffer * Z * Z)) (acc : list entry) (st : state)
  (e : jsstring) (sent : list request) :
  List.length ls = List.length before ->
  (forall i t normalized w h,
     nth_error before i = Some t -> nth_error ls i = Some (normalized, w, h) ->
     loads storeId (List.length (fetched st) + i) t normalized w h) ->
  fails storeId (List.length (fetched st) + List.length before) t e sent ->
  forEach (before ++ t :: rest) acc (loadTile storeId) st
  = (Throw e,
     {| fetched := fetched st ++ List.map download (List.map url before) ++ sent;
        warnings := warnings st |}).
Proof.
  intros Hlen Hall Hfail. rewrite forEach_app. unfold bind at 1.
  rewrite (forEach_loads storeId before ls acc st Hlen Hall).
  cbn [forEach]. unfold bind at 1.
  rewrite (loadTile_fails storeId _ t _ e sent).
  - cbn [fetched warnings]. rewrite <- app_assoc. reflexivity.
  - cbn [fetched]. rewrite length_app, !length_map. exact Hfail.
Qed.

End WithWorld.

End LoadFacts.

(* ================================================================== *)
(** * Item normalisation: what [normalizeFlyerItem] keeps and drops *)
(* ================================================================== *)

(** C3, as written, asks every kept item to carry a whole-number price and
    every negative price to be dropped.  A JSON number passes through
    [toNumberPrice] unchanged, so the price [12.5] is kept as it is; and
    the text [-5] is read through its first digit run, so it is kept with
    the price [5]. *)
Lemma normalizeFlyerItem_keeps_fraction_and_minus_text :
  (exists it, normalizeFlyerItem rawHalfYen = Some it
              /\ priceYen it = Finite (25 # 2)%Q
              /\ ~ Num.isInteger (priceYen it))
  /\ (exists it, normalizeFlyerItem rawMinusFive = Some it /\ priceYen it = Num.ofN 5).
Proof.
  split.
  - eexists. split; [vm_compute; reflexivity|]. split; [reflexivity|].
    simpl. intros [z Hz]. unfold Qeq in Hz. simpl in Hz. lia.
  - eexists. split; vm_compute; reflexivity.
Qed.

(** C3 (amended).  [normalizeFlyerItem] is total (it answers [None], the
    model of [null], and has no failing path) and
    - keeps an item only when the trimmed name is non-empty and the coerced
      price is finite and strictly positive; the price of a kept item is
      the price field itself when that is a number, and the value of the
      first digit run of the field, commas removed, when it is a string, so
      a whole number then;
    - keeps every item with a non-blank name whose price field is a finite
      positive number, whole or not, or a string whose first digit run is
      worth a finite positive number;
    - reads the price text [1,280] U+5186 [(] U+7A0E U+8FBC [)] as 1280;
    - drops the item when the price field is a number that is NaN, infinite,
      zero or negative, a string without a digit, a string whose first digit
      run is worth zero or is too long for a finite double, or neither a
      number nor a string;
    - gives a missing or blank category the sentinel value. *)
Theorem normalizeFlyerItem_contract :
  (forall raw it, normalizeFlyerItem raw = Some it ->
     exists fs q,
       objectFields raw = Some fs /\
       name it = trimmedString (getField fs (str "name")) /\
       name it <> [] /\
       priceYen it = Finite q /\ (0 < q)%Q /\
       (forall s, priceField fs = Some (JStr s) -> Num.isInteger (priceYen it)) /\
       category it <> [] /\
       (optionalString (getField fs (str "category")) = None ->
        category it = otherCategory) /\
       (forall c, optionalString (getField fs (str "category")) = Some c ->
        category it = c) /\
       (forall x, priceField fs = Some (JNum x) -> priceYen it = x) /\
       (forall s, priceField fs = Some (JStr s) ->
        exists m, firstDigitRun (stripCommas s) = Some m
                  /\ priceYen it = Num.ofDigits m) /\
       ((exists x, priceField fs = Some (JNum x))
        \/ (exists s, priceField fs = Some (JStr s))))
  /\ (forall fs q, trimmedString (getField fs (str "name")) <> [] ->
        priceField fs = Some (JNum (Finite q)) -> (0 < q)%Q ->
        exists it, normalizeFlyerItem (JObj fs) = Some it /\ priceYen it = Finite q)
  /\ (forall fs s m v, trimmedString (getField fs (str "name")) <> [] ->
        priceField fs = Some (JStr s) ->
        firstDigitRun (stripCommas s) = Some m ->
        Num.digitsNumber m = Some v -> (0 < v)%N ->
        exists it, normalizeFlyerItem (JObj fs) = Some it /\ priceYen it = Num.ofN v)
  /\ (forall fs, trimmedString (getField fs (str "name")) <> [] ->
        priceField fs = Some (JStr yen1280) ->
        exists it, normalizeFlyerItem (JObj fs) = Some it /\
                   priceYen it = Num.ofN 1280)
  /\ (forall fs x, priceField fs = Some (JNum x) ->
        (x = NaN \/ (exists b, x = Infinity b) \/
         exists q, x = Finite q /\ (q <= 0)%Q) ->
        normalizeFlyerItem (JObj fs) = None)
  /\ (forall fs s, priceField fs = Some (JStr s) ->
        (firstDigitRun (stripCommas s) = None \/
         exists m, firstDigitRun (stripCommas s) = Some m
                   /\ (Num.digitsValue m = 0%N \/ Num.digitsNumber m = None)) ->
        normalizeFlyerItem (JObj fs) = None)
  /\ (forall fs, (forall x, priceField fs <> Some (JNum x)) ->
        (forall s, priceField fs <> Some (JStr s)) ->
        normalizeFlyerItem (JObj fs) = None).
Proof.
  assert (Hkeep : forall fs x, trimmedString (getField fs (str "name")) <> [] ->
            toNumberPrice (priceField fs) = x ->
            Num.isFinite x = true -> Num.leZero x = false ->
            exists it, normalizeFlyerItem (JObj fs) = Some it /\ priceYen it = x).
  { intros fs x Hn Hp Hf Hz. unfold normalizeFlyerItem. simpl objectFields. cbv iota beta.
    destruct (trimmedString (getField fs (str "name"))) as [|c n]; [contradiction|].
    cbv zeta. rewrite Hp, Hf, Hz. eexists. split; reflexivity. }
  repeat apply conj.
  - intros raw it H.
    destruct (normalizeFlyerItem_inv _ _ H) as (fs & Ho & Hn & Hne & Hp & Hf & Hz & Hc).
    destruct (priceYen it) as [| |q] eqn:Eq; try discriminate.
    exists fs, q.
    split; [exact Ho|]. split; [exact Hn|]. split; [exact Hne|].
    split; [reflexivity|]. split; [|split; [|split; [|split; [|split; [|split; [|split]]]]]].
    + simpl in Hz. destruct (Qlt_le_dec 0 q) as [Hlt|Hle]; auto.
      apply Qle_bool_iff in Hle. congruence.
    + intros s Hs. rewrite Hs in Hp. simpl in Hp.
      destruct (firstDigitRun (stripCommas s)) as [m|]; [|discriminate].
      pose proof (ofDigits_integer m) as Hi. rewrite <- Hp in Hi.
      apply Hi. reflexivity.
    + rewrite Hc. destruct (optionalString _) eqn:E.
      * apply (optionalString_nonempty _ _ E).
      * discriminate.
    + intros E. rewrite Hc, E. reflexivity.
    + intros c E. rewrite Hc, E. reflexivity.
    + intros x Hx. rewrite Hx in Hp. simpl in Hp. exact Hp.
    + intros s Hs. rewrite Hs in Hp. simpl in Hp.
      destruct (firstDigitRun (stripCommas s)) as [m|]; [|discriminate].
      exists m. split; [reflexivity | exact Hp].
    + destruct (priceField fs) as [[| | x | s | |]|]; simpl in Hp; try discriminate.
      * left. exists x. reflexivity.
      * right. exists s. reflexivity.
  - intros fs q Hn Hp Hq. apply (Hkeep fs (Finite q) Hn); [rewrite Hp; reflexivity | reflexivity|].
    simpl. destruct (Qle_bool q 0) eqn:E; [|reflexivity].
    apply Qle_bool_iff in E. exfalso. exact (Qlt_not_le _ _ Hq E).
  - intros fs s m v Hn Hp Hm Hv Hpos.
    apply (Hkeep fs (Num.ofN v) Hn); [| reflexivity |].
    + rewrite Hp. simpl. rewrite Hm. unfold Num.ofDigits. rewrite Hv. reflexivity.
    + simpl. destruct (Qle_bool (inject_Z (Z.of_N v)) 0) eqn:E; [|reflexivity].
      apply Qle_bool_iff in E. unfold Qle in E. simpl in E. lia.
  - intros fs Hn Hp. unfold normalizeFlyerItem. simpl objectFields. cbv iota beta.
    destruct (trimmedString (getField fs (str "name"))) as [|c n]; [contradiction|].
    rewrite Hp. eexists. split; reflexivity.
  - intros fs x Hp Hx. apply (normalizeFlyerItem_drop fs); [|reflexivity].
    rewrite Hp. simpl.
    destruct Hx as [->|[[b ->]|[q [-> Hq]]]]; simpl; auto.
    right. apply Qle_bool_iff. exact Hq.
  - intros fs s Hp Hs. apply (normalizeFlyerItem_drop fs); [|reflexivity].
    rewrite Hp. simpl.
    destruct Hs as [->|[m [-> [Hm | Hm]]]]; simpl; auto.
    + right. unfold Num.ofDigits, Num.digitsNumber. rewrite Hm. reflexivity.
    + left. unfold Num.ofDigits. rewrite Hm. reflexivity.
  - intros fs Hnum Hstr. apply (normalizeFlyerItem_drop fs); [|reflexivity].
    left. destruct (priceField fs) as [[| | x | s | |]|] eqn:E; simpl; auto.
    + destruct (Hnum x); reflexivity.
    + destruct (Hstr s); reflexivity.
Qed.

(** The contract at the sample item [rawMilk]. *)
Lemma normalizeFlyerItem_contract_witness :
  exists it, normalizeFlyerItem rawMilk = Some it /\
    name it = str "Milk 1L" /\ priceYen it = Num.ofN 1280 /\
    category it = otherCategory /\
    exists fs q, objectFields rawMilk = Some fs /\ priceYen it = Finite q /\ (0 < q)%Q.
Proof.
  eexists. split; [vm_compute; reflexivity|].
  repeat split; try (vm_compute; reflexivity).
  destruct (proj1 normalizeFlyerItem_contract rawMilk _ eq_refl)
    as (fs & q & H1 & _ & _ & H2 & H3 & _).
  exists fs, q. auto.
Defined.

(* ================================================================== *)
(** * The dedup key and the result map *)
(* ================================================================== *)

(** C2, as written, gives equal keys to items whose names differ only by
    full-width punctuation.  [makeDedupKey] deletes the 22 characters of one
    class and no other: a full-width exclamation mark stays in the key, so
    the two extractions of the meat item have different keys and both are in
    the result.  The names are text that the engine lower-cases unit by
    unit. *)
Lemma makeDedupKey_keeps_other_punctuation :
  name meatLoud = name meatPlain ++ [65281%N]
  /\ priceYen meatLoud = priceYen meatPlain
  /\ unit meatLoud = unit meatPlain
  /\ forallb isPlainUnit (name meatLoud) = true
  /\ forallb isPlainUnit (name meatPlain) = true
  /\ @makeDedupKey referenceCase referencePrinter meatLoud
     <> @makeDedupKey referenceCase referencePrinter meatPlain
  /\ @dedupItems referenceCase referencePrinter [meatLoud; meatPlain]
     = [meatLoud; meatPlain].
Proof.
  repeat split; try reflexivity. vm_compute. discriminate.
Qed.

(** C2 (amended).  On every engine: the dedup key is the normalised name,
    the printed price and the normalised unit joined by bars, so it is
    determined by those three alone (category and notes play no part); the
    normal form of a text is its lower-case form without white space and
    without the 22 characters of the key class.  Where the engine
    lower-cases unit by unit (text of plain units: Latin, Cyrillic, kana,
    ideographs, full-width forms), two items whose names and units differ
    only by letter case, white space and the characters of the key class
    have the same key.  The result map holds, under each key, exactly the
    last accumulated item with that key, so the items of the result are the
    last occurrences, one per key. *)
Theorem makeDedupKey_last_write_wins (C : CaseApi) (L : CaseLaws C) (P : NumberPrinter) :
  (forall it1 it2,
     norm (name it1) = norm (name it2) ->
     priceYen it1 = priceYen it2 ->
     norm (unitText it1) = norm (unitText it2) ->
     makeDedupKey it1 = makeDedupKey it2)
  /\ (forall it,
        makeDedupKey it
        = norm (name it) ++ str "|" ++ numberToString (priceYen it) ++ str "|"
          ++ norm (unitText it))
  /\ (forall s,
        norm s = filter (fun c => negb (isKeyPunct c))
                   (filter (fun c => negb (isSpace c)) (toLowerCase s)))
  /\ (forall s, forallb isPlainUnit s = true -> toLowerCase s = List.map lowerUnit s)
  /\ (forall it1 it2,
        forallb isPlainUnit (name it1) = true ->
        forallb isPlainUnit (name it2) = true ->
        forallb isPlainUnit (unitText it1) = true ->
        forallb isPlainUnit (unitText it2) = true ->
        sameModuloLayout (name it1) (name it2) ->
        priceYen it1 = priceYen it2 ->
        sameModuloLayout (unitText it1) (unitText it2) ->
        makeDedupKey it1 = makeDedupKey it2 /\ makeDedupKey it2 = makeDedupKey it1)
  /\ (forall allItems k,
        JsMap.get (dedupMap allItems) k =
        find (fun it => Js.eqb (makeDedupKey it) k) (rev allItems))
  /\ (forall allItems it,
        In it (dedupItems allItems) <->
        find (fun x => Js.eqb (makeDedupKey x) (makeDedupKey it)) (rev allItems) = Some it)
  /\ (forall allItems, NoDup (List.map makeDedupKey (dedupItems allItems))).
Proof.
  assert (Hkey : forall it1 it2,
     norm (name it1) = norm (name it2) ->
     priceYen it1 = priceYen it2 ->
     norm (unitText it1) = norm (unitText it2) ->
     makeDedupKey it1 = makeDedupKey it2).
  { intros it1 it2 Hn Hp Hu. unfold makeDedupKey. fold (unitText it1) (unitText it2).
    rewrite Hn, Hp, Hu. reflexivity. }
  assert (Hentries : forall allItems k it,
     In (k, it) (dedupMap allItems) -> k = makeDedupKey it).
  { intros allItems k it Hin.
    apply (JsMapFacts.get_In _ _ _ _ (KeyFacts.dedupMap_NoDup allItems)) in Hin.
    rewrite KeyFacts.dedupMap_get in Hin. apply find_some in Hin as [_ Hin].
    apply eqb_eq in Hin. auto. }
  repeat apply conj.
  - exact Hkey.
  - intros it. reflexivity.
  - intros s. reflexivity.
  - apply toLowerCase_plain.
  - intros it1 it2 Pn1 Pn2 Pu1 Pu2 Hn Hp Hu.
    apply (KeyFacts.sameModuloLayout_norm C L _ _ Pn1 Pn2) in Hn.
    apply (KeyFacts.sameModuloLayout_norm C L _ _ Pu1 Pu2) in Hu.
    split; [|symmetry]; apply Hkey; auto.
  - apply KeyFacts.dedupMap_get.
  - intros allItems it. rewrite <- KeyFacts.dedupMap_get.
    rewrite (JsMapFacts.get_In _ _ _ _ (KeyFacts.dedupMap_NoDup allItems)).
    unfold dedupItems, JsMap.values. rewrite in_map_iff. split.
    + intros [[k v] [E Hin]]. simpl in E. subst v.
      rewrite <- (Hentries _ _ _ Hin). exact Hin.
    + intros Hin. exists (makeDedupKey it, it). auto.
  - intros allItems. unfold dedupItems, JsMap.values. rewrite map_map.
    rewrite (map_ext_in _ fst); [apply KeyFacts.dedupMap_NoDup|].
    intros [k v] Hin. simpl. symmetry. apply (Hentries _ _ _ Hin).
Qed.

(** The two extractions of the milk item collide, and the later one is the
    one the result keeps, notes and category included. *)
Lemma makeDedupKey_last_write_wins_witness :
  sameModuloLayout (name milkFirst) (name milkSecond)
  /\ @makeDedupKey referenceCase referencePrinter milkFirst
     = @makeDedupKey referenceCase referencePrinter milkSecond
  /\ @dedupItems referenceCase referencePrinter [milkFirst; eggs; milkSecond]
     = [milkSecond; eggs]
  /\ In milkSecond
       (@dedupItems referenceCase referencePrinter [milkFirst; eggs; milkSecond]).
Proof.
  pose proof (makeDedupKey_last_write_wins referenceCase KeyFacts.referenceCase_laws
                referencePrinter) as (_ & _ & _ & _ & H2 & _ & H4 & _).
  assert (sameModuloLayout (name milkFirst) (name milkSecond)) as Hn.
  { cbv.
    repeat first
      [ apply sml_nil
      | apply sml_case; [reflexivity|]
      | apply sml_skip_left; [first [left; reflexivity | right; reflexivity]|] ]. }
  assert (sameModuloLayout (unitText milkFirst) (unitText milkSecond)) as Hu.
  { cbv.
    repeat first
      [ apply sml_nil
      | apply sml_case; [reflexivity|]
      | apply sml_skip_left; [first [left; reflexivity | right; reflexivity]|] ]. }
  split; [exact Hn|]. split; [|split].
  - apply (H2 milkFirst milkSecond eq_refl eq_refl eq_refl eq_refl Hn eq_refl Hu).
  - reflexivity.
  - apply H4. reflexivity.
Defined.

(* ================================================================== *)
(** * Tiling geometry *)
(* ================================================================== *)

(** C5.  For a bitmap of positive width [w] and height [h], tiling with
    window 1024 and overlap 96 steps by 928 pixels; the tiles are the
    row-major grid (rows outermost, numbered consecutively), cut after the
    tile budget; every tile has its origin at multiples of 928, a positive
    width and height of at most 1024, is clipped exactly at the right and
    bottom edges and lies inside the bitmap.  A 2000 x 1500 bitmap gives
    origins 0, 928, 1856 across and 0, 928 down, the last column 144 wide
    and the last row 572 high. *)
Theorem tileImagePng_geometry (w h : Z) (pageIndex0 : nat) (maxTilesTotal : Z) :
  (0 < w)%Z -> (0 < h)%Z ->
  let tiles := Tiling.tileImagePng w h pageIndex0 1024 96 maxTilesTotal in
  Tiling.step 1024 96 = 928%Z
  /\ tiles = firstn (Z.to_nat (Z.max 1 maxTilesTotal))
                    (Tiling.gridTiles w h pageIndex0 1024 96)
  /\ (forall t, In t tiles ->
        exists r c : nat,
          Tiling.left (Tiling.buf t) = (928 * Z.of_nat c)%Z /\
          Tiling.top (Tiling.buf t) = (928 * Z.of_nat r)%Z /\
          Tiling.tileIndexInPage t = (r * Tiling.cols w 1024 96 + c)%nat /\
          (c < Tiling.cols w 1024 96)%nat /\
          (0 < Tiling.width (Tiling.buf t) <= 1024)%Z /\
          (0 < Tiling.height (Tiling.buf t) <= 1024)%Z /\
          Tiling.width (Tiling.buf t) = Z.min 1024 (w - Tiling.left (Tiling.buf t)) /\
          Tiling.height (Tiling.buf t) = Z.min 1024 (h - Tiling.top (Tiling.buf t)) /\
          (Tiling.left (Tiling.buf t) + Tiling.width (Tiling.buf t) <= w)%Z /\
          (Tiling.top (Tiling.buf t) + Tiling.height (Tiling.buf t) <= h)%Z)
  /\ List.map Tiling.buf (Tiling.tileImagePng 2000 1500 pageIndex0 1024 96 200) =
     [ {| Tiling.left := 0; Tiling.top := 0; Tiling.width := 1024; Tiling.height := 1024 |};
       {| Tiling.left := 928; Tiling.top := 0; Tiling.width := 1024; Tiling.height := 1024 |};
       {| Tiling.left := 1856; Tiling.top := 0; Tiling.width := 144; Tiling.height := 1024 |};
       {| Tiling.left := 0; Tiling.top := 928; Tiling.width := 1024; Tiling.height := 572 |};
       {| Tiling.left := 928; Tiling.top := 928; Tiling.width := 1024; Tiling.height := 572 |};
       {| Tiling.left := 1856; Tiling.top := 928; Tiling.width := 144; Tiling.height := 572 |} ]%Z.
Proof.
  intros Hw Hh tiles.
  assert (Hgrid : tiles = firstn (Z.to_nat (Z.max 1 maxTilesTotal))
                                 (Tiling.gridTiles w h pageIndex0 1024 96)).
  { apply TilingFacts.tileImagePng_grid; assumption. }
  split; [reflexivity|]. split; [exact Hgrid|]. split.
  - intros t Hin. rewrite Hgrid in Hin. apply ListFacts.In_firstn in Hin.
    destruct (TilingFacts.gridTiles_inside w h pageIndex0 1024 96 Hw Hh t
                ltac:(lia) Hin)
      as (r & c & Hr & Hc & Hl & Ht & Hwd & Hht & Hwb & Hhb & Hlw & Hth & _ & Hidx).
    change (Tiling.step 1024 96) with 928%Z in *.
    exists r, c. repeat split; try lia; assumption.
  - clear. vm_compute. reflexivity.
Qed.

(** The geometry at the 2000 x 1500 bitmap. *)
Lemma tileImagePng_geometry_witness :
  List.length (Tiling.tileImagePng 2000 1500 0 1024 96 200) = 6%nat
  /\ forall t, In t (Tiling.tileImagePng 2000 1500 0 1024 96 200) ->
       (Tiling.left (Tiling.buf t) + Tiling.width (Tiling.buf t) <= 2000)%Z /\
       (Tiling.top (Tiling.buf t) + Tiling.height (Tiling.buf t) <= 1500)%Z.
Proof.
  split; [vm_compute; reflexivity|].
  intros t Hin.
  destruct (tileImagePng_geometry 2000 1500 0 200 ltac:(lia) ltac:(lia))
    as (_ & _ & H & _).
  destruct (H t Hin) as (r & c & _ & _ & _ & _ & _ & _ & _ & _ & H1 & H2).
  split; assumption.
Defined.

(* ================================================================== *)
(** * The batch loop: one failing tile does not stop the others *)
(* ================================================================== *)

(** C4, as written, promises that the items of every tile that did not
    fail appear in the result.  The extract-url handler answers, in the
    ingredient mode, with the first 30 deduplicated items only: in the run
    below the first tile answers thirty items, the third call throws, and
    the items of tiles 2, 4 and 5 are accumulated but are not in the
    answer. *)
Lemma tileLoop_ingredients_cut :
  let st := Batch.runTiles Batch.crowdedCapability Batch.Ingredients Batch.sampleTiles [] in
  let result :=
    Batch.limitItems Batch.Ingredients
      (@dedupItems referenceCase referencePrinter (Batch.allItems st)) in
  List.length Batch.sampleTiles = 5
  /\ List.length (Batch.warnings st) = 1
  /\ List.length (Batch.allItems st) = 33
  /\ List.length result = 30
  /\ (forall k, In k [2; 4; 5] ->
        existsb (fun it => Js.eqb (name it) (str "item " ++ dec (N.of_nat k)))
                (Batch.allItems st) = true
        /\ existsb (fun it => Js.eqb (name it) (str "item " ++ dec (N.of_nat k)))
                   result = false).
Proof.
  intros st result.
  split; [vm_compute; reflexivity|]. split; [vm_compute; reflexivity|].
  split; [vm_compute; reflexivity|]. split; [vm_compute; reflexivity|].
  intros k [<- | [<- | [<- | []]]]; split; vm_compute; reflexivity.
Qed.

(** C4 (amended).  Whatever the capability does, the loop visits every
    tile.  A tile whose call throws adds exactly one warning and no item;
    the warning is the text [JSON parse failed (tile i/n). raw head: ]
    with the tile's 1-based index and the tile count, followed by the first
    200 units of the error text and nothing more.  A tile whose call
    returns adds no warning, and its normalised items are in [allItems],
    each represented, under its dedup key, in the deduplicated items.  The
    answer is the deduplicated items in the mode for all items, and their
    first 30 in the ingredient mode.  With five tiles of which the third
    throws, the warnings grow by the single entry for tile 3 and the items
    are those of tiles 1, 2, 4 and 5, in that order. *)
Theorem tileLoop_isolates_failures `{CaseApi} `{NumberPrinter}
  (callGeminiForTile : Batch.capability) (mode : Batch.extractMode)
  (tiles : list Tiling.Tile) (warnings0 : list jsstring) :
  let n := List.length tiles in
  let st := Batch.runTiles callGeminiForTile mode tiles warnings0 in
  let text (j : nat) (message : jsstring) :=
    str "JSON parse failed (tile " ++ dec (N.of_nat (j + 1)) ++ str "/"
    ++ dec (N.of_nat n) ++ str "). raw head: " ++ firstn 200 message in
  let added :=
    flat_map
      (fun jt : nat * Tiling.Tile =>
         match callGeminiForTile (snd jt) (fst jt + 1) n mode with
         | Batch.Threw message => [text (fst jt) message]
         | Batch.Returned _ => []
         end)
      (combine (seq 0 n) tiles) in
  let result := Batch.limitItems mode (dedupItems (Batch.allItems st)) in
  Batch.warnings st = warnings0 ++ added
  /\ Batch.allItems st
     = flat_map
         (fun jt : nat * Tiling.Tile =>
            match callGeminiForTile (snd jt) (fst jt + 1) n mode with
            | Batch.Returned itemsRaw =>
                flat_map (fun r => match normalizeFlyerItem r with
                                   | Some it => [it]
                                   | None => []
                                   end) itemsRaw
            | Batch.Threw _ => []
            end)
         (combine (seq 0 n) tiles)
  /\ (forall j t, nth_error tiles j = Some t ->
        match callGeminiForTile t (j + 1) n mode with
        | Batch.Threw message =>
            In (text j message) added
            /\ Batch.countNaming (j + 1) n added = 1
        | Batch.Returned itemsRaw =>
            Batch.countNaming (j + 1) n added = 0
            /\ forall r it, In r itemsRaw -> normalizeFlyerItem r = Some it ->
                 In it (Batch.allItems st)
                 /\ exists it', In it' (dedupItems (Batch.allItems st))
                                /\ makeDedupKey it' = makeDedupKey it
        end)
  /\ match mode with
     | Batch.All => result = dedupItems (Batch.allItems st)
     | Batch.Ingredients => result = firstn 30 (dedupItems (Batch.allItems st))
     end
  /\ (forall t1 t2 t3 t4 t5 r1 r2 r4 r5 message,
        callGeminiForTile t1 1 5 mode = Batch.Returned r1 ->
        callGeminiForTile t2 2 5 mode = Batch.Returned r2 ->
        callGeminiForTile t3 3 5 mode = Batch.Threw message ->
        callGeminiForTile t4 4 5 mode = Batch.Returned r4 ->
        callGeminiForTile t5 5 5 mode = Batch.Returned r5 ->
        let st5 := Batch.runTiles callGeminiForTile mode [t1; t2; t3; t4; t5] warnings0 in
        Batch.warnings st5
        = warnings0 ++ [str "JSON parse failed (tile 3/5). raw head: "
                        ++ firstn 200 message]
        /\ Batch.countNaming 3 5
             [str "JSON parse failed (tile 3/5). raw head: " ++ firstn 200 message] = 1
        /\ Batch.allItems st5 =
           Batch.normalizedItems r1 ++ Batch.normalizedItems r2
           ++ Batch.normalizedItems r4 ++ Batch.normalizedItems r5
        /\ (mode = Batch.All ->
            forall it, In it (Batch.normalizedItems r1 ++ Batch.normalizedItems r2
                              ++ Batch.normalizedItems r4 ++ Batch.normalizedItems r5) ->
            exists it', In it' (Batch.limitItems mode (dedupItems (Batch.allItems st5)))
                        /\ makeDedupKey it' = makeDedupKey it)).
Proof.
  intros n st text added result.
  assert (Hadded : added = Batch.warningsFrom callGeminiForTile mode n 0 tiles).
  { symmetry. apply LoopFacts.warningsFrom_flat. }
  assert (Hst : st = {| Batch.allItems := Batch.itemsFrom callGeminiForTile mode n 0 tiles;
                        Batch.warnings := warnings0 ++ added |}).
  { unfold st, Batch.runTiles. rewrite BatchFacts.tileLoop_spec, Hadded. reflexivity. }
  split; [rewrite Hst; reflexivity|].
  split; [rewrite Hst; apply LoopFacts.itemsFrom_flat|]. split; [|split].
  - intros j t Hnth.
    pose proof (BatchFacts.warningsFrom_count callGeminiForTile mode n tiles 0 j t Hnth) as Hc.
    simpl in Hc. rewrite <- Hadded in Hc.
    destruct (callGeminiForTile t (j + 1) n mode) as [itemsRaw|message] eqn:Ecall.
    + split; [exact Hc|]. intros r it Hr Hn.
      assert (In it (Batch.allItems st)) as Hin.
      { rewrite Hst. simpl.
        apply (BatchFacts.itemsFrom_returned callGeminiForTile mode n tiles 0 j t itemsRaw Hnth Ecall).
        unfold Batch.normalizedItems. apply in_flat_map. exists r. split; auto.
        rewrite Hn. left. reflexivity. }
      split; [exact Hin|]. apply KeyFacts.dedupItems_covers. exact Hin.
    + split; [|exact Hc]. rewrite Hadded.
      apply (BatchFacts.warningsFrom_threw callGeminiForTile mode n tiles 0 j t message Hnth Ecall).
  - unfold result, Batch.limitItems. destruct mode; reflexivity.
  - intros t1 t2 t3 t4 t5 r1 r2 r4 r5 message H1 H2 H3 H4 H5 st5.
    assert (Hst5 : st5 = {| Batch.allItems :=
                              Batch.normalizedItems r1 ++ Batch.normalizedItems r2
                              ++ Batch.normalizedItems r4 ++ Batch.normalizedItems r5;
                            Batch.warnings :=
                              warnings0 ++ [Batch.tileWarning 2 5 message] |}).
    { unfold st5, Batch.runTiles. rewrite BatchFacts.tileLoop_spec. simpl.
      rewrite H1, H2, H3, H4, H5. simpl. rewrite !app_nil_r. reflexivity. }
    rewrite Hst5. cbn [Batch.allItems Batch.warnings].
    split; [reflexivity|]. split; [|split; [reflexivity|]].
    + change (str "JSON parse failed (tile 3/5). raw head: " ++ firstn 200 message)
        with (Batch.tileWarning 2 5 message).
      unfold Batch.countNaming. cbn [filter].
      rewrite BatchFacts.namesTile_tileWarning. reflexivity.
    + intros -> it Hin. cbn [Batch.limitItems].
      apply KeyFacts.dedupItems_covers. exact Hin.
Qed.

(** The sample run: five tiles, the third call throws. *)
Lemma tileLoop_isolates_failures_witness :
  let st := Batch.runTiles Batch.sampleCapability Batch.All Batch.sampleTiles [] in
  List.length Batch.sampleTiles = 5
  /\ Batch.warnings st
     = [str "JSON parse failed (tile 3/5). raw head: 503 Service Unavailable"]
  /\ Batch.countNaming 3 5 (Batch.warnings st) = 1
  /\ List.map name (Batch.allItems st) =
     [str "item 1"; str "item 2"; str "item 4"; str "item 5"].
Proof.
  intros st.
  assert (List.length Batch.sampleTiles = 5) as Hlen by (vm_compute; reflexivity).
  destruct (nth_error Batch.sampleTiles 2) as [t3|] eqn:E3; [|vm_compute in E3; discriminate].
  destruct (@tileLoop_isolates_failures referenceCase referencePrinter
              Batch.sampleCapability Batch.All Batch.sampleTiles [])
    as (Hw & Hi & Hper & _).
  specialize (Hper 2 t3 E3). rewrite Hlen in Hper. cbn in Hper.
  destruct Hper as [_ Hcount].
  split; [exact Hlen|]. split; [vm_compute; reflexivity|]. split.
  - unfold st. rewrite Hw, Hlen. exact Hcount.
  - vm_compute. reflexivity.
Defined.

(* ================================================================== *)
(** * Tile-grid grouping *)
(* ================================================================== *)

(** C7, as written, promises a grid for every four quadrant URLs of the
    form [<page>_<size>_<tileIndex>.<ext>].  A digit run too long for a
    finite double converts to [Infinity], and the guard [Number.isFinite]
    makes [parseShufooTileUrl] return [null]: the four quadrants of a page
    with a 400-digit number match the pattern with tile indices 0 to 3 and
    form no grid. *)
Lemma pickShufooTileGroups_huge_page :
  (forall x, In x Shufoo.hugePageQuadrants ->
     exists u m1 m3,
       @parseUrl RefUrl.api x = Some u
       /\ Shufoo.matchPageSizeIndex (Shufoo.basenameOf (@pathname RefUrl.api u))
          = Some (m1, str "800", m3)
       /\ In m3 [str "0"; str "1"; str "2"; str "3"])
  /\ List.length Shufoo.hugePageQuadrants = 4
  /\ @Shufoo.pickShufooTileGroups RefUrl.api referencePrinter Shufoo.hugePageQuadrants = [].
Proof.
  split; [|split].
  - intros x Hx. unfold Shufoo.hugePageQuadrants in Hx. simpl in Hx.
    destruct Hx as [<- | [<- | [<- | [<- | []]]]];
      eexists; eexists; eexists;
      (split; [vm_compute; reflexivity|]); (split; [vm_compute; reflexivity|]);
      simpl; auto.
  - reflexivity.
  - vm_compute. reflexivity.
Qed.

(** C7 (amended).  On every platform: a URL whose file name is
    [<page>_<size>_<tileIndex>.<ext>] (three digit runs, one of the four
    extensions) parses, when its three digit runs are finite as doubles, to
    the tile at row [tileIndex div 2] and column [tileIndex mod 2] under
    the key made of origin, directory, page and size when [tileIndex] is at
    most 3, and to nothing otherwise; when one of the digit runs is not
    finite it parses to nothing.  The groups returned are exactly the key
    classes with two or more members, each holding the tiles of its URLs in
    input order; fewer than two URLs give no group.  On the reference
    platform the four quadrant URLs of page 3 at size 800 form one grid of
    four tiles, and a lone quadrant forms none. *)
Theorem pickShufooTileGroups_grids :
  (forall (U : UrlApi) (P : NumberPrinter) urlStr u m1 m2 m3 ext page0 size tileIndex,
     parseUrl urlStr = Some u ->
     Shufoo.basenameOf (pathname u)
       = m1 ++ str "_" ++ m2 ++ str "_" ++ m3 ++ str "." ++ ext ->
     m1 <> [] -> m2 <> [] -> m3 <> [] ->
     forallb isDigit m1 = true -> forallb isDigit m2 = true ->
     forallb isDigit m3 = true -> Shufoo.isTileExt ext = true ->
     Num.digitsNumber m1 = Some page0 -> Num.digitsNumber m2 = Some size ->
     Num.digitsNumber m3 = Some tileIndex ->
     Shufoo.parseShufooTileUrl urlStr =
       if (3 <? tileIndex)%N then None
       else Some (origin u ++ Shufoo.dirnameOf (pathname u)
                    ++ Shufoo.numberText page0 ++ str "_" ++ Shufoo.numberText size,
                  {| Shufoo.url := urlStr;
                     Shufoo.row := (tileIndex / 2)%N;
                     Shufoo.col := (tileIndex mod 2)%N;
                     Shufoo.page := Some page0 |}))
  /\ (forall (U : UrlApi) (P : NumberPrinter) urlStr u m1 m2 m3 ext,
        parseUrl urlStr = Some u ->
        Shufoo.basenameOf (pathname u)
          = m1 ++ str "_" ++ m2 ++ str "_" ++ m3 ++ str "." ++ ext ->
        m1 <> [] -> m2 <> [] -> m3 <> [] ->
        forallb isDigit m1 = true -> forallb isDigit m2 = true ->
        forallb isDigit m3 = true -> Shufoo.isTileExt ext = true ->
        Num.digitsNumber m1 = None \/ Num.digitsNumber m2 = None
        \/ Num.digitsNumber m3 = None ->
        Shufoo.parseShufooTileUrl urlStr = None)
  /\ (forall (U : UrlApi) (P : NumberPrinter) urls g,
        In g (Shufoo.pickShufooTileGroups urls) <->
        2 <= List.length (Shufoo.tilesWithKey urls (Shufoo.key g)) /\
        Shufoo.tiles g = Shufoo.tilesWithKey urls (Shufoo.key g))
  /\ (forall (U : UrlApi) (P : NumberPrinter) urls k tile,
        In tile (Shufoo.tilesWithKey urls k) <->
        exists u, In u urls /\ Shufoo.parseShufooTileUrl u = Some (k, tile))
  /\ (forall (U : UrlApi) (P : NumberPrinter) urls,
        List.length urls < 2 -> Shufoo.pickShufooTileGroups urls = [])
  /\ @Shufoo.pickShufooTileGroups RefUrl.api referencePrinter Shufoo.fourQuadrants =
     [ {| Shufoo.key := Shufoo.quadrant "3_800";
          Shufoo.tiles :=
            [ {| Shufoo.url := Shufoo.quadrant "3_800_0.jpg";
                 Shufoo.row := 0; Shufoo.col := 0; Shufoo.page := Some 3%N |};
              {| Shufoo.url := Shufoo.quadrant "3_800_1.jpg";
                 Shufoo.row := 0; Shufoo.col := 1; Shufoo.page := Some 3%N |};
              {| Shufoo.url := Shufoo.quadrant "3_800_2.jpg";
                 Shufoo.row := 1; Shufoo.col := 0; Shufoo.page := Some 3%N |};
              {| Shufoo.url := Shufoo.quadrant "3_800_3.jpg";
                 Shufoo.row := 1; Shufoo.col := 1; Shufoo.page := Some 3%N |} ] |} ]
  /\ @Shufoo.pickShufooTileGroups RefUrl.api referencePrinter
       [Shufoo.quadrant "3_800_0.jpg"] = [].
Proof.
  repeat apply conj.
  - intros U P urlStr u m1 m2 m3 ext page0 size tileIndex
           Hu Hb N1 N2 N3 D1 D2 D3 He Hp Hs Ht.
    unfold Shufoo.parseShufooTileUrl. rewrite Hu, Hb.
    rewrite ShufooFacts.matchPageSizeIndex_complete by assumption.
    rewrite Hp, Hs, Ht. reflexivity.
  - intros U P urlStr u m1 m2 m3 ext Hu Hb N1 N2 N3 D1 D2 D3 He Hinf.
    unfold Shufoo.parseShufooTileUrl. rewrite Hu, Hb.
    rewrite ShufooFacts.matchPageSizeIndex_complete by assumption.
    destruct Hinf as [H | [H | H]]; rewrite H.
    + reflexivity.
    + destruct (Num.digitsNumber m1); reflexivity.
    + destruct (Num.digitsNumber m1); [|reflexivity].
      destruct (Num.digitsNumber m2); reflexivity.
  - intros U P urls g. apply ShufooFacts.pickShufooTileGroups_spec.
  - intros U P urls k tile. apply ShufooFacts.tilesWithKey_In.
  - intros U P urls Hlen.
    destruct (Shufoo.pickShufooTileGroups urls) as [|g rest] eqn:E; [reflexivity|].
    exfalso.
    assert (In g (Shufoo.pickShufooTileGroups urls)) as Hin by (rewrite E; left; reflexivity).
    apply ShufooFacts.pickShufooTileGroups_spec in Hin as [Hge _].
    assert (List.length (Shufoo.tilesWithKey urls (Shufoo.key g)) <= List.length urls); [|lia].
    clear. unfold Shufoo.tilesWithKey.
    induction urls as [|u urls IH]; simpl; [lia|].
    rewrite length_app.
    destruct (Shufoo.parseShufooTileUrl u) as [[k' t]|]; simpl; [|lia].
    destruct (Js.eqb k' (Shufoo.key g)); simpl; lia.
  - vm_compute. reflexivity.
  - vm_compute. reflexivity.
Qed.

(** The third quadrant on the reference platform. *)
Lemma pickShufooTileGroups_grids_witness :
  @Shufoo.parseShufooTileUrl RefUrl.api referencePrinter (Shufoo.quadrant "3_800_2.jpg")
  = Some (Shufoo.quadrant "3_800",
          {| Shufoo.url := Shufoo.quadrant "3_800_2.jpg";
             Shufoo.row := 1; Shufoo.col := 0; Shufoo.page := Some 3%N |}).
Proof.
  destruct (@parseUrl RefUrl.api (Shufoo.quadrant "3_800_2.jpg")) as [u|] eqn:Eu;
    [|vm_compute in Eu; discriminate].
  pose proof (proj1 pickShufooTileGroups_grids RefUrl.api referencePrinter
                (Shufoo.quadrant "3_800_2.jpg") u
                (str "3") (str "800") (str "2") (str "jpg") 3%N 800%N 2%N Eu) as H.
  vm_compute in Eu. inversion Eu; subst u; clear Eu.
  specialize (H eq_refl ltac:(discriminate) ltac:(discriminate) ltac:(discriminate)
                eq_refl eq_refl eq_refl eq_refl eq_refl eq_refl eq_refl).
  rewrite H. vm_compute. reflexivity.
Defined.

(* ================================================================== *)
(** * Speculative tile expansion *)
(* ================================================================== *)

(** C9, as written, promises eight URLs for every file name of the form
    [<page>_<size>_<tileIndex>.<ext>].  A digit run too long for a finite
    double converts to [Infinity], and the guard [Number.isFinite] makes the
    function return [null]: the quadrant with a 400-digit page number
    matches the pattern and is not expanded. *)
Lemma expandShufooTileUrls_huge_page :
  (exists u m1,
     @parseUrl RefUrl.api Shufoo.hugePageQuadrant = Some u /\
     Shufoo.matchPageSizeIndex (Shufoo.basenameOf (@pathname RefUrl.api u))
       = Some (m1, str "800", str "0"))
  /\ @Shufoo.expandShufooTileUrls RefUrl.api referencePrinter Shufoo.hugePageQuadrant = None.
Proof.
  split.
  - eexists. eexists. split; vm_compute; reflexivity.
  - vm_compute. reflexivity.
Qed.

(** C9 (amended).  On every platform, for a URL that parses and whose file
    name is [<page>_<size>_<tileIndex>.<ext>] (three digit runs, extension
    jpg, jpeg, png or webp in any letter case):
    - when the three digit runs are finite as doubles, the expansion is the
      list of eight URLs under the same origin and directory, tile indices
      0 to 3 for the page and then 0 to 3 for the page plus one (computed
      on doubles, so exactly [page + 1] below 2^53), each ending in [.jpg];
    - when one of the digit runs is not finite, the result is [null].
    Every successful expansion has this shape, and a URL that does not parse
    or whose file name does not match yields [null]. *)
Theorem expandShufooTileUrls_eight :
  (forall (U : UrlApi) (P : NumberPrinter) urlStr u m1 m2 m3 ext page0 size tileIndex,
     parseUrl urlStr = Some u ->
     Shufoo.basenameOf (pathname u)
       = m1 ++ str "_" ++ m2 ++ str "_" ++ m3 ++ str "." ++ ext ->
     m1 <> [] -> m2 <> [] -> m3 <> [] ->
     forallb isDigit m1 = true -> forallb isDigit m2 = true ->
     forallb isDigit m3 = true -> Shufoo.isTileExt ext = true ->
     Num.digitsNumber m1 = Some page0 -> Num.digitsNumber m2 = Some size ->
     Num.digitsNumber m3 = Some tileIndex ->
     let base := origin u ++ Shufoo.dirnameOf (pathname u) in
     let p0 := Shufoo.pageText (Some page0) in
     let p1 := Shufoo.pageText (Num.succDouble page0) in
     let s := Shufoo.numberText size in
     Shufoo.expandShufooTileUrls urlStr =
       Some [ base ++ p0 ++ str "_" ++ s ++ str "_" ++ str "0" ++ str ".jpg";
              base ++ p0 ++ str "_" ++ s ++ str "_" ++ str "1" ++ str ".jpg";
              base ++ p0 ++ str "_" ++ s ++ str "_" ++ str "2" ++ str ".jpg";
              base ++ p0 ++ str "_" ++ s ++ str "_" ++ str "3" ++ str ".jpg";
              base ++ p1 ++ str "_" ++ s ++ str "_" ++ str "0" ++ str ".jpg";
              base ++ p1 ++ str "_" ++ s ++ str "_" ++ str "1" ++ str ".jpg";
              base ++ p1 ++ str "_" ++ s ++ str "_" ++ str "2" ++ str ".jpg";
              base ++ p1 ++ str "_" ++ s ++ str "_" ++ str "3" ++ str ".jpg" ]
     /\ ((page0 + 1 < 2 ^ 53)%N -> p1 = Shufoo.numberText (page0 + 1)))
  /\ (forall (U : UrlApi) (P : NumberPrinter) urlStr u m1 m2 m3 ext,
        parseUrl urlStr = Some u ->
        Shufoo.basenameOf (pathname u)
          = m1 ++ str "_" ++ m2 ++ str "_" ++ m3 ++ str "." ++ ext ->
        m1 <> [] -> m2 <> [] -> m3 <> [] ->
        forallb isDigit m1 = true -> forallb isDigit m2 = true ->
        forallb isDigit m3 = true -> Shufoo.isTileExt ext = true ->
        Num.digitsNumber m1 = None \/ Num.digitsNumber m2 = None
        \/ Num.digitsNumber m3 = None ->
        Shufoo.expandShufooTileUrls urlStr = None)
  /\ (forall (U : UrlApi) (P : NumberPrinter) urlStr urls,
        Shufoo.expandShufooTileUrls urlStr = Some urls ->
        List.length urls = 8
        /\ (forall url, In url urls -> endsWith url (str ".jpg") = true)
        /\ exists u m1 m2 m3 ext,
             parseUrl urlStr = Some u /\
             Shufoo.basenameOf (pathname u)
               = m1 ++ str "_" ++ m2 ++ str "_" ++ m3 ++ str "." ++ ext /\
             forallb isDigit m1 = true /\ forallb isDigit m2 = true /\
             forallb isDigit m3 = true /\ Shufoo.isTileExt ext = true)
  /\ (forall (U : UrlApi) (P : NumberPrinter) urlStr,
        parseUrl urlStr = None \/
        (exists u, parseUrl urlStr = Some u /\
                   Shufoo.matchPageSizeIndex (Shufoo.basenameOf (pathname u)) = None) ->
        Shufoo.expandShufooTileUrls urlStr = None).
Proof.
  repeat apply conj.
  - intros U P urlStr u m1 m2 m3 ext page0 size tileIndex
           Hu Hb N1 N2 N3 D1 D2 D3 He Hp Hs Ht base p0 p1 s.
    split.
    + unfold Shufoo.expandShufooTileUrls. rewrite Hu, Hb.
      rewrite ShufooFacts.matchPageSizeIndex_complete by assumption.
      rewrite Hp, Hs, Ht. reflexivity.
    + intros Hsmall. unfold p1. rewrite NumFacts.succDouble_exact by assumption.
      reflexivity.
  - intros U P urlStr u m1 m2 m3 ext Hu Hb N1 N2 N3 D1 D2 D3 He Hinf.
    unfold Shufoo.expandShufooTileUrls. rewrite Hu, Hb.
    rewrite ShufooFacts.matchPageSizeIndex_complete by assumption.
    destruct Hinf as [H|[H|H]]; rewrite H; try reflexivity.
    + destruct (Num.digitsNumber m1); reflexivity.
    + destruct (Num.digitsNumber m1); [|reflexivity].
      destruct (Num.digitsNumber m2); reflexivity.
  - intros U P urlStr urls H.
    apply ShufooFacts.expandShufooTileUrls_inv in H
      as (u & m1 & m2 & m3 & page0 & size & tileIndex & Hu & Hm & _ & _ & _ & ->).
    split; [apply ShufooFacts.tileUrlsFor_length|].
    split; [intros url; apply ShufooFacts.tileUrlsFor_jpg|].
    apply ShufooFacts.matchPageSizeIndex_sound in Hm
      as (ext & Hb & _ & _ & _ & D1 & D2 & D3 & He).
    exists u, m1, m2, m3, ext. repeat split; assumption.
  - intros U P urlStr [H|[u [Hu Hm]]]; unfold Shufoo.expandShufooTileUrls.
    + rewrite H. reflexivity.
    + rewrite Hu, Hm. reflexivity.
Qed.

(** The expansion of the third quadrant (a PNG) on the reference platform:
    pages 3 and 4, all with the extension jpg. *)
Lemma expandShufooTileUrls_eight_witness :
  @Shufoo.expandShufooTileUrls RefUrl.api referencePrinter (Shufoo.quadrant "3_800_2.PNG")
  = Some [ Shufoo.quadrant "3_800_0.jpg"; Shufoo.quadrant "3_800_1.jpg";
           Shufoo.quadrant "3_800_2.jpg"; Shufoo.quadrant "3_800_3.jpg";
           Shufoo.quadrant "4_800_0.jpg"; Shufoo.quadrant "4_800_1.jpg";
           Shufoo.quadrant "4_800_2.jpg"; Shufoo.quadrant "4_800_3.jpg" ].
Proof.
  destruct (@parseUrl RefUrl.api (Shufoo.quadrant "3_800_2.PNG")) as [u|] eqn:Eu;
    [|vm_compute in Eu; discriminate].
  pose proof (proj1 expandShufooTileUrls_eight RefUrl.api referencePrinter
                (Shufoo.quadrant "3_800_2.PNG") u
                (str "3") (str "800") (str "2") (str "PNG") 3%N 800%N 2%N Eu) as H.
  vm_compute in Eu. inversion Eu; subst u; clear Eu.
  specialize (H eq_refl ltac:(discriminate) ltac:(discriminate) ltac:(discriminate)
                eq_refl eq_refl eq_refl eq_refl eq_refl eq_refl eq_refl).
  destruct H as [H _]. rewrite H. vm_compute. reflexivity.
Defined.

(* ================================================================== *)
(** * The Tokubai high-resolution rewrite *)
(* ================================================================== *)

(** C10, as written, makes every URL that already contains the segment
    [/images/bargain_office_leaflets/o=true/] a fixed point.  For a Tokubai
    host the function returns [u.toString()], the serialised form: a URL
    spelt with an upper-case scheme comes back in lower case; and when an
    earlier leaflet segment precedes the [o=true] one, the earlier one is
    rewritten. *)
Lemma toTokubaiHighRes_not_fixed :
  (includes Route.leafletUpperScheme (str "/images/bargain_office_leaflets/o=true/") = true
   /\ @Route.toTokubaiHighRes RefUrl.api Route.leafletUpperScheme
      = str "https://image.tokubai.co.jp/images/bargain_office_leaflets/o=true/20240105_a.jpg"
   /\ @Route.toTokubaiHighRes RefUrl.api Route.leafletUpperScheme <> Route.leafletUpperScheme)
  /\ (includes Route.leafletNested (str "/images/bargain_office_leaflets/o=true/") = true
      /\ @Route.toTokubaiHighRes RefUrl.api Route.leafletNested
         = str "https://image.tokubai.co.jp/images/bargain_office_leaflets/o=true/images/bargain_office_leaflets/o=true/a.jpg"
      /\ @Route.toTokubaiHighRes RefUrl.api Route.leafletNested <> Route.leafletNested).
Proof.
  split; (split; [vm_compute; reflexivity|]);
    (split; [vm_compute; reflexivity|]); vm_compute; discriminate.
Qed.

(** C10 (amended).  On every platform that meets the round-trip laws of the
    URL Standard, [toTokubaiHighRes] is idempotent.  A string that does not
    parse and a URL whose host name does not contain [tokubai.co.jp] are
    returned unchanged.  A Tokubai URL whose path starts with the segment
    [/images/bargain_office_leaflets/o=true/] is mapped to its serialised
    form [u.toString()], and that serialised form is a fixed point. *)
Theorem toTokubaiHighRes_idempotent (U : UrlApi) (L : UrlLaws U) :
  (forall s, Route.toTokubaiHighRes (Route.toTokubaiHighRes s) = Route.toTokubaiHighRes s)
  /\ (forall s, parseUrl s = None -> Route.toTokubaiHighRes s = s)
  /\ (forall s u, parseUrl s = Some u ->
        includes (hostname u) (str "tokubai.co.jp") = false ->
        Route.toTokubaiHighRes s = s)
  /\ (forall s u after, parseUrl s = Some u ->
        includes (hostname u) (str "tokubai.co.jp") = true ->
        pathname u = Route.leafletPrefix ++ str "o=true/" ++ after ->
        Route.toTokubaiHighRes s = href u
        /\ Route.toTokubaiHighRes (href u) = href u).
Proof.
  repeat apply conj.
  - apply TokubaiFacts.toTokubaiHighRes_idempotent_on.
  - intros s H. unfold Route.toTokubaiHighRes. rewrite H. reflexivity.
  - intros s u H Hh. unfold Route.toTokubaiHighRes. rewrite H, Hh. reflexivity.
  - intros s u after H Hh Hp.
    apply (TokubaiFacts.toTokubaiHighRes_settled s u H Hh).
    rewrite Hp. apply TokubaiFacts.replaceLeafletSegment_done.
Qed.

(** The thumbnail URL of a leaflet on the reference platform: one step
    reaches the original-size URL, a second step changes nothing. *)
Lemma toTokubaiHighRes_idempotent_witness :
  @Route.toTokubaiHighRes RefUrl.api Route.leafletThumb = Route.leafletOriginal
  /\ @Route.toTokubaiHighRes RefUrl.api (@Route.toTokubaiHighRes RefUrl.api Route.leafletThumb)
     = @Route.toTokubaiHighRes RefUrl.api Route.leafletThumb.
Proof.
  split; [vm_compute; reflexivity|].
  apply (proj1 (toTokubaiHighRes_idempotent RefUrl.api RefUrlFacts.laws)).
Defined.

(* ================================================================== *)
(** * Compositing a tile group *)
(* ================================================================== *)

(** C6, as written, makes [composeShufooTiles] return [null], not an error,
    when fewer than two tiles were fetched and normalised.  The loop over the
    tiles has no [try]: where every quadrant answers 404, no tile is fetched
    and the function throws at the first one.  The handler catches the error
    and records the warning for a failed composition, not the one for a
    group that is short of tiles. *)
Lemma composeShufooTiles_throws_on_failed_fetch :
  @ExtractUrl.composeShufooTiles RefUrl.api Samples.missingWorld
     Route.itoyokado_kawasaki Samples.quadrantTiles Effects.start
  = (Route.Throw (str "fetch failed: 404 Not Found"),
     {| Effects.fetched :=
          [ {| Effects.verb := Effects.GET;
               Effects.target := Shufoo.quadrant "3_800_0.jpg";
               Effects.referer := None |} ];
        Effects.warnings := [] |})
  /\ Effects.warnings
       (snd (@ExtractUrl.stitchGroup RefUrl.api Samples.missingWorld
               Route.itoyokado_kawasaki
               {| ExtractUrl.pagePngs := []; ExtractUrl.stitchedTileUrls := [] |}
               {| Shufoo.key := str "k"; Shufoo.tiles := Samples.quadrantTiles |}
               Effects.start))
     = [ExtractUrl.composeFailed ++ str "fetch failed: 404 Not Found"].
Proof.
  split; vm_compute; reflexivity.
Qed.

(** C6 (amended).  [composeShufooTiles] requests the tiles in order, one
    plain GET each.  When every tile loads (its address is allowed, the
    download is answered with [ok] within the size limit, the bytes
    re-encode and their metadata can be read), the entries are the tiles of
    non-zero width and height, in order, and
    - with fewer than two entries the result is [null], not an error;
    - otherwise the canvas is white, (maxCol - minCol + 1) times the width of
      the first entry wide and (maxRow - minRow + 1) times its height high,
      where the bounds are the least and greatest row and column among the
      entries, and every entry is pasted at ((col - minCol) * tileWidth,
      (row - minRow) * tileHeight).
    The first tile that does not load makes the whole call throw its error:
    a rejected address before anything is sent for it, a failed download, an
    answer without [ok], too large a body, or bytes or metadata that cannot
    be read, after its request; no later tile is requested.  Four tiles at
    (0,0), (0,1), (1,0), (1,1) that load with 800 by 600 give a canvas of
    1600 by 1200 with the tile at (1,1) pasted at (800, 600). *)
Theorem composeShufooTiles_canvas (U : UrlApi) (W : Effects.World)
  (storeId : Route.StoreId) (tiles : list Shufoo.ShufooTile) (st : Effects.state) :
  let n0 := List.length (Effects.fetched st) in
  let after sent := {| Effects.fetched := Effects.fetched st ++ sent;
                       Effects.warnings := Effects.warnings st |} in
  let requests ts := List.map ExtractUrl.download (List.map Shufoo.url ts) in
  (forall ls,
     List.length ls = List.length tiles ->
     (forall i t normalized w h,
        nth_error tiles i = Some t -> nth_error ls i = Some (normalized, w, h) ->
        ExtractUrl.loads storeId (n0 + i) t normalized w h) ->
     let entries := ExtractUrl.entriesOf tiles ls in
     (forall e, In e entries <->
        exists i t normalized w h,
          nth_error tiles i = Some t /\ nth_error ls i = Some (normalized, w, h)
          /\ w <> 0%Z /\ h <> 0%Z
          /\ e = {| ExtractUrl.ebuf := normalized; ExtractUrl.erow := Shufoo.row t;
                    ExtractUrl.ecol := Shufoo.col t;
                    ExtractUrl.ewidth := w; ExtractUrl.eheight := h |})
     /\ match entries with
        | first :: _ :: _ =>
            let rows := List.map (fun e => Z.of_N (ExtractUrl.erow e)) entries in
            let cols := List.map (fun e => Z.of_N (ExtractUrl.ecol e)) entries in
            let minRow := ExtractUrl.minOf (Z.of_N (ExtractUrl.erow first)) rows in
            let minCol := ExtractUrl.minOf (Z.of_N (ExtractUrl.ecol first)) cols in
            let maxRow := ExtractUrl.maxOf (Z.of_N (ExtractUrl.erow first)) rows in
            let maxCol := ExtractUrl.maxOf (Z.of_N (ExtractUrl.ecol first)) cols in
            let tileWidth := ExtractUrl.ewidth first in
            let tileHeight := ExtractUrl.eheight first in
            (In minRow rows /\ In maxRow rows /\ In minCol cols /\ In maxCol cols)
            /\ Forall (fun e => (minRow <= Z.of_N (ExtractUrl.erow e) <= maxRow
                                 /\ minCol <= Z.of_N (ExtractUrl.ecol e) <= maxCol)%Z)
                 entries
            /\ ExtractUrl.composeShufooTiles storeId tiles st
               = (match Effects.sharpComposite
                          {| Effects.width := (maxCol - minCol + 1) * tileWidth;
                             Effects.height := (maxRow - minRow + 1) * tileHeight;
                             Effects.channels := 4;
                             Effects.background := (255, 255, 255, 1)%N;
                             Effects.composites :=
                               List.map
                                 (fun e =>
                                    {| Effects.input := ExtractUrl.ebuf e;
                                       Effects.left :=
                                         (Z.of_N (ExtractUrl.ecol e) - minCol) * tileWidth;
                                       Effects.top :=
                                         (Z.of_N (ExtractUrl.erow e) - minRow) * tileHeight |})
                                 entries |}%Z
                  with
                  | Route.Ok png => Route.Ok (Some png)
                  | Route.Throw e => Route.Throw e
                  end, after (requests tiles))
        | _ => ExtractUrl.composeShufooTiles storeId tiles st
               = (Route.Ok None, after (requests tiles))
        end)
  /\ (forall before t rest ls e sent,
        tiles = before ++ t :: rest ->
        List.length ls = List.length before ->
        (forall i t' normalized w h,
           nth_error before i = Some t' -> nth_error ls i = Some (normalized, w, h) ->
           ExtractUrl.loads storeId (n0 + i) t' normalized w h) ->
        ExtractUrl.fails storeId (n0 + List.length before) t e sent ->
        ExtractUrl.composeShufooTiles storeId tiles st
        = (Route.Throw e, after (requests before ++ sent)))
  /\ (forall t0 t1 t2 t3 b0 b1 b2 b3,
        tiles = [t0; t1; t2; t3] ->
        ExtractUrl.place t0 = (0, 0)%N -> ExtractUrl.place t1 = (0, 1)%N ->
        ExtractUrl.place t2 = (1, 0)%N -> ExtractUrl.place t3 = (1, 1)%N ->
        ExtractUrl.loads storeId n0 t0 b0 800 600 ->
        ExtractUrl.loads storeId (n0 + 1) t1 b1 800 600 ->
        ExtractUrl.loads storeId (n0 + 2) t2 b2 800 600 ->
        ExtractUrl.loads storeId (n0 + 3) t3 b3 800 600 ->
        ExtractUrl.composeShufooTiles storeId tiles st
        = (match Effects.sharpComposite
                   {| Effects.width := 1600;
                      Effects.height := 1200;
                      Effects.channels := 4;
                      Effects.background := (255, 255, 255, 1)%N;
                      Effects.composites :=
                        [ {| Effects.input := b0; Effects.left := 0; Effects.top := 0 |};
                          {| Effects.input := b1; Effects.left := 800; Effects.top := 0 |};
                          {| Effects.input := b2; Effects.left := 0; Effects.top := 600 |};
                          {| Effects.input := b3; Effects.left := 800; Effects.top := 600 |} ]
                   |}%Z
           with
           | Route.Ok png => Route.Ok (Some png)
           | Route.Throw e => Route.Throw e
           end, after (requests tiles))).
Proof.
  intros n0 after requests.
  assert (Hrun : forall ls,
            List.length ls = List.length tiles ->
            (forall i t normalized w h,
               nth_error tiles i = Some t -> nth_error ls i = Some (normalized, w, h) ->
               ExtractUrl.loads storeId (n0 + i) t normalized w h) ->
            ExtractUrl.composeShufooTiles storeId tiles st
            = match ExtractUrl.layout (ExtractUrl.entriesOf tiles ls) with
              | None => (Route.Ok None, after (requests tiles))
              | Some c =>
                  (match Effects.sharpComposite c with
                   | Route.Ok png => Route.Ok (Some png)
                   | Route.Throw e => Route.Throw e
                   end, after (requests tiles))
              end).
  { intros ls Hlen Hall.
    unfold ExtractUrl.composeShufooTiles, ExtractUrl.loadEntries, Effects.bind.
    rewrite (LoadFacts.forEach_loads storeId tiles ls [] st Hlen Hall).
    cbn [app]. destruct (ExtractUrl.layout _) as [c|]; [|reflexivity].
    unfold Effects.lift, Effects.ret. destruct (Effects.sharpComposite c); reflexivity. }
  split; [|split].
  - intros ls Hlen Hall entries. split; [apply LoadFacts.entriesOf_In|].
    specialize (Hrun ls Hlen Hall). fold entries in Hrun.
    destruct entries as [|first [|second rest]] eqn:E; [exact Hrun | exact Hrun |].
    cbv zeta. rewrite <- E.
    set (rows := List.map (fun e => Z.of_N (ExtractUrl.erow e)) entries).
    set (cols := List.map (fun e => Z.of_N (ExtractUrl.ecol e)) entries).
    assert (Hr : In (Z.of_N (ExtractUrl.erow first)) rows).
    { unfold rows. rewrite E. left. reflexivity. }
    assert (Hc : In (Z.of_N (ExtractUrl.ecol first)) cols).
    { unfold cols. rewrite E. left. reflexivity. }
    destruct (ComposeFacts.minOf_In _ _ Hr) as [R1 R2].
    destruct (ComposeFacts.maxOf_In _ _ Hr) as [R3 R4].
    destruct (ComposeFacts.minOf_In _ _ Hc) as [C1 C2].
    destruct (ComposeFacts.maxOf_In _ _ Hc) as [C3 C4].
    split; [repeat split; assumption|]. split.
    + clear R1 R3 C1 C3 Hr Hc Hrun. unfold rows, cols in *.
      rewrite Forall_map in R2, R4, C2, C4.
      rewrite Forall_forall in *. intros e He.
      specialize (R2 e He). specialize (R4 e He).
      specialize (C2 e He). specialize (C4 e He).
      cbv beta in *. lia.
    + rewrite Hrun. unfold rows, cols. rewrite E. reflexivity.
  - intros before t rest ls e sent -> Hlen Hall Hfail.
    unfold ExtractUrl.composeShufooTiles, ExtractUrl.loadEntries, Effects.bind.
    rewrite (LoadFacts.forEach_fails storeId before rest t ls [] st e sent Hlen Hall Hfail).
    reflexivity.
  - intros t0 t1 t2 t3 b0 b1 b2 b3 -> P0 P1 P2 P3 L0 L1 L2 L3.
    rewrite (Hrun [(b0, 800, 600); (b1, 800, 600); (b2, 800, 600); (b3, 800, 600)]%Z).
    + unfold ExtractUrl.place in P0, P1, P2, P3.
      injection P0 as R0 C0. injection P1 as R1 C1.
      injection P2 as R2 C2. injection P3 as R3 C3.
      unfold ExtractUrl.entriesOf, ExtractUrl.entryOf, ExtractUrl.layout.
      cbn [combine flat_map fst snd Z.eqb orb app List.map
           ExtractUrl.erow ExtractUrl.ecol ExtractUrl.ewidth ExtractUrl.eheight
           ExtractUrl.ebuf].
      rewrite R0, C0, R1, C1, R2, C2, R3, C3. reflexivity.
    + reflexivity.
    + intros i t n w h Ht Hl.
      destruct i as [|[|[|[|i]]]]; cbn in Ht, Hl;
        [| | | | destruct i; discriminate Ht];
        injection Ht as <-; injection Hl as <- <- <-.
      * rewrite Nat.add_0_r. exact L0.
      * exact L1.
      * exact L2.
      * exact L3.
Qed.

(** Where every quadrant answers with an image of 800 by 600, the four
    quadrants of a page are composed into a canvas of 1600 by 1200 with the
    last quadrant at (800, 600). *)
Lemma composeShufooTiles_canvas_witness :
  fst (@ExtractUrl.composeShufooTiles RefUrl.api Samples.quadrantWorld
         Route.itoyokado_kawasaki Samples.quadrantTiles Effects.start)
  = Route.Ok (Some (Samples.Stitched 1600 1200
                      [(0, 0); (800, 0); (0, 600); (800, 600)]%Z)).
Proof.
  assert (Hload : forall k t,
            In t Samples.quadrantTiles ->
            @ExtractUrl.loads RefUrl.api Samples.quadrantWorld Route.itoyokado_kawasaki
              k t (Samples.Pixels 800 600) 800 600).
  { intros k t Ht. split.
    - simpl in Ht. destruct Ht as [<- | [<- | [<- | [<- | []]]]]; vm_compute; reflexivity.
    - exists (Samples.answer (Samples.Pixels 800 600)), (Some 800%Z), (Some 600%Z).
      repeat split. vm_compute. discriminate. }
  rewrite (proj2 (proj2 (composeShufooTiles_canvas RefUrl.api Samples.quadrantWorld
                           Route.itoyokado_kawasaki Samples.quadrantTiles Effects.start))
             _ _ _ _ (Samples.Pixels 800 600) (Samples.Pixels 800 600)
             (Samples.Pixels 800 600) (Samples.Pixels 800 600) eq_refl
             eq_refl eq_refl eq_refl eq_refl);
    [reflexivity | apply Hload; simpl; auto ..].
Defined.

(* ================================================================== *)
(** * Extraction of addresses from markup *)
(* ================================================================== *)

(** C8, as written, lets no extraction emit a fragment whose resolution
    fails.  [toAbs] of [flyerDiscover.ts] returns the fragment itself from its
    [catch]: the link of a page whose host holds a space does not resolve
    against the store page, does not parse, and is in the list of links.
    [extractRawUrls] of the extraction route does not parse what it finds:
    an address that opens a bracket it never closes is emitted. *)
Lemma toAbs_keeps_malformed_fragment :
  (Discover.extractHrefs Discover.brokenLinkPage = [str "http://exa mple.com/x.pdf"]
   /\ @resolveUrl RefUrl.api (str "http://exa mple.com/x.pdf") Discover.lifeHome = None
   /\ @parseUrl RefUrl.api (str "http://exa mple.com/x.pdf") = None
   /\ @Discover.hrefsOf RefUrl.api Discover.lifeHome Discover.brokenLinkPage
      = [str "http://exa mple.com/x.pdf"])
  /\ (Route.extractRawUrls (str "see http://[bad for more") = [str "http://[bad"]
      /\ @parseUrl RefUrl.api (str "http://[bad") = None).
Proof.
  repeat split; vm_compute; reflexivity.
Qed.

(** C8 (amended).  On every platform that meets the round-trip laws of the
    URL Standard, for every markup and base address the extractions built on
    [toAbsUrl] ([extractMetaImages], [extractAttrUrls], [extractCssUrls])
    return only absolute, parseable addresses: each one is the serialised
    form of the address that a captured fragment, trimmed and with its
    entities decoded, resolves to against the base, and it parses on its own
    to that address.  A fragment whose resolution fails is dropped: nothing
    is thrown and nothing is emitted for it.  [toAbs] of [flyerDiscover.ts]
    is different: it returns the serialised address when the fragment
    resolves and the fragment itself when it does not. *)
Theorem toAbsUrl_only_parseable (U : UrlApi) (L : UrlLaws U) (S : ExtractUrl.Scanner)
  (html baseUrl : jsstring) :
  (forall captures x,
     In x (Route.absolutizeAll captures baseUrl) <->
     x <> []
     /\ exists raw u, In raw captures
          /\ resolveUrl (Route.decodeHtmlEntities (trim raw)) baseUrl = Some u
          /\ x = href u)
  /\ (forall x,
        In x (ExtractUrl.extractMetaImages html baseUrl
              ++ ExtractUrl.extractAttrUrls html baseUrl
              ++ ExtractUrl.extractCssUrls html baseUrl) ->
        exists u, parseUrl x = Some u /\ href u = x)
  /\ (forall raw,
        resolveUrl (Route.decodeHtmlEntities (trim raw)) baseUrl = None ->
        Route.toAbsUrl raw baseUrl = None
        /\ forall before after,
             Route.absolutizeAll (before ++ raw :: after) baseUrl
             = Route.absolutizeAll before baseUrl ++ Route.absolutizeAll after baseUrl)
  /\ (forall raw,
        Discover.toAbs baseUrl raw
        = match resolveUrl raw baseUrl with
          | Some u => href u
          | None => raw
          end).
Proof.
  assert (Hin : forall captures x,
            In x (Route.absolutizeAll captures baseUrl) <->
            x <> []
            /\ exists raw u, In raw captures
                 /\ resolveUrl (Route.decodeHtmlEntities (trim raw)) baseUrl = Some u
                 /\ x = href u).
  { intros captures x. rewrite ExtractFacts.absolutizeAll_In. split.
    - intros [Hx [raw [Hr Ha]]]. split; [exact Hx|].
      apply ExtractFacts.toAbsUrl_Some in Ha. destruct Ha as [u [Hu ->]].
      exists raw, u. repeat split; assumption.
    - intros [Hx [raw [u [Hr [Hu ->]]]]]. split; [exact Hx|].
      exists raw. split; [exact Hr|]. apply ExtractFacts.toAbsUrl_Some.
      exists u. split; [exact Hu | reflexivity]. }
  assert (Hp : forall captures x,
            In x (Route.absolutizeAll captures baseUrl) ->
            exists u, parseUrl x = Some u /\ href u = x).
  { intros captures x Hx. apply Hin in Hx. destruct Hx as [_ [raw [u [_ [Hu ->]]]]].
    exists u. split; [|reflexivity].
    exact (@resolve_href U L _ _ _ Hu). }
  split; [exact Hin|]. split; [|split].
  - intros x Hx. unfold ExtractUrl.extractMetaImages, ExtractUrl.extractAttrUrls,
      ExtractUrl.extractCssUrls in Hx.
    apply in_app_or in Hx. destruct Hx as [Hx | Hx]; [exact (Hp _ _ Hx)|].
    apply in_app_or in Hx. destruct Hx as [Hx | Hx]; exact (Hp _ _ Hx).
  - intros raw Hraw.
    assert (Ht : Route.toAbsUrl raw baseUrl = None).
    { unfold Route.toAbsUrl. rewrite Hraw. reflexivity. }
    split; [exact Ht|].
    intros before after. induction before as [|b before IH]; simpl.
    + rewrite Ht. reflexivity.
    + rewrite IH. destruct (Route.toAbsUrl b baseUrl) as [[|c abs]|]; reflexivity.
  - intros raw. reflexivity.
Qed.

(** On the reference platform, against the page of the Aoba store: a
    relative path and a protocol-relative address are made absolute, the
    address whose host holds a space is dropped. *)
Lemma toAbsUrl_only_parseable_witness :
  @Route.absolutizeAll RefUrl.api
     [str " a.png "; str "http://exa mple/"; str "//x.y/z"] Samples.aobaPage
  = [str "https://www.bicrise.com/ooshima/a.png"; str "https://x.y/z"]
  /\ @Route.toAbsUrl RefUrl.api (str "http://exa mple/") Samples.aobaPage = None.
Proof.
  split; [vm_compute; reflexivity|].
  apply (proj1 (proj1 (proj2 (proj2 (toAbsUrl_only_parseable RefUrl.api RefUrlFacts.laws
                                         Samples.noScanner [] Samples.aobaPage)))
                  (str "http://exa mple/") ltac:(vm_compute; reflexivity))).
Defined.

(* ================================================================== *)
(** * The allowlist before every fetch *)
(* ================================================================== *)

(** C1, as written, covers the size probes.  The probes are those of the
    resolve route, [contentLength], and that route has no allowlist: for the
    Aoba store, a store page that names an image on a foreign host makes the
    route send a HEAD request and a ranged GET to that host, although the
    address does not pass the check of the store. *)
Lemma size_probe_skips_allowlist :
  Effects.fetched
    (snd (@Resolve.probeCandidates RefUrl.api referenceCase Samples.foreignWorld
            Samples.plainText Route.aoba_oshima [Samples.aobaPage] Effects.start))
  = [ {| Effects.verb := Effects.GET; Effects.target := Samples.aobaPage;
         Effects.referer := None |};
      {| Effects.verb := Effects.HEAD; Effects.target := Samples.foreignImage;
         Effects.referer := Some Samples.aobaPage |};
      {| Effects.verb := Effects.GET_RANGE; Effects.target := Samples.foreignImage;
         Effects.referer := Some Samples.aobaPage |} ]
  /\ @Route.isAllowed RefUrl.api Route.aoba_oshima Samples.foreignImage = false
  /\ @Route.assertAllowedUrl RefUrl.api Route.aoba_oshima Samples.foreignImage
     = Route.Throw (str "URL host not allowed for aoba_oshima: evil.example").
Proof.
  repeat split; vm_compute; reflexivity.
Qed.

(** C1 (amended).  In the extraction route, for every store, every posted
    list of addresses and every behaviour of the network and of the image
    library, each request sent while the page images are gathered (posted
    pages, resolved assets, tile downloads, image and PDF downloads), and
    each request sent by [composeShufooTiles] and by
    [resolvePageToAssetUrls] on any input, goes to an address that has passed
    [assertAllowedUrl] for the store: it parses, its scheme is http or https
    and its host is in the allowlist of the store.  An http or https address
    whose host is not in the allowlist is rejected with the error that names
    the store and the host, and is not fetched.  The size probes of the
    resolve route are outside this guarantee. *)
Theorem fetches_pass_allowlist (U : UrlApi) (C : CaseApi) (P : NumberPrinter) (W : Effects.World)
  (S : ExtractUrl.Scanner) (storeId : Route.StoreId) (st : Effects.state) :
  let allowed (r : Effects.request) :=
    exists p, parseUrl (Effects.target r) = Some p
              /\ (protocol p = str "https:" \/ protocol p = str "http:")
              /\ In (hostname p) (Route.ALLOWLIST storeId) in
  (forall urls, exists sent,
      Effects.fetched (snd (ExtractUrl.gatherPages storeId urls st))
      = Effects.fetched st ++ sent
      /\ Forall allowed sent)
  /\ (forall tiles, exists sent,
        Effects.fetched (snd (ExtractUrl.composeShufooTiles storeId tiles st))
        = Effects.fetched st ++ sent
        /\ Forall allowed sent)
  /\ (forall pageUrl, exists sent,
        Effects.fetched (snd (ExtractUrl.resolvePageToAssetUrls storeId pageUrl st))
        = Effects.fetched st ++ sent
        /\ Forall allowed sent)
  /\ (forall u p,
        parseUrl u = Some p ->
        protocol p = str "https:" \/ protocol p = str "http:" ->
        ~ In (hostname p) (Route.ALLOWLIST storeId) ->
        Route.assertAllowedUrl storeId u
        = Route.Throw (str "URL host not allowed for " ++ Route.storeName storeId
                       ++ str ": " ++ hostname p)
        /\ forall urls,
             ~ In u (List.map Effects.target
                       (skipn (List.length (Effects.fetched st))
                          (Effects.fetched
                             (snd (ExtractUrl.gatherPages storeId urls st)))))).
Proof.
  intros allowed.
  assert (Hg : forall (A : Type) (c : Effects.M A),
            ExtractUrl.guarded storeId c ->
            exists sent,
              Effects.fetched (snd (c st)) = Effects.fetched st ++ sent
              /\ Forall allowed sent).
  { intros A c Hc. destruct (Hc st) as [sent [E F]]. exists sent. split; [exact E|].
    rewrite Forall_forall in *. intros r Hr.
    apply AllowFacts.isAllowed_spec. apply F. exact Hr. }
  split; [|split; [|split]].
  - intros urls. apply Hg. apply GuardFacts.guarded_gatherPages.
  - intros tiles. apply Hg. apply GuardFacts.guarded_composeShufooTiles.
  - intros pageUrl. apply Hg. apply GuardFacts.guarded_resolvePageToAssetUrls.
  - intros u p Hp Hs Hh. split; [apply AllowFacts.assertAllowedUrl_host; assumption|].
    intros urls Hin.
    destruct (Hg _ _ (GuardFacts.guarded_gatherPages storeId urls)) as [sent [E F]].
    rewrite E, skipn_app, Nat.sub_diag, skipn_all in Hin. simpl in Hin.
    apply in_map_iff in Hin. destruct Hin as [r [Hr Hin]].
    rewrite Forall_forall in F. destruct (F r Hin) as [q [Hq [_ Hq']]].
    rewrite Hr, Hp in Hq. injection Hq as <-. contradiction.
Qed.

(** For Ito-Yokado, where every address answers with an image: posting the
    first quadrant of a page fetches that quadrant, then the quadrants of
    the page and of the next page, all on the allowed cache host; an address
    on a foreign host is refused and nothing is fetched. *)
Lemma fetches_pass_allowlist_witness :
  List.map Effects.target
    (Effects.fetched
       (snd (@ExtractUrl.gatherPages RefUrl.api referenceCase referencePrinter
               Samples.quadrantWorld Samples.noScanner Route.itoyokado_kawasaki
               [Shufoo.quadrant "3_800_0.jpg"] Effects.start)))
  = Shufoo.quadrant "3_800_0.jpg"
    :: Shufoo.fourQuadrants
    ++ [Shufoo.quadrant "4_800_0.jpg"; Shufoo.quadrant "4_800_1.jpg";
        Shufoo.quadrant "4_800_2.jpg"; Shufoo.quadrant "4_800_3.jpg"]
  /\ (@Route.assertAllowedUrl RefUrl.api Route.itoyokado_kawasaki Samples.foreignImage
      = Route.Throw (str "URL host not allowed for itoyokado_kawasaki: evil.example")
      /\ Effects.fetched
           (snd (@ExtractUrl.gatherPages RefUrl.api referenceCase referencePrinter
                   Samples.quadrantWorld Samples.noScanner Route.itoyokado_kawasaki
                   [Samples.foreignImage] Effects.start)) = []).
Proof.
  split; [vm_compute; reflexivity|].
  destruct (@parseUrl RefUrl.api Samples.foreignImage) as [p|] eqn:Ep;
    [|vm_compute in Ep; discriminate].
  pose proof (proj2 (proj2 (proj2
    (fetches_pass_allowlist RefUrl.api referenceCase referencePrinter
       Samples.quadrantWorld
       Samples.noScanner Route.itoyokado_kawasaki Effects.start))) Samples.foreignImage p Ep)
    as H.
  vm_compute in Ep. injection Ep as <-.
  specialize (H ltac:(left; vm_compute; reflexivity)
                ltac:(vm_compute; intuition discriminate)).
  destruct H as [H _]. split; [rewrite H; vm_compute; reflexivity|].
  vm_compute. reflexivity.
Defined.

(* ================================================================== *)
(** * Further properties of the extraction route *)
(* ================================================================== *)

(** X1.  [uniq] keeps exactly the members of its argument, each once; it
    changes nothing in a list without repetition, so applying it twice is
    the same as applying it once; and the first member stays first. *)
Theorem uniq_members_once (xs : list jsstring) :
  NoDup (Route.uniq xs)
  /\ (forall x, In x (Route.uniq xs) <-> In x xs)
  /\ (NoDup xs -> Route.uniq xs = xs)
  /\ Route.uniq (Route.uniq xs) = Route.uniq xs
  /\ hd_error (Route.uniq xs) = hd_error xs.
Proof.
  unfold Route.uniq.
  assert (Hnd : NoDup (Route.uniqFrom [] xs)) by apply RouteFacts.uniqFrom_NoDup.
  assert (Hfix : forall l, NoDup l -> Route.uniqFrom [] l = l).
  { intros l Hl. apply RouteFacts.uniqFrom_fixed; [exact Hl | intros x _ []]. }
  split; [exact Hnd|]. split; [|split; [|split]].
  - intros x. rewrite RouteFacts.uniqFrom_In. simpl. tauto.
  - apply Hfix.
  - apply Hfix. exact Hnd.
  - destruct xs as [|x xs]; reflexivity.
Qed.

Lemma uniq_members_once_witness :
  Route.uniq [str "a.png"; str "b.png"] = [str "a.png"; str "b.png"].
Proof.
  apply (proj1 (proj2 (proj2 (uniq_members_once [str "a.png"; str "b.png"])))).
  repeat constructor; vm_compute; intuition discriminate.
Defined.

(** X2.  [decodeHtmlEntities] leaves a text without an ampersand as it is:
    an address that holds no entity is not altered by the decoding step of
    [toAbsUrl] and [extractRawUrls]. *)
Theorem decodeHtmlEntities_plain (s : jsstring) :
  ~ In 38%N s -> Route.decodeHtmlEntities s = s.
Proof.
  intros Hs. unfold Route.decodeHtmlEntities.
  change (str "&amp;") with (38%N :: str "amp;").
  change (str "&lt;") with (38%N :: str "lt;").
  change (str "&gt;") with (38%N :: str "gt;").
  change (str "&quot;") with (38%N :: str "quot;").
  change (str "&#39;") with (38%N :: str "#39;").
  change (str "&nbsp;") with (38%N :: str "nbsp;").
  repeat rewrite (RouteFacts.replaceAll_absent 38%N _ _ s Hs). reflexivity.
Qed.

Lemma decodeHtmlEntities_plain_witness :
  Route.decodeHtmlEntities (str "https://a.b/c.png?w=1") = str "https://a.b/c.png?w=1".
Proof.
  apply decodeHtmlEntities_plain. vm_compute. intuition discriminate.
Defined.

(** X3.  Every address that [extractRawUrls] returns is the decoding of a
    piece of the markup that starts with [http://] or [https://] and goes
    on with at least one unit, none of which is white space, a quote or an
    angle bracket.  Markup that nowhere holds the letters http yields
    nothing. *)
Theorem extractRawUrls_matches (html : jsstring) :
  (forall x, In x (Route.extractRawUrls html) ->
     exists scheme run before rest,
       (scheme = str "https://" \/ scheme = str "http://")
       /\ run <> [] /\ forallb Route.isRawUrlChar run = true
       /\ html = before ++ scheme ++ run ++ rest
       /\ x = Route.decodeHtmlEntities (scheme ++ run))
  /\ (includes html (str "http") = false -> Route.extractRawUrls html = []).
Proof.
  split.
  - intros x Hx. unfold Route.extractRawUrls in Hx.
    apply in_map_iff in Hx. destruct Hx as [m [<- Hm]].
    apply RouteFacts.rawUrlMatches_In in Hm. destruct Hm as [before [after [-> Hm]]].
    apply RouteFacts.rawUrlAt_Some in Hm.
    destruct Hm as [scheme [run [rest [Hs [-> [Hr [Hc ->]]]]]]].
    exists scheme, run, before, rest. repeat split; try assumption.
    rewrite <- !app_assoc. reflexivity.
  - intros Hno. destruct (Route.extractRawUrls html) as [|x l] eqn:E; [reflexivity|].
    exfalso.
    assert (Hx : In x (Route.extractRawUrls html)) by (rewrite E; left; reflexivity).
    unfold Route.extractRawUrls in Hx.
    apply in_map_iff in Hx. destruct Hx as [m [_ Hm]].
    apply RouteFacts.rawUrlMatches_In in Hm. destruct Hm as [before [after [-> Hm]]].
    apply RouteFacts.rawUrlAt_Some in Hm.
    destruct Hm as [scheme [run [rest [Hs [-> [_ [_ ->]]]]]]].
    assert (Hinc : includes (before ++ (scheme ++ run) ++ rest) (str "http") = true).
    { apply JsFacts.includes_iff.
      destruct Hs as [-> | ->].
      - exists before, (str "s://" ++ run ++ rest). rewrite <- !app_assoc. reflexivity.
      - exists before, (str "://" ++ run ++ rest). rewrite <- !app_assoc. reflexivity. }
    congruence.
Qed.

Lemma extractRawUrls_matches_witness :
  exists scheme run before rest,
    (scheme = str "https://" \/ scheme = str "http://")
    /\ run <> [] /\ forallb Route.isRawUrlChar run = true
    /\ str "see http://[bad for more" = before ++ scheme ++ run ++ rest
    /\ str "http://[bad" = Route.decodeHtmlEntities (scheme ++ run).
Proof.
  apply (proj1 (extractRawUrls_matches (str "see http://[bad for more"))).
  vm_compute. left. reflexivity.
Defined.

(** X4.  [scoreShufooImage] lies between -240 and 150.  An address that
    [looksLikeThumbUrl] accepts scores at most 30, and an address on the
    Shufoo image host with an image extension and none of the words that
    mark a thumbnail scores at least 140: sorted by score, no thumbnail
    comes before such an image. *)
Theorem scoreShufooImage_ranks (C : CaseApi) (u : jsstring) :
  (-240 <= Route.scoreShufooImage u <= 150)%Z
  /\ (Route.looksLikeThumbUrl u = true -> (Route.scoreShufooImage u <= 30)%Z)
  /\ (includes (toLowerCase u) (str "cmn.shufoo.net") = true ->
      Route.endsWithImageExt (toLowerCase u) = true ->
      includes (toLowerCase u) (str "thumb") = false ->
      includes (toLowerCase u) (str "btn") = false ->
      includes (toLowerCase u) (str "icon") = false ->
      includes (toLowerCase u) (str "content-width=310") = false ->
      includes (toLowerCase u) (str "content-height=310") = false ->
      (140 <= Route.scoreShufooImage u)%Z).
Proof.
  unfold Route.scoreShufooImage, Route.looksLikeThumbUrl. cbv zeta beta.
  set (s := toLowerCase u).
  set (c1 := includes s (str "imwidth=") || includes s (str "width=") || includes s (str "w=")).
  set (c2 := Route.endsWithImageExt s).
  set (c3 := includes s (str "thumb-size=m") || includes s (str "content-width=310")
             || includes s (str "content-height=310")).
  set (c4 := includes s (str "thumb") || includes s (str "thumbnail")
             || includes s (str "btn") || includes s (str "icon")).
  set (c5 := includes s (str "shufoo")).
  set (c6 := includes s (str "s-cmn.shufoo.net") || includes s (str "cmn.shufoo.net")).
  split; [|split].
  - destruct c1, c2, c3, c4, c5, c6; lia.
  - intros H.
    assert (Hp : c3 || c4 = true).
    { unfold c3, c4.
      destruct (includes s (str "thumb")); [apply orb_true_r|].
      destruct (includes s (str "thumbnail")); [apply orb_true_r|].
      simpl in H. simpl. rewrite H. reflexivity. }
    clearbody c1 c2 c3 c4 c5 c6.
    destruct c1, c2, c3, c4, c5, c6; try discriminate Hp; lia.
  - intros Hcdn Hext Ht Hb Hi Hw Hh.
    assert (E2 : c2 = true) by exact Hext.
    assert (E6 : c6 = true) by (unfold c6; rewrite Hcdn; apply orb_true_r).
    assert (E5 : c5 = true).
    { unfold c5. apply (TextFacts.includes_piece s (str "cmn.") (str "shufoo") (str ".net")).
      exact Hcdn. }
    assert (E4 : c4 = false).
    { unfold c4. rewrite Ht, Hb, Hi.
      assert (includes s (str "thumbnail") = false) as ->
        by exact (TextFacts.includes_piece_false s [] (str "thumb") (str "nail") Ht).
      reflexivity. }
    assert (E3 : c3 = false).
    { unfold c3. rewrite Hw, Hh.
      assert (includes s (str "thumb-size=m") = false) as ->
        by exact (TextFacts.includes_piece_false s [] (str "thumb") (str "-size=m") Ht).
      reflexivity. }
    clearbody c1 c2 c3 c4 c5 c6. subst. destruct c1; lia.
Qed.

Lemma scoreShufooImage_ranks_witness :
  (@Route.scoreShufooImage referenceCase
     (str "https://s-cmn.shufoo.net/img/thumb/1.jpg") <= 30)%Z
  /\ (140 <= @Route.scoreShufooImage referenceCase
               (str "https://s-cmn.shufoo.net/img/1.jpg"))%Z.
Proof.
  split.
  - apply (proj1 (proj2 (scoreShufooImage_ranks referenceCase _))). vm_compute. reflexivity.
  - apply (proj2 (proj2 (scoreShufooImage_ranks referenceCase _))); vm_compute; reflexivity.
Defined.

(** X5.  [fetchBuffer] sends exactly one request, a plain GET of the
    address it is given, and pushes no warning.  When it returns a buffer,
    the answer had [ok] set and the buffer is no longer than [maxBytes];
    an answer without [ok] and a body over the limit are thrown as errors
    that carry the status and the two sizes. *)
Theorem fetchBuffer_limits (W : Effects.World) (urlStr : jsstring) (maxBytes : N)
  (st : Effects.state) :
  let req := {| Effects.verb := Effects.GET; Effects.target := urlStr;
                Effects.referer := None |} in
  let out := ExtractUrl.fetchBuffer urlStr maxBytes st in
  Effects.fetched (snd out) = Effects.fetched st ++ [req]
  /\ Effects.warnings (snd out) = Effects.warnings st
  /\ (forall buf contentType,
        fst out = Route.Ok (buf, contentType) ->
        (Effects.bufferLength buf <= maxBytes)%N
        /\ exists res,
             Effects.fetch (List.length (Effects.fetched st)) req = Route.Ok res
             /\ Effects.ok res = true /\ Effects.body res = buf)
  /\ (forall res,
        Effects.fetch (List.length (Effects.fetched st)) req = Route.Ok res ->
        Effects.ok res = false ->
        fst out = Route.Throw (str "fetch failed: " ++ Dec.dec (Effects.status res)
                               ++ str " " ++ Effects.statusText res))
  /\ (forall res,
        Effects.fetch (List.length (Effects.fetched st)) req = Route.Ok res ->
        Effects.ok res = true ->
        (maxBytes < Effects.bufferLength (Effects.body res))%N ->
        fst out = Route.Throw (str "too large: "
                               ++ Dec.dec (Effects.bufferLength (Effects.body res))
                               ++ str " bytes (max " ++ Dec.dec maxBytes ++ str ")")).
Proof.
  intros req out.
  destruct (OutcomeFacts.fetchBuffer_spec urlStr maxBytes st) as [E [F H]].
  fold req in E, H. fold out in E, F, H.
  split; [exact E|]. split; [exact F|]. split; [|split].
  - intros buf contentType Hout.
    destruct (Effects.fetch (List.length (Effects.fetched st)) req) as [res | e];
      [|congruence].
    destruct (Effects.ok res) eqn:Eok; simpl in H; [|congruence].
    destruct (N.ltb maxBytes (Effects.bufferLength (Effects.body res))) eqn:El;
      [congruence|].
    rewrite Hout in H. injection H as -> _.
    apply N.ltb_ge in El. split; [exact El|].
    exists res. repeat split. exact Eok.
  - intros res Hres Hok. rewrite Hres, Hok in H. exact H.
  - intros res Hres Hok Hlt. rewrite Hres, Hok in H. simpl in H.
    apply N.ltb_lt in Hlt. rewrite Hlt in H. exact H.
Qed.

Lemma fetchBuffer_limits_witness :
  fst (@ExtractUrl.fetchBuffer Samples.missingWorld Samples.aobaPage 10 Effects.start)
  = Route.Throw (str "fetch failed: 404 Not Found").
Proof.
  apply (proj1 (proj2 (proj2 (proj2
           (fetchBuffer_limits Samples.missingWorld Samples.aobaPage 10 Effects.start))))
           Samples.notFound); reflexivity.
Defined.

(** X6.  When [resolvePageToAssetUrls] returns, it has sent one request,
    to the page, the page had passed the check of the store, and it
    returns at most three addresses, each of which passes the check of the
    store.  A page that does not pass the check makes it throw the error of
    the check without any request. *)
Theorem resolvePageToAssetUrls_result (U : UrlApi) (C : CaseApi) (W : Effects.World)
  (S : ExtractUrl.Scanner) (storeId : Route.StoreId) (pageUrl : jsstring)
  (st : Effects.state) :
  (forall urls st',
     ExtractUrl.resolvePageToAssetUrls storeId pageUrl st = (Route.Ok urls, st') ->
     Route.isAllowed storeId pageUrl = true
     /\ Effects.fetched st'
        = Effects.fetched st
          ++ [{| Effects.verb := Effects.GET; Effects.target := pageUrl;
                 Effects.referer := None |}]
     /\ List.length urls <= 3
     /\ Forall (fun u => Route.isAllowed storeId u = true) urls)
  /\ (forall e,
        Route.assertAllowedUrl storeId pageUrl = Route.Throw e ->
        ExtractUrl.resolvePageToAssetUrls storeId pageUrl st = (Route.Throw e, st)).
Proof.
  split.
  - intros urls st'. unfold ExtractUrl.resolvePageToAssetUrls, Effects.bind at 1, Effects.lift.
    destruct (Route.assertAllowedUrl storeId pageUrl) as [p | e] eqn:Ea; [|discriminate].
    unfold Effects.bind at 1.
    pose proof (OutcomeFacts.fetchBuffer_spec pageUrl ExtractUrl.pageMaxBytes st)
      as [Ef [_ _]].
    destruct (ExtractUrl.fetchBuffer pageUrl ExtractUrl.pageMaxBytes st)
      as [[[buf contentType] | e] st1]; [|discriminate].
    simpl in Ef.
    assert (Hpage : Route.isAllowed storeId pageUrl = true)
      by (unfold Route.isAllowed; rewrite Ea; reflexivity).
    destruct (negb (ExtractUrl.isHtmlByTypeOrSniff contentType buf)).
    { unfold Effects.ret. intros H. injection H as <- <-.
      repeat split; [exact Hpage | exact Ef | simpl; lia | constructor]. }
    cbv zeta.
    match goal with
    | |- context [filter (Route.isAllowed storeId) ?l] =>
        set (imgs := filter (Route.isAllowed storeId) l)
    end.
    assert (Himgs : forall u, In u imgs -> Route.isAllowed storeId u = true).
    { intros u Hu. apply filter_In in Hu. apply Hu. }
    assert (Hsorted : forall u,
              In u (Shufoo.sortBy ExtractUrl.byScore imgs) ->
              Route.isAllowed storeId u = true).
    { intros u Hu. apply Himgs. apply ShufooFacts.sortBy_In in Hu. exact Hu. }
    assert (Hfirst : forall l,
              (forall u, In u l -> Route.isAllowed storeId u = true) ->
              List.length (firstn 3 l) <= 3
              /\ Forall (fun u => Route.isAllowed storeId u = true) (firstn 3 l)).
    { intros l Hl. split; [apply firstn_le_length|].
      apply Forall_forall. intros u Hu. apply Hl. apply (ListFacts.In_firstn u 3 l Hu). }
    clearbody imgs.
    destruct storeId; cbv beta iota.
    + unfold Effects.ret. intros H. injection H as <- <-.
      split; [exact Hpage|]. split; [exact Ef|]. apply Hfirst. exact Hsorted.
    + unfold Effects.ret. intros H. injection H as <- <-.
      split; [exact Hpage|]. split; [exact Ef|]. apply Hfirst. exact Hsorted.
    + set (nonThumbs := filter (fun u => negb (Route.looksLikeThumbUrl u))
                          (Shufoo.sortBy ExtractUrl.byScore imgs)).
      assert (Hnon : forall u, In u nonThumbs -> Route.isAllowed Route.itoyokado_kawasaki u = true).
      { intros u Hu. apply filter_In in Hu. apply Hsorted. apply Hu. }
      assert (Hpick : forall u,
                In u (match nonThumbs with
                      | [] => Shufoo.sortBy ExtractUrl.byScore imgs
                      | _ :: _ => nonThumbs
                      end) ->
                Route.isAllowed Route.itoyokado_kawasaki u = true).
      { destruct nonThumbs; [exact Hsorted | exact Hnon]. }
      destruct (Hfirst _ Hpick) as [Hlen Hall].
      destruct (firstn 3 _) as [|x picked] eqn:Epick.
      * unfold Effects.bind, Effects.warn, Effects.ret. intros H. injection H as <- <-.
        simpl. repeat split; [exact Hpage | exact Ef | lia | constructor].
      * destruct nonThumbs;
          unfold Effects.bind, Effects.warn, Effects.ret; intros H; injection H as <- <-;
          simpl; (split; [exact Hpage|]); (split; [exact Ef|]); split; assumption.
  - intros e He. unfold ExtractUrl.resolvePageToAssetUrls, Effects.bind, Effects.lift.
    rewrite He. reflexivity.
Qed.

Lemma resolvePageToAssetUrls_result_witness :
  @ExtractUrl.resolvePageToAssetUrls RefUrl.api referenceCase Samples.quadrantWorld
     Samples.noScanner Route.aoba_oshima Samples.foreignImage Effects.start
  = (Route.Throw (str "URL host not allowed for aoba_oshima: evil.example"), Effects.start).
Proof.
  apply (proj2 (resolvePageToAssetUrls_result RefUrl.api referenceCase
                  Samples.quadrantWorld Samples.noScanner Route.aoba_oshima
                  Samples.foreignImage Effects.start)).
  vm_compute. reflexivity.
Defined.

(** X7.  Steps 0 to 1 of the extraction handler never throw: whatever the
    posted addresses, the network and the image library do, [gatherPages]
    returns, having only added to the log of requests and to the warnings.
    A posted address that fails the check of the store costs one warning,
    which carries the address and the error of the check, and nothing
    else: no request is sent for it and the addresses kept so far stay. *)
Theorem gatherPages_never_throws (U : UrlApi) (C : CaseApi) (P : NumberPrinter) (W : Effects.World)
  (S : ExtractUrl.Scanner) (storeId : Route.StoreId) (urls : list jsstring)
  (st : Effects.state) :
  (exists inputUrls pngs sent added,
     fst (ExtractUrl.gatherPages storeId urls st) = Route.Ok (inputUrls, pngs)
     /\ Effects.fetched (snd (ExtractUrl.gatherPages storeId urls st))
        = Effects.fetched st ++ sent
     /\ Effects.warnings (snd (ExtractUrl.gatherPages storeId urls st))
        = Effects.warnings st ++ added)
  /\ (forall inputUrls u e,
        Route.assertAllowedUrl storeId u = Route.Throw e ->
        ExtractUrl.resolveInput storeId inputUrls u st
        = (Route.Ok inputUrls,
           {| Effects.fetched := Effects.fetched st;
              Effects.warnings :=
                Effects.warnings st ++ [str "resolve failed: " ++ u ++ str " :: " ++ e] |})).
Proof.
  split.
  - destruct (OutcomeFacts.returns_gatherPages storeId urls st) as [[inputUrls pngs] E].
    destruct (OutcomeFacts.extends_gatherPages storeId urls st) as [sent [added [E1 E2]]].
    exists inputUrls, pngs, sent, added. repeat split; assumption.
  - intros inputUrls u e He.
    unfold ExtractUrl.resolveInput, Effects.tryCatch, Effects.bind, Effects.lift.
    rewrite He. reflexivity.
Qed.

Lemma gatherPages_never_throws_witness :
  @ExtractUrl.resolveInput RefUrl.api referenceCase Samples.quadrantWorld Samples.noScanner
     Route.aoba_oshima [] Samples.foreignImage Effects.start
  = (Route.Ok [],
     {| Effects.fetched := [];
        Effects.warnings :=
          [str "resolve failed: https://evil.example/a.jpg :: URL host not allowed for aoba_oshima: evil.example"] |}).
Proof.
  apply (proj2 (gatherPages_never_throws RefUrl.api referenceCase referencePrinter
                  Samples.quadrantWorld
                  Samples.noScanner Route.aoba_oshima [] Effects.start)
           [] Samples.foreignImage
           (str "URL host not allowed for aoba_oshima: evil.example")).
  vm_compute. reflexivity.
Defined.

(** X8.  The sniffing of [isHtmlByTypeOrSniff] comes down to one test: a
    body counts as HTML exactly when the content type names [text/html] or
    the first unit of its head that is not white space is an opening angle
    bracket.  So any XML or SVG body is taken for a page, whatever its
    content type. *)
Theorem isHtmlByTypeOrSniff_angle (W : Effects.World) (contentType : jsstring)
  (buf : Effects.Buffer) :
  ExtractUrl.isHtmlByTypeOrSniff contentType buf
  = includes contentType (str "text/html")
    || match trimStart (Effects.utf8Head buf) with
       | c :: _ => (c =? 60)%N
       | [] => false
       end.
Proof.
  unfold ExtractUrl.isHtmlByTypeOrSniff.
  destruct (includes contentType (str "text/html")); [reflexivity|].
  cbv zeta. cbn [orb].
  destruct (trimStart (Effects.utf8Head buf)) as [|c rest]; [reflexivity|].
  change (str "<") with [60%N].
  change (str "<!doctype") with (60%N :: str "!doctype").
  change (str "<html") with (60%N :: str "html").
  cbn [startsWith].
  destruct (N.eqb c 60); cbn [andb orb]; [|reflexivity].
  rewrite !orb_true_r. reflexivity.
Qed.

(* ================================================================== *)
(** * Further properties of the tiling *)
(* ================================================================== *)

(** X9.  With an overlap that is not negative and smaller than the window,
    and a budget of at least rows times columns, [tileImagePng] returns the
    whole grid and the tiles leave no pixel of the bitmap out: every pixel
    lies in the rectangle of some tile. *)
Theorem tileImagePng_covers (w h : Z) (pageIndex0 : nat)
  (tileSize overlap maxTilesTotal : Z) :
  (0 < w)%Z -> (0 < h)%Z -> (0 <= overlap < tileSize)%Z ->
  (Z.of_nat (Tiling.rows h tileSize overlap * Tiling.cols w tileSize overlap)
   <= maxTilesTotal)%Z ->
  Tiling.tileImagePng w h pageIndex0 tileSize overlap maxTilesTotal
  = Tiling.gridTiles w h pageIndex0 tileSize overlap
  /\ forall x y, (0 <= x < w)%Z -> (0 <= y < h)%Z ->
       exists t,
         In t (Tiling.tileImagePng w h pageIndex0 tileSize overlap maxTilesTotal)
         /\ Pages.holds t x y.
Proof.
  intros Hw Hh Ho Hm.
  assert (E : Tiling.tileImagePng w h pageIndex0 tileSize overlap maxTilesTotal
              = Tiling.gridTiles w h pageIndex0 tileSize overlap).
  { rewrite TilingFacts.tileImagePng_grid by assumption.
    apply firstn_all2. rewrite PagesFacts.gridTiles_length. lia. }
  split; [exact E|].
  intros x y Hx Hy. rewrite E. apply PagesFacts.gridTiles_cover; assumption.
Qed.

Lemma tileImagePng_covers_witness :
  exists t, In t (Tiling.tileImagePng 2000 1500 0 1024 96 200)
            /\ Pages.holds t 1999 1499.
Proof.
  apply (proj2 (tileImagePng_covers 2000 1500 0 1024 96 200
                  ltac:(lia) ltac:(lia) ltac:(lia) ltac:(vm_compute; discriminate)));
    lia.
Defined.

(** X10.  Step 2 of the handlers and the budget, a double.  For pages of
    any sizes: with a finite budget below 2^53 the loop collects at most
    max(1, ceiling of the budget) tiles, so three for a budget of 2.5; a
    budget of -Infinity allows one tile; a budget of NaN or +Infinity sets
    no limit, and the tiles are the whole grids of all pages.  Whatever the
    budget, every tile carries the index of a page of positive size and its
    rectangle is not empty, at most 1024 wide and high, and inside the
    bitmap of that page. *)
Theorem tilePages_budget (D : DoubleArith) (L : DoubleLaws D)
  (maxTilesTotal : number) (pages : list (Z * Z)) :
  Forall (fun p => 0 <= fst p /\ 0 <= snd p)%Z pages ->
  let tiles := Pages.tilePages maxTilesTotal pages in
  (forall q, maxTilesTotal = Finite q ->
     Num.isDouble q -> (q < inject_Z (2 ^ 53))%Q ->
     (Z.of_nat (List.length tiles) <= Z.max 1 (Qceiling q))%Z)
  /\ (maxTilesTotal = Infinity true -> (List.length tiles <= 1)%nat)
  /\ (maxTilesTotal = NaN \/ maxTilesTotal = Infinity false ->
      tiles = Pages.allTilesFrom 0 pages)
  /\ (forall t, In t tiles ->
        exists w h,
          nth_error pages (Tiling.pageIndex t) = Some (w, h)
          /\ (0 < Tiling.width (Tiling.buf t) <= 1024)%Z
          /\ (0 < Tiling.height (Tiling.buf t) <= 1024)%Z
          /\ (0 <= Tiling.left (Tiling.buf t))%Z
          /\ (Tiling.left (Tiling.buf t) + Tiling.width (Tiling.buf t) <= w)%Z
          /\ (0 <= Tiling.top (Tiling.buf t))%Z
          /\ (Tiling.top (Tiling.buf t) + Tiling.height (Tiling.buf t) <= h)%Z).
Proof.
  intros Hp tiles. unfold tiles, Pages.tilePages. split; [|split; [|split]].
  - intros q -> Hq Hlt.
    apply PagesFacts.tilePagesFrom_finite; [exact Hq | exact Hlt | exact Hp|].
    right. reflexivity.
  - intros ->. apply PagesFacts.tilePagesFrom_spent. exact Hp.
  - intros Hb. apply (PagesFacts.tilePagesFrom_unbounded maxTilesTotal pages Hb Hp 0 []).
  - intros t Ht. apply PagesFacts.tilePagesFrom_In in Ht.
    destruct Ht as [[] | [j [w [h [k [Hn Ht]]]]]]. simpl in Ht.
    assert (Hin : In (w, h) pages) by (apply nth_error_In with j; exact Hn).
    rewrite Forall_forall in Hp. destruct (Hp _ Hin) as [Hw Hh]. simpl in Hw, Hh.
    destruct (Z.eqb_spec w 0) as [E | Nw];
      [unfold Pages.tileImagePng in Ht; rewrite E in Ht; destruct Ht|].
    destruct (Z.eqb_spec h 0) as [E | Nh];
      [unfold Pages.tileImagePng in Ht; rewrite E, orb_true_r in Ht; destruct Ht|].
    destruct (PagesFacts.tileImagePng_prefix w h j 1024 96 k ltac:(lia) ltac:(lia))
      as [cut Ecut].
    rewrite Ecut in Ht. apply ListFacts.In_firstn in Ht.
    destruct (TilingFacts.gridTiles_inside w h j 1024 96 ltac:(lia) ltac:(lia) t
                ltac:(lia) Ht)
      as (r & c & _ & _ & Hl & Htop & _ & _ & Hwd & Hht & Hlw & Hth & Hpi & _).
    exists w, h. rewrite Hpi.
    pose proof (TilingFacts.step_pos 1024 96) as Hs.
    repeat split; try assumption; try lia; nia.
Qed.

(** A budget of 2.5 is reached by the third tile. *)
Lemma tilePages_budget_witness :
  (Z.of_nat (List.length (@Pages.tilePages referenceArith (Finite (5 # 2))
                            [(2000, 1500); (0, 0); (2000, 1500)]%Z)) <= 3)%Z
  /\ List.length (@Pages.tilePages referenceArith (Finite (5 # 2))
                    [(2000, 1500); (0, 0); (2000, 1500)]%Z) = 3%nat.
Proof.
  split; [|vm_compute; reflexivity].
  apply (proj1 (tilePages_budget referenceArith PagesFacts.referenceArith_laws
                  (Finite (5 # 2)) [(2000, 1500); (0, 0); (2000, 1500)]%Z
                  ltac:(repeat constructor; simpl; lia))
           (5 # 2)%Q eq_refl).
  - exists 5%Z, 1%Z. split; [reflexivity|]. right. split; [lia | reflexivity].
  - reflexivity.
Defined.

(* ================================================================== *)
(** * Further properties of the resolve route *)
(* ================================================================== *)

(** X11.  [contentLength] never throws and pushes no warning, and the size
    it returns is never NaN.  It sends a HEAD request to the address and,
    exactly when that request fails or its answer tells no size, one ranged
    GET to the same address, both with the referer.  A HEAD answer with a
    content length gives that length (0 when it is no number) and no second
    request; a HEAD answer without content length whose content range ends
    in a slash and digits gives the value of the digits and no second
    request.  Otherwise the ranged answer is read, the total of its content
    range before its content length, and the size is 0 when it fails or
    tells nothing. *)
Theorem contentLength_probes (W : Effects.World) (F : Resolve.Platform)
  (url : jsstring) (ref : option jsstring) (st : Effects.state) :
  let head := {| Effects.verb := Effects.HEAD; Effects.target := url;
                 Effects.referer := ref |} in
  let ranged := {| Effects.verb := Effects.GET_RANGE; Effects.target := url;
                   Effects.referer := ref |} in
  let first := Effects.fetch (List.length (Effects.fetched st)) head in
  let second := Effects.fetch (Datatypes.S (List.length (Effects.fetched st))) ranged in
  let after sent := {| Effects.fetched := Effects.fetched st ++ sent;
                       Effects.warnings := Effects.warnings st |} in
  (exists size sent,
     Resolve.contentLength url ref st = (Route.Ok size, after sent)
     /\ size <> NaN
     /\ ((sent = [head] /\ ~ Resolve.silent first)
         \/ (sent = [head; ranged] /\ Resolve.silent first)))
  /\ (forall r1 size,
        first = Route.Ok r1 -> Resolve.lengthSays r1 size ->
        Resolve.contentLength url ref st = (Route.Ok size, after [head]))
  /\ (forall r1 size,
        first = Route.Ok r1 -> (forall s, ~ Resolve.lengthSays r1 s) ->
        Resolve.rangeSays r1 size ->
        Resolve.contentLength url ref st = (Route.Ok size, after [head]))
  /\ (Resolve.silent first ->
      (forall r2 size,
         second = Route.Ok r2 -> Resolve.rangeSays r2 size ->
         Resolve.contentLength url ref st = (Route.Ok size, after [head; ranged]))
      /\ (forall r2 size,
            second = Route.Ok r2 -> (forall s, ~ Resolve.rangeSays r2 s) ->
            Resolve.lengthSays r2 size ->
            Resolve.contentLength url ref st = (Route.Ok size, after [head; ranged]))
      /\ (Resolve.silent second ->
          Resolve.contentLength url ref st
          = (Route.Ok (Finite 0), after [head; ranged]))).
Proof.
  intros head ranged first second after.
  pose proof (ResolveFacts.contentLength_cases url ref st) as Hrun.
  cbv zeta in Hrun. fold head ranged first second in Hrun.
  pose proof (ResolveFacts.headSize_cases first) as Hfirst.
  assert (Hsilent : Resolve.silent first ->
            match first with
            | Route.Ok r =>
                Resolve.orElse
                  (Resolve.sizeFromLength (Effects.header (str "content-length") r))
                  (Resolve.sizeFromRange (Effects.header (str "content-range") r))
            | Route.Throw _ => None
            end = None).
  { intros Hs. destruct first as [r1|e]; [|reflexivity].
    destruct (Resolve.orElse _ _); [|reflexivity]. destruct Hfirst as [Hn _].
    exfalso. exact (Hn Hs). }
  assert (Hlength : forall r1 size,
            first = Route.Ok r1 -> Resolve.lengthSays r1 size ->
            Resolve.contentLength url ref st = (Route.Ok size, after [head])).
  { intros r1 size E Hl. rewrite Hrun, E.
    apply ResolveFacts.sizeFromLength_says in Hl. rewrite Hl. reflexivity. }
  assert (Hrange : forall r1 size,
            first = Route.Ok r1 -> (forall s, ~ Resolve.lengthSays r1 s) ->
            Resolve.rangeSays r1 size ->
            Resolve.contentLength url ref st = (Route.Ok size, after [head])).
  { intros r1 size E Hno Hr. rewrite Hrun, E.
    destruct (Resolve.sizeFromLength (Effects.header (str "content-length") r1))
      as [s|] eqn:El.
    - apply ResolveFacts.sizeFromLength_says in El. destruct (Hno s El).
    - apply ResolveFacts.sizeFromRange_says in Hr. simpl. rewrite Hr. reflexivity. }
  split; [|split; [exact Hlength | split; [exact Hrange|]]].
  - destruct (ResolveFacts.contentLength_spec url ref st) as (size & sent & E & _ & Hnan).
    exists size, sent. split; [exact E|]. split; [exact Hnan|].
    rewrite Hrun in E.
    destruct first as [r1|e].
    + destruct (Resolve.orElse _ _) as [s|].
      * left. split; [|apply Hfirst]. injection E as _ E.
        apply app_inv_head in E. symmetry. exact E.
      * right. split; [|exact Hfirst]. injection E as _ E.
        apply app_inv_head in E. symmetry. exact E.
    + right. split; [|exact I]. injection E as _ E.
      apply app_inv_head in E. symmetry. exact E.
  - intros Hs. rewrite Hrun, (Hsilent Hs).
    pose proof (ResolveFacts.headSize_cases second) as Hsecond.
    split; [|split].
    + intros r2 size E Hr. rewrite E.
      apply ResolveFacts.sizeFromRange_says in Hr. rewrite Hr. reflexivity.
    + intros r2 size E Hno Hl. rewrite E.
      destruct (Resolve.sizeFromRange (Effects.header (str "content-range") r2))
        as [s|] eqn:Er.
      * apply ResolveFacts.sizeFromRange_says in Er. destruct (Hno s Er).
      * apply ResolveFacts.sizeFromLength_says in Hl. simpl. rewrite Hl. reflexivity.
    + intros Hs2. destruct second as [r2|e]; [|reflexivity].
      destruct Hs2 as [Hl Hr].
      destruct (Resolve.sizeFromRange (Effects.header (str "content-range") r2))
        as [s|] eqn:Er.
      * apply ResolveFacts.sizeFromRange_says in Er. destruct (Hr s Er).
      * destruct (Resolve.sizeFromLength (Effects.header (str "content-length") r2))
          as [s|] eqn:El.
        -- apply ResolveFacts.sizeFromLength_says in El. destruct (Hl s El).
        -- reflexivity.
Qed.

(** A HEAD answer with a content length is enough: one request. *)
Lemma contentLength_probes_witness :
  @Resolve.contentLength Samples.sizedWorld Samples.plainText
     Samples.foreignImage (Some Samples.aobaPage) Effects.start
  = (Route.Ok (Num.ofN 182345),
     {| Effects.fetched :=
          [{| Effects.verb := Effects.HEAD; Effects.target := Samples.foreignImage;
              Effects.referer := Some Samples.aobaPage |}];
        Effects.warnings := [] |}).
Proof.
  apply (proj1 (proj2 (contentLength_probes Samples.sizedWorld Samples.plainText
                         Samples.foreignImage (Some Samples.aobaPage) Effects.start))
           {| Effects.ok := true; Effects.status := 200%N;
              Effects.statusText := str "OK";
              Effects.headers := [(str "content-length", str "182345")];
              Effects.body := Samples.Pixels 800 600 |}).
  - reflexivity.
  - exists 49%N, (str "82345"). split; vm_compute; reflexivity.
Defined.

(** X12.  The probe loop of the resolve route never throws and pushes no
    warning.  It probes the first 50 image candidates and no other: the
    scored array pairs exactly those candidates, in order, with sizes that
    are never NaN; at most 100 requests are sent, each a HEAD or a ranged
    GET to one of those candidates with the page as referer. *)
Theorem probeSizes_first_fifty (W : Effects.World) (F : Resolve.Platform)
  (imgCandidates : list jsstring) (targetPage : jsstring) (st : Effects.state) :
  exists scored sent,
    Resolve.probeSizes imgCandidates targetPage st
    = (Route.Ok scored,
       {| Effects.fetched := Effects.fetched st ++ sent;
          Effects.warnings := Effects.warnings st |})
    /\ List.map fst scored = firstn 50 imgCandidates
    /\ Forall (fun entry => snd entry <> NaN) scored
    /\ List.length sent <= 100
    /\ Forall (fun r => In (Effects.target r) (firstn 50 imgCandidates)
                        /\ Effects.referer r = Some targetPage
                        /\ (Effects.verb r = Effects.HEAD
                            \/ Effects.verb r = Effects.GET_RANGE)) sent.
Proof.
  destruct (ResolveFacts.probeSizes_spec imgCandidates targetPage st)
    as [sizes [sent [E [Hl [Hn [Hc Hr]]]]]].
  exists (combine (firstn 50 imgCandidates) sizes), sent.
  split; [exact E|]. split; [|split; [|split; [exact Hc | exact Hr]]].
  - clear E Hn Hc Hr. revert sizes Hl.
    induction (firstn 50 imgCandidates) as [|u l IH]; intros [|s sizes] Hl;
      simpl in *; try discriminate; [reflexivity|].
    f_equal. apply IH. lia.
  - rewrite Forall_forall in *. intros [u s] Hin. simpl.
    apply Hn. apply in_combine_r in Hin. exact Hin.
Qed.

(** X13.  The total of a content range is read exactly when the header
    ends in a slash followed by one or more digits, and it is then that run
    of digits. *)
Theorem rangeTotal_reads_total (cr digits : jsstring) :
  Resolve.rangeTotal cr = Some digits <->
  exists before,
    cr = before ++ str "/" ++ digits /\ digits <> [] /\ forallb isDigit digits = true.
Proof.
  split.
  - apply ResolveFacts.rangeTotal_sound.
  - intros [before [-> [Hne Hd]]]. apply ResolveFacts.rangeTotal_complete; assumption.
Qed.

Lemma rangeTotal_reads_total_witness :
  Resolve.rangeTotal (str "bytes 0-0/182345") = Some (str "182345").
Proof.
  apply (proj2 (rangeTotal_reads_total (str "bytes 0-0/182345") (str "182345"))).
  exists (str "bytes 0-0"). split; [reflexivity|]. split; [discriminate | reflexivity].
Defined.

(** X14.  [pickItoyokadoViewerPage] returns one of the pages, and none only
    for an empty list.  When any page is a viewer page the result is the
    first such page: a viewer page with no viewer page before it in the
    list; otherwise it is the first page.  An address that holds the path
    of the iframe of a shop followed by digits, a slash and a digit is a
    viewer page. *)
Theorem pickItoyokadoViewerPage_prefers_viewer (pages : list jsstring) :
  (Resolve.pickItoyokadoViewerPage pages = None <-> pages = [])
  /\ (forall p, Resolve.pickItoyokadoViewerPage pages = Some p ->
        In p pages
        /\ ((Resolve.isViewerPage p = true
             /\ exists before after,
                  pages = before ++ p :: after
                  /\ forall q, In q before -> Resolve.isViewerPage q = false)
            \/ (hd_error pages = Some p
                /\ forall q, In q pages -> Resolve.isViewerPage q = false)))
  /\ (forall before v after,
        (forall q, In q before -> Resolve.isViewerPage q = false) ->
        Resolve.isViewerPage v = true ->
        Resolve.pickItoyokadoViewerPage (before ++ v :: after) = Some v)
  /\ (forall a shop b d,
        shop <> [] -> forallb isDigit shop = true -> isDigit d = true ->
        Resolve.isViewerPage
          (a ++ str "/t/asp_iframe/shop/" ++ shop ++ str "/" ++ d :: b) = true).
Proof.
  unfold Resolve.pickItoyokadoViewerPage.
  split; [|split; [|split]].
  - destruct (find Resolve.isViewerPage pages) as [v|] eqn:E.
    + split; [discriminate|]. intros ->. discriminate E.
    + destruct pages; simpl; split; try discriminate; reflexivity.
  - intros p. destruct (find Resolve.isViewerPage pages) as [v|] eqn:E.
    + intros H. injection H as <-.
      destruct (ResolveFacts.find_first _ _ _ _ E) as (before & after & Hp & Hv & Hb).
      split; [apply (find_some _ _ E)|]. left. split; [exact Hv|].
      exists before, after. split; assumption.
    + intros H. split.
      * destruct pages as [|x pages]; [discriminate|]. injection H as <-. left. reflexivity.
      * right. split; [exact H|]. intros q Hq. apply (find_none _ _ E q Hq).
  - intros before v after Hb Hv.
    rewrite (ResolveFacts.find_skip _ _ _ _ _ Hb Hv). reflexivity.
  - intros a shop b d. apply ResolveFacts.isViewerPage_complete.
Qed.

(** Of two viewer pages behind a plain page, the earlier one is picked. *)
Lemma pickItoyokadoViewerPage_prefers_viewer_witness :
  let plain := str "https://www.itoyokado.co.jp/store/230/" in
  let first := str "https://asp.shufoo.net/t/asp_iframe/shop/123/45678" in
  let second := str "https://asp.shufoo.net/t/asp_iframe/shop/123/9" in
  Resolve.pickItoyokadoViewerPage [plain; first; second] = Some first.
Proof.
  intros plain first second.
  apply (proj1 (proj2 (proj2 (pickItoyokadoViewerPage_prefers_viewer [])))
           [plain] first [second]).
  - intros q [<- | []]. vm_compute. reflexivity.
  - vm_compute. reflexivity.
Defined.


(** X16.  [decodeLoose] leaves a text without an ampersand and without a
    backslash as it is. *)
Theorem decodeLoose_plain (s : jsstring) :
  ~ In 38%N s -> ~ In 92%N s -> Resolve.decodeLoose s = s.
Proof.
  intros Ha Hb. unfold Resolve.decodeLoose.
  change (str "&amp;") with (38%N :: str "amp;").
  change (str "&lt;") with (38%N :: str "lt;").
  change (str "&gt;") with (38%N :: str "gt;").
  change (str "&quot;") with (38%N :: str "quot;").
  change (str "&#39;") with (38%N :: str "#39;").
  repeat rewrite (RouteFacts.replaceAll_absent 38%N _ _ s Ha).
  repeat rewrite (RouteFacts.replaceAll_absent 92%N _ _ s Hb).
  reflexivity.
Qed.

Lemma decodeLoose_plain_witness :
  Resolve.decodeLoose Samples.foreignImage = Samples.foreignImage.
Proof.
  apply decodeLoose_plain; vm_compute; intuition discriminate.
Defined.


(* ================================================================== *)
(** * Stores, leaflets, tile groups and the items of the answer *)
(* ================================================================== *)

(** X17.  The allowlists keep the stores apart: an address that passes
    [assertAllowedUrl] for one store is rejected for every other store. *)
Theorem allowlist_isolates_stores (U : UrlApi) (s1 s2 : Route.StoreId) (u : jsstring) :
  Route.isAllowed s1 u = true -> s1 <> s2 -> Route.isAllowed s2 u = false.
Proof.
  intros H1 Hne. destruct (Route.isAllowed s2 u) eqn:H2; [|reflexivity].
  exfalso. apply Hne.
  apply AllowFacts.isAllowed_spec in H1. destruct H1 as [p1 [E1 [_ I1]]].
  apply AllowFacts.isAllowed_spec in H2. destruct H2 as [p2 [E2 [_ I2]]].
  rewrite E1 in E2. injection E2 as <-.
  exact (GridFacts.allowlists_disjoint s1 s2 _ I1 I2).
Qed.

Lemma allowlist_isolates_stores_witness :
  @Route.isAllowed RefUrl.api Route.life_kawasaki_oshima Samples.aobaPage = false.
Proof.
  apply (allowlist_isolates_stores RefUrl.api Route.aoba_oshima);
    [vm_compute; reflexivity | discriminate].
Defined.

(** X18.  Step 0.5 of the extraction handler.  For Life, on every platform
    that meets the round-trip laws of the URL Standard, every address kept
    is the full-size form of a posted address, is a leaflet on
    [image.tokubai.co.jp], a host of the allowlist of Life, and is left
    alone by a further [toTokubaiHighRes].  For Ito-Yokado the resolved
    addresses stay at the front, in order, and every address after them
    comes from [expandShufooTileUrls] of one of them.  For Aoba nothing
    changes. *)
Theorem expandInputs_by_store (U : UrlApi) (L : UrlLaws U) (P : NumberPrinter)
  (inputUrls : list jsstring) :
  (forall u, In u (ExtractUrl.expandInputs Route.life_kawasaki_oshima inputUrls) ->
     (exists v, In v inputUrls /\ u = Route.toTokubaiHighRes v)
     /\ Route.isLifeLeafletUrl u = true
     /\ Route.toTokubaiHighRes u = u
     /\ exists p, parseUrl u = Some p
                  /\ In (hostname p) (Route.ALLOWLIST Route.life_kawasaki_oshima))
  /\ (firstn (List.length inputUrls)
        (ExtractUrl.expandInputs Route.itoyokado_kawasaki inputUrls) = inputUrls
      /\ forall u,
           In u (skipn (List.length inputUrls)
                   (ExtractUrl.expandInputs Route.itoyokado_kawasaki inputUrls)) ->
           exists v l, In v inputUrls /\ Shufoo.expandShufooTileUrls v = Some l /\ In u l)
  /\ ExtractUrl.expandInputs Route.aoba_oshima inputUrls = inputUrls.
Proof.
  split; [|split].
  - intros u Hu. unfold ExtractUrl.expandInputs in Hu.
    apply filter_In in Hu. destruct Hu as [Hu Hl].
    apply in_map_iff in Hu. destruct Hu as [v [<- Hv]].
    split; [exists v; split; [exact Hv | reflexivity]|].
    split; [exact Hl|].
    split; [apply TokubaiFacts.toTokubaiHighRes_idempotent_on|].
    unfold Route.isLifeLeafletUrl in Hl.
    destruct (parseUrl (Route.toTokubaiHighRes v)) as [p|]; [|discriminate].
    exists p. split; [reflexivity|].
    apply andb_true_iff in Hl. destruct Hl as [Hh _].
    apply JsFacts.eqb_eq in Hh. rewrite Hh. simpl. tauto.
  - unfold ExtractUrl.expandInputs. split.
    + rewrite firstn_app, Nat.sub_diag, firstn_all. simpl. apply app_nil_r.
    + intros u Hu. rewrite skipn_app, Nat.sub_diag, skipn_all in Hu. simpl in Hu.
      apply in_flat_map in Hu. destruct Hu as [v [Hv Hu]].
      destruct (Shufoo.expandShufooTileUrls v) as [l|] eqn:E; [|destruct Hu].
      exists v, l. repeat split; assumption.
  - reflexivity.
Qed.

Lemma expandInputs_by_store_witness :
  @Route.isLifeLeafletUrl RefUrl.api Route.leafletOriginal = true
  /\ @Route.toTokubaiHighRes RefUrl.api Route.leafletOriginal = Route.leafletOriginal.
Proof.
  destruct (proj1 (expandInputs_by_store RefUrl.api RefUrlFacts.laws referencePrinter
                     [Route.leafletThumb])
              Route.leafletOriginal ltac:(vm_compute; left; reflexivity))
    as [_ [H1 [H2 _]]].
  split; assumption.
Defined.

(** X19.  The items of the answer.  After the dedup map and the cut of the
    ingredient mode, every item of the answer is one of the accumulated
    items, no two items of the answer have the same dedup key, and the
    ingredient mode answers with at most 30 items, the first 30 of the
    deduplicated list; the other mode answers with all of them. *)
Theorem answer_items_distinct `{CaseApi} `{NumberPrinter} (mode : Batch.extractMode)
  (allItems : list FlyerItem) :
  let items := Batch.limitItems mode (dedupItems allItems) in
  (forall it, In it items -> In it allItems)
  /\ NoDup (List.map makeDedupKey items)
  /\ List.length items <= List.length allItems
  /\ match mode with
     | Batch.Ingredients =>
         List.length items <= 30 /\ items = firstn 30 (dedupItems allItems)
     | Batch.All => items = dedupItems allItems
     end.
Proof.
  intros items.
  assert (Hsub : forall it, In it items -> In it (dedupItems allItems)).
  { intros it Hit. unfold items, Batch.limitItems in Hit.
    destruct mode; [exact Hit | apply (ListFacts.In_firstn it 30 _ Hit)]. }
  assert (Hkeys : NoDup (List.map makeDedupKey items)).
  { unfold items, Batch.limitItems. destruct mode.
    - apply DedupFacts.dedupItems_keys.
    - rewrite <- firstn_map. apply DedupFacts.NoDup_firstn. apply DedupFacts.dedupItems_keys. }
  split; [intros it Hit; apply DedupFacts.dedupItems_In; apply Hsub; exact Hit|].
  split; [exact Hkeys|]. split.
  - apply NoDup_map_inv in Hkeys.
    apply NoDup_incl_length; [exact Hkeys|].
    intros it Hit. apply DedupFacts.dedupItems_In. apply Hsub. exact Hit.
  - unfold items, Batch.limitItems. destruct mode; [reflexivity|].
    split; [apply firstn_le_length | reflexivity].
Qed.

(** X20.  Tile groups are small grids.  Every tile of a group returned by
    [pickShufooTileGroups] comes from one of the addresses, and its row and
    column are single digits, 0 or 1 when the file name carries a page.  So
    when the tiles of such a group all load, the canvas that
    [composeShufooTiles] lays out is between 1 and 10 tiles wide and high,
    counted in the size of the first tile. *)
Theorem tile_groups_are_small (U : UrlApi) (P : NumberPrinter) (W : Effects.World)
  (urls : list jsstring) (g : Shufoo.tileGroup) :
  In g (Shufoo.pickShufooTileGroups urls) ->
  (forall t, In t (Shufoo.tiles g) ->
     In (Shufoo.url t) urls
     /\ (Shufoo.row t <= 9)%N /\ (Shufoo.col t <= 9)%N
     /\ (Shufoo.page t <> None -> (Shufoo.row t <= 1)%N /\ (Shufoo.col t <= 1)%N))
  /\ (forall storeId st entries st' c first,
        ExtractUrl.loadEntries storeId (Shufoo.tiles g) st = (Route.Ok entries, st') ->
        ExtractUrl.layout entries = Some c ->
        hd_error entries = Some first ->
        exists across down,
          (1 <= across <= 10)%Z /\ (1 <= down <= 10)%Z
          /\ Effects.width c = (across * ExtractUrl.ewidth first)%Z
          /\ Effects.height c = (down * ExtractUrl.eheight first)%Z).
Proof.
  intros Hg.
  assert (Htiles : forall t, In t (Shufoo.tiles g) ->
            In (Shufoo.url t) urls
            /\ (Shufoo.row t <= 9)%N /\ (Shufoo.col t <= 9)%N
            /\ (Shufoo.page t <> None -> (Shufoo.row t <= 1)%N /\ (Shufoo.col t <= 1)%N)).
  { intros t Ht. apply ShufooFacts.pickShufooTileGroups_spec in Hg.
    destruct Hg as [_ Hg]. rewrite Hg in Ht.
    apply ShufooFacts.tilesWithKey_In in Ht. destruct Ht as [u [Hu Hp]].
    apply GridFacts.parseShufooTileUrl_bounds in Hp.
    destruct Hp as [Hurl Hb]. rewrite Hurl. split; [exact Hu | exact Hb]. }
  split; [exact Htiles|].
  intros storeId st entries st' c first Hload Hlay Hhd.
  apply ComposeFacts.loadEntries_inv in Hload. destruct Hload as [_ [Hincl _]].
  assert (Hcells : forall e, In e entries ->
            (0 <= Z.of_N (ExtractUrl.erow e) <= 9)%Z
            /\ (0 <= Z.of_N (ExtractUrl.ecol e) <= 9)%Z).
  { intros e He.
    assert (Hc : In (ExtractUrl.cell e) (List.map ExtractUrl.place (Shufoo.tiles g))).
    { apply Hincl. apply in_map. exact He. }
    apply in_map_iff in Hc. destruct Hc as [t [Ht Hin]].
    destruct (Htiles t Hin) as [_ [Hr [Hcl _]]].
    unfold ExtractUrl.cell, ExtractUrl.place in Ht. injection Ht as Er Ec.
    rewrite <- Er, <- Ec. clear - Hr Hcl. lia. }
  destruct entries as [|e0 [|e1 rest]]; try discriminate Hlay.
  simpl in Hhd. injection Hhd as <-.
  unfold ExtractUrl.layout in Hlay. injection Hlay as <-. cbn [Effects.width Effects.height].
  set (entries := e0 :: e1 :: rest) in *.
  set (rows := List.map (fun e => Z.of_N (ExtractUrl.erow e)) entries).
  set (cols := List.map (fun e => Z.of_N (ExtractUrl.ecol e)) entries).
  assert (Hr : In (Z.of_N (ExtractUrl.erow e0)) rows) by (left; reflexivity).
  assert (Hc : In (Z.of_N (ExtractUrl.ecol e0)) cols) by (left; reflexivity).
  destruct (ComposeFacts.minOf_In _ _ Hr) as [R1 R2].
  destruct (ComposeFacts.maxOf_In _ _ Hr) as [R3 R4].
  destruct (ComposeFacts.minOf_In _ _ Hc) as [C1 C2].
  destruct (ComposeFacts.maxOf_In _ _ Hc) as [C3 C4].
  assert (Hrange : forall z, In z rows \/ In z cols -> (0 <= z <= 9)%Z).
  { intros z [Hz | Hz]; apply in_map_iff in Hz; destruct Hz as [e [<- He]];
      apply (Hcells e He). }
  pose proof (Hrange _ (or_introl R1)) as B1.
  pose proof (Hrange _ (or_introl R3)) as B2.
  pose proof (Hrange _ (or_intror C1)) as B3.
  pose proof (Hrange _ (or_intror C3)) as B4.
  rewrite Forall_forall in R2, C2.
  pose proof (R2 _ R3) as B5. pose proof (C2 _ C3) as B6.
  exists (ExtractUrl.maxOf (Z.of_N (ExtractUrl.ecol e0)) cols
          - ExtractUrl.minOf (Z.of_N (ExtractUrl.ecol e0)) cols + 1)%Z,
         (ExtractUrl.maxOf (Z.of_N (ExtractUrl.erow e0)) rows
          - ExtractUrl.minOf (Z.of_N (ExtractUrl.erow e0)) rows + 1)%Z.
  split; [clear - B3 B4 B6; lia|]. split; [clear - B1 B2 B5; lia|].
  split; reflexivity.
Qed.

Lemma tile_groups_are_small_witness :
  let t := {| Shufoo.url := Shufoo.quadrant "3_800_3.jpg"; Shufoo.row := 1;
              Shufoo.col := 1; Shufoo.page := Some 3%N |} in
  (Shufoo.row t <= 1)%N /\ (Shufoo.col t <= 1)%N.
Proof.
  intros t.
  destruct (proj1 (tile_groups_are_small RefUrl.api referencePrinter Samples.quadrantWorld
                     Shufoo.fourQuadrants
                     {| Shufoo.key := Shufoo.quadrant "3_800";
                        Shufoo.tiles := Samples.quadrantTiles |}
                     ltac:(vm_compute; left; reflexivity)) t
                  ltac:(vm_compute; intuition reflexivity))
    as [_ [_ [_ H]]].
  apply H. discriminate.
Defined.

(* ================================================================== *)
(** * Reading the answer of the model *)
(* ================================================================== *)

(** X21.  [safeParseJsonFromModel] hands [JSON.parse] the piece of the
    candidate from its first opening brace to its last closing brace, and
    nothing else: the piece starts and ends with a brace.  Without an
    opening brace, or without a closing brace, it throws the error that
    quotes the first 200 units of the text.  The candidate is the text
    itself when the text holds no fence of three backticks; for a text with
    a fenced block (tagged json or untagged) whose body starts with an
    opening brace, holds no backtick and does not end in white space, the
    candidate is that body. *)
Theorem safeParseJsonFromModel_slice (J : ModelAnswer.JsonParser) (text : jsstring) :
  let candidate := ModelAnswer.candidateOf text in
  (forall pre mid post,
     candidate = pre ++ str "{" ++ mid ++ str "}" ++ post ->
     ~ In 123%N pre -> ~ In 125%N post ->
     ModelAnswer.safeParseJsonFromModel text
     = ModelAnswer.jsonParse (str "{" ++ mid ++ str "}"))
  /\ (forall v,
        ModelAnswer.safeParseJsonFromModel text = Route.Ok v ->
        exists pre mid post,
          candidate = pre ++ str "{" ++ mid ++ str "}" ++ post
          /\ ModelAnswer.jsonParse (str "{" ++ mid ++ str "}") = Route.Ok v)
  /\ (~ In 123%N candidate \/ ~ In 125%N candidate ->
      ModelAnswer.safeParseJsonFromModel text
      = Route.Throw (ModelAnswer.notFound ++ firstn 200 text))
  /\ (includes text ModelAnswer.fence = false -> candidate = text)
  /\ (forall pre tag ws1 body ws2 post,
        text = pre ++ ModelAnswer.fence ++ tag ++ ws1 ++ body ++ ws2
                   ++ ModelAnswer.fence ++ post ->
        ~ In 96%N pre ->
        tag = [] \/ tag = str "json" \/ tag = str "JSON" ->
        forallb isSpace ws1 = true -> forallb isSpace ws2 = true ->
        ~ In 96%N body -> hd_error body = Some 123%N ->
        isSpace (last body 0%N) = false ->
        candidate = body).
Proof.
  intros candidate.
  assert (Hslice : forall pre mid post,
            candidate = pre ++ 123%N :: mid ++ 125%N :: post ->
            ~ In 123%N pre -> ~ In 125%N post ->
            ModelAnswer.safeParseJsonFromModel text
            = ModelAnswer.jsonParse (123%N :: mid ++ [125%N])).
  { intros pre mid post E Hpre Hpost.
    unfold ModelAnswer.safeParseJsonFromModel. fold candidate. cbv zeta. rewrite E.
    rewrite (AnswerFacts.indexOf_app 123 pre _ Hpre).
    replace (pre ++ 123%N :: mid ++ 125%N :: post)
      with ((pre ++ 123%N :: mid) ++ 125%N :: post)
      by (rewrite <- app_assoc; reflexivity).
    rewrite (AnswerFacts.lastIndexOf_app 125 _ post Hpost).
    rewrite length_app. cbn [List.length].
    destruct (Nat.leb_spec (List.length pre + Datatypes.S (List.length mid))
                           (List.length pre)) as [Hle | _]; [lia|].
    rewrite <- app_assoc. cbn [app].
    replace (List.length pre + Datatypes.S (List.length mid) + 1 - List.length pre)
      with (List.length pre + 1 + List.length mid + 1 - List.length pre) by lia.
    rewrite AnswerFacts.slice_braces. reflexivity. }
  split; [exact Hslice|]. split; [|split; [|split]].
  - intros v Hv.
    unfold ModelAnswer.safeParseJsonFromModel in Hv. fold candidate in Hv. cbv zeta in Hv.
    destruct (ModelAnswer.indexOf 123 candidate) as [i|] eqn:Ei; [|discriminate].
    destruct (ModelAnswer.lastIndexOf 125 candidate) as [j|] eqn:Ej; [|discriminate].
    destruct (Nat.leb_spec j i) as [_ | Hlt]; [discriminate|].
    destruct (AnswerFacts.braces_split candidate i j Ei Ej Hlt)
      as [pre [mid [post [E [Hpre [Hpost _]]]]]].
    exists pre, mid, post. split; [exact E|].
    change (str "{" ++ mid ++ str "}") with (123%N :: mid ++ [125%N]).
    rewrite <- (Hslice pre mid post E Hpre Hpost).
    unfold ModelAnswer.safeParseJsonFromModel. fold candidate. cbv zeta.
    rewrite Ei, Ej. destruct (Nat.leb_spec j i) as [Hle | _]; [lia|]. exact Hv.
  - intros Hno. unfold ModelAnswer.safeParseJsonFromModel. fold candidate. cbv zeta.
    destruct Hno as [Hno | Hno].
    + apply AnswerFacts.indexOf_None in Hno. rewrite Hno. reflexivity.
    + apply AnswerFacts.lastIndexOf_None in Hno. rewrite Hno.
      destruct (ModelAnswer.indexOf 123 candidate); reflexivity.
  - intros Hno. unfold candidate, ModelAnswer.candidateOf.
    rewrite (AnswerFacts.fencedCapture_none text Hno). reflexivity.
  - intros pre tag ws1 body ws2 post -> Hpre Htag H1 H2 Hb Hhd Hl.
    unfold candidate, ModelAnswer.candidateOf.
    rewrite (AnswerFacts.fencedCapture_complete tag ws1 body ws2 post
               Htag H1 H2 Hb Hhd Hl pre Hpre).
    reflexivity.
Qed.

Lemma safeParseJsonFromModel_slice_witness :
  ModelAnswer.candidateOf ModelAnswer.fencedAnswer
  = str "{ " ++ [34%N] ++ str "items" ++ [34%N] ++ str ": [] }".
Proof.
  apply (proj2 (proj2 (proj2 (proj2
           (safeParseJsonFromModel_slice
              {| ModelAnswer.jsonParse := fun _ => Route.Throw [] |}
              ModelAnswer.fencedAnswer))))
           (str "Here you are:" ++ [10%N]) (str "json") [10%N]
           (str "{ " ++ [34%N] ++ str "items" ++ [34%N] ++ str ": [] }")
           [10%N] [10%N]);
    try reflexivity;
    try (vm_compute; intuition discriminate).
Defined.

(* ================================================================== *)
(** * The candidates of [flyerDiscover.ts] *)
(* ================================================================== *)

(** X22.  [discoverFlyerCandidates] sends no request for Aoba and exactly
    one for the other stores, a plain GET of the fixed home page of the
    store: no address read from markup is ever fetched.  It throws only
    when that one request fails or is answered without [ok].  When it
    returns, the candidates have pairwise different addresses; for Aoba
    they are the two fixed images; for Ito-Yokado there is at most one, a
    page whose address holds the Shufoo iframe path, and none exactly when
    the warning for a missing flyer page is given; for Life each is a PDF
    or an image by the extension of its address, and none exactly when the
    warning for a dynamic page is given. *)
Theorem discoverFlyerCandidates_home_only (U : UrlApi) (W : Effects.World)
  (s : Route.StoreId) (st : Effects.state) :
  let home := {| Effects.verb := Effects.GET; Effects.target := DiscoverLib.STORE_HOME s;
                 Effects.referer := None |} in
  let out := DiscoverLib.discoverFlyerCandidates s st in
  Effects.warnings (snd out) = Effects.warnings st
  /\ Effects.fetched (snd out)
     = Effects.fetched st ++ match s with Route.aoba_oshima => [] | _ => [home] end
  /\ (forall e, fst out = Route.Throw e ->
        s <> Route.aoba_oshima
        /\ match Effects.fetch (List.length (Effects.fetched st)) home with
           | Route.Throw e' => e = e'
           | Route.Ok res => Effects.ok res = false
           end)
  /\ (forall r, fst out = Route.Ok r ->
        DiscoverLib.storeId r = s
        /\ NoDup (List.map DiscoverLib.url (DiscoverLib.candidates r))
        /\ match s with
           | Route.aoba_oshima =>
               List.map DiscoverLib.url (DiscoverLib.candidates r)
               = [str "https://www.bicrise.com/flyer/ooshima-01.jpg";
                  str "https://www.bicrise.com/flyer/ooshima-02.jpg"]
               /\ DiscoverLib.warnings r = []
           | Route.itoyokado_kawasaki =>
               List.length (DiscoverLib.candidates r) <= 1
               /\ Forall (fun c => DiscoverLib.kind c = DiscoverLib.page
                                   /\ DiscoverLib.isShufooLink (DiscoverLib.url c) = true)
                    (DiscoverLib.candidates r)
               /\ (DiscoverLib.candidates r = []
                   <-> DiscoverLib.warnings r = [DiscoverLib.noFlyerPage])
           | Route.life_kawasaki_oshima =>
               Forall (fun c =>
                         (DiscoverLib.kind c = DiscoverLib.pdf
                          /\ DiscoverLib.isPdfLink (DiscoverLib.url c) = true)
                         \/ (DiscoverLib.kind c = DiscoverLib.image
                             /\ DiscoverLib.isImageLink (DiscoverLib.url c) = true))
                 (DiscoverLib.candidates r)
               /\ (DiscoverLib.candidates r = []
                   <-> DiscoverLib.warnings r = [DiscoverLib.lifeDynamic])
           end).
Proof.
  intros home out. unfold out, home, DiscoverLib.discoverFlyerCandidates.
  destruct s.
  - (* Aoba *)
    unfold Effects.ret. cbn [fst snd]. rewrite app_nil_r.
    split; [reflexivity|]. split; [reflexivity|]. split; [discriminate|].
    intros r H. injection H as <-. cbn [DiscoverLib.storeId DiscoverLib.candidates
                                          DiscoverLib.warnings].
    split; [reflexivity|]. split; [apply DiscoverLibFacts.uniqByUrlFrom_NoDup|].
    split; reflexivity.
  - (* Life *)
    cbv zeta. unfold Effects.bind. rewrite DiscoverLibFacts.fetchHtml_spec.
    destruct (Effects.fetch _ _) as [res | e0].
    + destruct (Effects.ok res) eqn:Eok; cbn [negb].
      * unfold Effects.ret. cbn [fst snd Effects.fetched Effects.warnings].
        split; [reflexivity|]. split; [reflexivity|]. split; [discriminate|].
        intros r H. injection H as <-.
        cbn [DiscoverLib.storeId DiscoverLib.candidates DiscoverLib.warnings].
        split; [reflexivity|]. split; [apply DiscoverLibFacts.uniqByUrlFrom_NoDup|].
        split.
        -- apply Forall_forall. intros c Hc.
           apply DiscoverLibFacts.uniqByUrlFrom_In in Hc. destruct Hc as [Hc _].
           apply DiscoverLibFacts.lifeCandidates_kinds in Hc.
           destruct Hc as [_ [_ [Hk | [Hk [Hi _]]]]]; [left; exact Hk | right; split; assumption].
        -- destruct (DiscoverLib.lifeCandidates _) as [|c found].
           ++ split; reflexivity.
           ++ split; discriminate.
      * cbn [fst snd Effects.fetched Effects.warnings].
        split; [reflexivity|]. split; [reflexivity|].
        split; [intros e _; split; [discriminate | reflexivity] | discriminate].
    + cbn [fst snd Effects.fetched Effects.warnings].
      split; [reflexivity|]. split; [reflexivity|].
      split; [|discriminate].
      intros e H. injection H as <-. split; [discriminate | reflexivity].
  - (* Ito-Yokado *)
    cbv zeta. unfold Effects.bind. rewrite DiscoverLibFacts.fetchHtml_spec.
    destruct (Effects.fetch _ _) as [res | e0].
    + destruct (Effects.ok res) eqn:Eok; cbn [negb].
      * set (links := filter DiscoverLib.isShufooLink _).
        assert (Hlinks : forall p, In p links -> DiscoverLib.isShufooLink p = true).
        { intros p Hp. apply filter_In in Hp. apply Hp. }
        assert (Hpick : forall p,
                  match find DiscoverLib.isDetailLink links with
                  | Some d => Some d
                  | None => find DiscoverLib.isListLink links
                  end = Some p -> DiscoverLib.isShufooLink p = true).
        { intros p Hp. apply Hlinks.
          destruct (find DiscoverLib.isDetailLink links) as [d|] eqn:Ed.
          - injection Hp as <-. apply (find_some _ _ Ed).
          - apply (find_some _ _ Hp). }
        destruct (match find DiscoverLib.isDetailLink links with
                  | Some d => Some d
                  | None => find DiscoverLib.isListLink links
                  end) as [picked|] eqn:Ep.
        -- unfold Effects.ret. cbn [fst snd Effects.fetched Effects.warnings].
           split; [reflexivity|]. split; [reflexivity|]. split; [discriminate|].
           intros r H. injection H as <-.
           cbn [DiscoverLib.storeId DiscoverLib.candidates DiscoverLib.warnings].
           split; [reflexivity|]. split; [apply DiscoverLibFacts.uniqByUrlFrom_NoDup|].
           change (DiscoverLib.uniqByUrl
                     [{| DiscoverLib.kind := DiscoverLib.page; DiscoverLib.url := picked;
                         DiscoverLib.title := DiscoverLib.shufooPageTitle;
                         DiscoverLib.source := DiscoverLib.scrape |}])
             with [{| DiscoverLib.kind := DiscoverLib.page; DiscoverLib.url := picked;
                      DiscoverLib.title := DiscoverLib.shufooPageTitle;
                      DiscoverLib.source := DiscoverLib.scrape |}].
           split; [simpl; lia|]. split.
           ++ constructor; [|constructor]. split; [reflexivity|]. apply Hpick. reflexivity.
           ++ split; [discriminate|]. intros H. exfalso.
              injection H as H _. vm_compute in H. discriminate H.
        -- unfold Effects.ret. cbn [fst snd Effects.fetched Effects.warnings].
           split; [reflexivity|]. split; [reflexivity|]. split; [discriminate|].
           intros r H. injection H as <-.
           cbn [DiscoverLib.storeId DiscoverLib.candidates DiscoverLib.warnings].
           split; [reflexivity|]. split; [constructor|].
           split; [simpl; lia|]. split; [constructor|]. split; reflexivity.
      * cbn [fst snd Effects.fetched Effects.warnings].
        split; [reflexivity|]. split; [reflexivity|].
        split; [intros e _; split; [discriminate | reflexivity] | discriminate].
    + cbn [fst snd Effects.fetched Effects.warnings].
      split; [reflexivity|]. split; [reflexivity|].
      split; [|discriminate].
      intros e H. injection H as <-. split; [discriminate | reflexivity].
Qed.

Lemma discoverFlyerCandidates_home_only_witness :
  exists r,
    fst (@DiscoverLib.discoverFlyerCandidates RefUrl.api
           (Samples.world (fun _ _ => Route.Ok (Samples.answer
                                                  (Samples.Text DiscoverLib.shufooStorePage))))
           Route.itoyokado_kawasaki Effects.start) = Route.Ok r
    /\ List.length (DiscoverLib.candidates r) <= 1.
Proof.
  eexists. split; [vm_compute; reflexivity|].
  apply (proj2 (proj2 (proj2 (discoverFlyerCandidates_home_only RefUrl.api
           (Samples.world (fun _ _ => Route.Ok (Samples.answer
                                                  (Samples.Text DiscoverLib.shufooStorePage))))
           Route.itoyokado_kawasaki Effects.start))) _ ltac:(vm_compute; reflexivity)).
Defined.

(** X23.  Every link that [extractHrefs] returns is a piece of the markup
    that stands between two quotes, is not empty and holds no quote; and
    on every platform [toAbs] turns a link that resolves against the base
    into its serialised address and keeps any other link as it is. *)
Theorem extractHrefs_quoted (html : jsstring) :
  (forall h, In h (Discover.extractHrefs html) ->
     h <> [] /\ forallb (fun c => negb (Discover.isQuote c)) h = true
     /\ exists before q1 q2 after,
          html = before ++ q1 :: h ++ q2 :: after
          /\ Discover.isQuote q1 = true /\ Discover.isQuote q2 = true)
  /\ (forall (U : UrlApi) base,
        List.length (Discover.hrefsOf base html) = List.length (Discover.extractHrefs html)
        /\ forall x, In x (Discover.hrefsOf base html) ->
             exists h, In h (Discover.extractHrefs html)
                       /\ match resolveUrl h base with
                          | Some u => x = href u
                          | None => x = h
                          end).
Proof.
  split.
  - intros h Hh. unfold Discover.extractHrefs in Hh.
    apply HrefFacts.hrefMatches_In in Hh. destruct Hh as [b [a [len [-> Ha]]]].
    apply HrefFacts.hrefAt_Some in Ha.
    destruct Ha as [Hne [Hq [before [q1 [q2 [after [-> [H1 H2]]]]]]]].
    split; [exact Hne|]. split; [exact Hq|].
    exists (b ++ before), q1, q2, after. rewrite <- app_assoc. repeat split; assumption.
  - intros U base. unfold Discover.hrefsOf. split; [apply length_map|].
    intros x Hx. apply in_map_iff in Hx. destruct Hx as [h [<- Hh]].
    exists h. split; [exact Hh|]. unfold Discover.toAbs.
    destruct (resolveUrl h base); reflexivity.
Qed.

Lemma extractHrefs_quoted_witness :
  str "http://exa mple.com/x.pdf" <> []
  /\ forallb (fun c => negb (Discover.isQuote c)) (str "http://exa mple.com/x.pdf") = true.
Proof.
  destruct (proj1 (extractHrefs_quoted Discover.brokenLinkPage)
              (str "http://exa mple.com/x.pdf") ltac:(vm_compute; left; reflexivity))
    as [H1 [H2 _]].
  split; assumption.
Defined.

(* ================================================================== *)
(** * The candidates of the discover route *)
(* ================================================================== *)

(** X24.  [classifyCandidate] keeps the address and marks the candidate as
    scraped.  It answers with a PDF or an image exactly for the addresses
    that [isImageOrPdf] accepts, with a PDF exactly when the address in
    lower case ends in [.pdf]; and it answers nothing exactly when the
    address has none of the five extensions and none of the words shufoo,
    chirashi and asp_iframe. *)
Theorem classifyCandidate_kinds (C : CaseApi) (url0 : jsstring) :
  (forall c, DiscoverRoute.classifyCandidate url0 = Some c ->
     DiscoverRoute.url c = url0
     /\ DiscoverRoute.source c = DiscoverLib.scrape
     /\ (DiscoverRoute.kind c = DiscoverLib.pdf
         <-> endsWith (toLowerCase url0) (str ".pdf") = true))
  /\ (DiscoverRoute.isImageOrPdf url0 = true
      <-> exists c, DiscoverRoute.classifyCandidate url0 = Some c
                    /\ DiscoverRoute.kind c <> DiscoverLib.page)
  /\ (DiscoverRoute.classifyCandidate url0 = None
      <-> DiscoverRoute.isImageOrPdf url0 = false
          /\ includes (toLowerCase url0) (str "shufoo") = false
          /\ includes (toLowerCase url0) (str "chirashi") = false
          /\ includes (toLowerCase url0) (str "asp_iframe") = false).
Proof.
  unfold DiscoverRoute.classifyCandidate, DiscoverRoute.isImageOrPdf. cbv zeta.
  set (s := toLowerCase url0).
  destruct (endsWith s (str ".pdf")) eqn:Epdf; cbn [orb].
  - split; [|split].
    + intros c H. injection H as <-. simpl. repeat split; reflexivity.
    + split; [|reflexivity]. intros _. eexists. split; [reflexivity | discriminate].
    + split; [discriminate | intros [H _]; discriminate H].
  - destruct (endsWith s (str ".jpg") || endsWith s (str ".jpeg")
              || endsWith s (str ".png") || endsWith s (str ".webp")) eqn:Eimg.
    + split; [|split].
      * intros c H. injection H as <-. simpl.
        repeat split; try reflexivity; discriminate.
      * split; [|reflexivity]. intros _. eexists. split; [reflexivity | discriminate].
      * split; [discriminate | intros [H _]; discriminate H].
    + destruct (includes s (str "shufoo") || includes s (str "chirashi")
                || includes s (str "asp_iframe")) eqn:Eword.
      * split; [|split].
        -- intros c H. injection H as <-. simpl.
           repeat split; try reflexivity; discriminate.
        -- split; [discriminate|]. intros [c [H Hk]]. injection H as <-.
           exfalso. apply Hk. reflexivity.
        -- split; [discriminate|]. intros [_ [H1 [H2 H3]]].
           rewrite H1, H2, H3 in Eword. discriminate Eword.
      * split; [|split].
        -- discriminate.
        -- split; [discriminate | intros [c [H _]]; discriminate H].
        -- split; [|reflexivity]. intros _. split; [reflexivity|].
           apply orb_false_iff in Eword. destruct Eword as [Eword H3].
           apply orb_false_iff in Eword. destruct Eword as [H1 H2].
           repeat split; assumption.
Qed.

Lemma classifyCandidate_kinds_witness :
  exists c, @DiscoverRoute.classifyCandidate referenceCase
              (str "https://www.bicrise.com/flyer/A.PDF") = Some c
            /\ DiscoverRoute.kind c <> DiscoverLib.page.
Proof.
  apply (proj1 (proj1 (proj2 (classifyCandidate_kinds referenceCase
                                (str "https://www.bicrise.com/flyer/A.PDF"))))).
  vm_compute. reflexivity.
Defined.

(** X25.  [uniqByUrl] of the discover route keys the candidates by their
    address with the escaped ampersand decoded.  The result has one
    candidate per key, in the order in which the keys first occur; each
    carries its key as address and the kind, title and source of the last
    candidate with that key; and the key of every candidate given is the
    address of one in the result. *)
Theorem uniqByUrl_last_wins (cands : list DiscoverRoute.Candidate) :
  List.map DiscoverRoute.url (DiscoverRoute.uniqByUrl cands)
  = Route.uniq (List.map DiscoverRoute.keyOf cands)
  /\ NoDup (List.map DiscoverRoute.url (DiscoverRoute.uniqByUrl cands))
  /\ (forall c, In c (DiscoverRoute.uniqByUrl cands) ->
        exists c0,
          find (fun x => Js.eqb (DiscoverRoute.keyOf x) (DiscoverRoute.url c)) (rev cands)
          = Some c0
          /\ c = DiscoverRoute.rekeyed c0)
  /\ (forall c0, In c0 cands ->
        In (DiscoverRoute.keyOf c0)
           (List.map DiscoverRoute.url (DiscoverRoute.uniqByUrl cands))).
Proof.
  assert (Hurls : List.map DiscoverRoute.url (DiscoverRoute.uniqByUrl cands)
                  = Route.uniq (List.map DiscoverRoute.keyOf cands)).
  { rewrite DiscoverRouteFacts.uniqByUrl_urls. apply DiscoverRouteFacts.byUrl_keys. }
  split; [exact Hurls|]. split; [|split].
  - rewrite Hurls. apply RouteFacts.uniqFrom_NoDup.
  - intros c Hc. unfold DiscoverRoute.uniqByUrl, JsMap.values in Hc.
    apply in_map_iff in Hc. destruct Hc as [[k c'] [E Hin]]. simpl in E. subst c'.
    destruct (DiscoverRouteFacts.byUrl_entry cands k c Hin) as [Hk H]. rewrite Hk. exact H.
  - intros c0 Hc0. rewrite Hurls. unfold Route.uniq.
    apply RouteFacts.uniqFrom_In. split; [|intros []].
    apply in_map. exact Hc0.
Qed.

Lemma uniqByUrl_last_wins_witness :
  let first := {| DiscoverRoute.kind := DiscoverLib.page; DiscoverRoute.url := str "a";
                  DiscoverRoute.title := str "first";
                  DiscoverRoute.source := DiscoverLib.scrape |} in
  let last := {| DiscoverRoute.kind := DiscoverLib.image; DiscoverRoute.url := str "a";
                 DiscoverRoute.title := str "last";
                 DiscoverRoute.source := DiscoverLib.scrape |} in
  In (DiscoverRoute.keyOf first)
     (List.map DiscoverRoute.url (DiscoverRoute.uniqByUrl [first; last]))
  /\ DiscoverRoute.uniqByUrl [first; last] = [last].
Proof.
  intros first last. split; [|vm_compute; reflexivity].
  apply (proj2 (proj2 (proj2 (uniqByUrl_last_wins [first; last])))).
  left. reflexivity.
Defined.

(** X26.  [tryResolveMainImageFromShufooPage] never throws.  It sends
    exactly one request, a plain GET of the page, and leaves the warnings
    of the handler alone.  It answers with at most one warning of its own;
    without an image address there is exactly one; an image address that
    it returns ends in an image extension and names shufoo.net, and the
    warning beside it, if any, is the one for a thumbnail, given exactly
    when the address holds the word thumb. *)
Theorem tryResolveMainImage_never_throws (U : UrlApi) (C : CaseApi) (W : Effects.World)
  (S : ExtractUrl.Scanner) (pageUrl : jsstring) (st : Effects.state) :
  exists imageUrl notes,
    DiscoverRoute.tryResolveMainImageFromShufooPage pageUrl st
    = (Route.Ok (imageUrl, notes),
       {| Effects.fetched :=
            Effects.fetched st
            ++ [{| Effects.verb := Effects.GET; Effects.target := pageUrl;
                   Effects.referer := None |}];
          Effects.warnings := Effects.warnings st |})
    /\ List.length notes <= 1
    /\ match imageUrl with
       | None => List.length notes = 1
       | Some u =>
           DiscoverRoute.isShufooImage u = true
           /\ notes = if includes (toLowerCase u) (str "thumb")
                      then [ExtractUrl.onlyThumbnails] else []
       end.
Proof.
  unfold DiscoverRoute.tryResolveMainImageFromShufooPage, Effects.tryCatch, Effects.bind.
  rewrite DiscoverRouteFacts.pageHtml_spec.
  destruct (Effects.fetch _ _) as [res | e].
  - destruct (negb (Effects.ok res)).
    + eexists None, _. unfold Effects.ret. split; [reflexivity|]. split; simpl; lia.
    + cbv zeta.
      match goal with
      | |- context [Shufoo.sortBy DiscoverRoute.byScore ?l] => set (imgUrls := l)
      end.
      destruct (Shufoo.sortBy DiscoverRoute.byScore imgUrls) as [|best rest] eqn:E.
      * eexists None, _. unfold Effects.ret. split; [reflexivity|]. split; simpl; lia.
      * eexists (Some best), _. unfold Effects.ret. split; [reflexivity|].
        split; [destruct (includes _ _); simpl; lia|].
        split; [|reflexivity].
        assert (Hin : In best imgUrls).
        { apply (ShufooFacts.sortBy_In DiscoverRoute.byScore). rewrite E. left. reflexivity. }
        unfold imgUrls in Hin. apply filter_In in Hin. apply Hin.
  - eexists None, _. unfold Effects.ret. split; [reflexivity|]. split; simpl; lia.
Qed.
